(** * rlztools: the RLZ token codec, parser and unparser

    A shallow embedding of [rlzcommon.h], [rlzcommon.cpp], [rlzparse.cpp]
    and [rlzunparse.cpp], and the properties of the codec stated over it.

    Conventions.  Machine integers are [Z] with the wrap-around written
    out ([u64], [s64], [u32], ...).  A byte is a [Z] in [0, 256).  A file
    is the list of its bytes; an [ifstream] is the bytes not yet read
    together with its [eofbit] and [failbit].  Text printed on [cerr] and
    calls to [exit] are explicit in the [outcome] of a function. *)

From Stdlib Require Import ZArith List Bool Lia String Ascii.
Import ListNotations.
Local Open Scope Z_scope.

(** ** Fixed-width integers *)

Module Ints.

Definition wrap_u (bits x : Z) : Z := x mod 2 ^ bits.

Definition wrap_s (bits x : Z) : Z :=
  (x + 2 ^ (bits - 1)) mod 2 ^ bits - 2 ^ (bits - 1).

Definition u8 := wrap_u 8.
Definition u32 := wrap_u 32.
Definition u64 := wrap_u 64.
Definition s32 := wrap_s 32.
Definition s64 := wrap_s 64.

Definition ULLONG_MAX : Z := 2 ^ 64 - 1.

(** Little-endian layout of an integer over [n] bytes, and back: what
    [reinterpret_cast] between [char*] and an integer pointer does on the
    little-endian machines the tools are written for. *)
Fixpoint le_bytes (n : nat) (x : Z) : list Z :=
  match n with
  | O => []
  | S k => x mod 256 :: le_bytes k (x / 256)
  end.

Fixpoint le_value (bs : list Z) : Z :=
  match bs with
  | [] => 0
  | b :: r => b + 256 * le_value r
  end.

End Ints.
Import Ints.

(** ** Text *)

Module Text.

Definition byte_of_ascii (a : ascii) : Z := Z.of_N (N_of_ascii a).

Fixpoint bytes_of_string (s : string) : list Z :=
  match s with
  | EmptyString => []
  | String a r => byte_of_ascii a :: bytes_of_string r
  end.

(** Decimal digits of a non-negative number, most significant first, as
    [std::to_string] prints them. *)
Fixpoint digits_rev (fuel : nat) (n : Z) : list Z :=
  match fuel with
  | O => []
  | S k => if n <? 10 then [48 + n]
           else (48 + n mod 10) :: digits_rev k (n / 10)
  end.

Definition to_string_unsigned (n : Z) : list Z := rev (digits_rev 20 n).

Definition to_string_signed (n : Z) : list Z :=
  if n <? 0 then 45 :: to_string_unsigned (- n) else to_string_unsigned n.

(** A decimal digit. *)
Definition digit (b : Z) : Prop := 48 <= b <= 57.

(** [isspace] in the C locale. *)
Definition isspace (b : Z) : bool :=
  (b =? 32) || ((9 <=? b) && (b <=? 13)).

End Text.
Import Text.

(** ** What a function can do besides returning *)

Inductive outcome (A : Type) : Type :=
| Ret (a : A)
| Exit (status : Z) (message : string)
| Uncaught (exception : string).
Arguments Ret {A} a.
Arguments Exit {A} status message.
Arguments Uncaught {A} exception.

Definition bind {A B : Type} (m : outcome A) (k : A -> outcome B) : outcome B :=
  match m with
  | Ret a => k a
  | Exit s msg => Exit s msg
  | Uncaught e => Uncaught e
  end.

Notation "x <- m ;; k" := (bind m (fun x => k))
  (at level 61, m at next level, right associativity).
Notation "' p <- m ;; k" := (bind m (fun p => k))
  (at level 61, p pattern, m at next level, right associativity).

(** ** std::ifstream *)

Module Stream.

Record ifstream : Type := mk_ifstream {
  pending : list Z;
  eofbit : bool;
  failbit : bool
}.

Definition open (file : list Z) : ifstream := mk_ifstream file false false.

Definition eof (s : ifstream) : bool := eofbit s.
Definition fail (s : ifstream) : bool := failbit s.
Definition good (s : ifstream) : bool := negb (eofbit s) && negb (failbit s).

(** [infile.get()]: the next byte, or [-1] with [eofbit] and [failbit]
    set when there is none; a stream that is not good only gains
    [failbit]. *)
Definition get (s : ifstream) : Z * ifstream :=
  if good s then
    match pending s with
    | [] => (-1, mk_ifstream [] true true)
    | b :: r => (b, mk_ifstream r false false)
    end
  else (-1, mk_ifstream (pending s) (eofbit s) true).

(** [infile.read(buf, n)]: the bytes stored into the buffer.  A short
    read stores what is left and sets [eofbit] and [failbit]. *)
Definition read (n : nat) (s : ifstream) : list Z * ifstream :=
  if good s then
    if (n <=? List.length (pending s))%nat
    then (firstn n (pending s), mk_ifstream (skipn n (pending s)) false false)
    else (pending s, mk_ifstream [] true true)
  else ([], mk_ifstream (pending s) (eofbit s) true).

Fixpoint skip_space (l : list Z) : list Z :=
  match l with
  | b :: r => if isspace b then skip_space r else l
  | [] => []
  end.

Fixpoint take_word (l : list Z) : list Z * list Z :=
  match l with
  | b :: r => if isspace b then ([], l)
              else let '(w, rest) := take_word r in (b :: w, rest)
  | [] => ([], [])
  end.

(** [infile >> str] for a [std::string] that is empty before the call:
    leading white space is skipped; running out of input there sets
    [eofbit] and [failbit] and leaves the string empty; otherwise the
    characters up to the next white space are taken, and [eofbit] is set
    when the input ends first. *)
Definition extract_word (s : ifstream) : list Z * ifstream :=
  if good s then
    match skip_space (pending s) with
    | [] => ([], mk_ifstream [] true true)
    | l => let '(w, rest) := take_word l in
           (w, mk_ifstream rest (match rest with [] => true | _ => false end) false)
    end
  else ([], mk_ifstream (pending s) (eofbit s) true).

End Stream.
Import Stream.

(** ** rlzcommon.h / rlzcommon.cpp *)

Module Common.

Record RLZToken : Type := mk_token {
  start_pos : Z;   (* uint64_t *)
  length : Z       (* int64_t *)
}.

Definition end_sentinel : RLZToken := mk_token ULLONG_MAX (-1).

Definition is_end_sentinel (token : RLZToken) : bool :=
  (start_pos token =? start_pos end_sentinel)
  && (length token =? length end_sentinel).

Inductive format : Type := FMT_32X2 | FMT_64X2 | FMT_ASCII | FMT_VBYTE.

Definition EXIT_BUG : Z := 33.
Definition EXIT_USER_ERROR : Z := 63.
Definition EXIT_INVALID_INPUT : Z := 1.

(** *** FileReader<T>

    [data_array] holds the symbols of the file.  [operator[]] does no
    bounds check: an index outside the array reads whatever the process
    has in memory there, which is what [outside] stands for.  That is
    what happens next to the array; far from it the address may not be
    mapped, and the process is killed instead of reading a value. *)
Record FileReader : Type := mk_reader {
  data_array : list Z;
  outside : Z -> Z
}.

Definition size (fr : FileReader) : Z := Z.of_nat (List.length (data_array fr)).

Definition at_index (fr : FileReader) (i : Z) : Z :=
  if (0 <=? i) && (i <? size fr)
  then nth (Z.to_nat i) (data_array fr) 0
  else outside fr i.

(** The whole symbols of a file of little-endian [w]-byte integers;
    [file_size_symbols = file_size_bytes / sizeof(T)]. *)
Fixpoint symbols_of (fuel : nat) (w : nat) (file : list Z) : list Z :=
  match fuel with
  | O => []
  | S k => if (w <=? List.length file)%nat
           then le_value (firstn w file) :: symbols_of k w (skipn w file)
           else []
  end.

Definition symbols (w : nat) (file : list Z) : list Z :=
  symbols_of (List.length file) w file.

Definition load (w : nat) (file : list Z) (mem : Z -> Z) : FileReader :=
  mk_reader (symbols w file) mem.

(** *** std::stoul and std::stol with base 0 *)

Definition digit_value (b : Z) : option Z :=
  if (48 <=? b) && (b <=? 57) then Some (b - 48)
  else if (97 <=? b) && (b <=? 122) then Some (b - 87)
  else if (65 <=? b) && (b <=? 90) then Some (b - 55)
  else None.

Definition is_digit_in (base b : Z) : bool :=
  match digit_value b with
  | Some d => d <? base
  | None => false
  end.

(** The longest run of digits of the base, as a number; [None] when
    there is no digit at all. *)
Fixpoint accumulate (base : Z) (acc : option Z) (l : list Z) : option Z :=
  match l with
  | b :: r =>
      match digit_value b with
      | Some d =>
          if d <? base
          then accumulate base (Some (base * match acc with Some a => a | None => 0 end + d)) r
          else acc
      | None => acc
      end
  | [] => acc
  end.

(** Sign and magnitude of the number a string starts with, the base
    chosen by the prefix: [0x] hexadecimal, [0] octal, decimal otherwise. *)
Definition magnitude (str : list Z) : option (bool * Z) :=
  let l := skip_space str in
  let '(neg, l) := match l with
                   | 45 :: r => (true, r)
                   | 43 :: r => (false, r)
                   | _ => (false, l)
                   end in
  let m := match l with
           | 48 :: x :: d :: r =>
               if ((x =? 120) || (x =? 88)) && is_digit_in 16 d
               then accumulate 16 None (d :: r)
               else accumulate 8 None l
           | 48 :: _ => accumulate 8 None l
           | _ => accumulate 10 None l
           end in
  match m with
  | Some v => Some (neg, v)
  | None => None
  end.

Definition stoul (str : list Z) : outcome Z :=
  match magnitude str with
  | None => Uncaught "std::invalid_argument: stoul"
  | Some (neg, v) =>
      if v >? ULLONG_MAX then Uncaught "std::out_of_range: stoul"
      else Ret (if neg then u64 (- v) else v)
  end.

Definition stol (str : list Z) : outcome Z :=
  match magnitude str with
  | None => Uncaught "std::invalid_argument: stol"
  | Some (neg, v) =>
      if neg
      then if v >? 2 ^ 63 then Uncaught "std::out_of_range: stol" else Ret (- v)
      else if v >? 2 ^ 63 - 1 then Uncaught "std::out_of_range: stol" else Ret v
  end.

(** *** RLZInputReader *)

Record RLZInputReader : Type := mk_input {
  infile : ifstream;
  mode : format
}.

Definition next_token_32x2 (s : ifstream) : RLZToken * ifstream :=
  let '(buf, s') := read 8 s in
  if fail s' then (end_sentinel, s')
  else (mk_token (le_value (firstn 4 buf)) (le_value (skipn 4 buf)), s').

Definition next_token_64x2 (s : ifstream) : RLZToken * ifstream :=
  let '(buf, s') := read 16 s in
  if fail s' then (end_sentinel, s')
  else (mk_token (le_value (firstn 8 buf)) (s64 (le_value (skipn 8 buf))), s').

Definition next_token_ascii (s : ifstream) : outcome (RLZToken * ifstream) :=
  let '(position_s, s1) := extract_word s in
  if eof s1 then Ret (end_sentinel, s1)
  else
    let '(length_s, s2) := extract_word s1 in
    position <- stoul position_s ;;
    len <- stol length_s ;;
    Ret (mk_token position len, s2).

(** One of the two [while (shiftwidth < limit)] loops of
    [next_token_vbyte].  [conv] is the type of the accumulator
    ([uint64_t pos], [int64_t len]).  The result is [None] when
    [infile.fail()] made the function return the end sentinel, and the
    accumulator and [shiftwidth] at the loop's exit otherwise.  Every
    round adds 7 to [shiftwidth], so the rounds are at most
    [limit / 7 + 1]. *)
Fixpoint vbyte_loop (rounds : nat) (limit : Z) (conv : Z -> Z)
    (s : ifstream) (acc shiftwidth : Z) : option (Z * Z) * ifstream :=
  match rounds with
  | O => (Some (acc, shiftwidth), s)
  | S k =>
      if shiftwidth <? limit then
        let '(c, s') := get s in
        if fail s' then (None, s')
        else
          let c64 := if c <? 0 then ULLONG_MAX else c in
          if negb (Z.land c64 128 =? 0)
          then vbyte_loop k limit conv s'
                 (conv (acc + u64 (Z.shiftl (Z.land c64 127) shiftwidth)))
                 (shiftwidth + 7)
          else (Some (conv (acc + u64 (Z.shiftl c64 shiftwidth)), shiftwidth), s')
      else (Some (acc, shiftwidth), s)
  end.

Definition vbyte_overflow : RLZToken := mk_token 0 (-1).

Definition next_token_vbyte (s : ifstream) : RLZToken * ifstream :=
  match vbyte_loop 11 64 u64 s 0 0 with
  | (None, s1) => (end_sentinel, s1)
  | (Some (pos, shiftwidth), s1) =>
      if shiftwidth >? 64 then (vbyte_overflow, s1)
      else
        match vbyte_loop 10 63 s64 s1 0 0 with
        | (None, s2) => (end_sentinel, s2)
        | (Some (len, shiftwidth), s2) =>
            if shiftwidth >=? 63 then (vbyte_overflow, s2)
            else (mk_token pos len, s2)
        end
  end.

Definition vbyte_error_message : string :=
  "error: vbyte decoder read a sequence that doesn't fit into 64 bits.".

Definition reading_failure_message : string :=
  "Warning: input reading failure".

(** [next_token]: the token, what was printed on [cerr] on the way, and
    the reader afterwards. *)
Definition next_token (r : RLZInputReader)
  : outcome (RLZToken * list string * RLZInputReader) :=
  if eof (infile r) || fail (infile r) then
    Ret (end_sentinel,
         if fail (infile r) then [reading_failure_message] else [],
         r)
  else
    match mode r with
    | FMT_32X2 =>
        let '(tok, s) := next_token_32x2 (infile r) in
        Ret (tok, [], mk_input s (mode r))
    | FMT_64X2 =>
        let '(tok, s) := next_token_64x2 (infile r) in
        Ret (tok, [], mk_input s (mode r))
    | FMT_ASCII =>
        '(tok, s) <- next_token_ascii (infile r) ;;
        Ret (tok, [], mk_input s (mode r))
    | FMT_VBYTE =>
        let '(tok, s) := next_token_vbyte (infile r) in
        if (start_pos tok =? 0) && (length tok =? -1)
        then Exit EXIT_INVALID_INPUT vbyte_error_message
        else Ret (tok, [], mk_input s (mode r))
    end.

Definition keep_going (r : RLZInputReader) : bool :=
  negb (eof (infile r) || fail (infile r)).

End Common.
Import Common.

(** ** rlzparse.cpp *)

Module Parse.

Definition unsign (i : Z) : Z := if i <? 0 then 0 else i.

(** One of the two [while (n > 0)] loops of the vbyte case of
    [output_token]: the bytes put into [bytebuf]. *)
Fixpoint vbyte_put (rounds : nat) (n : Z) : list Z :=
  match rounds with
  | O => []
  | S k =>
      if n >? 0 then
        (if n <=? 127 then n else Z.lor (Z.land n 127) 128)
          :: vbyte_put k (Z.shiftr n 7)
      else []
  end.

(** A field of a vbyte token; ten rounds are what [bytebuf] has room
    for, per field. *)
Definition vbyte_field (n : Z) : list Z :=
  (if n =? 0 then [0] else []) ++ vbyte_put 10 n.

(** [output_token]: the value returned (0 when the end token was seen,
    the number of symbols the token stands for otherwise) and the bytes
    put on [out]; [*bytes_output] grows by their number. *)
Definition output_token (token : RLZToken) (output_mode : format) : Z * list Z :=
  if is_end_sentinel token then (0, [])
  else
    let length_copy := length token in
    let bytes :=
      match output_mode with
      | FMT_32X2 =>
          le_bytes 4 (u32 (start_pos token)) ++ le_bytes 4 (u32 (length token))
      | FMT_64X2 =>
          le_bytes 8 (u64 (start_pos token)) ++ le_bytes 8 (u64 (length token))
      | FMT_ASCII =>
          to_string_unsigned (start_pos token) ++ [32]
            ++ to_string_signed (length token) ++ [10]
      | FMT_VBYTE =>
          vbyte_field (start_pos token) ++ vbyte_field (length token)
      end in
    (if length_copy >? 0 then length_copy else 1, bytes).

Section Parser.

(** [sizeof(T)] in bytes and the width of [S] in bits. *)
Variable sizeof_T : nat.
Variable bits_S : Z.

Record Parser : Type := mk_parser {
  dict : FileReader;
  sa : FileReader;
  unget_buffer : Z;
  has_unget : bool;
  source_file : ifstream;
  source_file_size_symbols : Z;
  read_counter : Z
}.

Definition dict_size (p : Parser) : Z := size (dict p).
Definition sa_size (p : Parser) : Z := size (sa p).

Definition make_parser (input_file dict_file sa_file : list Z)
    (dict_mem sa_mem : Z -> Z) : Parser :=
  mk_parser (load sizeof_T dict_file dict_mem)
            (load (Z.to_nat (bits_S / 8)) sa_file sa_mem)
            0 false (open input_file)
            (Z.of_nat (List.length input_file) / Z.of_nat sizeof_T) 0.

Definition getnext (p : Parser) : Z * Parser :=
  if has_unget p then
    (unget_buffer p,
     mk_parser (dict p) (sa p) (unget_buffer p) false (source_file p)
               (source_file_size_symbols p) (read_counter p + 1))
  else
    let '(buf, s) := read sizeof_T (source_file p) in
    (le_value buf,
     mk_parser (dict p) (sa p) (unget_buffer p) (has_unget p) s
               (source_file_size_symbols p) (read_counter p + 1)).

Definition end_of_input (p : Parser) : bool :=
  eof (source_file p) && negb (has_unget p).

Definition unget (sym : Z) (p : Parser) : Parser :=
  mk_parser (dict p) (sa p) sym true (source_file p)
            (source_file_size_symbols p) (read_counter p - 1).

(** [sa[m] + offset] with [offset] an [int]: computed in [S]. *)
Definition sa_plus (p : Parser) (m offset : Z) : Z :=
  wrap_u bits_S (at_index (sa p) m + offset).

(** [dict[sa[m] + offset]]: the sum converted to the [long long] index. *)
Definition dict_at_sa (p : Parser) (m offset : Z) : Z :=
  at_index (dict p) (s64 (sa_plus p m offset)).

Fixpoint search_left_loop (rounds : nat) (p : Parser)
    (text_symbol offset old_left_bound left right : Z) : Z :=
  match rounds with
  | O => - (left + 1)
  | S k =>
      if left <=? right then
        let mid := Z.quot (left + right) 2 in
        if sa_plus p mid offset >=? unsign (dict_size p) then
          search_left_loop k p text_symbol offset old_left_bound (mid + 1) right
        else
          let mid_symbol := dict_at_sa p mid offset in
          if mid_symbol <? text_symbol then
            search_left_loop k p text_symbol offset old_left_bound (mid + 1) right
          else if mid_symbol >? text_symbol then
            search_left_loop k p text_symbol offset old_left_bound left (mid - 1)
          else if mid =? old_left_bound then mid
          else if sa_plus p (mid - 1) offset >=? unsign (dict_size p) then mid
          else
            let mid_minus_one := dict_at_sa p (mid - 1) offset in
            if mid_minus_one =? mid_symbol then
              search_left_loop k p text_symbol offset old_left_bound left (mid - 1)
            else mid
      else - (left + 1)
  end.

Fixpoint search_right_loop (rounds : nat) (p : Parser)
    (text_symbol offset old_right_bound left right : Z) : Z :=
  match rounds with
  | O => - (right - 1)
  | S k =>
      if left <=? right then
        let mid := Z.quot (left + right) 2 in
        if sa_plus p mid offset >=? unsign (dict_size p) then
          search_right_loop k p text_symbol offset old_right_bound (mid + 1) right
        else
          let mid_symbol := dict_at_sa p mid offset in
          if mid_symbol <? text_symbol then
            search_right_loop k p text_symbol offset old_right_bound (mid + 1) right
          else if mid_symbol >? text_symbol then
            search_right_loop k p text_symbol offset old_right_bound left (mid - 1)
          else if mid =? old_right_bound then mid
          else if sa_plus p (mid + 1) offset >=? unsign (dict_size p) then mid
          else
            let mid_plus_one := dict_at_sa p (mid + 1) offset in
            if mid_plus_one =? mid_symbol then
              search_right_loop k p text_symbol offset old_right_bound (mid + 1) right
            else mid
      else - (right - 1)
  end.

(** The loops end when [left > right]; every round makes
    [right - left] smaller, so [right - left + 2] rounds are never used
    up (lemmas [search_left_rounds] and [search_right_rounds]).  The
    [offset] parameter is an [int]. *)
Definition rounds_for (left right : Z) : nat := Z.to_nat (right - left + 2).

Definition search_left (p : Parser)
    (text_symbol offset old_left_bound right_bound : Z) : Z :=
  search_left_loop (rounds_for old_left_bound right_bound) p text_symbol
    (s32 offset) old_left_bound old_left_bound right_bound.

Definition search_right (p : Parser)
    (text_symbol offset left_bound old_right_bound : Z) : Z :=
  search_right_loop (rounds_for left_bound old_right_bound) p text_symbol
    (s32 offset) old_right_bound left_bound old_right_bound.

Definition failed_search_message : string :=
  "Error: failed binary search. Check your flags and your suffix array input;".

Definition outside_loop_message : string :=
  "Error (bug): outside token-finding loop".

(** The inner loop of the [leftmost == rightmost] block of [next_token],
    and the token built after it. *)
Fixpoint single_match_loop (rounds : nat) (p : Parser)
    (leftmost token_start_pos c offset : Z) : RLZToken * Parser :=
  match rounds with
  | O => (mk_token (at_index (sa p) leftmost) offset, p)
  | S k =>
      if read_counter p <=? source_file_size_symbols p then
        let dict_sym_here := at_index (dict p) (s64 (token_start_pos + offset)) in
        if negb (c =? dict_sym_here) then
          (mk_token token_start_pos offset, unget c p)
        else
          let '(c', p') := getnext p in
          single_match_loop k p' leftmost token_start_pos c' (offset + 1)
      else (mk_token (at_index (sa p) leftmost) offset, p)
  end.

(** What follows the outer [while] of [next_token]. *)
Definition after_loop (p : Parser) : outcome (RLZToken * Parser) :=
  if end_of_input p then Ret (end_sentinel, p)
  else Exit EXIT_BUG outside_loop_message.

(** Every round of either loop reads one symbol, so
    [source_file_size_symbols - read_counter + 2] rounds are never used
    up. *)
Definition rounds_left (p : Parser) : nat :=
  Z.to_nat (source_file_size_symbols p - read_counter p + 2).

Fixpoint token_loop (rounds : nat) (p : Parser)
    (c offset leftmost rightmost best_pos best_len : Z)
    (matching_suffix_found : bool) : outcome (RLZToken * Parser) :=
  match rounds with
  | O => after_loop p
  | S k =>
      if read_counter p <=? source_file_size_symbols p then
        if end_of_input p then Ret (end_sentinel, p)
        else
          let leftmost := search_left p c offset leftmost rightmost in
          if leftmost <? 0 then
            if matching_suffix_found then
              Ret (mk_token (unsign (s64 (at_index (sa p) best_pos))) best_len,
                   unget c p)
            else Ret (mk_token (u64 c) 0, p)
          else
            let rightmost := search_right p c offset leftmost rightmost in
            if rightmost <? 0 then Exit EXIT_BUG failed_search_message
            else
              let best_len := offset + 1 in
              let best_pos := leftmost in
              if leftmost =? rightmost then
                Ret (single_match_loop (rounds_left p) p leftmost
                       (at_index (sa p) leftmost) c offset)
              else
                let offset := offset + 1 in
                let '(c, p) := getnext p in
                if end_of_input p then
                  Ret (mk_token (at_index (sa p) leftmost) offset, p)
                else
                  token_loop k p c offset leftmost rightmost best_pos best_len true
      else after_loop p
  end.

Definition next_token (p : Parser) : outcome (RLZToken * Parser) :=
  let '(c, p) := getnext p in
  token_loop (rounds_left p) p c 0 0 (sa_size p - 1) 0 0 false.

(** [work]: tokens are taken and written until [output_token] returns 0.
    The result is the bytes written to the output file and the tokens
    they encode.  Every token but the last stands for at least one
    symbol read. *)
Fixpoint work_loop (rounds : nat) (p : Parser) (output_mode : format)
    (out : list Z) (tokens : list RLZToken)
  : outcome (list Z * list RLZToken * Parser) :=
  match rounds with
  | O => Ret (out, tokens, p)
  | S k =>
      '(token, p) <- next_token p ;;
      let '(keep_going, bytes) := output_token token output_mode in
      if keep_going >? 0
      then work_loop k p output_mode (out ++ bytes) (tokens ++ [token])
      else Ret (out ++ bytes, tokens, p)
  end.

Definition work (p : Parser) (output_mode : format)
  : outcome (list Z * list RLZToken * Parser) :=
  work_loop (Z.to_nat (source_file_size_symbols p + 2)) p output_mode [] [].

End Parser.

End Parse.

(** ** rlzunparse.cpp *)

Module Unparse.

Section OutputWriter.

(** [sizeof(T)] in bytes. *)
Variable sizeof_T : nat.

(** The writer: the dictionary, the bytes put on [outfile] so far and
    the warnings printed on [cerr] so far. *)
Record OutputWriter : Type := mk_writer {
  dict : FileReader;
  outfile : list Z;
  cerr : list string
}.

Definition dict_size (w : OutputWriter) : Z := size (dict w).

Definition truncating_message : string :=
  "Warning: token exceeds dictionary length, truncating.".

(** [outbuf[0] = sym] followed by [sizeof(T)] calls of [outfile.put]. *)
Definition put_symbol (sym : Z) : list Z :=
  le_bytes sizeof_T (wrap_u (8 * Z.of_nat sizeof_T) sym).

(** The symbols [dict[x]] for [x] from [first] up to, not including,
    [token_end]. *)
Definition dict_range (d : FileReader) (first token_end : Z) : list Z :=
  map (fun k => at_index d (first + Z.of_nat k))
      (seq 0 (Z.to_nat (token_end - first))).

Definition write_next (w : OutputWriter) (token : RLZToken) (start stop : Z)
  : Z * OutputWriter :=
  let pos := s64 (start_pos token) in
  let len := length token in
  if len =? 0 then
    (1, mk_writer (dict w) (outfile w ++ put_symbol pos) (cerr w))
  else
    let stop := if stop <=? 0 then len else stop in
    let token_end := s64 (pos + stop) in
    let exceeds := token_end >? dict_size w in
    let token_end := if exceeds then dict_size w else token_end in
    (length token,
     mk_writer (dict w)
       (outfile w
        ++ flat_map put_symbol (dict_range (dict w) (s64 (pos + start)) token_end))
       (cerr w ++ if exceeds then [truncating_message] else [])).

(** The state of the loop of [unparse]. *)
Record progress : Type := mk_progress {
  writer : OutputWriter;
  reader : RLZInputReader;
  toks_read : Z;
  syms_written : Z;
  output_pos : Z
}.

(** [syms_written += this->write_next(tok, start, stop)] *)
Definition emit (st : progress) (r : RLZInputReader) (tok : RLZToken)
    (start stop : Z) (output_pos : Z) : progress :=
  let '(n, w) := write_next (writer st) tok start stop in
  mk_progress w r (toks_read st + 1) (s64 (syms_written st + n)) output_pos.

Definition skip (st : progress) (r : RLZInputReader) (output_pos : Z) : progress :=
  mk_progress (writer st) r (toks_read st + 1) (syms_written st) output_pos.

(** One visit of the body of the loop for a token that is not the end
    sentinel: [inl] when the loop goes on, [inr] on [break]. *)
Definition visit (st : progress) (r : RLZInputReader) (tok : RLZToken)
    (start_pos stop_pos : Z) : progress + progress :=
  if (start_pos =? 0) && (stop_pos =? 0) then
    inl (emit st r tok 0 0 (output_pos st))
  else
    let effective_token_length := if length tok =? 0 then 1 else length tok in
    let token_start_pos := output_pos st + 1 in
    let token_end_pos := output_pos st + effective_token_length in
    if (start_pos >? 0) && (stop_pos =? 0) then
      if token_start_pos >=? start_pos then
        inl (emit st r tok 0 0 token_end_pos)
      else if (token_start_pos <? start_pos) && (token_end_pos >=? start_pos) then
        inl (emit st r tok (start_pos - token_start_pos) (length tok) token_end_pos)
      else inl (skip st r token_end_pos)
    else if (start_pos =? 0) && (stop_pos >? 0) then
      if token_end_pos <? stop_pos then
        inl (emit st r tok 0 0 token_end_pos)
      else if (token_start_pos <=? stop_pos) && (token_end_pos >=? stop_pos) then
        inl (emit st r tok 0 (length tok + stop_pos - token_end_pos) token_end_pos)
      else inr (skip st r (output_pos st))
    else
      if (token_start_pos >? stop_pos) || (token_end_pos <? start_pos) then
        if token_start_pos >? stop_pos
        then inr (skip st r (output_pos st))
        else inl (skip st r token_end_pos)
      else if (token_start_pos >=? start_pos) && (token_end_pos <=? stop_pos) then
        inl (emit st r tok 0 0 token_end_pos)
      else if (token_start_pos <=? start_pos) && (token_end_pos <=? stop_pos) then
        inl (emit st r tok (start_pos - token_start_pos) (length tok) token_end_pos)
      else if (token_start_pos >=? start_pos) && (token_end_pos >=? stop_pos) then
        inl (emit st r tok 0 (length tok + stop_pos - token_end_pos) token_end_pos)
      else
        inl (emit st r tok (start_pos - token_start_pos)
               (length tok + stop_pos - token_end_pos) token_end_pos).

(** The [while (inputreader->keep_going())] loop.  Every round reads a
    token, which takes at least one byte of the input or ends the loop. *)
Fixpoint unparse_loop (rounds : nat) (st : progress) (start_pos stop_pos : Z)
  : outcome progress :=
  match rounds with
  | O => Ret st
  | S k =>
      if keep_going (reader st) then
        '(tok, warnings, r) <- Common.next_token (reader st) ;;
        let st := mk_progress
                    (mk_writer (dict (writer st)) (outfile (writer st))
                               (cerr (writer st) ++ warnings))
                    (reader st) (toks_read st) (syms_written st) (output_pos st) in
        if is_end_sentinel tok then
          Ret (mk_progress (writer st) r (toks_read st) (syms_written st)
                           (output_pos st))
        else
          match visit st r tok start_pos stop_pos with
          | inl st' => unparse_loop k st' start_pos stop_pos
          | inr st' => Ret st'
          end
      else Ret st
  end.

(** [unparse]: the two counters packed into one 64-bit value, with the
    writer and the reader as the loop left them. *)
Definition pack (toks_read syms_written : Z) : Z :=
  u64 (Z.lor (s64 (Z.shiftl toks_read 32)) syms_written).

Definition unparse (w : OutputWriter) (inputreader : RLZInputReader)
    (start_pos stop_pos : Z) : outcome (Z * progress) :=
  st <- unparse_loop (S (List.length (pending (infile inputreader))))
          (mk_progress w inputreader 0 0 0) start_pos stop_pos ;;
  Ret (pack (toks_read st) (syms_written st), st).

(** What [main] prints from the packed value. *)
Definition num_tokens (x : Z) : Z := u32 (Z.shiftr x 32).
Definition num_symbols (x : Z) : Z := u32 (Z.land x 4294967295).

Definition make_writer (dict_file : list Z) (dict_mem : Z -> Z) : OutputWriter :=
  mk_writer (load sizeof_T dict_file dict_mem) [] [].

End OutputWriter.

End Unparse.

(** ** The two programs, one after the other *)

Module Pipeline.

Import Parse Unparse.

(** [rlzparse] on an input file, then [rlzunparse] on the file it wrote,
    both with symbols of [sizeof_T] bytes and the same dictionary file:
    the bytes of the decompressed file. *)
Definition parse_unparse (sizeof_T : nat) (bits_S : Z) (fmt : format)
    (input_file dict_file sa_file : list Z) (dict_mem sa_mem : Z -> Z)
    (start_pos stop_pos : Z) : outcome (list Z) :=
  '(rlz, _, _) <- work sizeof_T bits_S
                    (make_parser sizeof_T bits_S input_file dict_file sa_file
                                 dict_mem sa_mem) fmt ;;
  '(_, st) <- unparse sizeof_T (make_writer sizeof_T dict_file dict_mem)
                (mk_input (open rlz) fmt) start_pos stop_pos ;;
  Ret (outfile (writer st)).

(** The symbols [a .. b] of a file, counted from 1, both included. *)
Definition window (sizeof_T : nat) (file : list Z) (a b : Z) : list Z :=
  firstn (Z.to_nat (b - a + 1) * sizeof_T)
         (skipn (Z.to_nat (a - 1) * sizeof_T) file).

(** A suffix array of a dictionary: every position once, the suffixes in
    increasing order, the end of the dictionary below every symbol. *)
Fixpoint suffix_le (x y : list Z) : bool :=
  match x, y with
  | [], _ => true
  | _ :: _, [] => false
  | a :: x', b :: y' => (a <? b) || ((a =? b) && suffix_le x' y')
  end.

Fixpoint sorted_suffixes (d : list Z) (sa : list Z) : bool :=
  match sa with
  | i :: ((j :: _) as r) =>
      suffix_le (skipn (Z.to_nat i) d) (skipn (Z.to_nat j) d)
      && sorted_suffixes d r
  | _ => true
  end.

Definition is_suffix_array (d sa : list Z) : bool :=
  (List.length sa =? List.length d)%nat
  && forallb (fun i => (0 <=? i) && (i <? Z.of_nat (List.length d))) sa
  && forallb (fun i => existsb (Z.eqb (Z.of_nat i)) sa) (seq 0 (List.length d))
  && sorted_suffixes d sa.

(** The outcome of the two programs is the given file. *)
Definition writes (r : outcome (list Z)) (file : list Z) : bool :=
  match r with
  | Ret out => if list_eq_dec Z.eq_dec out file then true else false
  | _ => false
  end.

End Pipeline.

(** ** The vbyte format, as a number system *)

Module Vbyte.

(** A byte with the high bit set, and one with the high bit clear. *)
Definition continues (b : Z) : Prop := 128 <= b < 256.
Definition terminal (b : Z) : Prop := 0 <= b < 128.

(** The number a sequence of bytes stands for, seven bits a byte, the
    least significant first. *)
Fixpoint value (bs : list Z) : Z :=
  match bs with
  | [] => 0
  | b :: r => b mod 128 + 128 * value r
  end.

End Vbyte.

(** ** The searches, as a relation between the dictionary and a symbol *)

Module Search.

Import Parse.

(** Index [m] of the suffix array names a suffix that has the symbol [c]
    at depth [offset]: [D[SA[m] + offset] == c], the suffix reaching that
    far. *)
Definition occurs_at (bits_S : Z) (p : Parser) (c offset m : Z) : bool :=
  (sa_plus bits_S p m offset <? unsign (dict_size p))
  && (dict_at_sa bits_S p m offset =? c).

End Search.

(** ** The parser's state, read as sequences of symbols *)

Module ParserSpec.

Import Parse.

(** The first symbol of a suffix, the end of the dictionary counting as
    [-1], below every symbol. *)
Definition key (x : list Z) : Z :=
  match x with
  | [] => -1
  | a :: _ => a
  end.

Section State.

Variable sizeof_T : nat.
Variable bits_S : Z.

(** The symbols the parser has still to read: the one pushed back, if
    any, then the whole symbols left in the file. *)
Definition rest (p : Parser) : list Z :=
  (if has_unget p then [unget_buffer p] else [])
    ++ symbols sizeof_T (pending (source_file p)).

(** What the memory holds right after the dictionary, where
    [dict[|D|]] reads. *)
Definition beyond (p : Parser) : Z := outside (dict p) (size (dict p)).

(** A symbol of the input: a value of [sizeof_T] bytes, and not the
    value that lies after the dictionary. *)
Definition symbol_ok (p : Parser) (a : Z) : Prop :=
  0 <= a < 2 ^ (8 * Z.of_nat sizeof_T) /\ a <> beyond p.

(** The parser between two symbols of the input: the file has not been
    read past its end, and [read_counter] counts the symbols taken. *)
Definition reading (p : Parser) : Prop :=
  good (source_file p) = true
  /\ read_counter p + Z.of_nat (List.length (rest p))
     = source_file_size_symbols p
  /\ Forall (symbol_ok p) (rest p).

(** The parser after it read past the end of the file. *)
Definition finished (p : Parser) : Prop :=
  eof (source_file p) = true
  /\ has_unget p = false
  /\ source_file_size_symbols p < read_counter p.

(** Two states of one run: the same dictionary, suffix array and file
    size. *)
Definition same_run (p p' : Parser) : Prop :=
  dict p' = dict p /\ sa p' = sa p
  /\ source_file_size_symbols p' = source_file_size_symbols p.

(** The suffix that index [m] of the suffix array names, from depth
    [offset] on, and its first symbol. *)
Definition suffix_from (p : Parser) (offset m : Z) : list Z :=
  skipn (Z.to_nat (at_index (sa p) m + offset)) (data_array (dict p)).

Definition column (p : Parser) (offset m : Z) : Z := key (suffix_from p offset m).

(** The suffix that index [m] names starts with the symbols [u]. *)
Definition shares (p : Parser) (u : list Z) (m : Z) : Prop :=
  firstn (List.length u) (suffix_from p 0 m) = u.

(** What the proofs about the parser assume of the dictionary and the
    suffix array, and nothing of the input: symbols of 1 to 8 bytes,
    entries of the suffix array of 32 to 64 bits, a suffix array of the
    dictionary, and a dictionary of fewer than 2^31 symbols, since
    [search_left] and [search_right] take the length matched so far as
    an [int offset]. *)
Record sound (p : Parser) : Prop := mk_sound {
  width_range : (1 <= sizeof_T <= 8)%nat;
  sa_width_range : 32 <= bits_S <= 64;
  symbols_fit :
    Forall (fun a => 0 <= a < 2 ^ (8 * Z.of_nat sizeof_T)) (data_array (dict p));
  suffix_array :
    Pipeline.is_suffix_array (data_array (dict p)) (data_array (sa p)) = true;
  sizes_fit : size (dict p) < 2 ^ 31
}.

End State.

End ParserSpec.

(** ** Token streams and what they stand for *)

Module Tokens.

Section Payload.

Variable sizeof_T : nat.
Variable d : FileReader.

(** A literal, or a copy of symbols that the dictionary has. *)
Definition valid (t : RLZToken) : bool :=
  if length t =? 0
  then (0 <=? start_pos t) && (start_pos t <? 2 ^ (8 * Z.of_nat sizeof_T))
  else (0 <? length t) && (0 <=? start_pos t)
       && (start_pos t + length t <=? size d).

(** The symbols a token stands for: [start_pos] cut to the width of a
    symbol for a literal, [D[start_pos .. start_pos + length)] for a
    copy. *)
Definition payload (t : RLZToken) : list Z :=
  if length t =? 0
  then [wrap_u (8 * Z.of_nat sizeof_T) (start_pos t)]
  else firstn (Z.to_nat (length t))
              (skipn (Z.to_nat (start_pos t)) (data_array d)).

Definition expand (toks : list RLZToken) : list Z := flat_map payload toks.

(** The symbols [a .. b] of a sequence, counted from 1, both included. *)
Definition slice (a b : Z) (syms : list Z) : list Z :=
  skipn (Z.to_nat (a - 1)) (firstn (Z.to_nat b) syms).

(** Symbols as the bytes of the output file. *)
Definition bytes_of (syms : list Z) : list Z :=
  flat_map (Unparse.put_symbol sizeof_T) syms.

End Payload.

(** The fields of a token are within the reach of a format: below 2^64
    and 2^63 for 64x2, ascii and vbyte, below 2^32 and 2^31 for 32x2. *)
Definition fits (bits : Z) (t : RLZToken) : Prop :=
  0 <= start_pos t < 2 ^ bits /\ 0 <= length t < 2 ^ (bits - 1).

(** The file [rlzparse] writes for a list of tokens. *)
Definition encode (fmt : format) (toks : list RLZToken) : list Z :=
  flat_map (fun t => snd (Parse.output_token t fmt)) toks.

(** The state of the loop of [unparse], started on the file [out0]
    with the window [(a, b)], after the tokens that stand for [syms]. *)
Definition after (sizeof_T : nat) (d : FileReader) (a b : Z) (out0 : list Z)
    (st : Unparse.progress) (syms : list Z) : Prop :=
  Unparse.output_pos st = Z.of_nat (List.length syms)
  /\ Unparse.outfile (Unparse.writer st)
     = out0 ++ bytes_of sizeof_T (slice a b syms)
  /\ Unparse.dict (Unparse.writer st) = d.

(** The tokens a reader yields, in order, up to the end sentinel or the
    end of the file. *)
Inductive stream_of : RLZInputReader -> list RLZToken -> Prop :=
| stream_end (r : RLZInputReader) :
    keep_going r = false
    \/ (exists warnings r',
           Common.next_token r = Ret (end_sentinel, warnings, r')) ->
    stream_of r []
| stream_token (r r' : RLZInputReader) (t : RLZToken) (toks : list RLZToken) :
    keep_going r = true ->
    Common.next_token r = Ret (t, [], r') ->
    is_end_sentinel t = false ->
    stream_of r' toks ->
    stream_of r (t :: toks).

End Tokens.

(** ** What a call of the parser's [next_token] has to give *)

Module ParserResults.

Import Parse ParserSpec Tokens.

Section Results.

Variable sizeof_T : nat.

(** A state between two tokens. *)
Definition between (p : Parser) : Prop :=
  reading sizeof_T p \/ (finished p /\ rest sizeof_T p = []).

(** A token for the first symbols of [input], with the state left
    ready for the rest of them. *)
Definition emitted (p0 : Parser) (input : list Z) (res : RLZToken * Parser)
  : Prop :=
  valid sizeof_T (dict p0) (fst res) = true
  /\ payload sizeof_T (dict p0) (fst res) <> []
  /\ payload sizeof_T (dict p0) (fst res) ++ rest sizeof_T (snd res) = input
  /\ between (snd res)
  /\ same_run p0 (snd res).

End Results.

End ParserResults.

(** ** Files used in the examples *)

Module Inputs.

Definition text (s : string) : list Z := bytes_of_string s.

(** A suffix array file of 32-bit entries. *)
Definition sa32 (entries : list Z) : list Z := flat_map (le_bytes 4) entries.

Definition abracadabra : list Z := text "abracadabra".
Definition abracadabra_sa : list Z := sa32 [10; 7; 0; 3; 5; 8; 1; 4; 6; 9; 2].

(** The token stream [(0,5) (3,2)] in the ascii format, as [rlzparse]
    writes it: one token a line. *)
Definition two_tokens_ascii : list Z :=
  snd (Parse.output_token (mk_token 0 5) FMT_ASCII)
  ++ snd (Parse.output_token (mk_token 3 2) FMT_ASCII).

(** A 64x2 file of one token, [(2^64 - 8, 10)]:
    [F8 FF FF FF FF FF FF FF  0A 00 00 00 00 00 00 00]. *)
Definition far_token_64x2 : list Z :=
  le_bytes 8 (2 ^ 64 - 8) ++ le_bytes 8 10.

(** The token of a result of [Parser::next_token]. *)
Definition token_of (r : outcome (RLZToken * Parse.Parser)) : option RLZToken :=
  match r with
  | Ret (t, _) => Some t
  | _ => None
  end.

(** What [unparse] leaves: the two counters [main] prints, the output
    file and the warnings. *)
Definition report (sizeof_T : nat) (r : outcome (Z * Unparse.progress))
  : option (Z * Z * list Z * list string) :=
  match r with
  | Ret (x, st) =>
      Some (Unparse.num_tokens x, Unparse.num_symbols x,
            Unparse.outfile (Unparse.writer st),
            Unparse.cerr (Unparse.writer st))
  | _ => None
  end.

End Inputs.

(** ** The helper programs

    Each of them reads a file byte by byte with [fgetc], [getchar] or
    [fread] and writes another; a file is the list of its bytes, and
    [EOF] is the end of the list.  Read and write errors of the device
    are left out.  Counters that grow by one for a byte or a word read
    stay unbounded, as no file reaches 2^63 bytes. *)

Module Files.

(** What [fgetc] gives for a byte of a file. *)
Definition byte (b : Z) : Prop := 0 <= b < 256.

(** A file of whole symbols of [w] bytes.  [FileReader<T>] takes an
    array of [file_size_bytes / sizeof(T)] symbols and reads
    [file_size_bytes] bytes into it: the array holds the file when the
    file is one of whole symbols. *)
Definition whole (w : nat) (file : list Z) : Prop :=
  (List.length file mod w = 0)%nat.

End Files.

(** *** 32toVbyte.c *)

Module ToVbyte.

Definition padding_warning : string :=
  "warning: input had a not-divisible-by-4 amount of bytes, padding with zero.".

(** The [while (n > 0)] loop of [write_out]. *)
Fixpoint write_out_loop (rounds : nat) (n : Z) : list Z :=
  match rounds with
  | O => []
  | S k =>
      if n >? 0 then
        (if n <=? 127 then u8 n else Z.lor (Z.land n 127) 128)
          :: write_out_loop k (Z.shiftr n 7)
      else []
  end.

(** [write_out]: a [uint32_t] is zero after five shifts by 7. *)
Definition write_out (n : Z) : list Z :=
  (if n =? 0 then [0] else []) ++ write_out_loop 5 n.

Record state : Type := mk_state {
  input_number : Z;
  shiftwidth : Z;
  stdout : list Z
}.

(** The body of the [while ((in_byte = getchar()) != EOF)] loop.  The
    shift is done on an [int] and its result converted to [uint32_t]
    by the addition. *)
Definition step (st : state) (in_byte : Z) : state :=
  let input_number :=
    u32 (input_number st + s32 (Z.shiftl in_byte (shiftwidth st))) in
  let shiftwidth := shiftwidth st + 8 in
  if shiftwidth =? 32
  then mk_state 0 0 (stdout st ++ write_out input_number)
  else mk_state input_number shiftwidth (stdout st).

(** [main]: the exit status, what was written on [stdout], and the
    warnings on [stderr]. *)
Definition main (stdin : list Z) : Z * list Z * list string :=
  let st := fold_left step stdin (mk_state 0 0 []) in
  if negb (shiftwidth st =? 0)
  then (1, stdout st ++ write_out (input_number st), [padding_warning])
  else (0, stdout st, []).

End ToVbyte.

(** *** count-vbyte-tokens.c *)

Module CountVbyteTokens.

Definition interrupted_warning : string :=
  "warning: number decoding interrupted by EOF (incomplete token at end)".

Record counter : Type := mk_counter {
  numbers_seen : Z;
  expecting_more : Z
}.

(** The body of the [while ((c = fgetc(infile)) != EOF)] loop;
    [expecting_more] is an [int]. *)
Definition step (st : counter) (c : Z) : counter :=
  if negb (expecting_more st =? 0) then
    if c >=? 128
    then mk_counter (numbers_seen st) (s32 (expecting_more st + 1))
    else mk_counter (numbers_seen st + 1) 0
  else
    if c >=? 128
    then mk_counter (numbers_seen st) 1
    else mk_counter (numbers_seen st + 1) (expecting_more st).

(** [work]: the line printed on [stdout] and the warnings on [stderr]. *)
Definition work (infile : list Z) : list Z * list string :=
  let st := fold_left step infile (mk_counter 0 0) in
  let half_numbers := Z.shiftr (numbers_seen st) 1 in
  (if negb (numbers_seen st mod 2 =? 0)
   then to_string_unsigned half_numbers ++ [46; 53; 10]
   else to_string_unsigned half_numbers ++ [10],
   if negb (expecting_more st =? 0) then [interrupted_warning] else []).

End CountVbyteTokens.

(** *** endflip.c *)

Module Endflip.

Definition MIN_WORD_WIDTH : Z := 2.
Definition MAX_WORD_WIDTH : Z := 99.

(** "warning: input file size wasn't divisible by [N], ignoring last [n]
    bytes" *)
Inductive diagnostic : Type :=
| Indivisible (N n : Z).

(** The [for (int n = 0; n < N; n++)] loop that fills [buffer]: the
    word read and the rest of the file, or the [n] at which [fgetc]
    gave [EOF]. *)
Inductive filled : Type :=
| Word (buffer rest : list Z)
| End_of_file (n : Z).

Fixpoint fill (todo : nat) (n : Z) (infile buffer : list Z) : filled :=
  match todo with
  | O => Word buffer infile
  | S k =>
      match infile with
      | [] => End_of_file n
      | c :: rest => fill k (n + 1) rest (buffer ++ [u8 c])
      end
  end.

(** The [while (1)] loop of [work], for [1 <= N <= MAX_WORD_WIDTH], the
    size of [buffer] (main lets [MIN_WORD_WIDTH <= N <= MAX_WORD_WIDTH]
    through): every round takes [N] bytes or returns.  [None] stands for a loop that is still
    running when the rounds are used up. *)
Fixpoint work_loop (rounds : nat) (N : Z) (infile outfile : list Z)
  : option (list Z * list diagnostic) :=
  match rounds with
  | O => None
  | S k =>
      match fill (Z.to_nat N) 0 infile [] with
      | End_of_file n =>
          Some (outfile, if n >? 0 then [Indivisible N n] else [])
      | Word buffer rest => work_loop k N rest (outfile ++ rev buffer)
      end
  end.

(** [work]: the output file and the warnings on [stderr]. *)
Definition work (N : Z) (infile : list Z) : option (list Z * list diagnostic) :=
  work_loop (S (List.length infile)) N infile [].

End Endflip.

(** *** 5to8.c, and 5to4 when compiled with [-D FIVETOFOUR] *)

Module FiveToEight.

Definition EXIT_CONVERSION_ERROR : Z := 1.

(** "warning: input file size wasn't divisible by 5 ..." and "error:
    nonzero byte at byte 0x[input_byte_number], exiting" *)
Inductive diagnostic : Type :=
| Indivisible
| Nonzero (input_byte_number : Z).

Record files : Type := mk_files {
  infile : list Z;
  outfile : list Z;
  stderr : list diagnostic;
  input_byte_number : Z
}.

Definition fputc (bytes : list Z) (f : files) : files :=
  mk_files (infile f) (outfile f ++ bytes) (stderr f) (input_byte_number f).

Definition fputs (d : diagnostic) (f : files) : files :=
  mk_files (infile f) (outfile f) (stderr f ++ [d]) (input_byte_number f).

(** What a pass of the [for (int i = 0; i < 5; i++)] loop ends in: a
    [return], or the next round of [while (1)]. *)
Inductive step : Type :=
| Return (retval : Z) (f : files)
| Next (f : files).

Section Variant.

(** Whether [FIVETOFOUR] is defined. *)
Variable FIVETOFOUR : bool.

Fixpoint word (todo : nat) (i : Z) (f : files) : step :=
  match todo with
  | O => Next (if FIVETOFOUR then f else fputc [0; 0; 0] f)
  | S k =>
      match infile f with
      | [] =>
          let f := mk_files [] (outfile f) (stderr f) (input_byte_number f + 1) in
          if i >? 0 then
            if FIVETOFOUR
            then Return 0 (fputc (repeat 0 (Z.to_nat (4 - i))) (fputs Indivisible f))
            else Next (fputc [0; 0; 0]
                         (fputc (repeat 0 (Z.to_nat (5 - i)))
                                (fputs Indivisible f)))
          else Return 0 f
      | c :: rest =>
          let f := mk_files rest (outfile f) (stderr f) (input_byte_number f + 1) in
          if FIVETOFOUR then
            if i <? 4 then word k (i + 1) (fputc [u8 c] f)
            else if negb (c =? 0)
                 then Return 1 (fputs (Nonzero (input_byte_number f)) f)
                 else word k (i + 1) f
          else word k (i + 1) (fputc [u8 c] f)
      end
  end.

(** The [while (1)] loop: every round but the last takes bytes of the
    input.  [None] stands for a loop that is still running when the
    rounds are used up. *)
Fixpoint work_loop (rounds : nat) (f : files) : option (Z * files) :=
  match rounds with
  | O => None
  | S k =>
      match word 5 0 f with
      | Return retval f => Some (retval, f)
      | Next f => work_loop k f
      end
  end.

(** [work]: the value returned, the output file and [stderr]. *)
Definition work (input : list Z) : option (Z * list Z * list diagnostic) :=
  match work_loop (S (S (List.length input))) (mk_files input [] [] 0) with
  | Some (retval, f) => Some (retval, outfile f, stderr f)
  | None => None
  end.

End Variant.

End FiveToEight.

(** *** divsuffix.cpp *)

Module Divsuffix.

Definition EXIT_FREAD_ERROR : Z := 82.
Definition EXIT_FWRITE_ERROR : Z := 87.

Definition fread_warning : string :=
  "warning: input size not divisible by the width or input error, exiting.".

(** [fread(buf, 1, n, infile)]: the bytes stored, the rest of the file,
    and whether the end-of-file indicator is set afterwards, which it
    is when fewer than [n] bytes were left. *)
Definition fread (n : nat) (infile : list Z) : list Z * list Z * bool :=
  (firstn n infile, skipn n infile, (List.length infile <? n)%nat).

(** The [while (true)] loop of [work_32] and [work_64], which differ in
    the width of [buf[0]] only.  [x % N] with [N = 0] traps. *)
Fixpoint work_loop (rounds : nat) (width : nat) (N : Z)
    (infile outfile : list Z) (num_written : Z) : outcome (list Z * Z) :=
  match rounds with
  | O => Ret (outfile, num_written)
  | S k =>
      let '(buf, rest, feof) := fread width infile in
      if feof then Ret (outfile, num_written)
      else if negb (List.length buf =? width)%nat
      then Exit EXIT_FREAD_ERROR fread_warning
      else
        let x := le_value buf in
        if N =? 0 then Uncaught "SIGFPE"
        else if negb (x mod N =? 0)
        then work_loop k width N rest outfile num_written
        else work_loop k width N rest
               (outfile ++ le_bytes width (x / N)) (num_written + 1)
  end.

(** [work_32] and [work_64]: the output file and the number of entries
    written.  Every round that goes on takes a whole entry. *)
Definition work_32 (infile : list Z) (N : Z) : outcome (list Z * Z) :=
  work_loop (S (List.length infile)) 4 (u32 N) infile [] 0.

Definition work_64 (infile : list Z) (N : Z) : outcome (list Z * Z) :=
  work_loop (S (List.length infile)) 8 (u32 N) infile [] 0.

End Divsuffix.

(** *** The statistics of [Parser::work] in rlzparse.cpp *)

Module Statistics.

Import Parse.

Record statistics : Type := mk_statistics {
  longest_token : Z;
  num_tokens : Z;
  bytes_input : Z;
  bytes_output : Z
}.

(** What [main] passes to [work]. *)
Definition initial : statistics := mk_statistics 1 0 0 0.

Section Parser.

Variable sizeof_T : nat.
Variable bits_S : Z.

(** The body of the loop of [work] after [output_token] has returned
    [keep_going] and added the bytes it wrote to [*bytes_output]. *)
Definition count (st : statistics) (token : RLZToken) (keep_going : Z)
    (bytes : list Z) : statistics :=
  mk_statistics
    (if keep_going >? longest_token st then keep_going else longest_token st)
    (u64 (num_tokens st + 1))
    (if keep_going >? 0
     then u64 (bytes_input st
               + (if length token =? 0 then Z.of_nat sizeof_T
                  else u64 (length token * Z.of_nat sizeof_T)))
     else bytes_input st)
    (u64 (bytes_output st + Z.of_nat (List.length bytes))).

(** [work] with the four counters it keeps for [main]. *)
Fixpoint work_loop (rounds : nat) (p : Parser) (output_mode : format)
    (out : list Z) (st : statistics)
  : outcome (list Z * statistics * Parser) :=
  match rounds with
  | O => Ret (out, st, p)
  | S k =>
      '(token, p) <- next_token sizeof_T bits_S p ;;
      let '(keep_going, bytes) := output_token token output_mode in
      let st := count st token keep_going bytes in
      if keep_going >? 0
      then work_loop k p output_mode (out ++ bytes) st
      else Ret (out ++ bytes, st, p)
  end.

Definition work (p : Parser) (output_mode : format)
  : outcome (list Z * statistics * Parser) :=
  work_loop (Z.to_nat (source_file_size_symbols p + 2)) p output_mode [] initial.

(** [main] after [work]: the number of tokens without the end sentinel,
    and [total_size_out]. *)
Definition tokens_reported (st : statistics) : Z := u64 (num_tokens st - 1).

Definition total_size_out (st : statistics) (p : Parser) : Z :=
  u64 (bytes_output st + s64 (dict_size p * Z.of_nat sizeof_T)).

End Parser.

End Statistics.

(** ** The reach of the four formats *)

Module Formats.

(** The width in bits of the [start_pos] that a format holds; its
    [length] has one bit less. *)
Definition reach (fmt : format) : Z :=
  match fmt with
  | FMT_32X2 => 32
  | _ => 64
  end.

End Formats.

(** ** Files that end inside a token *)

Module Endings.

Import Vbyte.

(** What can follow the last whole token of a file: fewer bytes than a
    token takes, in the binary formats; in vbyte, a number that has not
    ended, after a whole number or after none; in ascii, white space
    and then characters up to the end of the file. *)
Definition cut_short (fmt : format) (tail : list Z) : Prop :=
  match fmt with
  | FMT_32X2 => (List.length tail < 8)%nat
  | FMT_64X2 => (List.length tail < 16)%nat
  | FMT_VBYTE =>
      (Forall continues tail /\ (List.length tail < 10)%nat)
      \/ (exists ks t cs,
             tail = ks ++ t :: cs
             /\ Forall continues ks /\ (List.length ks < 10)%nat
             /\ terminal t
             /\ Forall continues cs /\ (List.length cs < 9)%nat)
  | FMT_ASCII =>
      exists ws w,
        tail = ws ++ w
        /\ Forall (fun b => isspace b = true) ws
        /\ Forall (fun b => isspace b = false) w
  end.

End Endings.

(** ** Longest matches *)

Module Factors.

Import Tokens.

(** The symbols [u] stand somewhere in the sequence [d], one after the
    other. *)
Definition occurs (u d : list Z) : Prop :=
  exists i : nat, firstn (List.length u) (skipn i d) = u.

(** No more than the first [n] symbols of [input] stand in [d]: every
    longer start of [input] is missing from it. *)
Definition longest (d : list Z) (n : nat) (input : list Z) : Prop :=
  forall k : nat, (n < k <= List.length input)%nat -> ~ occurs (firstn k input) d.

Section Greedy.

Variable sizeof_T : nat.
Variable d : FileReader.

(** Every token of the list takes from the dictionary the longest start
    of what is left of [input] that the dictionary has; its [length] is
    the number of symbols taken, 0 for a literal. *)
Fixpoint greedy (toks : list RLZToken) (input : list Z) : Prop :=
  match toks with
  | [] => True
  | t :: toks' =>
      longest (data_array d) (Z.to_nat (length t)) input
      /\ greedy toks' (skipn (List.length (payload sizeof_T d t)) input)
  end.

End Greedy.

End Factors.

(** ** Files that hold the end sentinel *)

Module Sentinels.

(** The token [(ULLONG_MAX, -1)] written as the formats write a token:
    sixteen bytes [0xFF] in 64x2, the two numbers on a line in ascii.
    A field of 32x2 is too narrow for [ULLONG_MAX], and vbyte has no
    negative length. *)
Definition sentinel_record (fmt : format) : option (list Z) :=
  match fmt with
  | FMT_64X2 =>
      Some (le_bytes 8 (u64 (start_pos end_sentinel))
              ++ le_bytes 8 (u64 (length end_sentinel)))
  | FMT_ASCII =>
      Some (to_string_unsigned (start_pos end_sentinel) ++ [32]
              ++ to_string_signed (length end_sentinel) ++ [10])
  | _ => None
  end.

End Sentinels.

(** ** The tokens before a field of the encoded file *)

Module Reached.




End Reached.

(** * Properties *)

(** ** Arithmetic of the fixed-width integers *)

Module IntFacts.

Lemma le_value_le_bytes (n : nat) (x : Z) :
  le_value (le_bytes n x) = x mod 256 ^ Z.of_nat n.
Proof.
  revert x; induction n as [|n IH]; intros x.
  - simpl. now rewrite Z.mod_1_r.
  - cbn [le_bytes le_value]. rewrite IH.
    rewrite Nat2Z.inj_succ, Z.pow_succ_r by lia.
    rewrite Z.rem_mul_r by lia. lia.
Qed.

Lemma le_bytes_length (n : nat) (x : Z) : List.length (le_bytes n x) = n.
Proof. revert x; induction n; intros; simpl; auto. Qed.

Lemma le_bytes_range (n : nat) (x : Z) :
  Forall (fun b => 0 <= b < 256) (le_bytes n x).
Proof.
  revert x; induction n as [|n IH]; intros x; simpl; constructor.
  - apply Z.mod_pos_bound; lia.
  - apply IH.
Qed.

Lemma u64_small (x : Z) : 0 <= x < 2 ^ 64 -> u64 x = x.
Proof. intros H. unfold u64, wrap_u. now apply Z.mod_small. Qed.

Lemma s64_small (x : Z) : - 2 ^ 63 <= x < 2 ^ 63 -> s64 x = x.
Proof.
  intros H. unfold s64, wrap_s. change (2 ^ (64 - 1)) with (2 ^ 63).
  rewrite Z.mod_small; lia.
Qed.

Lemma s32_small (x : Z) : - 2 ^ 31 <= x < 2 ^ 31 -> s32 x = x.
Proof.
  intros H. unfold s32, wrap_s. change (2 ^ (32 - 1)) with (2 ^ 31).
  rewrite Z.mod_small; lia.
Qed.

(** A property of the numbers below [n], checked one by one. *)
Lemma forall_below (f : Z -> bool) (n : nat) :
  forallb f (map Z.of_nat (seq 0 n)) = true ->
  forall b, 0 <= b < Z.of_nat n -> f b = true.
Proof.
  intros H b Hb. rewrite forallb_forall in H. apply H.
  replace b with (Z.of_nat (Z.to_nat b)) by lia.
  apply in_map, in_seq. lia.
Qed.

End IntFacts.

(** ** The 32x2 format *)

Module Format32x2.

Import Parse IntFacts.

Lemma bytes_written (token : RLZToken) (fmt : format) :
  is_end_sentinel token = false ->
  snd (output_token token fmt)
  = match fmt with
    | FMT_32X2 =>
        le_bytes 4 (u32 (start_pos token)) ++ le_bytes 4 (u32 (length token))
    | FMT_64X2 =>
        le_bytes 8 (u64 (start_pos token)) ++ le_bytes 8 (u64 (length token))
    | FMT_ASCII =>
        to_string_unsigned (start_pos token) ++ [32]
          ++ to_string_signed (length token) ++ [10]
    | FMT_VBYTE => vbyte_field (start_pos token) ++ vbyte_field (length token)
    end.
Proof. intros H. unfold output_token. rewrite H. reflexivity. Qed.

Lemma u32_as_bytes (x : Z) : le_value (le_bytes 4 (u32 x)) = x mod 2 ^ 32.
Proof.
  rewrite le_value_le_bytes. unfold u32, wrap_u.
  change (256 ^ Z.of_nat 4) with (2 ^ 32). apply Z.mod_mod. lia.
Qed.

(** C10.  In the 32x2 mode a token that is not the end sentinel is
    written as eight bytes: [start_pos] modulo 2^32 and [length] modulo
    2^32, each as a little-endian 32-bit integer.  Nothing is reported
    for a field of 2^32 or more: [output_token] has no other result than
    these bytes and its return value, and the reader gets the two
    reduced values back. *)
Theorem output_token_32x2_truncates (token : RLZToken) :
  is_end_sentinel token = false ->
  let bytes := snd (output_token token FMT_32X2) in
  List.length bytes = 8%nat
  /\ Forall (fun b => 0 <= b < 256) bytes
  /\ le_value (firstn 4 bytes) = start_pos token mod 2 ^ 32
  /\ le_value (skipn 4 bytes) = length token mod 2 ^ 32
  /\ forall rest,
       Common.next_token (mk_input (open (bytes ++ rest)) FMT_32X2)
       = Ret (mk_token (start_pos token mod 2 ^ 32) (length token mod 2 ^ 32),
              [], mk_input (open rest) FMT_32X2).
Proof.
  intros H bytes. subst bytes. rewrite (bytes_written _ _ H).
  pose proof (u32_as_bytes (start_pos token)) as A.
  pose proof (u32_as_bytes (length token)) as B.
  pose proof (le_bytes_range 4 (u32 (start_pos token))) as RA.
  pose proof (le_bytes_range 4 (u32 (length token))) as RB.
  revert A B RA RB.
  generalize (u32 (start_pos token)) (u32 (length token)). intros x y.
  cbn [le_bytes]. intros A B RA RB.
  repeat split.
  - apply Forall_app; split; assumption.
  - exact A.
  - exact B.
  - intros rest. unfold Common.next_token. cbn.
    cbn in A, B. rewrite A, B. reflexivity.
Qed.

Lemma output_token_32x2_truncates_witness :
  is_end_sentinel (mk_token (2 ^ 32 + 5) 3) = false
  /\ le_value (firstn 4 (snd (output_token (mk_token (2 ^ 32 + 5) 3) FMT_32X2)))
     = (2 ^ 32 + 5) mod 2 ^ 32.
Proof.
  split; [reflexivity|].
  exact (proj1 (proj2 (proj2
           (output_token_32x2_truncates (mk_token (2 ^ 32 + 5) 3) eq_refl)))).
Defined.

End Format32x2.

(** ** The single-match loop of the parser *)

Module SingleMatch.

Import Parse Pipeline Inputs.

(** The dictionary ["a"] with its suffix array, and the input ["ab"]. *)
Lemma a_has_suffix_array : is_suffix_array (text "a") [0] = true.
Proof. reflexivity. Qed.

(** C3.  With the dictionary ["a"], its suffix array [[0]] and the input
    ["ab"], the single-match loop compares the second input symbol with
    [dict[0 + 1]], one past the end of the dictionary: the token depends
    on what the memory holds there, and when that is a ['b'] the token
    is [(0, 2)], with [start_pos + length = 2 > |D| = 1]. *)
Theorem single_match_reads_past_dictionary (dict_mem sa_mem : Z -> Z) :
  token_of (next_token 1 32
              (make_parser 1 32 (text "ab") (text "a") (sa32 [0])
                           dict_mem sa_mem))
  = Some (mk_token 0 (if dict_mem 1 =? 98 then 2 else 1)).
Proof.
  vm_compute. generalize (dict_mem 1). intros v.
  destruct v as [|p|p]; try reflexivity.
  do 7 (destruct p as [p|p|]; try reflexivity).
Qed.

(** C1.  The same input does not survive the round trip when the byte
    after the dictionary is a ['b']: the parser writes the one token
    [(0, 2)], and the unparser, cutting it at the end of the dictionary,
    writes ["a"]. *)
Theorem round_trip_broken_by_single_match (fmt : format) :
  parse_unparse 1 32 fmt (text "ab") (text "a") (sa32 [0])
                (fun _ => 98) (fun _ => 0) 0 0
  = Ret (text "a").
Proof. destruct fmt; vm_compute; reflexivity. Qed.

(** C2.  Nor does the window [(1, 2)], the whole of that input. *)
Theorem window_broken_by_single_match (fmt : format) :
  parse_unparse 1 32 fmt (text "ab") (text "a") (sa32 [0])
                (fun _ => 98) (fun _ => 0) 1 2
  = Ret (text "a")
  /\ window 1 (text "ab") 1 2 = text "ab".
Proof. split; [destruct fmt; vm_compute; reflexivity | reflexivity]. Qed.

(** Whatever byte [v] lies after the dictionary ["a"], the two-symbol
    input ["a"], [v] comes back as ["a"] alone. *)
Lemma round_trip_broken_whatever_follows (fmt : format) (v : Z) :
  0 <= v < 256 ->
  parse_unparse 1 32 fmt [97; v] (text "a") (sa32 [0])
                (fun _ => v) (fun _ => 0) 0 0
  = Ret (text "a").
Proof.
  intros Hv.
  assert (H : writes (parse_unparse 1 32 fmt [97; v] (text "a") (sa32 [0])
                                    (fun _ => v) (fun _ => 0) 0 0)
                     (text "a") = true).
  { revert v Hv. apply (IntFacts.forall_below _ 256).
    destruct fmt; vm_compute; reflexivity. }
  unfold writes in H.
  destruct (parse_unparse 1 32 fmt [97; v] (text "a") (sa32 [0])
                          (fun _ => v) (fun _ => 0) 0 0) as [out| |];
    try discriminate.
  destruct (list_eq_dec Z.eq_dec out (text "a")) as [->|]; [reflexivity|discriminate].
Qed.

End SingleMatch.

(** ** The unparser and its windows *)

Module Windows.

Import Unparse Inputs.

(** Inside the dictionary the symbols read are the symbols of the file. *)
Lemma dict_range_in_bounds (d : FileReader) (first token_end : Z) :
  0 <= first -> token_end <= size d ->
  dict_range d first token_end
  = firstn (Z.to_nat (token_end - first))
           (skipn (Z.to_nat first) (data_array d)).
Proof.
  intros Hf He. unfold dict_range.
  destruct (Z_le_gt_dec token_end first) as [Hle|Hgt].
  { replace (Z.to_nat (token_end - first)) with 0%nat by lia. reflexivity. }
  set (n := Z.to_nat (token_end - first)).
  assert (Hn : (n + Z.to_nat first <= List.length (data_array d))%nat).
  { unfold size in He. subst n. lia. }
  apply nth_ext with (d := 0) (d' := 0).
  - rewrite length_map, length_seq, length_firstn, length_skipn. lia.
  - intros i Hi. rewrite length_map, length_seq in Hi.
    rewrite nth_indep with (d' := at_index d (first + Z.of_nat 0))
      by (rewrite length_map, length_seq; exact Hi).
    rewrite (map_nth (fun k => at_index d (first + Z.of_nat k))).
    rewrite seq_nth by exact Hi. simpl (0 + i)%nat.
    rewrite nth_firstn.
    replace (i <? n)%nat with true by (symmetry; apply Nat.ltb_lt; exact Hi).
    rewrite nth_skipn. unfold at_index, size.
    replace ((0 <=? first + Z.of_nat i)
             && (first + Z.of_nat i <? Z.of_nat (List.length (data_array d))))
      with true by (symmetry; apply andb_true_iff; split;
                    [apply Z.leb_le | apply Z.ltb_lt]; lia).
    f_equal. lia.
Qed.

(** X18.  A copy token that runs over the end of the dictionary, its
    fields within the range of the signed arithmetic of [write_next]: the
    symbols from [start_pos] to the end of the dictionary are written, a
    warning is printed, and the token's length is returned. *)
Lemma write_next_truncates (sizeof_T : nat) (w : OutputWriter)
    (token : RLZToken) :
  0 <= start_pos token -> 0 < length token ->
  start_pos token + length token < 2 ^ 63 ->
  dict_size w < start_pos token + length token ->
  write_next sizeof_T w token 0 0
  = (length token,
     mk_writer (dict w)
       (outfile w
        ++ flat_map (put_symbol sizeof_T)
             (skipn (Z.to_nat (start_pos token)) (data_array (dict w))))
       (cerr w ++ [truncating_message])).
Proof.
  intros Hs Hl Hb He. unfold write_next.
  replace (length token =? 0) with false by (symmetry; apply Z.eqb_neq; lia).
  replace (0 <=? 0) with true by reflexivity.
  rewrite (IntFacts.s64_small (start_pos token)) by lia.
  rewrite Z.add_0_r.
  rewrite (IntFacts.s64_small (start_pos token)) by lia.
  rewrite (IntFacts.s64_small (start_pos token + length token)) by lia.
  replace (start_pos token + length token >? dict_size w) with true
    by (symmetry; apply Z.gtb_lt; lia).
  f_equal. f_equal. f_equal. f_equal.
  unfold dict_size in *.
  destruct (Z_le_gt_dec (start_pos token) (size (dict w))) as [Hin|Hout].
  - rewrite dict_range_in_bounds by lia.
    apply firstn_all2. rewrite length_skipn. unfold size. lia.
  - unfold dict_range.
    replace (Z.to_nat (size (dict w) - start_pos token)) with 0%nat by lia.
    rewrite skipn_all2 by (unfold size in Hout; lia). reflexivity.
Qed.

(** [exit] in the reader ends the unparser. *)
Lemma unparse_exits_with_reader (sizeof_T : nat) (w : OutputWriter)
    (r : RLZInputReader) (start_pos stop_pos status : Z) (message : string) :
  keep_going r = true ->
  Common.next_token r = Exit status message ->
  unparse sizeof_T w r start_pos stop_pos = Exit status message.
Proof.
  intros Hk He. unfold unparse. cbn [unparse_loop reader].
  rewrite Hk, He. reflexivity.
Qed.

(** Without a window the loop of [unparse] goes on after every token. *)
Lemma full_mode_goes_on (sizeof_T : nat) (st : progress)
    (r : RLZInputReader) (tok : RLZToken) :
  visit sizeof_T st r tok 0 0 = inl (emit sizeof_T st r tok 0 0 (output_pos st)).
Proof. reflexivity. Qed.

(** The writer over the dictionary ["abracadabra"], one byte a symbol. *)
Lemma two_tokens_file : two_tokens_ascii = text "0 5
3 2
".
Proof. reflexivity. Qed.

(** The stream [(0,5) (3,2)] over ["abracadabra"], in full. *)
Lemma two_tokens_in_full (mem : Z -> Z) :
  report 1 (unparse 1 (make_writer 1 abracadabra mem)
              (mk_input (open two_tokens_ascii) FMT_ASCII) 0 0)
  = Some (2, 7, text "abracac", []).
Proof. reflexivity. Qed.

(** C8.  The stream [(0,5) (3,2)] over ["abracadabra"] with the window
    [(3, 5)]: the three symbols ["rac"] are written, and the counter of
    written symbols is 5, the whole length of the token that was cut at
    the start of the window.  Two tokens were read, the second one being
    the token after the window that ends the loop. *)
Theorem partial_token_counted_whole (mem : Z -> Z) :
  report 1 (unparse 1 (make_writer 1 abracadabra mem)
              (mk_input (open two_tokens_ascii) FMT_ASCII) 3 5)
  = Some (2, 5, text "rac", []).
Proof. reflexivity. Qed.

(** The window [(3, 5)] of the stream [(0,5) (3,2)] over
    ["abracadabra"] is ["rac"]. *)
Lemma two_tokens_window (mem : Z -> Z) :
  bind (unparse 1 (make_writer 1 abracadabra mem)
          (mk_input (open two_tokens_ascii) FMT_ASCII) 3 5)
       (fun r => Ret (outfile (writer (snd r))))
  = Ret (text "rac").
Proof. reflexivity. Qed.

(** C7.  The token [(2^64 - 8, 10)], read from a 64x2 file, over
    ["abracadabra"]: [start_pos + length] is far beyond the dictionary
    of 11 symbols, yet no warning is printed and ten symbols are
    written.  [write_next] copies [start_pos] into a [long long], which
    makes it [-8], and [token_end = -8 + 10 = 2] is not greater than
    the size of the dictionary: the loop writes what stands at the
    eight indices [-8 .. -1], just before the array of the dictionary,
    and then ["ab"], the symbols at 0 and 1. *)
Theorem far_token_not_truncated (mem : Z -> Z) :
  report 1 (unparse 1 (make_writer 1 abracadabra mem)
              (mk_input (open far_token_64x2) FMT_64X2) 0 0)
  = Some (1, 10,
          flat_map (fun i => put_symbol 1 (mem i))
                   [-8; -7; -6; -5; -4; -3; -2; -1]
            ++ text "ab",
          []).
Proof. reflexivity. Qed.

End Windows.

(** ** The end of the encoded file *)

Module EndOfFile.

Import Inputs.

(** A 32x2 file that ends inside a token ends the stream. *)
Lemma short_32x2_is_sentinel (bytes : list Z) :
  (List.length bytes < 8)%nat ->
  fst (next_token_32x2 (open bytes)) = end_sentinel.
Proof.
  intros H. unfold next_token_32x2, read, open. cbn [good eofbit failbit pending negb andb].
  replace (8 <=? List.length bytes)%nat with false
    by (symmetry; apply Nat.leb_gt; exact H).
  reflexivity.
Qed.

Lemma short_64x2_is_sentinel (bytes : list Z) :
  (List.length bytes < 16)%nat ->
  fst (next_token_64x2 (open bytes)) = end_sentinel.
Proof.
  intros H. unfold next_token_64x2, read, open. cbn [good eofbit failbit pending negb andb].
  replace (16 <=? List.length bytes)%nat with false
    by (symmetry; apply Nat.leb_gt; exact H).
  reflexivity.
Qed.

(** An ascii file that ends right after the digits of [start_pos] ends
    the stream. *)
Lemma ascii_position_then_eof :
  Common.next_token (mk_input (open (text "12")) FMT_ASCII)
  = Ret (end_sentinel, [],
         mk_input (mk_ifstream [] true false) FMT_ASCII).
Proof. reflexivity. Qed.

(** C9.  An ascii file that ends after the [start_pos] number and the
    white space that follows it, before any [length] number: the second
    extraction leaves [length_s] empty, and [std::stol] throws
    [std::invalid_argument], which nothing catches. *)
Theorem ascii_eof_before_length_throws :
  Common.next_token (mk_input (open (text "12 ")) FMT_ASCII)
  = Uncaught "std::invalid_argument: stol".
Proof. reflexivity. Qed.

End EndOfFile.

(** ** The vbyte format *)

Module VbyteFacts.

Import Parse Vbyte IntFacts.

(** *** Bytes, by enumeration *)

Lemma continues_high_bit (b : Z) : continues b -> (Z.land b 128 =? 0) = false.
Proof.
  intros [H1 H2].
  pose proof (forall_below (fun b => (b <? 128) || negb (Z.land b 128 =? 0)) 256
                eq_refl b ltac:(lia)) as H.
  cbv beta in H. apply orb_true_iff in H. destruct H as [H|H].
  - apply Z.ltb_lt in H. lia.
  - now apply negb_true_iff in H.
Qed.

Lemma terminal_high_bit (b : Z) : terminal b -> (Z.land b 128 =? 0) = true.
Proof.
  intros [H1 H2].
  exact (forall_below (fun b => Z.land b 128 =? 0) 128 eq_refl b ltac:(lia)).
Qed.

Lemma low_seven (n : Z) : 0 <= n -> Z.land n 127 = n mod 128.
Proof. intros H. change 127 with (Z.ones 7). now rewrite Z.land_ones by lia. Qed.

Lemma set_high_bit (m : Z) : 0 <= m < 128 -> Z.lor m 128 = m + 128.
Proof.
  intros H. apply Z.eqb_eq.
  exact (forall_below (fun m => Z.lor m 128 =? m + 128) 128 eq_refl m H).
Qed.

Lemma continues_low_seven (b : Z) : continues b -> Z.land b 127 = b - 128.
Proof.
  intros [H1 H2]. rewrite low_seven by lia.
  replace b with (b - 128 + 1 * 128) at 1 by lia.
  rewrite Z.mod_add by lia. apply Z.mod_small. lia.
Qed.

(** *** The rounds of the reading loop *)

Section Loop.

Variable limit : Z.
Variable conv : Z -> Z.

Lemma round_continues (k : nat) (b : Z) (r : list Z) (acc shiftwidth : Z) :
  shiftwidth < limit -> continues b ->
  vbyte_loop (S k) limit conv (open (b :: r)) acc shiftwidth
  = vbyte_loop k limit conv (open r)
      (conv (acc + u64 (Z.shiftl (Z.land b 127) shiftwidth))) (shiftwidth + 7).
Proof.
  intros Hs Hb. cbn [vbyte_loop].
  replace (shiftwidth <? limit) with true by (symmetry; apply Z.ltb_lt; lia).
  unfold get, open, good. cbn [eofbit failbit pending negb andb fail].
  replace (b <? 0) with false by (symmetry; apply Z.ltb_ge; destruct Hb; lia).
  rewrite (continues_high_bit b Hb). reflexivity.
Qed.

Lemma round_terminal (k : nat) (b : Z) (r : list Z) (acc shiftwidth : Z) :
  shiftwidth < limit -> terminal b ->
  vbyte_loop (S k) limit conv (open (b :: r)) acc shiftwidth
  = (Some (conv (acc + u64 (Z.shiftl b shiftwidth)), shiftwidth), open r).
Proof.
  intros Hs Hb. cbn [vbyte_loop].
  replace (shiftwidth <? limit) with true by (symmetry; apply Z.ltb_lt; lia).
  unfold get, open, good. cbn [eofbit failbit pending negb andb fail].
  replace (b <? 0) with false by (symmetry; apply Z.ltb_ge; destruct Hb; lia).
  rewrite (terminal_high_bit b Hb). reflexivity.
Qed.

Lemma round_eof (k : nat) (acc shiftwidth : Z) :
  shiftwidth < limit ->
  vbyte_loop (S k) limit conv (open []) acc shiftwidth
  = (None, mk_ifstream [] true true).
Proof.
  intros Hs. cbn [vbyte_loop].
  replace (shiftwidth <? limit) with true by (symmetry; apply Z.ltb_lt; lia).
  reflexivity.
Qed.



(** A field cut short by the end of the file: only bytes with the high
    bit set, too few to fill the accumulator. *)
Lemma loop_meets_eof (cs : list Z) :
  Forall continues cs ->
  forall (rounds : nat) (acc shiftwidth : Z),
    shiftwidth + 7 * Z.of_nat (List.length cs) < limit ->
    (List.length cs < rounds)%nat ->
    vbyte_loop rounds limit conv (open cs) acc shiftwidth
    = (None, mk_ifstream [] true true).
Proof.
  induction 1 as [|c cs Hc Hcs IH]; intros rounds acc shiftwidth Hlen Hr.
  - destruct rounds as [|k]; [cbn [List.length] in Hr; lia|].
    cbn [List.length] in Hlen. apply round_eof. lia.
  - cbn [List.length] in Hlen, Hr. destruct rounds as [|k]; [lia|].
    rewrite round_continues by (assumption || lia).
    apply IH; lia.
Qed.

(** A field that ends in time: bytes with the high bit set, then one
    with the high bit clear. *)
Lemma loop_reads_field (ks : list Z) :
  Forall continues ks ->
  forall (rounds : nat) (t : Z) (rest : list Z) (acc shiftwidth : Z),
    terminal t ->
    shiftwidth + 7 * Z.of_nat (List.length ks) < limit ->
    (List.length ks < rounds)%nat ->
    exists acc',
      vbyte_loop rounds limit conv (open (ks ++ t :: rest)) acc shiftwidth
      = (Some (acc', shiftwidth + 7 * Z.of_nat (List.length ks)), open rest).
Proof.
  induction 1 as [|c cs Hc Hcs IH]; intros rounds t rest acc shiftwidth Ht Hlen Hr.
  - cbn [List.length] in *. destruct rounds as [|k]; [lia|].
    cbn [app]. rewrite round_terminal by (assumption || lia).
    eexists. f_equal. f_equal. f_equal. lia.
  - cbn [List.length] in Hlen, Hr. destruct rounds as [|k]; [lia|].
    cbn [app]. rewrite round_continues by (assumption || lia).
    destruct (IH k t rest (conv (acc + u64 (Z.shiftl (Z.land c 127) shiftwidth)))
                (shiftwidth + 7) Ht) as (acc' & E); try lia.
    exists acc'. rewrite E. f_equal. f_equal. f_equal. cbn [List.length]. lia.
Qed.

End Loop.



(** The end of the file inside a field ends the stream. *)
Lemma vbyte_eof_in_start_pos (cs : list Z) :
  Forall continues cs -> (List.length cs < 10)%nat ->
  Common.next_token (mk_input (open cs) FMT_VBYTE)
  = Ret (end_sentinel, [], mk_input (mk_ifstream [] true true) FMT_VBYTE).
Proof.
  intros Hcs Hlen.
  unfold Common.next_token, next_token_vbyte.
  cbn [infile mode open eof fail eofbit failbit orb].
  fold (open cs). rewrite (loop_meets_eof 64 u64 cs Hcs) by lia.
  reflexivity.
Qed.

Lemma vbyte_eof_in_length (ks : list Z) (t : Z) (cs : list Z) :
  Forall continues ks -> (List.length ks < 10)%nat -> terminal t ->
  Forall continues cs -> (List.length cs < 9)%nat ->
  Common.next_token (mk_input (open (ks ++ t :: cs)) FMT_VBYTE)
  = Ret (end_sentinel, [], mk_input (mk_ifstream [] true true) FMT_VBYTE).
Proof.
  intros Hks Hlen Ht Hcs Hlen'.
  destruct (loop_reads_field 64 u64 ks Hks 11 t cs 0 0 Ht) as (pos & E); try lia.
  unfold Common.next_token, next_token_vbyte.
  cbn [infile mode open eof fail eofbit failbit orb].
  fold (open (ks ++ t :: cs)). rewrite E.
  replace (0 + 7 * Z.of_nat (List.length ks) >? 64) with false
    by (symmetry; rewrite Z.gtb_ltb; apply Z.ltb_ge; lia).
  rewrite (loop_meets_eof 63 s64 cs Hcs) by lia.
  reflexivity.
Qed.

(** *** Writing a field and reading it back *)

Lemma vbyte_put_zero (k : nat) : vbyte_put k 0 = [].
Proof. destruct k; reflexivity. Qed.

Lemma vbyte_put_small (k : nat) (n : Z) :
  0 < n <= 127 -> vbyte_put (S k) n = [n].
Proof.
  intros H. cbn [vbyte_put].
  replace (n >? 0) with true by (symmetry; apply Z.gtb_lt; lia).
  replace (n <=? 127) with true by (symmetry; apply Z.leb_le; lia).
  rewrite Z.shiftr_div_pow2 by lia. change (2 ^ 7) with 128.
  rewrite Z.div_small by lia. now rewrite vbyte_put_zero.
Qed.

Lemma vbyte_put_large (k : nat) (n : Z) :
  127 < n ->
  vbyte_put (S k) n = (n mod 128 + 128) :: vbyte_put k (n / 128).
Proof.
  intros H. cbn [vbyte_put].
  replace (n >? 0) with true by (symmetry; apply Z.gtb_lt; lia).
  replace (n <=? 127) with false by (symmetry; apply Z.leb_gt; lia).
  rewrite low_seven by lia.
  rewrite set_high_bit by (apply Z.mod_pos_bound; lia).
  rewrite Z.shiftr_div_pow2 by lia. reflexivity.
Qed.

(** The bytes put for [n] are read back as [n], added at [shiftwidth] to
    what the accumulator holds, as long as the sum fits the accumulator. *)
Lemma read_back (limit : Z) (conv : Z -> Z) :
  limit <= 64 ->
  (forall x, 0 <= x < 2 ^ limit -> conv x = x) ->
  forall (k : nat) (n acc shiftwidth : Z) (rounds : nat) (rest : list Z),
    0 < n -> n < 2 ^ (7 * Z.of_nat k) ->
    0 <= shiftwidth -> 0 <= acc ->
    acc + n * 2 ^ shiftwidth < 2 ^ limit ->
    (k <= rounds)%nat ->
    exists shiftwidth',
      vbyte_loop rounds limit conv (open (vbyte_put k n ++ rest)) acc shiftwidth
      = (Some (acc + n * 2 ^ shiftwidth, shiftwidth'), open rest)
      /\ shiftwidth' < limit.
Proof.
  intros Hlimit Hconv.
  induction k as [|k IH]; intros n acc shiftwidth rounds rest Hn Hk Hs Ha Hfit Hr.
  - change (2 ^ (7 * Z.of_nat 0)) with 1 in Hk. lia.
  - destruct rounds as [|r]; [lia|].
    assert (Hpow : 0 < 2 ^ shiftwidth) by (apply Z.pow_pos_nonneg; lia).
    assert (Hsl : shiftwidth < limit).
    { destruct (Z_lt_ge_dec shiftwidth limit) as [Hlt|Hge]; [exact Hlt|].
      pose proof (Z.pow_le_mono_r 2 limit shiftwidth ltac:(lia) ltac:(lia)). nia. }
    assert (H64 : 2 ^ limit <= 2 ^ 64) by (apply Z.pow_le_mono_r; lia).
    destruct (Z_le_gt_dec n 127) as [Hsmall|Hlarge].
    + rewrite vbyte_put_small by lia. cbn [app].
      rewrite round_terminal by (unfold terminal; lia).
      exists shiftwidth. split; [|exact Hsl].
      rewrite Z.shiftl_mul_pow2 by lia.
      rewrite u64_small by nia. rewrite Hconv by nia. reflexivity.
    + rewrite vbyte_put_large by lia. cbn [app].
      pose proof (Z.mod_pos_bound n 128 ltac:(lia)) as Hm.
      pose proof (Z.div_mod n 128 ltac:(lia)) as Hdm.
      assert (Hc : continues (n mod 128 + 128)) by (unfold continues; lia).
      rewrite round_continues by assumption.
      rewrite (continues_low_seven _ Hc).
      replace (n mod 128 + 128 - 128) with (n mod 128) by lia.
      rewrite Z.shiftl_mul_pow2 by lia.
      assert (Hq : 0 < n / 128) by (apply Z.div_str_pos; lia).
      assert (Hsplit : n * 2 ^ shiftwidth
                       = n mod 128 * 2 ^ shiftwidth
                         + n / 128 * 2 ^ (shiftwidth + 7)).
      { rewrite Z.pow_add_r by lia. change (2 ^ 7) with 128. nia. }
      assert (Hq' : 0 < n / 128 * 2 ^ (shiftwidth + 7)).
      { apply Z.mul_pos_pos; [exact Hq | apply Z.pow_pos_nonneg; lia]. }
      assert (Hlow : 0 <= n mod 128 * 2 ^ shiftwidth)
        by (apply Z.mul_nonneg_nonneg; lia).
      rewrite u64_small by lia. rewrite Hconv by lia.
      assert (Hk' : n / 128 < 2 ^ (7 * Z.of_nat k)).
      { apply Z.div_lt_upper_bound; [lia|].
        replace (7 * Z.of_nat (S k)) with (7 + 7 * Z.of_nat k) in Hk by lia.
        rewrite Z.pow_add_r in Hk by lia. exact Hk. }
      destruct (IH (n / 128) (acc + n mod 128 * 2 ^ shiftwidth) (shiftwidth + 7)
                  r rest) as (sw' & E & Hsw'); try lia.
      exists sw'. rewrite E. split; [|exact Hsw'].
      f_equal. f_equal. f_equal. lia.
Qed.

Lemma read_field_back (limit : Z) (conv : Z -> Z) :
  0 < limit <= 64 ->
  (forall x, 0 <= x < 2 ^ limit -> conv x = x) ->
  forall (n : Z) (rounds : nat) (rest : list Z),
    0 <= n < 2 ^ limit -> (10 <= rounds)%nat ->
    exists shiftwidth,
      vbyte_loop rounds limit conv (open (vbyte_field n ++ rest)) 0 0
      = (Some (n, shiftwidth), open rest)
      /\ shiftwidth < limit.
Proof.
  intros Hlimit Hconv n rounds rest Hn Hr. unfold vbyte_field.
  destruct (Z.eq_dec n 0) as [->|Hnz].
  - cbn [Z.eqb app vbyte_put Z.gtb Z.compare].
    destruct rounds as [|r]; [lia|].
    rewrite round_terminal by (unfold terminal; lia).
    exists 0. split; [|lia].
    cbn [Z.shiftl Z.add]. change (u64 0) with 0.
    rewrite Hconv; [reflexivity|]. split; [lia|]. apply Z.pow_pos_nonneg; lia.
  - replace (n =? 0) with false by (symmetry; apply Z.eqb_neq; exact Hnz).
    cbn [app].
    assert (H70 : 2 ^ limit <= 2 ^ (7 * Z.of_nat 10))
      by (apply Z.pow_le_mono_r; lia).
    destruct (read_back limit conv ltac:(lia) Hconv 10 n 0 0 rounds rest)
      as (sw & E & Hsw); try lia.
    exists sw. rewrite E. split; [|exact Hsw].
    f_equal. f_equal. f_equal. change (2 ^ 0) with 1. lia.
Qed.

(** The shape of a field, and the number it stands for. *)
Lemma put_shape (k : nat) :
  forall n : Z,
    0 < n -> n < 2 ^ (7 * Z.of_nat k) ->
    (exists ks t, vbyte_put k n = ks ++ [t]
                  /\ Forall continues ks /\ terminal t)
    /\ value (vbyte_put k n) = n.
Proof.
  induction k as [|k IH]; intros n Hn Hk.
  - change (2 ^ (7 * Z.of_nat 0)) with 1 in Hk. lia.
  - destruct (Z_le_gt_dec n 127) as [Hsmall|Hlarge].
    + rewrite vbyte_put_small by lia. split.
      * exists [], n. repeat split; [constructor | lia | lia].
      * cbn [value]. rewrite Z.mod_small by lia. lia.
    + rewrite vbyte_put_large by lia.
      pose proof (Z.mod_pos_bound n 128 ltac:(lia)) as Hm.
      pose proof (Z.div_mod n 128 ltac:(lia)) as Hdm.
      assert (Hq : 0 < n / 128) by (apply Z.div_str_pos; lia).
      assert (Hk' : n / 128 < 2 ^ (7 * Z.of_nat k)).
      { apply Z.div_lt_upper_bound; [lia|].
        replace (7 * Z.of_nat (S k)) with (7 + 7 * Z.of_nat k) in Hk by lia.
        rewrite Z.pow_add_r in Hk by lia. exact Hk. }
      destruct (IH (n / 128) Hq Hk') as ((ks & t & E & Hks & Ht) & Hv). split.
      * exists ((n mod 128 + 128) :: ks), t. rewrite E. repeat split.
        -- constructor; [unfold continues; lia | exact Hks].
        -- apply Ht.
        -- apply Ht.
      * cbn [value]. rewrite Hv.
        replace (n mod 128 + 128) with (n mod 128 + 1 * 128) by lia.
        rewrite Z.mod_add by lia. rewrite Z.mod_mod by lia. lia.
Qed.

(** A token written in the vbyte format is read back. *)
Lemma vbyte_token_back (N L : Z) (rest : list Z) :
  0 <= N < 2 ^ 64 -> 0 <= L < 2 ^ 63 ->
  Common.next_token
    (mk_input (open (vbyte_field N ++ vbyte_field L ++ rest)) FMT_VBYTE)
  = Ret (mk_token N L, [], mk_input (open rest) FMT_VBYTE).
Proof.
  intros HN HL.
  destruct (read_field_back 64 u64 ltac:(lia) u64_small N 11
              (vbyte_field L ++ rest) HN ltac:(lia)) as (sw & E & Hsw).
  destruct (read_field_back 63 s64 ltac:(lia)
              (fun x H => s64_small x ltac:(lia)) L 10 rest HL ltac:(lia))
    as (sw' & E' & Hsw').
  unfold Common.next_token, next_token_vbyte.
  cbn [infile mode open eof fail eofbit failbit orb].
  fold (open (vbyte_field N ++ vbyte_field L ++ rest)). rewrite E.
  replace (sw >? 64) with false
    by (symmetry; rewrite Z.gtb_ltb; apply Z.ltb_ge; lia).
  rewrite E'.
  replace (sw' >=? 63) with false
    by (symmetry; rewrite Z.geb_leb; apply Z.leb_gt; lia).
  cbn [start_pos length].
  replace (L =? -1) with false by (symmetry; apply Z.eqb_neq; lia).
  rewrite andb_false_r. reflexivity.
Qed.

(** C5.  For every [N] in [0, 2^64): a token with [start_pos = N],
    written in the vbyte format, is read back with [start_pos = N] (with
    any [length] a positive [int64_t] can hold); zero is written as the
    single byte 0; and for [N > 0] the field is [N] in base 128, the
    least significant digit first, with the high bit set on every byte
    but the last, and clear on the last. *)
Theorem vbyte_round_trip (N : Z) :
  0 <= N < 2 ^ 64 ->
  (forall (L : Z) (rest : list Z),
      0 <= L < 2 ^ 63 ->
      Common.next_token
        (mk_input (open (snd (output_token (mk_token N L) FMT_VBYTE) ++ rest))
                  FMT_VBYTE)
      = Ret (mk_token N L, [], mk_input (open rest) FMT_VBYTE))
  /\ vbyte_field 0 = [0]
  /\ (0 < N ->
      exists ks t, vbyte_field N = ks ++ [t]
                   /\ Forall continues ks /\ terminal t
                   /\ value (vbyte_field N) = N).
Proof.
  intros HN. split; [|split; [reflexivity|]].
  - intros L rest HL.
    assert (Hs : is_end_sentinel (mk_token N L) = false).
    { unfold is_end_sentinel. cbn [start_pos length end_sentinel].
      replace (L =? -1) with false by (symmetry; apply Z.eqb_neq; lia).
      apply andb_false_r. }
    unfold output_token. rewrite Hs. cbn [snd start_pos length].
    rewrite <- app_assoc. now apply vbyte_token_back.
  - intros Hpos. unfold vbyte_field.
    replace (N =? 0) with false by (symmetry; apply Z.eqb_neq; lia).
    cbn [app].
    assert (H70 : N < 2 ^ (7 * Z.of_nat 10)).
    { apply Z.lt_le_trans with (2 ^ 64); [lia|]. apply Z.pow_le_mono_r; lia. }
    destruct (put_shape 10 N Hpos H70) as ((ks & t & E & Hks & Ht) & Hv).
    exists ks, t. repeat split; try assumption; apply Ht.
Qed.

Lemma vbyte_round_trip_witness :
  0 <= 300 < 2 ^ 64 /\ vbyte_field 300 = [172; 2]
  /\ Common.next_token
       (mk_input (open (snd (output_token (mk_token 300 2) FMT_VBYTE) ++ [9]))
                 FMT_VBYTE)
     = Ret (mk_token 300 2, [], mk_input (open [9]) FMT_VBYTE).
Proof.
  assert (H : 0 <= 300 < 2 ^ 64) by lia.
  assert (H2 : 0 <= 2 < 2 ^ 63) by lia.
  split; [exact H | split; [reflexivity|]].
  exact (proj1 (vbyte_round_trip 300 H) 2 [9] H2).
Defined.

End VbyteFacts.

(** ** The binary searches *)

Module SearchFacts.

Import Parse Search Inputs IntFacts.

Lemma mid_between (left right : Z) :
  left <= right -> left <= Z.quot (left + right) 2 <= right.
Proof. intros H. Z.to_euclidean_division_equations. lia. Qed.

Section Searches.

Variable bits_S : Z.
Variable p : Parser.

(** The rounds given to the loops are never used up: one more changes
    nothing. *)
Lemma search_left_rounds (k : nat) :
  forall text_symbol offset old_left_bound left right : Z,
    right - left + 1 < Z.of_nat k ->
    search_left_loop bits_S (S k) p text_symbol offset old_left_bound left right
    = search_left_loop bits_S k p text_symbol offset old_left_bound left right.
Proof.
  induction k as [|k IH]; intros c offset olb left right Hk.
  - cbn [search_left_loop].
    replace (left <=? right) with false by (symmetry; apply Z.leb_gt; lia).
    reflexivity.
  - remember (S k) as k' eqn:Ek. cbn [search_left_loop]. subst k'.
    cbn [search_left_loop].
    destruct (left <=? right) eqn:Hlr; [|reflexivity].
    apply Z.leb_le in Hlr. pose proof (mid_between left right Hlr) as Hm.
    repeat match goal with
           | |- (if ?c then _ else _) = (if ?c then _ else _) => destruct c
           end; try reflexivity; apply IH; lia.
Qed.

Lemma search_right_rounds (k : nat) :
  forall text_symbol offset old_right_bound left right : Z,
    right - left + 1 < Z.of_nat k ->
    search_right_loop bits_S (S k) p text_symbol offset old_right_bound left right
    = search_right_loop bits_S k p text_symbol offset old_right_bound left right.
Proof.
  induction k as [|k IH]; intros c offset orb left right Hk.
  - cbn [search_right_loop].
    replace (left <=? right) with false by (symmetry; apply Z.leb_gt; lia).
    reflexivity.
  - remember (S k) as k' eqn:Ek. cbn [search_right_loop]. subst k'.
    cbn [search_right_loop].
    destruct (left <=? right) eqn:Hlr; [|reflexivity].
    apply Z.leb_le in Hlr. pose proof (mid_between left right Hlr) as Hm.
    repeat match goal with
           | |- (if ?c then _ else _) = (if ?c then _ else _) => destruct c
           end; try reflexivity; apply IH; lia.
Qed.

(** What the loop of [search_left] returns: the negative of a left bound
    plus one, or an index of the range at which the symbol occurs. *)
Lemma search_left_loop_result (k : nat) :
  forall text_symbol offset old_left_bound left right : Z,
    let r := search_left_loop bits_S k p text_symbol offset old_left_bound
               left right in
    r <= - (left + 1)
    \/ (left <= r <= right /\ occurs_at bits_S p text_symbol offset r = true).
Proof.
  induction k as [|k IH]; intros c offset olb left right; cbn zeta.
  - left. cbn [search_left_loop]. lia.
  - cbn [search_left_loop].
    destruct (left <=? right) eqn:Hlr; [|left; lia].
    apply Z.leb_le in Hlr. pose proof (mid_between left right Hlr) as Hm.
    set (mid := Z.quot (left + right) 2) in *.
    assert (Hup : forall r,
               r <= - (mid + 1 + 1)
               \/ (mid + 1 <= r <= right /\ occurs_at bits_S p c offset r = true) ->
               r <= - (left + 1)
               \/ (left <= r <= right /\ occurs_at bits_S p c offset r = true)).
    { intros r [H|[H H']]; [left; lia | right; split; [lia | exact H']]. }
    assert (Hdown : forall r,
               r <= - (left + 1)
               \/ (left <= r <= mid - 1 /\ occurs_at bits_S p c offset r = true) ->
               r <= - (left + 1)
               \/ (left <= r <= right /\ occurs_at bits_S p c offset r = true)).
    { intros r [H|[H H']]; [left; lia | right; split; [lia | exact H']]. }
    destruct (sa_plus bits_S p mid offset >=? unsign (dict_size p)) eqn:Hend.
    { apply Hup, IH. }
    destruct (dict_at_sa bits_S p mid offset <? c) eqn:Hlt.
    { apply Hup, IH. }
    destruct (dict_at_sa bits_S p mid offset >? c) eqn:Hgt.
    { apply Hdown, IH. }
    assert (Hocc : occurs_at bits_S p c offset mid = true).
    { unfold occurs_at. apply andb_true_iff. split.
      - apply Z.ltb_lt. rewrite Z.geb_leb in Hend. apply Z.leb_gt in Hend. lia.
      - apply Z.eqb_eq. apply Z.ltb_ge in Hlt. rewrite Z.gtb_ltb in Hgt.
        apply Z.ltb_ge in Hgt. lia. }
    repeat match goal with
           | |- context [if ?c then _ else _] => destruct c
           end;
      try (right; split; [lia | exact Hocc]); apply Hdown, IH.
Qed.


End Searches.

(** [search_right] taken on its own, in a call that [next_token] never
    makes (it calls [search_right] only from an index that
    [search_left] has found): on the dictionary ["b"] with its suffix
    array [[0]], looking for ['a'] at depth 0 in the range [[0, 0]],
    the loop ends with [right = -1], and the value returned,
    [-(right - 1)], is 2. *)
Lemma search_right_not_found_not_negative (dict_mem sa_mem : Z -> Z) :
  let p := make_parser 1 32 [] (text "b") (sa32 [0]) dict_mem sa_mem in
  occurs_at 32 p 97 0 0 = false
  /\ search_right 32 p 97 0 0 0 = 2.
Proof. split; reflexivity. Qed.

End SearchFacts.

(** ** The unparser on valid tokens *)

Module WindowFacts.

Import Unparse Tokens IntFacts Windows.

Lemma s64_congruent (x k : Z) : 0 <= k <= 64 -> wrap_u k (s64 x) = wrap_u k x.
Proof.
  intros Hk. unfold s64, wrap_s, wrap_u. change (2 ^ (64 - 1)) with (2 ^ 63).
  rewrite (Z.mod_eq (x + 2 ^ 63) (2 ^ 64)) by lia.
  replace (2 ^ 64) with (2 ^ (64 - k) * 2 ^ k)
    by (rewrite <- Z.pow_add_r by lia; f_equal; lia).
  replace (x + 2 ^ 63 - 2 ^ (64 - k) * 2 ^ k
                        * ((x + 2 ^ 63) / (2 ^ (64 - k) * 2 ^ k)) - 2 ^ 63)
    with (x + (- (2 ^ (64 - k) * ((x + 2 ^ 63) / (2 ^ (64 - k) * 2 ^ k)))) * 2 ^ k)
    by ring.
  apply Z.mod_add. apply Z.pow_nonzero; lia.
Qed.

Lemma slice_app (a b : Z) (x y : list Z) :
  slice a b (x ++ y)
  = slice a b x
    ++ skipn (Z.to_nat (a - 1) - List.length x)
             (firstn (Z.to_nat b - List.length x) y).
Proof.
  unfold slice. rewrite firstn_app, skipn_app. f_equal.
  rewrite length_firstn.
  destruct (Nat.le_gt_cases (List.length x) (Z.to_nat b)) as [H|H].
  - now rewrite Nat.min_r by lia.
  - replace (Z.to_nat b - List.length x)%nat with 0%nat by lia.
    cbn [firstn]. now rewrite !skipn_nil.
Qed.

Section Window.

Variable sizeof_T : nat.
Hypothesis width : (sizeof_T <= 8)%nat.

Lemma put_symbol_wrap (x : Z) :
  put_symbol sizeof_T (s64 x)
  = put_symbol sizeof_T (wrap_u (8 * Z.of_nat sizeof_T) x).
Proof.
  unfold put_symbol. f_equal. rewrite s64_congruent by lia.
  unfold wrap_u. symmetry. apply Z.mod_mod. apply Z.pow_nonzero; lia.
Qed.

Lemma payload_length (d : FileReader) (t : RLZToken) :
  valid sizeof_T d t = true ->
  Z.of_nat (List.length (payload sizeof_T d t))
  = if length t =? 0 then 1 else length t.
Proof.
  unfold valid, payload. destruct (length t =? 0); intros H.
  - reflexivity.
  - apply andb_true_iff in H. destruct H as [H H3].
    apply andb_true_iff in H. destruct H as [H1 H2].
    apply Z.ltb_lt in H1. apply Z.leb_le in H2, H3. unfold size in H3.
    rewrite length_firstn, length_skipn. lia.
Qed.

Lemma write_next_literal (w : OutputWriter) (t : RLZToken) (start stop : Z) :
  length t = 0 ->
  write_next sizeof_T w t start stop
  = (1, mk_writer (dict w)
          (outfile w ++ bytes_of sizeof_T (payload sizeof_T (dict w) t))
          (cerr w)).
Proof.
  intros H. unfold write_next, payload, bytes_of. rewrite H. cbn [Z.eqb flat_map].
  rewrite app_nil_r, put_symbol_wrap. reflexivity.
Qed.

Lemma write_next_copy (w : OutputWriter) (t : RLZToken) (start stop : Z) :
  valid sizeof_T (dict w) t = true -> length t <> 0 -> size (dict w) < 2 ^ 63 ->
  let stop' := if stop <=? 0 then length t else stop in
  0 <= start <= stop' -> stop' <= length t ->
  write_next sizeof_T w t start stop
  = (length t,
     mk_writer (dict w)
       (outfile w
        ++ bytes_of sizeof_T
             (skipn (Z.to_nat start)
                    (firstn (Z.to_nat stop') (payload sizeof_T (dict w) t))))
       (cerr w)).
Proof.
  intros Hv Hl Hsize stop' Hstart Hstop.
  unfold valid in Hv. unfold write_next, payload, bytes_of.
  replace (length t =? 0) with false in * by (symmetry; apply Z.eqb_neq; exact Hl).
  apply andb_true_iff in Hv. destruct Hv as [Hv H3].
  apply andb_true_iff in Hv. destruct Hv as [H1 H2].
  apply Z.ltb_lt in H1. apply Z.leb_le in H2, H3.
  fold stop'.
  rewrite (s64_small (start_pos t)) by lia.
  rewrite (s64_small (start_pos t + stop')) by lia.
  rewrite (s64_small (start_pos t + start)) by lia.
  unfold dict_size.
  replace (start_pos t + stop' >? size (dict w)) with false
    by (symmetry; rewrite Z.gtb_ltb; apply Z.ltb_ge; lia).
  rewrite app_nil_r. f_equal. f_equal. f_equal. f_equal.
  rewrite dict_range_in_bounds by lia.
  rewrite firstn_firstn, Nat.min_l by lia.
  rewrite skipn_firstn_comm, skipn_skipn. f_equal; [lia | f_equal; lia].
Qed.

Variable d : FileReader.
Hypothesis dict_fits : size d < 2 ^ 63.

Variables a b : Z.
Hypothesis window : 1 <= a <= b.

(** The file the writer starts from. *)
Variable out0 : list Z.

Local Abbreviation after := (Tokens.after sizeof_T d a b out0).

Lemma after_next (st : progress) (syms y part : list Z) (w : OutputWriter)
    (r : RLZInputReader) (n m : Z) :
  after st syms ->
  dict w = d ->
  outfile w = outfile (writer st) ++ bytes_of sizeof_T part ->
  part = skipn (Z.to_nat (a - 1) - List.length syms)
               (firstn (Z.to_nat b - List.length syms) y) ->
  after (mk_progress w r n m (output_pos st + Z.of_nat (List.length y)))
        (syms ++ y).
Proof.
  intros (Hp & Ho & Hd) Hw Hout Hpart. unfold Tokens.after.
  repeat split; cbn [output_pos writer].
  - rewrite length_app, Hp. lia.
  - rewrite Hout, Ho, slice_app, <- Hpart. unfold bytes_of.
    now rewrite flat_map_app, app_assoc.
  - exact Hw.
Qed.

(** One token of a window [(a, b)]. *)
Lemma visit_window (st : progress) (r : RLZInputReader) (t : RLZToken)
    (syms : list Z) :
  valid sizeof_T d t = true ->
  after st syms ->
  match visit sizeof_T st r t a b with
  | inl st' => after st' (syms ++ payload sizeof_T d t) /\ reader st' = r
  | inr st' =>
      b <= Z.of_nat (List.length syms)
      /\ outfile (writer st') = outfile (writer st)
  end.
Proof.
  intros Hv Hafter. pose proof Hafter as (Hp & Ho & Hd).
  pose proof (payload_length d t Hv) as Hlen.
  set (y := payload sizeof_T d t) in *.
  assert (Hy : 1 <= Z.of_nat (List.length y)).
  { rewrite Hlen. unfold valid in Hv.
    destruct (length t =? 0); [lia|].
    apply andb_true_iff in Hv. destruct Hv as [Hv _].
    apply andb_true_iff in Hv. destruct Hv as [Hv _].
    apply Z.ltb_lt in Hv. lia. }
  unfold visit.
  replace (a =? 0) with false by (symmetry; apply Z.eqb_neq; lia).
  replace (b =? 0) with false by (symmetry; apply Z.eqb_neq; lia).
  rewrite !andb_false_r. cbn [andb].
  rewrite <- Hlen, Hp.
  rewrite !Z.gtb_ltb, !Z.geb_leb.
  destruct (Z.ltb_spec b (Z.of_nat (List.length syms) + 1)) as [Hb|Hb].
  { cbn [orb]. split; [lia | reflexivity]. }
  cbn [orb].
  destruct (Z.ltb_spec (Z.of_nat (List.length syms) + Z.of_nat (List.length y)) a)
    as [Ha|Ha].
  { (* the token ends before the window *)
    split; [|reflexivity]. unfold skip. rewrite <- Hp.
    apply after_next with (part := []); try assumption; try reflexivity.
    - cbn. now rewrite app_nil_r.
    - symmetry. apply skipn_all2. rewrite length_firstn. lia. }
  destruct (length t =? 0) eqn:Hlit.
  - (* a literal is inside the window *)
    apply Z.eqb_eq in Hlit.
    replace (a <=? Z.of_nat (List.length syms) + 1) with true
      by (symmetry; apply Z.leb_le; lia).
    replace (Z.of_nat (List.length syms) + Z.of_nat (List.length y) <=? b)
      with true by (symmetry; apply Z.leb_le; lia).
    cbn [andb]. unfold emit. rewrite write_next_literal by exact Hlit.
    split; [|reflexivity]. rewrite <- Hp, Hd.
    apply after_next with (part := y); try assumption; try reflexivity.
    replace (Z.to_nat (a - 1) - List.length syms)%nat with 0%nat by lia.
    cbn [skipn]. symmetry. apply firstn_all2. lia.
  - apply Z.eqb_neq in Hlit.
    assert (Hw : dict (writer st) = d) by exact Hd.
    assert (Hfits : size (dict (writer st)) < 2 ^ 63) by (rewrite Hw; exact dict_fits).
    assert (Hv' : valid sizeof_T (dict (writer st)) t = true) by (rewrite Hw; exact Hv).
    assert (Hy' : payload sizeof_T (dict (writer st)) t = y)
      by (rewrite Hw; reflexivity).
    destruct (Z.leb_spec a (Z.of_nat (List.length syms) + 1)) as [Hs|Hs];
      destruct (Z.leb_spec (Z.of_nat (List.length syms) + Z.of_nat (List.length y)) b)
        as [He|He]; cbn [andb].
    + (* inside *)
      unfold emit. rewrite write_next_copy; try assumption;
        cbn [Z.leb Z.compare]; try lia.
      split; [|reflexivity]. rewrite <- Hp, Hy'.
      apply after_next with (part := skipn (Z.to_nat 0) (firstn (Z.to_nat (length t)) y));
        try assumption; try reflexivity.
      replace (Z.to_nat (a - 1) - List.length syms)%nat with (Z.to_nat 0) by lia.
      f_equal. rewrite !firstn_all2 by lia. reflexivity.
    + (* over the end *)
      rewrite andb_false_r.
      replace (b <=? Z.of_nat (List.length syms) + Z.of_nat (List.length y))
        with true by (symmetry; apply Z.leb_le; lia).
      cbn [andb].
      assert (Hstop : (length t + b
                       - (Z.of_nat (List.length syms) + Z.of_nat (List.length y))
                       <=? 0) = false) by (apply Z.leb_gt; lia).
      unfold emit. rewrite write_next_copy; try assumption;
        rewrite ?Hstop; try lia.
      split; [|reflexivity]. rewrite <- Hp, Hy'.
      eapply after_next; try eassumption; try reflexivity.
      replace (Z.to_nat (a - 1) - List.length syms)%nat with (Z.to_nat 0) by lia.
      f_equal. f_equal. lia.
    + (* over the start *)
      assert (Hgoal :
        after (emit sizeof_T st r t (a - (Z.of_nat (List.length syms) + 1))
                 (length t)
                 (Z.of_nat (List.length syms) + Z.of_nat (List.length y)))
              (syms ++ y)
        /\ reader (emit sizeof_T st r t (a - (Z.of_nat (List.length syms) + 1))
                     (length t)
                     (Z.of_nat (List.length syms) + Z.of_nat (List.length y))) = r).
      { unfold emit.
        assert (Hstop : (length t <=? 0) = false) by (apply Z.leb_gt; lia).
        rewrite write_next_copy; try assumption; rewrite ?Hstop; try lia.
        split; [|reflexivity]. rewrite <- Hp, Hy'.
        eapply after_next; try eassumption; try reflexivity.
        f_equal; [lia|]. rewrite !firstn_all2 by lia. reflexivity. }
      replace (Z.of_nat (List.length syms) + 1 <=? a) with true
        by (symmetry; apply Z.leb_le; lia).
      cbn [andb]. exact Hgoal.
    + (* over both ends *)
      replace (Z.of_nat (List.length syms) + 1 <=? a) with true
        by (symmetry; apply Z.leb_le; lia).
      replace (b <=? Z.of_nat (List.length syms) + Z.of_nat (List.length y))
        with true by (symmetry; apply Z.leb_le; lia).
      cbn [andb].
      assert (Hstop : (length t + b
                       - (Z.of_nat (List.length syms) + Z.of_nat (List.length y))
                       <=? 0) = false) by (apply Z.leb_gt; lia).
      unfold emit. rewrite write_next_copy; try assumption;
        rewrite ?Hstop; try lia.
      split; [|reflexivity]. rewrite <- Hp, Hy'.
      eapply after_next; try eassumption; try reflexivity.
      f_equal; [lia|]. f_equal. lia.
Qed.

(** The loop over a stream of valid tokens writes the window of what
    the tokens stand for. *)
Lemma unparse_loop_window (r : RLZInputReader) (toks : list RLZToken) :
  stream_of r toks ->
  forall (st : progress) (syms : list Z) (rounds : nat),
    forallb (valid sizeof_T d) toks = true ->
    after st syms -> reader st = r ->
    (List.length toks < rounds)%nat ->
    exists st',
      unparse_loop sizeof_T rounds st a b = Ret st'
      /\ outfile (writer st')
         = out0 ++ bytes_of sizeof_T (slice a b (syms ++ expand sizeof_T d toks)).
Proof.
  induction 1 as [r Hend | r r' t toks Hk Hn Hs Hrest IH];
    intros st syms rounds Hv Hafter Hr Hrounds.
  - destruct rounds as [|k]; [cbn in Hrounds; lia|].
    cbn [unparse_loop expand flat_map]. rewrite app_nil_r, Hr.
    destruct Hafter as (Hp & Ho & Hd).
    destruct (keep_going r) eqn:Hk.
    + destruct Hend as [Hend | (ws & r' & Hend)]; [discriminate|].
      rewrite Hend. cbn [bind]. change (is_end_sentinel end_sentinel) with true.
      cbn iota. eexists. split; [reflexivity|]. exact Ho.
    + eexists. split; [reflexivity|]. exact Ho.
  - destruct rounds as [|k]; [cbn in Hrounds; lia|].
    cbn [unparse_loop]. rewrite Hr, Hk, Hn. cbn [bind]. rewrite Hs.
    cbn [forallb] in Hv. apply andb_true_iff in Hv. destruct Hv as [Hvt Hv].
    set (st1 := mk_progress
                  (mk_writer (dict (writer st)) (outfile (writer st))
                             (cerr (writer st) ++ []))
                  r (toks_read st) (syms_written st) (output_pos st)).
    assert (Hafter1 : after st1 syms).
    { destruct Hafter as (Hp & Ho & Hd). unfold Tokens.after. repeat split; assumption. }
    pose proof (visit_window st1 r' t syms Hvt Hafter1) as Hvisit.
    destruct (visit sizeof_T st1 r' t a b) as [st'|st'].
    + destruct Hvisit as [Hafter' Hr'].
      cbn [List.length] in Hrounds.
      destruct (IH st' (syms ++ payload sizeof_T d t) k Hv Hafter' Hr')
        as (st'' & E & Hout); [lia|].
      exists st''. split; [exact E|].
      rewrite Hout. cbn [expand flat_map]. now rewrite <- app_assoc.
    + destruct Hvisit as [Hb Hout]. exists st'. split; [reflexivity|].
      rewrite Hout. destruct Hafter1 as (_ & Ho & _). rewrite Ho.
      f_equal. f_equal. unfold slice. f_equal.
      rewrite firstn_app.
      replace (Z.to_nat b - List.length syms)%nat with 0%nat by lia.
      cbn [firstn]. now rewrite app_nil_r.
Qed.

(** Without a window the loop writes all that the tokens stand for. *)
Lemma unparse_loop_full (r : RLZInputReader) (toks : list RLZToken) :
  stream_of r toks ->
  forall (st : progress) (rounds : nat),
    forallb (valid sizeof_T d) toks = true ->
    dict (writer st) = d -> reader st = r ->
    (List.length toks < rounds)%nat ->
    exists st',
      unparse_loop sizeof_T rounds st 0 0 = Ret st'
      /\ outfile (writer st')
         = outfile (writer st) ++ bytes_of sizeof_T (expand sizeof_T d toks).
Proof.
  induction 1 as [r Hend | r r' t toks Hk Hn Hs Hrest IH];
    intros st rounds Hv Hd Hr Hrounds.
  - destruct rounds as [|k]; [cbn in Hrounds; lia|].
    cbn [unparse_loop expand flat_map bytes_of]. rewrite app_nil_r, Hr.
    destruct (keep_going r) eqn:Hk.
    + destruct Hend as [Hend | (ws & r' & Hend)]; [discriminate|].
      rewrite Hend. cbn [bind]. change (is_end_sentinel end_sentinel) with true.
      cbn iota. eexists. split; reflexivity.
    + eexists. split; reflexivity.
  - destruct rounds as [|k]; [cbn in Hrounds; lia|].
    cbn [unparse_loop]. rewrite Hr, Hk, Hn. cbn [bind]. rewrite Hs.
    cbn [forallb] in Hv. apply andb_true_iff in Hv. destruct Hv as [Hvt Hv].
    rewrite full_mode_goes_on.
    cbn [List.length] in Hrounds.
    set (st1 := mk_progress
                  (mk_writer (dict (writer st)) (outfile (writer st))
                             (cerr (writer st) ++ []))
                  r (toks_read st) (syms_written st) (output_pos st)).
    assert (Hd1 : dict (writer st1) = d) by exact Hd.
    assert (Hfits : size (dict (writer st1)) < 2 ^ 63)
      by (rewrite Hd1; exact dict_fits).
    assert (Hv1 : valid sizeof_T (dict (writer st1)) t = true) by (rewrite Hd1; exact Hvt).
    assert (Hw : exists w,
               write_next sizeof_T (writer st1) t 0 0 = (if length t =? 0 then 1 else length t, w)
               /\ dict w = d
               /\ outfile w = outfile (writer st)
                              ++ bytes_of sizeof_T (payload sizeof_T d t)).
    { destruct (Z.eqb_spec (length t) 0) as [Hlit|Hcopy].
      - rewrite write_next_literal by exact Hlit. eexists. split; [reflexivity|].
        split; [exact Hd|]. cbn [outfile]. rewrite Hd1. reflexivity.
      - pose proof (payload_length d t Hvt) as Hlen.
        replace (length t =? 0) with false in Hlen
          by (symmetry; apply Z.eqb_neq; exact Hcopy).
        rewrite write_next_copy; try assumption; cbn [Z.leb Z.compare]; try lia.
        eexists. split; [reflexivity|]. split; [exact Hd|]. cbn [outfile].
        rewrite Hd1. cbn [skipn Z.to_nat]. rewrite firstn_all2 by lia. reflexivity. }
    destruct Hw as (w & Ew & Hdw & How).
    unfold emit. rewrite Ew.
    match goal with
    | |- context [unparse_loop _ _ ?s _ _] =>
        destruct (IH s k Hv Hdw eq_refl) as (st' & E & Hout); [lia|]
    end.
    exists st'. split; [exact E|].
    rewrite Hout. cbn [writer]. rewrite How. cbn [expand flat_map].
    unfold bytes_of. now rewrite flat_map_app, app_assoc.
Qed.

End Window.

(** *** Every token takes at least one byte of the file *)

Lemma skip_space_length (l : list Z) :
  (List.length (skip_space l) <= List.length l)%nat.
Proof.
  induction l as [|c l IH]; cbn [skip_space List.length]; [lia|].
  destruct (isspace c); cbn [List.length]; lia.
Qed.

Lemma take_word_length (l : list Z) :
  (List.length (snd (take_word l)) <= List.length l)%nat.
Proof.
  induction l as [|c l IH]; cbn [take_word List.length snd]; [lia|].
  destruct (isspace c); cbn [snd List.length]; [lia|].
  destruct (take_word l) as [w rest]. cbn [snd] in *. lia.
Qed.

Lemma extract_word_length (s : ifstream) :
  (List.length (pending (snd (extract_word s))) <= List.length (pending s))%nat.
Proof.
  unfold extract_word. destruct (good s); cbn [snd pending]; [|lia].
  pose proof (skip_space_length (pending s)) as H1.
  destruct (skip_space (pending s)) as [|c l] eqn:E; cbn [snd pending List.length]; [lia|].
  pose proof (take_word_length (c :: l)) as H2.
  destruct (take_word (c :: l)) as [w rest]. cbn [snd pending List.length] in *. lia.
Qed.

Lemma skip_space_head (l : list Z) (c : Z) (r : list Z) :
  skip_space l = c :: r -> isspace c = false.
Proof.
  induction l as [|x l IH]; cbn [skip_space]; [discriminate|].
  destruct (isspace x) eqn:Hx; [exact IH|].
  intros H. injection H as -> _. exact Hx.
Qed.

Lemma extract_word_consumes (s : ifstream) :
  good s = true -> eof (snd (extract_word s)) = false ->
  (List.length (pending (snd (extract_word s))) < List.length (pending s))%nat.
Proof.
  intros Hg. unfold extract_word. rewrite Hg.
  pose proof (skip_space_length (pending s)) as H1.
  destruct (skip_space (pending s)) as [|c l] eqn:E; cbn [snd pending eof eofbit];
    [discriminate|].
  pose proof (skip_space_head _ _ _ E) as Hc.
  pose proof (take_word_length l) as H2.
  cbn [take_word]. rewrite Hc. destruct (take_word l) as [w rest].
  cbn [snd pending eof eofbit List.length] in *. intros _. lia.
Qed.

Lemma vbyte_loop_consumes (rounds : nat) (limit : Z) (conv : Z -> Z) :
  forall (s : ifstream) (acc shiftwidth : Z) (res : Z * Z) (s' : ifstream),
    vbyte_loop rounds limit conv s acc shiftwidth = (Some res, s') ->
    good s = true ->
    good s' = true
    /\ (List.length (pending s') <= List.length (pending s))%nat
    /\ (shiftwidth < limit -> (0 < rounds)%nat ->
        (List.length (pending s') < List.length (pending s))%nat).
Proof.
  induction rounds as [|k IH]; intros s acc shiftwidth res s' E Hg.
  - cbn [vbyte_loop] in E. injection E as _ <-. split; [exact Hg | split; lia].
  - cbn [vbyte_loop] in E.
    destruct (Z.ltb_spec shiftwidth limit) as [Hlt|Hge].
    + unfold get in E. rewrite Hg in E.
      destruct (pending s) as [|c r] eqn:Ep; cbn [fail failbit] in E; [discriminate|].
      destruct (negb (Z.land (if c <? 0 then ULLONG_MAX else c) 128 =? 0)).
      * destruct (IH _ _ _ _ _ E eq_refl) as (Hg' & Hle & _).
        cbn [pending List.length] in *. split; [exact Hg' | split; lia].
      * injection E as _ <-. cbn [pending List.length].
        split; [reflexivity | split; lia].
    + injection E as _ <-. split; [exact Hg | split; lia].
Qed.

Lemma next_token_consumes (r r' : RLZInputReader) (t : RLZToken)
    (warnings : list string) :
  keep_going r = true ->
  Common.next_token r = Ret (t, warnings, r') ->
  is_end_sentinel t = false ->
  (List.length (pending (infile r')) < List.length (pending (infile r)))%nat.
Proof.
  unfold keep_going, Common.next_token. intros Hk.
  apply negb_true_iff in Hk. rewrite Hk.
  assert (Hg : good (infile r) = true).
  { unfold good. unfold eof, fail in Hk. apply orb_false_iff in Hk.
    destruct Hk as [-> ->]. reflexivity. }
  destruct (mode r) eqn:Hm.
  - unfold next_token_32x2, read. rewrite Hg.
    destruct (Nat.leb_spec 8 (List.length (pending (infile r)))) as [H|H];
      cbn [fail failbit]; intros E Hs.
    + assert (Er : r' = mk_input (mk_ifstream (skipn 8 (pending (infile r)))
                                              false false) FMT_32X2)
        by congruence.
      rewrite Er. cbn [infile pending]. rewrite length_skipn. lia.
    + assert (Et : t = end_sentinel) by congruence.
      rewrite Et in Hs. discriminate.
  - unfold next_token_64x2, read. rewrite Hg.
    destruct (Nat.leb_spec 16 (List.length (pending (infile r)))) as [H|H];
      cbn [fail failbit]; intros E Hs.
    + assert (Er : r' = mk_input (mk_ifstream (skipn 16 (pending (infile r)))
                                              false false) FMT_64X2)
        by congruence.
      rewrite Er. cbn [infile pending]. rewrite length_skipn. lia.
    + assert (Et : t = end_sentinel) by congruence.
      rewrite Et in Hs. discriminate.
  - unfold next_token_ascii.
    pose proof (extract_word_consumes (infile r) Hg) as H1.
    destruct (extract_word (infile r)) as [position_s s1]. cbn [snd] in H1.
    destruct (eof s1) eqn:He.
    { cbn [bind]. intros E Hs. injection E as <- _ _. discriminate. }
    pose proof (extract_word_length s1) as H2.
    destruct (extract_word s1) as [length_s s2]. cbn [snd] in H2.
    destruct (stoul position_s); cbn [bind]; try discriminate.
    destruct (stol length_s); cbn [bind]; try discriminate.
    intros E Hs. injection E as _ _ <-. cbn [infile]. specialize (H1 eq_refl). lia.
  - unfold next_token_vbyte.
    destruct (vbyte_loop 11 64 u64 (infile r) 0 0) as [[[pos sw]|] s1] eqn:E1.
    + destruct (vbyte_loop_consumes _ _ _ _ _ _ _ _ E1 Hg) as (Hg1 & _ & Hlt).
      specialize (Hlt ltac:(lia) ltac:(lia)).
      destruct (sw >? 64).
      { cbn. discriminate. }
      destruct (vbyte_loop 10 63 s64 s1 0 0) as [[[len sw']|] s2] eqn:E2.
      * destruct (vbyte_loop_consumes _ _ _ _ _ _ _ _ E2 Hg1) as (_ & Hle & _).
        destruct (sw' >=? 63).
        { cbn. discriminate. }
        destruct ((start_pos (mk_token pos len) =? 0)
                  && (length (mk_token pos len) =? -1)); [discriminate|].
        intros E Hs. injection E as _ _ <-. cbn [infile]. lia.
      * change (start_pos end_sentinel =? 0) with false. cbn [andb].
        intros E Hs. injection E as <- _ _. discriminate.
    + change (start_pos end_sentinel =? 0) with false. cbn [andb].
      intros E Hs. injection E as <- _ _. discriminate.
Qed.

Lemma stream_length (r : RLZInputReader) (toks : list RLZToken) :
  stream_of r toks ->
  (List.length toks <= List.length (pending (infile r)))%nat.
Proof.
  induction 1 as [r Hend | r r' t toks Hk Hn Hs Hrest IH]; cbn [List.length]; [lia|].
  pose proof (next_token_consumes r r' t [] Hk Hn Hs). lia.
Qed.

(** The unparser on a stream of valid tokens: without a window it
    writes the symbols the tokens stand for, and with a window [(a, b)],
    [1 <= a <= b], the symbols [a .. b] of them. *)
Theorem unparse_full (sizeof_T : nat) (w : OutputWriter) (r : RLZInputReader)
    (toks : list RLZToken) :
  (sizeof_T <= 8)%nat -> size (dict w) < 2 ^ 63 ->
  stream_of r toks -> forallb (valid sizeof_T (dict w)) toks = true ->
  exists x st,
    unparse sizeof_T w r 0 0 = Ret (x, st)
    /\ outfile (writer st)
       = outfile w ++ bytes_of sizeof_T (expand sizeof_T (dict w) toks).
Proof.
  intros Hw Hd Hs Hv. unfold unparse.
  destruct (unparse_loop_full sizeof_T Hw (dict w) Hd r toks Hs
              (mk_progress w r 0 0 0) (S (List.length (pending (infile r)))) Hv
              eq_refl eq_refl) as (st & E & Hout).
  { pose proof (stream_length r toks Hs). lia. }
  rewrite E. cbn [bind]. eexists. eexists. split; [reflexivity|]. exact Hout.
Qed.

Theorem unparse_window (sizeof_T : nat) (w : OutputWriter) (r : RLZInputReader)
    (toks : list RLZToken) (a b : Z) :
  (sizeof_T <= 8)%nat -> size (dict w) < 2 ^ 63 ->
  stream_of r toks -> forallb (valid sizeof_T (dict w)) toks = true ->
  1 <= a <= b ->
  exists x st,
    unparse sizeof_T w r a b = Ret (x, st)
    /\ outfile (writer st)
       = outfile w
         ++ bytes_of sizeof_T (slice a b (expand sizeof_T (dict w) toks)).
Proof.
  intros Hw Hd Hs Hv Hab. unfold unparse.
  destruct (unparse_loop_window sizeof_T Hw (dict w) Hd a b Hab (outfile w)
              r toks Hs (mk_progress w r 0 0 0) []
              (S (List.length (pending (infile r)))) Hv)
    as (st & E & Hout).
  { unfold Tokens.after, slice. cbn [output_pos writer List.length].
    rewrite firstn_nil, skipn_nil. cbn [bytes_of flat_map]. rewrite app_nil_r.
    repeat split. }
  { reflexivity. }
  { pose proof (stream_length r toks Hs). lia. }
  rewrite E. cbn [bind]. eexists. eexists. split; [reflexivity|]. exact Hout.
Qed.

(** The two-token file of the examples is such a stream. *)
Lemma two_tokens_stream :
  stream_of (mk_input (open Inputs.two_tokens_ascii) FMT_ASCII)
            [mk_token 0 5; mk_token 3 2].
Proof.
  eapply stream_token; [reflexivity | reflexivity | reflexivity |].
  eapply stream_token; [reflexivity | reflexivity | reflexivity |].
  apply stream_end. right. eexists. eexists. reflexivity.
Qed.

Lemma two_tokens_window_by_theorem (mem : Z -> Z) :
  exists x st,
    unparse 1 (make_writer 1 Inputs.abracadabra mem)
      (mk_input (open Inputs.two_tokens_ascii) FMT_ASCII) 3 5 = Ret (x, st)
    /\ outfile (writer st) = Inputs.text "rac".
Proof.
  destruct (unparse_window 1 (make_writer 1 Inputs.abracadabra mem) _ _ 3 5
              ltac:(lia) ltac:(cbn; lia) two_tokens_stream eq_refl ltac:(lia))
    as (x & st & E & Hout).
  exists x, st. split; [exact E | exact Hout].
Qed.

End WindowFacts.

(** ** The order of suffixes *)

Module OrderFacts.

Import Pipeline ParserSpec.

Lemma suffix_le_refl (x : list Z) : suffix_le x x = true.
Proof.
  induction x as [|a x IH]; cbn [suffix_le]; [reflexivity|].
  rewrite Z.eqb_refl, IH. apply orb_true_r.
Qed.

Lemma suffix_le_trans (x y z : list Z) :
  suffix_le x y = true -> suffix_le y z = true -> suffix_le x z = true.
Proof.
  revert y z. induction x as [|a x IH]; intros [|b y] [|c z]; cbn [suffix_le];
    try reflexivity; try discriminate.
  intros H1 H2.
  apply orb_true_iff in H1. apply orb_true_iff in H2. apply orb_true_iff.
  destruct H1 as [H1|H1], H2 as [H2|H2].
  - left. apply Z.ltb_lt in H1, H2. apply Z.ltb_lt. lia.
  - apply andb_true_iff in H2. destruct H2 as [H2 _].
    left. apply Z.ltb_lt in H1. apply Z.eqb_eq in H2. apply Z.ltb_lt. lia.
  - apply andb_true_iff in H1. destruct H1 as [H1 _].
    left. apply Z.ltb_lt in H2. apply Z.eqb_eq in H1. apply Z.ltb_lt. lia.
  - apply andb_true_iff in H1. destruct H1 as [H1 H1'].
    apply andb_true_iff in H2. destruct H2 as [H2 H2'].
    right. apply Z.eqb_eq in H1, H2. subst.
    rewrite Z.eqb_refl. cbn [andb]. eapply IH; eassumption.
Qed.

(** Two suffixes in order that start with the same symbols are in order
    after them. *)
Lemma suffix_le_after (u x y : list Z) :
  suffix_le (u ++ x) (u ++ y) = suffix_le x y.
Proof.
  induction u as [|a u IH]; cbn [app suffix_le]; [reflexivity|].
  rewrite Z.ltb_irrefl, Z.eqb_refl. cbn [orb andb]. exact IH.
Qed.

Lemma suffix_le_key (x y : list Z) :
  Forall (fun a => 0 <= a) y ->
  suffix_le x y = true -> key x <= key y.
Proof.
  destruct x as [|a x], y as [|b y]; cbn [suffix_le key]; intros Hy H;
    try discriminate; try lia.
  inversion Hy; subst. lia.
Qed.

(** In a sorted list of suffixes any two are in order. *)
Lemma sorted_suffixes_tail (d : list Z) (x : Z) (sa : list Z) :
  sorted_suffixes d (x :: sa) = true -> sorted_suffixes d sa = true.
Proof.
  destruct sa as [|y sa]; [reflexivity|].
  cbn [sorted_suffixes]. intros H. apply andb_true_iff in H. apply H.
Qed.

Lemma sorted_suffixes_head (d : list Z) (sa : list Z) :
  forall (x : Z) (k : nat),
    sorted_suffixes d (x :: sa) = true ->
    (k < List.length (x :: sa))%nat ->
    suffix_le (skipn (Z.to_nat x) d)
              (skipn (Z.to_nat (nth k (x :: sa) 0)) d) = true.
Proof.
  induction sa as [|y sa IH]; intros x k Hs Hk.
  - destruct k as [|k]; [apply suffix_le_refl | cbn in Hk; lia].
  - destruct k as [|k]; [apply suffix_le_refl|].
    pose proof (sorted_suffixes_tail _ _ _ Hs) as Hs'.
    cbn [sorted_suffixes] in Hs. apply andb_true_iff in Hs.
    destruct Hs as [Hxy _].
    eapply suffix_le_trans; [exact Hxy|].
    change (nth (S k) (x :: y :: sa) 0) with (nth k (y :: sa) 0).
    apply IH; [exact Hs' | cbn [List.length] in *; lia].
Qed.

Lemma sorted_suffixes_pair (d : list Z) (sa : list Z) :
  sorted_suffixes d sa = true ->
  forall i j : nat,
    (i <= j < List.length sa)%nat ->
    suffix_le (skipn (Z.to_nat (nth i sa 0)) d) (skipn (Z.to_nat (nth j sa 0)) d)
    = true.
Proof.
  induction sa as [|x sa IH]; intros Hs i j Hij; [cbn in Hij; lia|].
  destruct i as [|i].
  - apply sorted_suffixes_head; [exact Hs | lia].
  - destruct j as [|j]; [lia|].
    cbn [nth]. apply IH.
    + eapply sorted_suffixes_tail; exact Hs.
    + cbn [List.length] in Hij. lia.
Qed.

End OrderFacts.

(** ** The input of the parser *)

Module InputFacts.

Import Parse ParserSpec.

Section Input.

Variable sizeof_T : nat.
Hypothesis width : (1 <= sizeof_T)%nat.

Lemma symbols_of_enough (k : nat) :
  forall (k' : nat) (l : list Z),
    (List.length l <= k)%nat -> (List.length l <= k')%nat ->
    symbols_of k sizeof_T l = symbols_of k' sizeof_T l.
Proof.
  induction k as [|k IH]; intros k' l Hk Hk'.
  - destruct l; [|cbn in Hk; lia]. destruct k'; cbn [symbols_of]; [reflexivity|].
    replace (sizeof_T <=? List.length (@nil Z))%nat with false
      by (symmetry; apply Nat.leb_gt; cbn; lia).
    reflexivity.
  - destruct k' as [|k'].
    + destruct l; [|cbn in Hk'; lia]. cbn [symbols_of].
      replace (sizeof_T <=? List.length (@nil Z))%nat with false
        by (symmetry; apply Nat.leb_gt; cbn; lia).
      reflexivity.
    + cbn [symbols_of].
      destruct (Nat.leb_spec sizeof_T (List.length l)) as [H|H]; [|reflexivity].
      f_equal. apply IH; rewrite length_skipn; lia.
Qed.

Lemma symbols_whole (l : list Z) :
  (sizeof_T <= List.length l)%nat ->
  symbols sizeof_T l
  = le_value (firstn sizeof_T l) :: symbols sizeof_T (skipn sizeof_T l).
Proof.
  intros H. unfold symbols.
  destruct (List.length l) as [|n] eqn:E; [lia|].
  cbn [symbols_of]. rewrite E.
  replace (sizeof_T <=? S n)%nat with true by (symmetry; apply Nat.leb_le; lia).
  f_equal. apply symbols_of_enough; rewrite ?length_skipn; lia.
Qed.

Lemma symbols_short (l : list Z) :
  (List.length l < sizeof_T)%nat -> symbols sizeof_T l = [].
Proof.
  intros H. unfold symbols. destruct (List.length l) as [|n] eqn:E; [reflexivity|].
  cbn [symbols_of]. rewrite E.
  replace (sizeof_T <=? S n)%nat with false by (symmetry; apply Nat.leb_gt; lia).
  reflexivity.
Qed.

Lemma end_of_input_reading (p : Parser) :
  reading sizeof_T p -> end_of_input p = false.
Proof.
  intros (Hg & _). unfold end_of_input, eof. unfold good in Hg.
  apply andb_true_iff in Hg. destruct Hg as [Hg _].
  apply negb_true_iff in Hg. rewrite Hg. reflexivity.
Qed.

Lemma end_of_input_finished (p : Parser) :
  finished p -> end_of_input p = true.
Proof. intros (He & Hu & _). unfold end_of_input. now rewrite He, Hu. Qed.

Lemma getnext_symbol (p : Parser) (c : Z) (r : list Z) :
  reading sizeof_T p -> rest sizeof_T p = c :: r ->
  fst (getnext sizeof_T p) = c
  /\ reading sizeof_T (snd (getnext sizeof_T p))
  /\ rest sizeof_T (snd (getnext sizeof_T p)) = r
  /\ same_run p (snd (getnext sizeof_T p))
  /\ has_unget (snd (getnext sizeof_T p)) = false.
Proof.
  intros (Hg & Hrc & Hrange) Hrest. unfold getnext, rest in *.
  destruct (has_unget p) eqn:Hu.
  - cbn [app] in Hrest. injection Hrest as Hc Hr. cbn [fst snd].
    split; [exact Hc|]. split; [|split; [|split; [repeat split | reflexivity]]].
    + unfold reading, rest. cbn [source_file read_counter has_unget app
                                   source_file_size_symbols].
      cbn [app List.length] in Hrc, Hrange.
      split; [exact Hg|]. split; [lia|].
      inversion Hrange; assumption.
    + cbn [has_unget source_file app]. exact Hr.
  - cbn [app] in Hrest, Hrange, Hrc. unfold read. rewrite Hg.
    destruct (Nat.leb_spec sizeof_T (List.length (pending (source_file p))))
      as [H|H].
    + rewrite (symbols_whole _ H) in Hrest, Hrange, Hrc.
      injection Hrest as Hc Hr. cbn [fst snd].
      split; [exact Hc|]. split; [|split; [|split; [repeat split | reflexivity]]].
      * unfold reading, rest. cbn [source_file read_counter has_unget app
                                     source_file_size_symbols pending].
        cbn [app]. split; [reflexivity|]. split.
        -- cbn [List.length] in Hrc. lia.
        -- inversion Hrange; assumption.
      * cbn [has_unget source_file app pending]. exact Hr.
    + rewrite (symbols_short _ H) in Hrest. discriminate.
Qed.

Lemma getnext_end (p : Parser) :
  reading sizeof_T p -> rest sizeof_T p = [] ->
  finished (snd (getnext sizeof_T p))
  /\ same_run p (snd (getnext sizeof_T p))
  /\ rest sizeof_T (snd (getnext sizeof_T p)) = [].
Proof.
  intros (Hg & Hrc & Hrange) Hrest. unfold getnext, rest in *.
  destruct (has_unget p) eqn:Hu; [discriminate|].
  cbn [app] in Hrest. rewrite Hrest in Hrc. cbn [app List.length] in Hrc.
  unfold read. rewrite Hg.
  destruct (Nat.leb_spec sizeof_T (List.length (pending (source_file p))))
    as [H|H].
  - rewrite (symbols_whole _ H) in Hrest. discriminate.
  - cbn [snd]. split; [|split; [repeat split|]].
    + unfold finished. cbn [source_file has_unget read_counter
                              source_file_size_symbols eof eofbit].
      repeat split; lia.
    + cbn [has_unget source_file pending]. reflexivity.
Qed.

Lemma getnext_finished (p : Parser) :
  finished p ->
  finished (snd (getnext sizeof_T p)) /\ same_run p (snd (getnext sizeof_T p)).
Proof.
  intros (He & Hu & Hrc). unfold getnext. rewrite Hu.
  unfold read, good. unfold eof in He. rewrite He. cbn [negb andb snd].
  split; [|repeat split].
  unfold finished. cbn [source_file has_unget read_counter
                          source_file_size_symbols eof eofbit].
  repeat split; try assumption; lia.
Qed.

Lemma unget_reading (p : Parser) (c : Z) :
  reading sizeof_T p -> has_unget p = false ->
  symbol_ok sizeof_T p c ->
  reading sizeof_T (unget c p)
  /\ rest sizeof_T (unget c p) = c :: rest sizeof_T p
  /\ same_run p (unget c p).
Proof.
  intros (Hg & Hrc & Hrange) Hu Hc. unfold reading, rest, unget in *.
  cbn [source_file has_unget read_counter source_file_size_symbols
         unget_buffer app].
  rewrite Hu in *. cbn [app List.length] in *.
  repeat split; try assumption; try lia.
  constructor; [exact Hc | exact Hrange].
Qed.

End Input.

End InputFacts.

(** ** The searches on a sorted suffix array *)

Module ColumnFacts.

Import Parse ParserSpec Pipeline Search OrderFacts IntFacts.

Lemma key_skipn (n : nat) (l : list Z) :
  (n < List.length l)%nat -> key (skipn n l) = nth n l 0.
Proof.
  intros H. pose proof (nth_skipn n l 0 0) as E. rewrite Nat.add_0_r in E.
  pose proof (length_skipn n l) as L.
  destruct (skipn n l) as [|a x]; [cbn in L; lia|]. exact E.
Qed.

Lemma key_skipn_end (n : nat) (l : list Z) :
  (List.length l <= n)%nat -> key (skipn n l) = -1.
Proof. intros H. now rewrite skipn_all2. Qed.

Lemma at_index_inside (fr : FileReader) (i : Z) :
  0 <= i < size fr -> at_index fr i = nth (Z.to_nat i) (data_array fr) 0.
Proof.
  intros H. unfold at_index.
  replace ((0 <=? i) && (i <? size fr)) with true
    by (symmetry; apply andb_true_iff; split;
        [apply Z.leb_le | apply Z.ltb_lt]; lia).
  reflexivity.
Qed.

Section Column.

Variable sizeof_T : nat.
Variable bits_S : Z.
Variable p : Parser.
Hypothesis p_sound : sound sizeof_T bits_S p.

Lemma sa_length : sa_size p = dict_size p.
Proof.
  pose proof (suffix_array _ _ _ p_sound) as H. unfold is_suffix_array in H.
  apply andb_true_iff in H. destruct H as [H _].
  apply andb_true_iff in H. destruct H as [H _].
  apply andb_true_iff in H. destruct H as [H _].
  apply Nat.eqb_eq in H. unfold sa_size, dict_size, size. now rewrite H.
Qed.

Lemma sa_entry (m : Z) :
  0 <= m < sa_size p ->
  at_index (sa p) m = nth (Z.to_nat m) (data_array (sa p)) 0
  /\ 0 <= at_index (sa p) m < dict_size p.
Proof.
  intros Hm. unfold sa_size in Hm.
  assert (E : at_index (sa p) m = nth (Z.to_nat m) (data_array (sa p)) 0)
    by (apply at_index_inside; exact Hm).
  split; [exact E|]. rewrite E.
  pose proof (suffix_array _ _ _ p_sound) as H. unfold is_suffix_array in H.
  apply andb_true_iff in H. destruct H as [H _].
  apply andb_true_iff in H. destruct H as [H _].
  apply andb_true_iff in H. destruct H as [_ H].
  rewrite forallb_forall in H.
  assert (Hin : In (nth (Z.to_nat m) (data_array (sa p)) 0) (data_array (sa p))).
  { apply nth_In. unfold size in Hm. lia. }
  specialize (H _ Hin). apply andb_true_iff in H. destruct H as [H1 H2].
  apply Z.leb_le in H1. apply Z.ltb_lt in H2. unfold dict_size, size. lia.
Qed.

Lemma suffixes_in_order (i j : Z) :
  0 <= i <= j -> j < sa_size p ->
  suffix_le (suffix_from p 0 i) (suffix_from p 0 j) = true.
Proof.
  intros Hi Hj.
  pose proof (suffix_array _ _ _ p_sound) as H. unfold is_suffix_array in H.
  apply andb_true_iff in H. destruct H as [_ H].
  unfold suffix_from. rewrite !Z.add_0_r.
  destruct (sa_entry i ltac:(lia)) as [-> _].
  destruct (sa_entry j ltac:(lia)) as [-> _].
  apply sorted_suffixes_pair; [exact H|]. unfold sa_size, size in Hj. lia.
Qed.

(** What the probes of the searches read, in the range of the suffix
    array and of the input. *)
Lemma probe (offset m : Z) :
  0 <= m < sa_size p -> 0 <= offset <= dict_size p ->
  sa_plus bits_S p m offset = at_index (sa p) m + offset
  /\ (sa_plus bits_S p m offset >=? unsign (dict_size p))
     = (column p offset m =? -1)
  /\ (column p offset m <> -1 ->
      dict_at_sa bits_S p m offset = column p offset m
      /\ 0 <= column p offset m).
Proof.
  intros Hm Hoff. destruct (sa_entry m Hm) as [_ Hsa].
  pose proof (sizes_fit _ _ _ p_sound) as Hfit.
  pose proof (sa_width_range _ _ _ p_sound) as Hbits.
  assert (Hpow : 2 ^ 32 <= 2 ^ bits_S) by (apply Z.pow_le_mono_r; lia).
  assert (Hsize : 0 <= dict_size p) by (unfold dict_size, size; lia).
  assert (E : sa_plus bits_S p m offset = at_index (sa p) m + offset).
  { unfold sa_plus, wrap_u. apply Z.mod_small. unfold dict_size in *. lia. }
  split; [exact E|]. rewrite E.
  assert (Hu : unsign (dict_size p) = dict_size p).
  { unfold unsign. replace (dict_size p <? 0) with false
      by (symmetry; apply Z.ltb_ge; lia). reflexivity. }
  rewrite Hu. unfold column, suffix_from.
  destruct (Z_lt_ge_dec (at_index (sa p) m + offset) (dict_size p)) as [Hin|Hout].
  - unfold dict_size, size in Hin.
    rewrite key_skipn by lia.
    pose proof (symbols_fit _ _ _ p_sound) as Hsym.
    rewrite Forall_forall in Hsym.
    assert (Hnth : In (nth (Z.to_nat (at_index (sa p) m + offset))
                           (data_array (dict p)) 0) (data_array (dict p)))
      by (apply nth_In; lia).
    specialize (Hsym _ Hnth). cbv beta in Hsym.
    split.
    + rewrite Z.geb_leb.
      replace (dict_size p <=? at_index (sa p) m + offset) with false
        by (symmetry; apply Z.leb_gt; unfold dict_size, size; lia).
      symmetry. apply Z.eqb_neq. lia.
    + intros _. split; [|lia].
      unfold dict_at_sa. rewrite E.
      rewrite s64_small by (unfold dict_size, size in *; lia).
      apply at_index_inside. unfold size. lia.
  - unfold dict_size, size in Hout.
    rewrite key_skipn_end by lia. split.
    + rewrite Z.geb_leb. apply Z.leb_le. unfold dict_size, size. lia.
    + intros H. exfalso. apply H. reflexivity.
Qed.

Lemma occurs_column (c offset m : Z) :
  0 <= c -> 0 <= m < sa_size p -> 0 <= offset <= dict_size p ->
  occurs_at bits_S p c offset m = (column p offset m =? c).
Proof.
  intros Hc Hm Hoff. destruct (probe offset m Hm Hoff) as (_ & Hend & Hsym).
  unfold occurs_at. rewrite Z.ltb_antisym, <- Z.geb_leb, Hend.
  destruct (Z.eqb_spec (column p offset m) (-1)) as [E|E]; cbn [negb andb].
  - symmetry. apply Z.eqb_neq. lia.
  - destruct (Hsym E) as [-> _]. reflexivity.
Qed.

(** [search_left] either fails with a negative value or returns an index
    of the range at which the symbol stands. *)
Lemma search_left_found (c offset left right : Z) :
  0 <= c -> 0 <= left -> right < sa_size p ->
  0 <= offset <= dict_size p ->
  search_left bits_S p c offset left right < 0
  \/ (left <= search_left bits_S p c offset left right <= right
      /\ column p offset (search_left bits_S p c offset left right) = c).
Proof.
  intros Hc Hl Hr Hoff. unfold search_left.
  pose proof (sizes_fit _ _ _ p_sound) as Hfit.
  assert (Hsize : 0 <= size (dict p)) by (unfold size; lia).
  rewrite s32_small by (unfold dict_size in Hoff; lia).
  destruct (SearchFacts.search_left_loop_result bits_S p (rounds_for left right)
              c offset left left right) as [H|[H H']].
  - left. lia.
  - right. split; [exact H|].
    rewrite occurs_column in H' by lia. now apply Z.eqb_eq in H'.
Qed.

(** In a range where the symbols at depth [offset] are in order,
    [search_right] returns an index at which the symbol stands, if there
    is one. *)
Lemma search_right_loop_finds (c offset old_right_bound low : Z) :
  0 <= c -> 0 <= low -> old_right_bound < sa_size p ->
  0 <= offset <= dict_size p ->
  (forall i j, low <= i <= j -> j <= old_right_bound ->
               column p offset i <= column p offset j) ->
  forall (k : nat) (left right : Z),
    low <= left -> right <= old_right_bound ->
    (right < old_right_bound -> c < column p offset (right + 1)) ->
    (exists m, left <= m <= right /\ column p offset m = c) ->
    right - left < Z.of_nat k ->
    let r := search_right_loop bits_S k p c offset old_right_bound left right in
    left <= r <= right /\ column p offset r = c.
Proof.
  intros Hc Hlow Horb Hoff Hsorted.
  induction k as [|k IH]; intros left right Hl Hr Hnext (m & Hm & Hcm) Hk; cbn zeta.
  - lia.
  - cbn [search_right_loop].
    replace (left <=? right) with true by (symmetry; apply Z.leb_le; lia).
    pose proof (SearchFacts.mid_between left right ltac:(lia)) as Hmid.
    set (mid := Z.quot (left + right) 2) in *.
    destruct (probe offset mid ltac:(lia) Hoff) as (_ & Hend & Hsym).
    rewrite Hend.
    assert (Hup : c <> column p offset mid -> column p offset mid <= c ->
              let r := search_right_loop bits_S k p c offset old_right_bound
                         (mid + 1) right in
              left <= r <= right /\ column p offset r = c).
    { intros Hne Hle.
      assert (mid < m).
      { destruct (Z_lt_ge_dec mid m) as [H|H]; [exact H|].
        pose proof (Hsorted m mid ltac:(lia) ltac:(lia)). lia. }
      assert (Hex : exists m, mid + 1 <= m <= right /\ column p offset m = c)
        by (exists m; split; [lia | exact Hcm]).
      destruct (IH (mid + 1) right ltac:(lia) Hr Hnext Hex ltac:(lia)) as [H1 H2].
      split; [lia | exact H2]. }
    destruct (Z.eqb_spec (column p offset mid) (-1)) as [E|E].
    { apply Hup; lia. }
    destruct (Hsym E) as [-> Hpos].
    destruct (Z.ltb_spec (column p offset mid) c) as [Hlt|Hge].
    { apply Hup; lia. }
    rewrite Z.gtb_ltb.
    destruct (Z.ltb_spec c (column p offset mid)) as [Hgt|Hle].
    { assert (m < mid).
      { destruct (Z_lt_ge_dec m mid) as [H|H]; [exact H|].
        pose proof (Hsorted mid m ltac:(lia) ltac:(lia)). lia. }
      assert (Hex : exists m, left <= m <= mid - 1 /\ column p offset m = c)
        by (exists m; split; [lia | exact Hcm]).
      assert (Hnext' : mid - 1 < old_right_bound ->
                       c < column p offset (mid - 1 + 1))
        by (intros _; replace (mid - 1 + 1) with mid by lia; exact Hgt).
      destruct (IH left (mid - 1) Hl ltac:(lia) Hnext' Hex ltac:(lia)) as [H1 H2].
      split; [lia | exact H2]. }
    assert (Heq : column p offset mid = c) by lia.
    destruct (Z.eqb_spec mid old_right_bound) as [Eorb|Eorb].
    { split; [lia | exact Heq]. }
    destruct (probe offset (mid + 1) ltac:(lia) Hoff) as (_ & Hend' & Hsym').
    rewrite Hend'.
    destruct (Z.eqb_spec (column p offset (mid + 1)) (-1)) as [E'|E'].
    { split; [lia | exact Heq]. }
    destruct (Hsym' E') as [-> Hpos'].
    destruct (Z.eqb_spec (column p offset (mid + 1)) (column p offset mid))
      as [Esame|Ediff].
    + assert (mid + 1 <= right).
      { destruct (Z_le_gt_dec (mid + 1) right) as [H|H]; [exact H|].
        assert (Hmr : mid = right) by lia.
        assert (Hlt : right < old_right_bound) by lia.
        specialize (Hnext Hlt). rewrite <- Hmr in Hnext. lia. }
      assert (Hex : exists m, mid + 1 <= m <= right /\ column p offset m = c)
        by (exists (mid + 1); split; lia).
      destruct (IH (mid + 1) right ltac:(lia) Hr Hnext Hex ltac:(lia)) as [H1 H2].
      split; [lia | exact H2].
    + split; [lia | exact Heq].
Qed.

(** *** Suffixes that share their first symbols *)

Lemma shares_split (u : list Z) (m : Z) :
  0 <= m < sa_size p -> shares p u m ->
  suffix_from p 0 m = u ++ suffix_from p (Z.of_nat (List.length u)) m.
Proof.
  intros Hm Hu. destruct (sa_entry m Hm) as [_ Hsa].
  unfold shares in Hu. rewrite <- Hu at 1.
  rewrite <- (firstn_skipn (List.length u) (suffix_from p 0 m)) at 1.
  rewrite Hu. f_equal. unfold suffix_from.
  rewrite skipn_skipn. f_equal. lia.
Qed.

Lemma shares_bound (u : list Z) (m : Z) :
  0 <= m < sa_size p -> shares p u m ->
  at_index (sa p) m + Z.of_nat (List.length u) <= dict_size p.
Proof.
  intros Hm Hu. destruct (sa_entry m Hm) as [_ Hsa].
  unfold shares in Hu. apply (f_equal (@List.length Z)) in Hu.
  rewrite length_firstn in Hu. unfold suffix_from in Hu.
  rewrite length_skipn in Hu. unfold dict_size, size in *. lia.
Qed.

Lemma suffix_symbols (offset m : Z) :
  Forall (fun a => 0 <= a) (suffix_from p offset m).
Proof.
  pose proof (symbols_fit _ _ _ p_sound) as H. rewrite Forall_forall in *.
  intros a Ha. unfold suffix_from in Ha.
  assert (Hin : In a (data_array (dict p))).
  { rewrite <- (firstn_skipn (Z.to_nat (at_index (sa p) m + offset))).
    apply in_or_app. right. exact Ha. }
  apply H in Hin. lia.
Qed.

Lemma column_sorted (u : list Z) (i j : Z) :
  0 <= i <= j -> j < sa_size p -> shares p u i -> shares p u j ->
  column p (Z.of_nat (List.length u)) i <= column p (Z.of_nat (List.length u)) j.
Proof.
  intros Hi Hj Hui Huj. pose proof (suffixes_in_order i j Hi Hj) as H.
  rewrite (shares_split u i) in H by (assumption || lia).
  rewrite (shares_split u j) in H by (assumption || lia).
  rewrite suffix_le_after in H.
  apply suffix_le_key; [apply suffix_symbols | exact H].
Qed.

Lemma shares_extend (u : list Z) (c m : Z) :
  0 <= m < sa_size p -> shares p u m -> 0 <= c ->
  column p (Z.of_nat (List.length u)) m = c ->
  shares p (u ++ [c]) m.
Proof.
  intros Hm Hu Hc Hcol. unfold shares. rewrite (shares_split u m Hm Hu).
  unfold column in Hcol.
  destruct (suffix_from p (Z.of_nat (List.length u)) m) as [|a x] eqn:E;
    cbn [key] in Hcol; [lia|]. subst a.
  rewrite length_app. cbn [List.length].
  rewrite firstn_app. rewrite firstn_all2 by lia. f_equal.
  replace (List.length u + 1 - List.length u)%nat with 1%nat by lia.
  reflexivity.
Qed.

(** The two searches of one round of [next_token]: when [search_left]
    does not fail, the new range lies in the old one, is not empty, and
    all its suffixes share one more symbol. *)
Lemma range_narrows (u : list Z) (c left right : Z) :
  0 <= c -> 0 <= left -> right < sa_size p ->
  Z.of_nat (List.length u) <= dict_size p ->
  (forall m, left <= m <= right -> shares p u m) ->
  let offset := Z.of_nat (List.length u) in
  let left' := search_left bits_S p c offset left right in
  let right' := search_right bits_S p c offset left' right in
  0 <= left' ->
  left <= left' /\ left' <= right' /\ right' <= right
  /\ forall m, left' <= m <= right' -> shares p (u ++ [c]) m.
Proof.
  intros Hc Hl Hr Hoff Hrange offset left' right' Hfound.
  destruct (search_left_found c offset left right Hc Hl Hr ltac:(lia))
    as [Hneg | [Hin Hcol]]; [fold left' in Hneg; lia|].
  fold left' in Hin, Hcol.
  pose proof (sizes_fit _ _ _ p_sound) as Hfit.
  assert (Hsize : 0 <= size (dict p)) by (unfold size; lia).
  assert (Hsorted : forall i j, left' <= i <= j -> j <= right ->
                      column p offset i <= column p offset j).
  { intros i j Hi Hj. apply column_sorted; try lia; apply Hrange; lia. }
  assert (Hex : exists m, left' <= m <= right /\ column p offset m = c)
    by (exists left'; split; [lia | exact Hcol]).
  pose proof (search_right_loop_finds c offset right left' Hc ltac:(lia) Hr
                ltac:(lia) Hsorted (rounds_for left' right) left' right
                ltac:(lia) ltac:(lia) ltac:(lia) Hex
                ltac:(unfold rounds_for; lia)) as Hright.
  cbn zeta in Hright.
  assert (Er : right'
               = search_right_loop bits_S (rounds_for left' right) p c offset
                   right left' right).
  { unfold right', search_right.
    rewrite s32_small by (unfold offset, dict_size in *; lia).
    reflexivity. }
  rewrite <- Er in Hright. destruct Hright as [Hr' Hcol'].
  split; [lia|]. split; [lia|]. split; [lia|].
  intros m Hm. apply shares_extend; try lia.
  - apply Hrange. lia.
  - pose proof (Hsorted left' m ltac:(lia) ltac:(lia)).
    pose proof (Hsorted m right' ltac:(lia) ltac:(lia)).
    fold offset. lia.
Qed.

End Column.

End ColumnFacts.

(** ** The parser on a sound suffix array *)

Module ParserFacts.

Import Parse ParserSpec ParserResults Tokens Pipeline OrderFacts IntFacts
       InputFacts ColumnFacts.

Lemma at_index_outside (fr : FileReader) (i : Z) :
  size fr <= i -> at_index fr i = outside fr i.
Proof.
  intros H. unfold at_index.
  replace (i <? size fr) with false by (symmetry; apply Z.ltb_ge; lia).
  now rewrite andb_false_r.
Qed.

Section Tokens.

Variable sizeof_T : nat.
Variable bits_S : Z.

Lemma sound_same_run (p p' : Parser) :
  sound sizeof_T bits_S p -> same_run p p' -> sound sizeof_T bits_S p'.
Proof.
  intros [H1 H2 H3 H4 H5] (Hd & Hs & Hz).
  constructor; rewrite ?Hd, ?Hs, ?Hz; assumption.
Qed.

Lemma same_run_refl (p : Parser) : same_run p p.
Proof. repeat split. Qed.

Lemma same_run_trans (p p' p'' : Parser) :
  same_run p p' -> same_run p' p'' -> same_run p p''.
Proof.
  intros (H1 & H2 & H3) (H1' & H2' & H3'). repeat split; congruence.
Qed.

Lemma symbol_ok_same_run (p p' : Parser) (a : Z) :
  same_run p p' -> symbol_ok sizeof_T p a -> symbol_ok sizeof_T p' a.
Proof.
  intros (Hd & _). unfold symbol_ok, beyond. now rewrite Hd.
Qed.

Lemma emitted_same_run (p p' : Parser) (input : list Z)
    (res : RLZToken * Parser) :
  same_run p p' -> emitted sizeof_T p' input res -> emitted sizeof_T p input res.
Proof.
  intros Hrun (Hv & Hn & Hp & Hb & Hr). pose proof Hrun as (Hd & _).
  unfold emitted. rewrite <- Hd. repeat split; try assumption.
  - apply (same_run_trans _ _ _ Hrun Hr).
  - apply (same_run_trans _ _ _ Hrun Hr).
  - apply (same_run_trans _ _ _ Hrun Hr).
Qed.

(** The token [(SA[m], |u|)] for a suffix that starts with [u]. *)
Lemma token_of_shared (p : Parser) (u : list Z) (m : Z) :
  sound sizeof_T bits_S p -> 0 <= m < sa_size p -> shares p u m -> u <> [] ->
  valid sizeof_T (dict p) (mk_token (at_index (sa p) m) (Z.of_nat (List.length u))) = true
  /\ payload sizeof_T (dict p)
       (mk_token (at_index (sa p) m) (Z.of_nat (List.length u))) = u.
Proof.
  intros Hsound Hm Hu Hne.
  destruct (sa_entry sizeof_T bits_S p Hsound m Hm) as [_ Hsa].
  pose proof (shares_bound sizeof_T bits_S p Hsound u m Hm Hu) as Hb.
  assert (Hlen : 0 < Z.of_nat (List.length u)).
  { destruct u; [congruence | cbn [List.length]; lia]. }
  unfold valid, payload. cbn [start_pos length].
  replace (Z.of_nat (List.length u) =? 0) with false
    by (symmetry; apply Z.eqb_neq; lia).
  split.
  - apply andb_true_iff. split; [apply andb_true_iff; split|].
    + apply Z.ltb_lt. lia.
    + apply Z.leb_le. lia.
    + apply Z.leb_le. unfold dict_size in Hb. lia.
  - rewrite Nat2Z.id. unfold shares, suffix_from in Hu.
    rewrite Z.add_0_r in Hu. exact Hu.
Qed.

(** The two ways a token ends: at a symbol that does not go on, which is
    pushed back, and at the end of the input. *)
Lemma stop_here (p : Parser) (c : Z) (u : list Z) (m : Z) :
  sound sizeof_T bits_S p -> reading sizeof_T p -> has_unget p = false ->
  0 <= m < sa_size p -> shares p u m ->
  symbol_ok sizeof_T p c -> u <> [] ->
  emitted sizeof_T p (u ++ c :: rest sizeof_T p)
    (mk_token (at_index (sa p) m) (Z.of_nat (List.length u)), unget c p).
Proof.
  intros Hsound Hread Hu Hm Hshare Hc Hne.
  destruct (token_of_shared p u m Hsound Hm Hshare Hne) as [Hv Hp].
  pose proof (width_range _ _ _ Hsound) as Hw.
  destruct (unget_reading sizeof_T (proj1 Hw) p c Hread Hu Hc)
    as (Hread' & Hrest' & Hrun).
  unfold emitted. cbn [fst snd]. rewrite Hp, Hrest'.
  repeat split; try assumption; try apply Hrun.
  left. exact Hread'.
Qed.

Lemma stop_at_end (p p' : Parser) (u : list Z) (m : Z) :
  sound sizeof_T bits_S p -> 0 <= m < sa_size p -> shares p u m -> u <> [] ->
  finished p' -> rest sizeof_T p' = [] -> same_run p p' ->
  emitted sizeof_T p u
    (mk_token (at_index (sa p') m) (Z.of_nat (List.length u)), p').
Proof.
  intros Hsound Hm Hshare Hne Hfin Hrest Hrun.
  destruct (token_of_shared p u m Hsound Hm Hshare Hne) as [Hv Hp].
  pose proof Hrun as (_ & Hsa & _).
  unfold emitted. cbn [fst snd]. rewrite Hsa, Hp, Hrest, app_nil_r.
  repeat split; try assumption; try apply Hrun.
  right. split; assumption.
Qed.

(** The symbol that the single-match loop reads from the dictionary. *)
Lemma read_at_suffix (p : Parser) (u : list Z) (m : Z) :
  sound sizeof_T bits_S p -> 0 <= m < sa_size p -> shares p u m ->
  at_index (dict p) (s64 (at_index (sa p) m + Z.of_nat (List.length u)))
  = if column p (Z.of_nat (List.length u)) m =? -1
    then outside (dict p) (dict_size p)
    else column p (Z.of_nat (List.length u)) m.
Proof.
  intros Hsound Hm Hshare.
  destruct (sa_entry sizeof_T bits_S p Hsound m Hm) as [_ Hsa].
  pose proof (shares_bound sizeof_T bits_S p Hsound u m Hm Hshare) as Hb.
  pose proof (sizes_fit _ _ _ Hsound) as Hfit.
  pose proof (suffix_symbols sizeof_T bits_S p Hsound
                (Z.of_nat (List.length u)) m) as Hsym.
  unfold dict_size, size in *.
  rewrite s64_small by lia.
  unfold column in *. unfold suffix_from in *.
  destruct (Z_lt_ge_dec (at_index (sa p) m + Z.of_nat (List.length u))
                        (Z.of_nat (List.length (data_array (dict p)))))
    as [Hin|Hout].
  - rewrite key_skipn in * by lia.
    rewrite at_index_inside by (unfold size; lia).
    assert (Hnn : 0 <= nth (Z.to_nat (at_index (sa p) m + Z.of_nat (List.length u)))
                           (data_array (dict p)) 0).
    { pose proof (symbols_fit _ _ _ Hsound) as Hall. rewrite Forall_forall in Hall.
      apply Hall. apply nth_In. lia. }
    replace (nth (Z.to_nat (at_index (sa p) m + Z.of_nat (List.length u)))
                 (data_array (dict p)) 0 =? -1) with false
      by (symmetry; apply Z.eqb_neq; lia).
    reflexivity.
  - rewrite key_skipn_end by lia. rewrite Z.eqb_refl.
    rewrite at_index_outside by (unfold size; lia).
    f_equal. lia.
Qed.

(** The single-match loop: the token is the longest run of the input
    that goes on along the one suffix. *)
Lemma single_match_spec (rounds : nat) :
  forall (p : Parser) (c : Z) (u : list Z) (m : Z),
    sound sizeof_T bits_S p -> reading sizeof_T p -> has_unget p = false ->
    0 <= m < sa_size p -> shares p u m ->
    symbol_ok sizeof_T p c ->
    (u <> [] \/ column p (Z.of_nat (List.length u)) m = c) ->
    (List.length (rest sizeof_T p) < rounds)%nat ->
    emitted sizeof_T p (u ++ c :: rest sizeof_T p)
      (single_match_loop sizeof_T rounds p m (at_index (sa p) m) c
         (Z.of_nat (List.length u))).
Proof.
  induction rounds as [|k IH];
    intros p c u m Hsound Hread Hu Hm Hshare Hc Hne Hrounds; [lia|].
  pose proof (width_range _ _ _ Hsound) as Hw.
  pose proof Hread as (Hgood & Hrc & Hrange).
  cbn [single_match_loop].
  replace (read_counter p <=? source_file_size_symbols p) with true
    by (symmetry; apply Z.leb_le; lia).
  rewrite (read_at_suffix p u m Hsound Hm Hshare).
  pose proof Hc as [Hcr Hguard]. unfold beyond in Hguard.
  assert (Hstop : column p (Z.of_nat (List.length u)) m <> c ->
            emitted sizeof_T p (u ++ c :: rest sizeof_T p)
              (mk_token (at_index (sa p) m) (Z.of_nat (List.length u)),
               unget c p)).
  { intros Hdiff. apply stop_here; try assumption.
    destruct Hne as [Hne|Hne]; [exact Hne | contradiction]. }
  destruct (Z.eqb_spec (column p (Z.of_nat (List.length u)) m) (-1)) as [Eend|Eend].
  { replace (c =? outside (dict p) (dict_size p)) with false
      by (symmetry; apply Z.eqb_neq; exact Hguard).
    cbn [negb]. apply Hstop. lia. }
  destruct (Z.eqb_spec c (column p (Z.of_nat (List.length u)) m)) as [Esame|Ediff];
    cbn [negb]; [|apply Hstop; congruence].
  assert (Hshare' : shares p (u ++ [c]) m)
    by (apply (shares_extend sizeof_T bits_S p Hsound); try assumption; lia).
  assert (Hlen' : Z.of_nat (List.length (u ++ [c])) = Z.of_nat (List.length u) + 1)
    by (rewrite length_app; cbn [List.length]; lia).
  assert (Hne' : u ++ [c] <> []) by (destruct u; discriminate).
  destruct (rest sizeof_T p) as [|c' r] eqn:Hrest.
  - destruct (getnext_end sizeof_T (proj1 Hw) p Hread Hrest) as (Hfin & Hrun & Hrest').
    destruct (getnext sizeof_T p) as [c' p']. cbn [snd] in *.
    assert (E : single_match_loop sizeof_T k p' m (at_index (sa p) m) c'
                  (Z.of_nat (List.length u) + 1)
                = (mk_token (at_index (sa p') m) (Z.of_nat (List.length u) + 1), p')).
    { destruct Hfin as (_ & _ & Hover). destruct Hrun as (_ & _ & Hsize).
      destruct k as [|k]; cbn [single_match_loop]; [reflexivity|].
      replace (read_counter p' <=? source_file_size_symbols p') with false
        by (symmetry; apply Z.leb_gt; lia).
      reflexivity. }
    rewrite E, <- Hlen'.
    replace (u ++ [c]) with ((u ++ [c]) ++ []) at 1 by apply app_nil_r.
    rewrite <- app_assoc. cbn [app].
    replace (u ++ [c]) with (u ++ [c]) by reflexivity.
    change (u ++ c :: []) with (u ++ [c]).
    apply stop_at_end; assumption.
  - destruct (getnext_symbol sizeof_T (proj1 Hw) p c' r Hread Hrest)
      as (Hc' & Hread' & Hrest' & Hrun & Hu').
    destruct (getnext sizeof_T p) as [c'' p']. cbn [fst snd] in *. subst c''.
    pose proof Hrun as (Hd & Hsa & Hsize).
    assert (Hc'r : symbol_ok sizeof_T p' c')
      by (apply (symbol_ok_same_run p p' c' Hrun); inversion Hrange; assumption).
    pose proof (sound_same_run p p' Hsound Hrun) as Hsound'.
    assert (Hm' : 0 <= m < sa_size p') by (unfold sa_size in *; rewrite Hsa; exact Hm).
    assert (Hshare'' : shares p' (u ++ [c]) m).
    { unfold shares, suffix_from in *. rewrite Hd, Hsa. exact Hshare'. }
    pose proof (IH p' c' (u ++ [c]) m Hsound' Hread' Hu' Hm' Hshare'' Hc'r
                  (or_introl Hne')) as Hrec.
    rewrite Hrest', Hlen', Hsa in Hrec. cbn [List.length] in Hrounds.
    specialize (Hrec ltac:(lia)).
    apply (emitted_same_run p p' _ _ Hrun).
    rewrite <- app_assoc in Hrec. exact Hrec.
Qed.

(** The outer loop of [next_token]. *)
Lemma token_loop_spec (rounds : nat) :
  forall (p : Parser) (c : Z) (u : list Z) (left right best_pos best_len : Z)
         (found : bool),
    sound sizeof_T bits_S p -> reading sizeof_T p -> has_unget p = false ->
    symbol_ok sizeof_T p c ->
    0 <= left -> right < sa_size p ->
    (forall m, left <= m <= right -> shares p u m) ->
    (if found
     then left <= right /\ best_pos = left
          /\ best_len = Z.of_nat (List.length u) /\ u <> []
     else u = []) ->
    (List.length (rest sizeof_T p) < rounds)%nat ->
    exists res,
      token_loop sizeof_T bits_S rounds p c (Z.of_nat (List.length u))
        left right best_pos best_len found = Ret res
      /\ emitted sizeof_T p (u ++ c :: rest sizeof_T p) res.
Proof.
  induction rounds as [|k IH];
    intros p c u left right best_pos best_len found
           Hsound Hread Hu Hc Hl Hr Hrange Hfound Hrounds; [lia|].
  pose proof (width_range _ _ _ Hsound) as Hw.
  pose proof Hread as (Hgood & Hrc & Hsyms).
  pose proof Hc as [Hcr _].
  cbn [token_loop].
  replace (read_counter p <=? source_file_size_symbols p) with true
    by (symmetry; apply Z.leb_le; lia).
  rewrite (end_of_input_reading sizeof_T p Hread).
  assert (Hoff : Z.of_nat (List.length u) <= dict_size p).
  { destruct found.
    - destruct Hfound as (Hlr & _).
      pose proof (shares_bound sizeof_T bits_S p Hsound u left ltac:(lia)
                    (Hrange left ltac:(lia))) as Hb.
      destruct (sa_entry sizeof_T bits_S p Hsound left ltac:(lia)) as [_ Hsa].
      lia.
    - subst u. unfold dict_size, size. cbn [List.length]. lia. }
  pose proof (range_narrows sizeof_T bits_S p Hsound u c left right
                ltac:(lia) Hl Hr Hoff Hrange) as Hnarrow.
  cbn zeta in Hnarrow.
  set (left' := search_left bits_S p c (Z.of_nat (List.length u)) left right) in *.
  set (right' := search_right bits_S p c (Z.of_nat (List.length u)) left' right) in *.
  destruct (Z.ltb_spec left' 0) as [Hneg|Hpos].
  - (* nothing goes on with [c] *)
    destruct found.
    + destruct Hfound as (Hlr & -> & -> & Hne).
      destruct (sa_entry sizeof_T bits_S p Hsound left ltac:(lia)) as [_ Hsa].
      pose proof (sizes_fit _ _ _ Hsound) as Hfit. unfold dict_size in Hsa.
      rewrite s64_small by lia.
      replace (unsign (at_index (sa p) left)) with (at_index (sa p) left)
        by (unfold unsign;
            replace (at_index (sa p) left <? 0) with false
              by (symmetry; apply Z.ltb_ge; lia); reflexivity).
      eexists. split; [reflexivity|].
      apply stop_here; try assumption; [lia | apply Hrange; lia].
    + subst u. cbn [app List.length].
      eexists. split; [reflexivity|].
      assert (H64 : 2 ^ (8 * Z.of_nat sizeof_T) <= 2 ^ 64)
        by (apply Z.pow_le_mono_r; lia).
      unfold emitted, valid, payload. cbn [fst snd start_pos length Z.eqb].
      rewrite u64_small by lia.
      replace (wrap_u (8 * Z.of_nat sizeof_T) c) with c
        by (unfold wrap_u; symmetry; apply Z.mod_small; lia).
      repeat split; try (left; exact Hread).
      * apply andb_true_iff. split; [apply Z.leb_le | apply Z.ltb_lt]; lia.
      * discriminate.
  - (* the range narrows *)
    destruct (Hnarrow Hpos) as (Hll & Hlr & Hrr & Hrange').
    replace (right' <? 0) with false by (symmetry; apply Z.ltb_ge; lia).
    assert (Hne' : u ++ [c] <> []) by (destruct u; discriminate).
    assert (Hlen' : Z.of_nat (List.length (u ++ [c]))
                    = Z.of_nat (List.length u) + 1)
      by (rewrite length_app; cbn [List.length]; lia).
    destruct (Z.eqb_spec left' right') as [Esingle|Emany].
    + (* one suffix left *)
      eexists. split; [reflexivity|].
      apply single_match_spec; try assumption; try lia.
      * apply Hrange. lia.
      * right.
        destruct (search_left_found sizeof_T bits_S p Hsound c
                    (Z.of_nat (List.length u)) left right
                    ltac:(lia) Hl Hr ltac:(lia)) as [H|[_ H]];
          [fold left' in H; lia | exact H].
      * unfold rounds_left. lia.
    + destruct (rest sizeof_T p) as [|c' r] eqn:Hrest.
      * destruct (getnext_end sizeof_T (proj1 Hw) p Hread Hrest)
          as (Hfin & Hrun & Hrest').
        destruct (getnext sizeof_T p) as [c' p']. cbn [snd] in *.
        rewrite (end_of_input_finished p' Hfin).
        eexists. split; [reflexivity|].
        rewrite <- Hlen'. change (u ++ c :: []) with (u ++ [c]).
        apply stop_at_end; try assumption; [lia | apply Hrange'; lia].
      * destruct (getnext_symbol sizeof_T (proj1 Hw) p c' r Hread Hrest)
          as (Hc' & Hread' & Hrest' & Hrun & Hu').
        destruct (getnext sizeof_T p) as [c'' p']. cbn [fst snd] in *. subst c''.
        rewrite (end_of_input_reading sizeof_T p' Hread').
        pose proof Hrun as (Hd & Hsa & Hsize).
        assert (Hc'r : symbol_ok sizeof_T p' c')
          by (apply (symbol_ok_same_run p p' c' Hrun); inversion Hsyms; assumption).
        pose proof (sound_same_run p p' Hsound Hrun) as Hsound'.
        assert (Hrange'' : forall m, left' <= m <= right' -> shares p' (u ++ [c]) m).
        { intros m Hm. unfold shares, suffix_from. rewrite Hd, Hsa.
          apply Hrange'. exact Hm. }
        pose proof Hread' as (_ & Hrc' & _). rewrite Hrest' in Hrc'.
        cbn [List.length] in Hrc, Hrounds.
        destruct (IH p' c' (u ++ [c]) left' right' left'
                    (Z.of_nat (List.length u) + 1) true
                    Hsound' Hread' Hu' Hc'r ltac:(lia)
                    ltac:(unfold sa_size in *; rewrite Hsa; lia) Hrange''
                    ltac:(repeat split; try assumption; lia)
                    ltac:(rewrite Hrest'; lia))
          as (res & E & Hres).
        rewrite Hlen' in E. exists res. split; [exact E|].
        apply (emitted_same_run p p' _ _ Hrun).
        rewrite Hrest', <- app_assoc in Hres. exact Hres.
Qed.

Lemma token_loop_finished (rounds : nat) (p : Parser)
    (c offset left right best_pos best_len : Z) (found : bool) :
  finished p ->
  token_loop sizeof_T bits_S rounds p c offset left right best_pos best_len found
  = Ret (end_sentinel, p).
Proof.
  intros Hfin. pose proof Hfin as (_ & _ & Hover).
  assert (E : after_loop p = Ret (end_sentinel, p)).
  { unfold after_loop. now rewrite (end_of_input_finished p Hfin). }
  destruct rounds as [|k]; cbn [token_loop]; [exact E|].
  replace (read_counter p <=? source_file_size_symbols p) with false
    by (symmetry; apply Z.leb_gt; lia).
  exact E.
Qed.

(** [next_token] at the end of the input, and before it. *)
Lemma next_token_end (p : Parser) :
  sound sizeof_T bits_S p -> between sizeof_T p -> rest sizeof_T p = [] ->
  exists p', next_token sizeof_T bits_S p = Ret (end_sentinel, p').
Proof.
  intros Hsound Hb Hrest. pose proof (width_range _ _ _ Hsound) as Hw.
  unfold next_token.
  destruct Hb as [Hread | [Hfin _]].
  - destruct (getnext_end sizeof_T (proj1 Hw) p Hread Hrest) as (Hfin & _).
    destruct (getnext sizeof_T p) as [c p']. cbn [snd] in Hfin.
    exists p'. now apply token_loop_finished.
  - destruct (getnext_finished sizeof_T (proj1 Hw) p Hfin) as (Hfin' & _).
    destruct (getnext sizeof_T p) as [c p']. cbn [snd] in Hfin'.
    exists p'. now apply token_loop_finished.
Qed.

Lemma next_token_token (p : Parser) :
  sound sizeof_T bits_S p -> between sizeof_T p -> rest sizeof_T p <> [] ->
  exists res,
    next_token sizeof_T bits_S p = Ret res
    /\ emitted sizeof_T p (rest sizeof_T p) res.
Proof.
  intros Hsound Hb Hrest. pose proof (width_range _ _ _ Hsound) as Hw.
  destruct Hb as [Hread | [_ Hnil]]; [|contradiction].
  destruct (rest sizeof_T p) as [|c r] eqn:E; [contradiction|].
  unfold next_token.
  destruct (getnext_symbol sizeof_T (proj1 Hw) p c r Hread E)
    as (Hc & Hread' & Hrest' & Hrun & Hu').
  destruct (getnext sizeof_T p) as [c' p']. cbn [fst snd] in *. subst c'.
  pose proof Hrun as (Hd & Hsa & Hsize).
  pose proof Hread as (_ & Hrc & Hsyms). pose proof Hread' as (_ & Hrc' & _).
  rewrite E in Hrc, Hsyms. rewrite Hrest' in Hrc'. cbn [List.length] in Hrc.
  pose proof (sound_same_run p p' Hsound Hrun) as Hsound'.
  destruct (token_loop_spec (rounds_left p') p' c [] 0 (sa_size p' - 1) 0 0 false
              Hsound' Hread' Hu'
              ltac:(apply (symbol_ok_same_run p p' c Hrun);
                    inversion Hsyms; assumption)
              ltac:(lia) ltac:(lia)) as (res & Eres & Hres).
  - intros m Hm. reflexivity.
  - reflexivity.
  - rewrite Hrest'. unfold rounds_left. lia.
  - cbn [List.length app] in Eres, Hres. exists res. split; [exact Eres|].
    rewrite Hrest' in Hres. apply (emitted_same_run p p' _ _ Hrun). exact Hres.
Qed.

(** The bytes written for a list of tokens. *)
Lemma valid_not_sentinel (d : FileReader) (t : RLZToken) (fmt : format) :
  valid sizeof_T d t = true ->
  is_end_sentinel t = false /\ 0 < fst (output_token t fmt).
Proof.
  unfold valid. intros H.
  assert (Hlen : 0 <= length t).
  { destruct (Z.eqb_spec (length t) 0); [lia|].
    apply andb_true_iff in H. destruct H as [H _].
    apply andb_true_iff in H. destruct H as [H _]. apply Z.ltb_lt in H. lia. }
  assert (Hs : is_end_sentinel t = false).
  { unfold is_end_sentinel. cbn [length end_sentinel].
    replace (length t =? -1) with false by (symmetry; apply Z.eqb_neq; lia).
    apply andb_false_r. }
  split; [exact Hs|]. unfold output_token. rewrite Hs. cbn [fst].
  destruct (Z.gtb_spec (length t) 0); lia.
Qed.

(** [work]: the tokens written stand for the whole input. *)
Lemma work_loop_spec (fmt : format) (rounds : nat) :
  forall (p : Parser) (out : list Z) (toks : list RLZToken),
    sound sizeof_T bits_S p -> between sizeof_T p ->
    (List.length (rest sizeof_T p) < rounds)%nat ->
    exists toks' p',
      work_loop sizeof_T bits_S rounds p fmt out toks
      = Ret (out ++ encode fmt toks', toks ++ toks', p')
      /\ forallb (valid sizeof_T (dict p)) toks' = true
      /\ expand sizeof_T (dict p) toks' = rest sizeof_T p.
Proof.
  induction rounds as [|k IH]; intros p out toks Hsound Hb Hrounds; [lia|].
  cbn [work_loop].
  destruct (rest sizeof_T p) as [|c r] eqn:Hrest.
  - destruct (next_token_end p Hsound Hb Hrest) as (p' & E).
    rewrite E. cbn [bind]. exists [], p'.
    change (output_token end_sentinel fmt) with (0, @nil Z).
    cbn [encode flat_map forallb expand Z.gtb Z.compare]. rewrite !app_nil_r.
    repeat split.
  - destruct (next_token_token p Hsound Hb) as ([t p'] & E & Hres);
      [rewrite Hrest; discriminate|].
    rewrite E. cbn [bind].
    destruct Hres as (Hv & Hne & Hp & Hb' & Hrun). cbn [fst snd] in *.
    destruct (valid_not_sentinel (dict p) t fmt Hv) as [Hs Hkeep].
    destruct (output_token t fmt) as [keep bytes] eqn:Eout. cbn [fst] in Hkeep.
    replace (keep >? 0) with true by (symmetry; apply Z.gtb_lt; lia).
    pose proof Hrun as (Hd & _).
    pose proof (sound_same_run p p' Hsound Hrun) as Hsound'.
    assert (Hshort : (List.length (rest sizeof_T p') < k)%nat).
    { rewrite Hrest in Hp. apply (f_equal (@List.length Z)) in Hp.
      rewrite length_app in Hp. cbn [List.length] in Hp, Hrounds.
      destruct (payload sizeof_T (dict p) t); [congruence|].
      cbn [List.length] in Hp. lia. }
    destruct (IH p' (out ++ bytes) (toks ++ [t]) Hsound' Hb' Hshort)
      as (toks' & p'' & E' & Hv' & He').
    exists (t :: toks'), p''. rewrite E'. rewrite Hd in Hv', He'.
    split; [|split].
    + cbn [encode flat_map]. rewrite Eout. cbn [snd].
      now rewrite <- !app_assoc.
    + cbn [forallb]. now rewrite Hv, Hv'.
    + cbn [expand flat_map]. fold (expand sizeof_T (dict p) toks').
      rewrite He', <- Hrest. exact Hp.
Qed.

End Tokens.

(** *** The parser on a whole file *)

Lemma le_value_range (l : list Z) :
  Forall (fun b => 0 <= b < 256) l ->
  0 <= le_value l < 256 ^ Z.of_nat (List.length l).
Proof.
  induction 1 as [|b l Hb Hl IH]; cbn [le_value List.length]; [lia|].
  rewrite Nat2Z.inj_succ, Z.pow_succ_r by lia. lia.
Qed.

Lemma forall_firstn_skipn (P : Z -> Prop) (n : nat) (l : list Z) :
  Forall P l -> Forall P (firstn n l) /\ Forall P (skipn n l).
Proof.
  intros H. rewrite <- (firstn_skipn n l) in H. now apply Forall_app in H.
Qed.

Lemma symbols_range (w : nat) (file : list Z) :
  (1 <= w)%nat -> Forall (fun b => 0 <= b < 256) file ->
  Forall (fun a => 0 <= a < 2 ^ (8 * Z.of_nat w)) (symbols w file).
Proof.
  intros Hw. remember (List.length file) as n eqn:En.
  revert file En. induction n as [n IH] using lt_wf_ind. intros file En Hfile.
  destruct (Nat.le_gt_cases w (List.length file)) as [H|H].
  - rewrite (symbols_whole w Hw file H). constructor.
    + pose proof (le_value_range (firstn w file)
                    (proj1 (forall_firstn_skipn _ w file Hfile))) as Hv.
      rewrite length_firstn, Nat.min_l in Hv by lia.
      replace (2 ^ (8 * Z.of_nat w)) with (256 ^ Z.of_nat w)
        by (change 256 with (2 ^ 8); rewrite <- Z.pow_mul_r by lia; reflexivity).
      exact Hv.
    + apply (IH (List.length (skipn w file))).
      * rewrite length_skipn. lia.
      * reflexivity.
      * apply (forall_firstn_skipn _ w file Hfile).
  - rewrite (symbols_short w Hw file H). constructor.
Qed.

Lemma symbols_length (w : nat) (file : list Z) :
  (1 <= w)%nat ->
  Z.of_nat (List.length (symbols w file))
  = Z.of_nat (List.length file) / Z.of_nat w.
Proof.
  intros Hw. remember (List.length file) as n eqn:En.
  revert file En. induction n as [n IH] using lt_wf_ind. intros file En.
  destruct (Nat.le_gt_cases w (List.length file)) as [H|H].
  - rewrite (symbols_whole w Hw file H). cbn [List.length].
    rewrite Nat2Z.inj_succ.
    rewrite (IH (List.length (skipn w file)) ltac:(rewrite length_skipn; lia)
               (skipn w file) eq_refl).
    rewrite length_skipn. subst n.
    replace (Z.of_nat (List.length file))
      with (Z.of_nat (List.length file - w) + 1 * Z.of_nat w) by lia.
    rewrite Z.div_add by lia. lia.
  - rewrite (symbols_short w Hw file H). subst n. cbn [List.length].
    symmetry. apply Z.div_small. lia.
Qed.

(** The parser on a sound dictionary and suffix array, reading an input
    none of whose symbols equals the value stored right after the
    dictionary: the tokens it writes are valid and stand, in order, for
    the whole symbols of the input file. *)
Theorem work_spec (sizeof_T : nat) (bits_S : Z) (fmt : format)
    (input_file dict_file sa_file : list Z) (dict_mem sa_mem : Z -> Z) :
  let p := make_parser sizeof_T bits_S input_file dict_file sa_file
             dict_mem sa_mem in
  sound sizeof_T bits_S p ->
  Forall (fun b => 0 <= b < 256) input_file ->
  Forall (fun a => a <> beyond p) (symbols sizeof_T input_file) ->
  exists toks p',
    work sizeof_T bits_S p fmt = Ret (encode fmt toks, toks, p')
    /\ forallb (valid sizeof_T (dict p)) toks = true
    /\ expand sizeof_T (dict p) toks = symbols sizeof_T input_file.
Proof.
  intros p Hsound Hbytes Hfar. pose proof (width_range _ _ _ Hsound) as Hw.
  assert (Hrest : rest sizeof_T p = symbols sizeof_T input_file) by reflexivity.
  assert (Hb : between sizeof_T p).
  { left. unfold reading. rewrite Hrest. split; [reflexivity|]. split.
    - cbn [read_counter p make_parser source_file_size_symbols].
      rewrite symbols_length by lia. lia.
    - apply Forall_forall. intros a Ha. split.
      + exact (proj1 (Forall_forall _ _)
                 (symbols_range sizeof_T input_file (proj1 Hw) Hbytes) a Ha).
      + exact (proj1 (Forall_forall _ _) Hfar a Ha). }
  unfold work.
  destruct (work_loop_spec sizeof_T bits_S fmt
              (Z.to_nat (source_file_size_symbols p + 2)) p [] [] Hsound Hb)
    as (toks & p' & E & Hv & He).
  { rewrite Hrest. cbn [p make_parser source_file_size_symbols].
    pose proof (symbols_length sizeof_T input_file ltac:(lia)). lia. }
  exists toks, p'. rewrite E. cbn [app]. rewrite He, Hrest. repeat split.
  exact Hv.
Qed.

End ParserFacts.

(** ** The four formats, read back *)

Module CodecFacts.

Import Parse Tokens IntFacts.

Lemma encode_cons (fmt : format) (t : RLZToken) (toks : list RLZToken) :
  encode fmt (t :: toks) = snd (output_token t fmt) ++ encode fmt toks.
Proof. reflexivity. Qed.

Lemma fits_not_sentinel (bits : Z) (t : RLZToken) :
  fits bits t -> is_end_sentinel t = false.
Proof.
  intros [_ H]. unfold is_end_sentinel. cbn [length end_sentinel].
  replace (length t =? -1) with false by (symmetry; apply Z.eqb_neq; lia).
  apply andb_false_r.
Qed.

Lemma words_back (n : nat) (x y : Z) (rest : list Z) :
  0 <= x < 256 ^ Z.of_nat n -> 0 <= y < 256 ^ Z.of_nat n ->
  read (n + n) (open (le_bytes n x ++ le_bytes n y ++ rest))
  = (le_bytes n x ++ le_bytes n y, open rest)
  /\ le_value (firstn n (le_bytes n x ++ le_bytes n y)) = x
  /\ le_value (skipn n (le_bytes n x ++ le_bytes n y)) = y.
Proof.
  intros Hx Hy. split; [|split].
  - unfold read, open. cbn [good eofbit failbit negb andb pending].
    rewrite !length_app, !le_bytes_length.
    replace (n + n <=? n + (n + List.length rest))%nat with true
      by (symmetry; apply Nat.leb_le; lia).
    rewrite app_assoc.
    rewrite firstn_app, skipn_app, length_app, !le_bytes_length.
    rewrite Nat.sub_diag. cbn [firstn skipn].
    rewrite firstn_all2 by (rewrite length_app, !le_bytes_length; lia).
    rewrite skipn_all2 by (rewrite length_app, !le_bytes_length; lia).
    now rewrite app_nil_r.
  - rewrite firstn_app, le_bytes_length, Nat.sub_diag. cbn [firstn].
    rewrite app_nil_r, firstn_all2 by (rewrite le_bytes_length; lia).
    rewrite le_value_le_bytes. apply Z.mod_small. exact Hx.
  - rewrite skipn_app, le_bytes_length, Nat.sub_diag. cbn [skipn].
    rewrite skipn_all2 by (rewrite le_bytes_length; lia). cbn [app].
    rewrite le_value_le_bytes. apply Z.mod_small. exact Hy.
Qed.

Lemma token_back_32x2 (t : RLZToken) (rest : list Z) :
  fits 32 t ->
  Common.next_token
    (mk_input (open (snd (output_token t FMT_32X2) ++ rest)) FMT_32X2)
  = Ret (t, [], mk_input (open rest) FMT_32X2).
Proof.
  intros Hfit. pose proof Hfit as [Hs Hl].
  unfold output_token. rewrite (fits_not_sentinel _ _ Hfit). cbn [snd].
  unfold u32, wrap_u. rewrite !Z.mod_small by lia.
  destruct (words_back 4 (start_pos t) (length t) rest ltac:(lia) ltac:(lia))
    as (Er & Ex & Ey).
  unfold Common.next_token, next_token_32x2.
  cbn [infile mode open eof fail eofbit failbit orb].
  rewrite <- app_assoc.
  change 8%nat with (4 + 4)%nat.
  fold (open (le_bytes 4 (start_pos t) ++ le_bytes 4 (length t) ++ rest)).
  rewrite Er. cbn [fail failbit open]. rewrite Ex, Ey.
  destruct t; reflexivity.
Qed.

Lemma token_back_64x2 (t : RLZToken) (rest : list Z) :
  fits 64 t ->
  Common.next_token
    (mk_input (open (snd (output_token t FMT_64X2) ++ rest)) FMT_64X2)
  = Ret (t, [], mk_input (open rest) FMT_64X2).
Proof.
  intros Hfit. pose proof Hfit as [Hs Hl]. change (2 ^ (64 - 1)) with (2 ^ 63) in Hl.
  unfold output_token. rewrite (fits_not_sentinel _ _ Hfit). cbn [snd].
  rewrite !u64_small by lia.
  destruct (words_back 8 (start_pos t) (length t) rest ltac:(lia) ltac:(lia))
    as (Er & Ex & Ey).
  unfold Common.next_token, next_token_64x2.
  cbn [infile mode open eof fail eofbit failbit orb].
  rewrite <- app_assoc.
  change 16%nat with (8 + 8)%nat.
  fold (open (le_bytes 8 (start_pos t) ++ le_bytes 8 (length t) ++ rest)).
  rewrite Er. cbn [fail failbit open]. rewrite Ex, Ey.
  rewrite s64_small by lia.
  destruct t; reflexivity.
Qed.

Lemma token_back_vbyte (t : RLZToken) (rest : list Z) :
  fits 64 t ->
  Common.next_token
    (mk_input (open (snd (output_token t FMT_VBYTE) ++ rest)) FMT_VBYTE)
  = Ret (t, [], mk_input (open rest) FMT_VBYTE).
Proof.
  intros Hfit. pose proof Hfit as [Hs Hl]. change (2 ^ (64 - 1)) with (2 ^ 63) in Hl.
  unfold output_token. rewrite (fits_not_sentinel _ _ Hfit). cbn [snd].
  rewrite <- app_assoc.
  rewrite (VbyteFacts.vbyte_token_back _ _ rest Hs Hl).
  destruct t; reflexivity.
Qed.

(** *** Decimal numbers *)

Lemma digit_not_space (b : Z) : digit b -> isspace b = false.
Proof. unfold digit, isspace. lia. Qed.

Lemma digit_value_digit (b : Z) : digit b -> digit_value b = Some (b - 48).
Proof.
  unfold digit, digit_value. intros H.
  replace ((48 <=? b) && (b <=? 57)) with true by lia. reflexivity.
Qed.

Lemma accumulate_snoc (l : list Z) :
  Forall digit l ->
  forall (acc : option Z) (b : Z),
    digit b ->
    accumulate 10 acc (l ++ [b])
    = Some (10 * match accumulate 10 acc l with Some a => a | None => 0 end
            + (b - 48)).
Proof.
  induction 1 as [|c l Hc Hl IH]; intros acc b Hb.
  - cbn [app accumulate]. rewrite (digit_value_digit b Hb).
    replace (b - 48 <? 10) with true by (unfold digit in Hb; lia).
    reflexivity.
  - cbn [app accumulate]. rewrite (digit_value_digit c Hc).
    replace (c - 48 <? 10) with true by (unfold digit in Hc; lia).
    apply IH. exact Hb.
Qed.

(** The digits printed for [n], read back most significant first. *)
Lemma digits_back (k : nat) :
  forall n : Z,
    0 <= n < 10 ^ Z.of_nat (S k) ->
    Forall digit (rev (digits_rev (S k) n))
    /\ accumulate 10 None (rev (digits_rev (S k) n)) = Some n
    /\ exists h t, rev (digits_rev (S k) n) = h :: t
                   /\ (h = 48 -> n = 0 /\ t = []).
Proof.
  induction k as [|k IH]; intros n Hn; cbn [digits_rev];
    destruct (Z.ltb_spec n 10) as [Hsmall|Hlarge].
  1, 3: cbn [rev app]; split; [|split];
    [ constructor; [unfold digit; lia | constructor]
    | cbn [accumulate];
      rewrite digit_value_digit by (unfold digit; lia);
      replace (48 + n - 48 <? 10) with true by lia;
      f_equal; lia
    | exists (48 + n), []; split; [reflexivity|];
      intros H; split; [lia|reflexivity] ].
  - change (10 ^ Z.of_nat 1) with 10 in Hn. lia.
  - cbn [rev].
    pose proof (Z.mod_pos_bound n 10 ltac:(lia)) as Hm.
    pose proof (Z.div_mod n 10 ltac:(lia)) as Hdm.
    assert (Hq : 0 <= n / 10 < 10 ^ Z.of_nat (S k)).
    { split; [apply Z.div_pos; lia|].
      apply Z.div_lt_upper_bound; [lia|].
      rewrite (Nat2Z.inj_succ (S k)), Z.pow_succ_r in Hn by lia. lia. }
    destruct (IH (n / 10) Hq) as (Hall & Hval & h & t & Eh & Hh).
    change (if n / 10 <? 10 then [48 + n / 10]
            else (48 + (n / 10) mod 10) :: digits_rev k (n / 10 / 10))
      with (digits_rev (S k) (n / 10)).
    split; [|split].
    + apply Forall_app. split; [exact Hall|].
      constructor; [unfold digit; lia | constructor].
    + rewrite accumulate_snoc by (try exact Hall; unfold digit; lia).
      rewrite Hval. f_equal. lia.
    + exists h, (t ++ [48 + n mod 10]). rewrite Eh. split; [reflexivity|].
      intros H. destruct (Hh H) as [Hz _].
      assert (1 <= n / 10) by (apply Z.div_le_lower_bound; lia). lia.
Qed.

Lemma magnitude_digits (h : Z) (t : list Z) (n : Z) :
  Forall digit (h :: t) ->
  accumulate 10 None (h :: t) = Some n ->
  (h = 48 -> n = 0 /\ t = []) ->
  magnitude (h :: t) = Some (false, n).
Proof.
  intros Hall Hval Hzero. inversion Hall as [|? ? Hh Ht]; subst.
  unfold magnitude. cbn [skip_space]. rewrite (digit_not_space h Hh).
  unfold digit in Hh.
  assert (Hcases : h = 48 \/ h = 49 \/ h = 50 \/ h = 51 \/ h = 52 \/ h = 53
                   \/ h = 54 \/ h = 55 \/ h = 56 \/ h = 57) by lia.
  destruct Hcases as [E|Hcases].
  { destruct (Hzero E) as [-> ->]. subst h. reflexivity. }
  repeat (destruct Hcases as [E|Hcases]; [subst h; rewrite Hval; reflexivity|]).
  subst h. rewrite Hval. reflexivity.
Qed.

Lemma stoul_back (n : Z) :
  0 <= n < 2 ^ 64 -> stoul (to_string_unsigned n) = Ret n.
Proof.
  intros Hn. unfold to_string_unsigned.
  destruct (digits_back 19 n ltac:(change (10 ^ Z.of_nat 20) with (10 ^ 20); lia))
    as (Hall & Hval & h & t & E & Hh).
  rewrite E in *. unfold stoul.
  rewrite (magnitude_digits h t n Hall Hval Hh).
  replace (n >? ULLONG_MAX) with false
    by (symmetry; rewrite Z.gtb_ltb; apply Z.ltb_ge; unfold ULLONG_MAX; lia).
  reflexivity.
Qed.

Lemma stol_back (n : Z) :
  0 <= n < 2 ^ 63 -> stol (to_string_signed n) = Ret n.
Proof.
  intros Hn. unfold to_string_signed.
  replace (n <? 0) with false by (symmetry; apply Z.ltb_ge; lia).
  unfold to_string_unsigned.
  destruct (digits_back 19 n ltac:(change (10 ^ Z.of_nat 20) with (10 ^ 20); lia))
    as (Hall & Hval & h & t & E & Hh).
  rewrite E in *. unfold stol.
  rewrite (magnitude_digits h t n Hall Hval Hh).
  replace (n >? 2 ^ 63 - 1) with false
    by (symmetry; rewrite Z.gtb_ltb; apply Z.ltb_ge; lia).
  reflexivity.
Qed.

(** *** Words of an ascii file *)

Lemma skip_space_spaces (ws l : list Z) :
  Forall (fun b => isspace b = true) ws -> skip_space (ws ++ l) = skip_space l.
Proof.
  induction 1 as [|b ws Hb Hws IH]; cbn [app skip_space]; [reflexivity|].
  now rewrite Hb.
Qed.

Lemma take_word_word (w : list Z) (b : Z) (rest : list Z) :
  Forall digit w -> isspace b = true ->
  take_word (w ++ b :: rest) = (w, b :: rest).
Proof.
  intros Hw Hb. induction Hw as [|c w Hc Hw IH]; cbn [app take_word].
  - now rewrite Hb.
  - rewrite (digit_not_space c Hc), IH. reflexivity.
Qed.

Lemma extract_word_word (ws w : list Z) (b : Z) (rest : list Z) :
  Forall (fun b => isspace b = true) ws -> Forall digit w -> w <> [] ->
  isspace b = true ->
  extract_word (mk_ifstream (ws ++ w ++ b :: rest) false false)
  = (w, mk_ifstream (b :: rest) false false).
Proof.
  intros Hws Hw Hne Hb. unfold extract_word.
  cbn [good eofbit failbit negb andb pending].
  rewrite (skip_space_spaces ws _ Hws).
  destruct w as [|h t]; [contradiction|].
  inversion Hw as [|? ? Hh Ht]; subst.
  cbn [app skip_space]. rewrite (digit_not_space h Hh).
  change (h :: t ++ b :: rest) with ((h :: t) ++ b :: rest).
  rewrite (take_word_word (h :: t) b rest Hw Hb). reflexivity.
Qed.

Lemma to_string_digits (n : Z) :
  0 <= n < 2 ^ 64 ->
  Forall digit (to_string_unsigned n) /\ to_string_unsigned n <> [].
Proof.
  intros Hn. unfold to_string_unsigned.
  destruct (digits_back 19 n ltac:(change (10 ^ Z.of_nat 20) with (10 ^ 20); lia))
    as (Hall & _ & h & t & E & _).
  split; [exact Hall|]. rewrite E. discriminate.
Qed.

Lemma token_back_ascii (t : RLZToken) (ws rest : list Z) :
  fits 64 t -> Forall (fun b => isspace b = true) ws ->
  Common.next_token
    (mk_input (mk_ifstream (ws ++ snd (output_token t FMT_ASCII) ++ rest)
                           false false) FMT_ASCII)
  = Ret (t, [], mk_input (mk_ifstream ([10] ++ rest) false false) FMT_ASCII).
Proof.
  intros Hfit Hws. pose proof Hfit as [Hs Hl].
  change (2 ^ (64 - 1)) with (2 ^ 63) in Hl.
  unfold output_token. rewrite (fits_not_sentinel _ _ Hfit). cbn [snd].
  destruct (to_string_digits (start_pos t) Hs) as [Hpd Hpn].
  assert (Hsigned : to_string_signed (length t) = to_string_unsigned (length t)).
  { unfold to_string_signed.
    replace (length t <? 0) with false by (symmetry; apply Z.ltb_ge; lia).
    reflexivity. }
  destruct (to_string_digits (length t) ltac:(lia)) as [Hld Hln].
  rewrite <- Hsigned in Hld, Hln.
  unfold Common.next_token, next_token_ascii.
  cbn [infile mode eof fail eofbit failbit orb].
  rewrite <- !app_assoc. cbn [app].
  rewrite (extract_word_word ws _ 32 _ Hws Hpd Hpn eq_refl).
  cbn [eof eofbit].
  change (32 :: to_string_signed (length t) ++ 10 :: rest)
    with ([32] ++ to_string_signed (length t) ++ 10 :: rest).
  rewrite (extract_word_word [32] _ 10 rest
             ltac:(repeat constructor) Hld Hln eq_refl).
  rewrite (stoul_back _ Hs), (stol_back _ Hl). cbn [bind].
  destruct t; reflexivity.
Qed.

(** *** The file of a list of tokens, read back *)

Lemma stream_of_ascii (toks : list RLZToken) :
  Forall (fits 64) toks ->
  forall ws, Forall (fun b => isspace b = true) ws ->
    stream_of (mk_input (mk_ifstream (ws ++ encode FMT_ASCII toks) false false)
                        FMT_ASCII) toks.
Proof.
  induction 1 as [|t toks Ht Htoks IH]; intros ws Hws.
  - apply stream_end. right. cbn [encode flat_map]. rewrite app_nil_r.
    exists [], (mk_input (mk_ifstream [] true true) FMT_ASCII).
    unfold Common.next_token, next_token_ascii, extract_word.
    cbn [infile mode eof fail good eofbit failbit orb negb andb pending].
    replace (skip_space ws) with (@nil Z)
      by (rewrite <- (app_nil_r ws), skip_space_spaces by exact Hws; reflexivity).
    reflexivity.
  - rewrite encode_cons.
    eapply stream_token.
    + reflexivity.
    + apply token_back_ascii; assumption.
    + eapply fits_not_sentinel; exact Ht.
    + apply IH. repeat constructor.
Qed.

Lemma stream_of_binary (fmt : format) (bits : Z) (toks : list RLZToken) :
  (fmt = FMT_32X2 /\ bits = 32) \/ (fmt = FMT_64X2 /\ bits = 64)
  \/ (fmt = FMT_VBYTE /\ bits = 64) ->
  Forall (fits bits) toks ->
  stream_of (mk_input (open (encode fmt toks)) fmt) toks.
Proof.
  intros Hfmt. induction 1 as [|t toks Ht Htoks IH].
  - apply stream_end. right.
    destruct Hfmt as [[-> _]|[[-> _]|[-> _]]];
      eexists; eexists; reflexivity.
  - rewrite encode_cons.
    eapply stream_token; [reflexivity | | eapply fits_not_sentinel; exact Ht | exact IH].
    destruct Hfmt as [[-> ->]|[[-> ->]|[-> ->]]].
    + now apply token_back_32x2.
    + now apply token_back_64x2.
    + now apply token_back_vbyte.
Qed.

End CodecFacts.

(** ** The round trip, end to end *)

Module RoundTrip.

Import Parse Unparse ParserSpec Tokens Pipeline.

Lemma valid_fits (sizeof_T : nat) (d : FileReader) (bits : Z) (t : RLZToken) :
  valid sizeof_T d t = true ->
  8 * Z.of_nat sizeof_T <= bits -> 32 <= bits -> size d < 2 ^ 31 ->
  fits bits t.
Proof.
  unfold valid, fits. intros Hv Hw Hbits Hsize.
  assert (H1 : 2 ^ (8 * Z.of_nat sizeof_T) <= 2 ^ bits)
    by (apply Z.pow_le_mono_r; lia).
  assert (H2 : 2 ^ 32 <= 2 ^ bits) by (apply Z.pow_le_mono_r; lia).
  assert (H3 : 2 ^ 31 <= 2 ^ (bits - 1)) by (apply Z.pow_le_mono_r; lia).
  destruct (Z.eqb_spec (length t) 0) as [E|E].
  - apply andb_true_iff in Hv. destruct Hv as [Ha Hb].
    apply Z.leb_le in Ha. apply Z.ltb_lt in Hb. lia.
  - apply andb_true_iff in Hv. destruct Hv as [Hv Hc].
    apply andb_true_iff in Hv. destruct Hv as [Ha Hb].
    apply Z.ltb_lt in Ha. apply Z.leb_le in Hb, Hc. lia.
Qed.

Section Guarded.

Variable sizeof_T : nat.
Variable bits_S : Z.
Variable fmt : format.
Variables input_file dict_file sa_file : list Z.
Variables dict_mem sa_mem : Z -> Z.

Local Abbreviation p :=
  (make_parser sizeof_T bits_S input_file dict_file sa_file dict_mem sa_mem).

Hypothesis p_sound : sound sizeof_T bits_S p.
Hypothesis input_bytes : Forall (fun b => 0 <= b < 256) input_file.
Hypothesis input_clear :
  Forall (fun a => a <> beyond p) (symbols sizeof_T input_file).
Hypothesis literals_fit : fmt = FMT_32X2 -> (sizeof_T <= 4)%nat.

(** The file the parser writes is read back as the tokens it stands
    for. *)
Lemma parsed_stream :
  exists toks p',
    work sizeof_T bits_S p fmt = Ret (encode fmt toks, toks, p')
    /\ forallb (valid sizeof_T (Parse.dict p)) toks = true
    /\ expand sizeof_T (Parse.dict p) toks = symbols sizeof_T input_file
    /\ stream_of (mk_input (open (encode fmt toks)) fmt) toks.
Proof.
  destruct (ParserFacts.work_spec sizeof_T bits_S fmt input_file dict_file sa_file
              dict_mem sa_mem p_sound input_bytes input_clear)
    as (toks & p' & E & Hv & He).
  exists toks, p'. repeat split; try assumption.
  pose proof (width_range _ _ _ p_sound) as Hw.
  pose proof (sizes_fit _ _ _ p_sound) as Hfit.
  assert (Hall : forall bits, 8 * Z.of_nat sizeof_T <= bits -> 32 <= bits ->
                   Forall (fits bits) toks).
  { intros bits H8 H32. apply Forall_forall. intros t Ht.
    rewrite forallb_forall in Hv.
    apply (valid_fits sizeof_T (Parse.dict p)); try assumption; try lia.
    apply Hv, Ht. }
  destruct fmt eqn:Efmt.
  - apply (CodecFacts.stream_of_binary FMT_32X2 32); [tauto|].
    apply Hall; [specialize (literals_fit eq_refl); lia | lia].
  - apply (CodecFacts.stream_of_binary FMT_64X2 64); [tauto|]. apply Hall; lia.
  - apply (CodecFacts.stream_of_ascii toks (Hall 64 ltac:(lia) ltac:(lia)) []).
    constructor.
  - apply (CodecFacts.stream_of_binary FMT_VBYTE 64); [tauto|]. apply Hall; lia.
Qed.

(** When no input symbol equals the value stored right after the
    dictionary, the round trip gives back the whole symbols of the
    input, in every format; with 32x2, for symbols of at most 32 bits. *)
Theorem round_trip_guarded :
  parse_unparse sizeof_T bits_S fmt input_file dict_file sa_file
                dict_mem sa_mem 0 0
  = Ret (bytes_of sizeof_T (symbols sizeof_T input_file)).
Proof.
  destruct parsed_stream as (toks & p' & E & Hv & He & Hs).
  pose proof (width_range _ _ _ p_sound) as Hw.
  pose proof (sizes_fit _ _ _ p_sound) as Hfit.
  unfold parse_unparse. rewrite E. cbn [bind].
  destruct (WindowFacts.unparse_full sizeof_T (make_writer sizeof_T dict_file dict_mem)
              (mk_input (open (encode fmt toks)) fmt) toks
              ltac:(lia) ltac:(cbn [Unparse.dict make_writer]; change (load sizeof_T dict_file dict_mem) with (Parse.dict p); lia)
              Hs Hv) as (x & st & Eu & Hout).
  rewrite Eu. cbn [bind]. rewrite Hout. cbn [outfile make_writer app].
  f_equal. f_equal. exact He.
Qed.

(** And a window [(a, b)], [1 <= a <= b], gives the symbols [a .. b]. *)
Theorem window_guarded (a b : Z) :
  1 <= a <= b ->
  parse_unparse sizeof_T bits_S fmt input_file dict_file sa_file
                dict_mem sa_mem a b
  = Ret (bytes_of sizeof_T (slice a b (symbols sizeof_T input_file))).
Proof.
  intros Hab.
  destruct parsed_stream as (toks & p' & E & Hv & He & Hs).
  pose proof (width_range _ _ _ p_sound) as Hw.
  pose proof (sizes_fit _ _ _ p_sound) as Hfit.
  unfold parse_unparse. rewrite E. cbn [bind].
  destruct (WindowFacts.unparse_window sizeof_T
              (make_writer sizeof_T dict_file dict_mem)
              (mk_input (open (encode fmt toks)) fmt) toks a b
              ltac:(lia) ltac:(cbn [Unparse.dict make_writer]; change (load sizeof_T dict_file dict_mem) with (Parse.dict p); lia)
              Hs Hv Hab) as (x & st & Eu & Hout).
  rewrite Eu. cbn [bind]. rewrite Hout. cbn [outfile make_writer app].
  f_equal. f_equal. f_equal. exact He.
Qed.

End Guarded.

(** The hypotheses hold of the dictionary ["abracadabra"] with its suffix
    array, a zero byte after it, and the input ["cadabra"]. *)
Lemma abracadabra_sound :
  sound 1 32 (make_parser 1 32 (Inputs.text "cadabra") Inputs.abracadabra
                Inputs.abracadabra_sa (fun _ => 0) (fun _ => 0)).
Proof.
  constructor.
  - lia.
  - lia.
  - apply Forall_forall. intros a Ha. vm_compute in Ha.
    repeat (destruct Ha as [Ha|Ha]; [subst a; vm_compute; split; congruence|]).
    destruct Ha.
  - vm_compute. reflexivity.
  - vm_compute. reflexivity.
Qed.

Lemma cadabra_bytes : Forall (fun b => 0 <= b < 256) (Inputs.text "cadabra").
Proof.
  apply Forall_forall. intros a Ha. vm_compute in Ha.
  repeat (destruct Ha as [Ha|Ha]; [subst a; lia|]). destruct Ha.
Qed.

Lemma cadabra_clear :
  Forall (fun a => a <> beyond (make_parser 1 32 (Inputs.text "cadabra")
                                  Inputs.abracadabra Inputs.abracadabra_sa
                                  (fun _ => 0) (fun _ => 0)))
         (symbols 1 (Inputs.text "cadabra")).
Proof.
  apply Forall_forall. intros a Ha. vm_compute in Ha. vm_compute.
  repeat (destruct Ha as [Ha|Ha]; [subst a; discriminate|]). destruct Ha.
Qed.

Lemma round_trip_guarded_witness :
  parse_unparse 1 32 FMT_VBYTE (Inputs.text "cadabra") Inputs.abracadabra
                Inputs.abracadabra_sa (fun _ => 0) (fun _ => 0) 0 0
  = Ret (bytes_of 1 (symbols 1 (Inputs.text "cadabra"))).
Proof.
  exact (round_trip_guarded 1 32 FMT_VBYTE _ _ _ _ _ abracadabra_sound
           cadabra_bytes cadabra_clear ltac:(intros _; lia)).
Defined.

Lemma window_guarded_witness :
  parse_unparse 1 32 FMT_32X2 (Inputs.text "cadabra") Inputs.abracadabra
                Inputs.abracadabra_sa (fun _ => 0) (fun _ => 0) 3 5
  = Ret (bytes_of 1 (slice 3 5 (symbols 1 (Inputs.text "cadabra")))).
Proof.
  exact (window_guarded 1 32 FMT_32X2 _ _ _ _ _ abracadabra_sound
           cadabra_bytes cadabra_clear ltac:(intros _; lia) 3 5 ltac:(lia)).
Defined.

End RoundTrip.

(** ** Bytes and little-endian numbers *)

Module FileFacts.

Import IntFacts Files.

Lemma u8_of_byte (b : Z) : byte b -> u8 b = b.
Proof. intros H. unfold u8, wrap_u. apply Z.mod_small. exact H. Qed.

Lemma le_bytes_app (n m : nat) :
  forall x : Z,
    le_bytes (n + m) x = le_bytes n x ++ le_bytes m (x / 256 ^ Z.of_nat n).
Proof.
  induction n as [|n IH]; intros x.
  - cbn [Nat.add le_bytes app Z.of_nat]. change (256 ^ 0) with 1.
    now rewrite Z.div_1_r.
  - cbn [Nat.add le_bytes app]. rewrite IH. do 2 f_equal.
    rewrite Nat2Z.inj_succ, Z.pow_succ_r by lia.
    rewrite Z.div_div by lia. reflexivity.
Qed.

Lemma le_bytes_zero (m : nat) : le_bytes m 0 = repeat 0 m.
Proof.
  induction m as [|m IH]; [reflexivity|]. cbn [le_bytes repeat].
  change (0 / 256) with 0. change (0 mod 256) with 0. now rewrite IH.
Qed.

(** A number below [256 ^ n] written on [n + m] bytes. *)
Lemma le_bytes_wider (n m : nat) (x : Z) :
  0 <= x < 256 ^ Z.of_nat n ->
  le_bytes (n + m) x = le_bytes n x ++ repeat 0 m.
Proof.
  intros Hx. rewrite le_bytes_app, Z.div_small by exact Hx.
  now rewrite le_bytes_zero.
Qed.

Lemma mod_byte (x : Z) : byte (x mod 256).
Proof. unfold byte. apply Z.mod_pos_bound. lia. Qed.

Lemma flat_map_le_bytes_length (n : nat) (xs : list Z) :
  List.length (flat_map (le_bytes n) xs) = (n * List.length xs)%nat.
Proof.
  induction xs as [|x xs IH]; cbn [flat_map List.length]; [lia|].
  rewrite length_app, le_bytes_length, IH. lia.
Qed.

End FileFacts.

(** ** 32toVbyte and the parser's vbyte format *)

Module ToVbyteFacts.

Import Parse Tokens IntFacts VbyteFacts ToVbyte.

Lemma write_out_loop_put (k j : nat) :
  forall n : Z,
    0 <= n < 2 ^ (7 * Z.of_nat k) ->
    write_out_loop k n = vbyte_put (k + j) n.
Proof.
  induction k as [|k IH]; intros n Hn.
  - change (2 ^ (7 * Z.of_nat 0)) with 1 in Hn.
    replace n with 0 by lia. now rewrite vbyte_put_zero.
  - cbn [write_out_loop Nat.add vbyte_put].
    destruct (n >? 0) eqn:Hpos; [|reflexivity].
    apply Z.gtb_lt in Hpos. f_equal.
    + destruct (n <=? 127) eqn:Hs; [|reflexivity].
      apply Z.leb_le in Hs. unfold u8, wrap_u. apply Z.mod_small.
      change (2 ^ 8) with 256. lia.
    + apply IH. rewrite Z.shiftr_div_pow2 by lia. split.
      * apply Z.div_pos; lia.
      * apply Z.div_lt_upper_bound; [lia|].
        replace (7 * Z.of_nat (S k)) with (7 + 7 * Z.of_nat k) in Hn by lia.
        rewrite Z.pow_add_r in Hn by lia. lia.
Qed.

Lemma write_out_field (n : Z) :
  0 <= n < 2 ^ 32 -> write_out n = vbyte_field n.
Proof.
  intros Hn. unfold write_out, vbyte_field. f_equal.
  apply (write_out_loop_put 5 5). change (2 ^ (7 * Z.of_nat 5)) with (2 ^ 35).
  lia.
Qed.

Lemma u32_add_s32 (a y : Z) : u32 (a + s32 y) = u32 (a + y).
Proof.
  unfold u32, s32, wrap_u, wrap_s. change (2 ^ (32 - 1)) with (2 ^ 31).
  rewrite (Z.mod_eq (y + 2 ^ 31) (2 ^ 32)) by lia.
  replace (a + (y + 2 ^ 31 - 2 ^ 32 * ((y + 2 ^ 31) / 2 ^ 32) - 2 ^ 31))
    with (a + y + (- ((y + 2 ^ 31) / 2 ^ 32)) * 2 ^ 32) by ring.
  apply Z.mod_add. lia.
Qed.

Lemma step_more (a s b : Z) (out : list Z) :
  0 <= s -> s + 8 <> 32 ->
  step (mk_state a s out) b = mk_state (u32 (a + b * 2 ^ s)) (s + 8) out.
Proof.
  intros Hs Hne. unfold step. cbn [input_number shiftwidth stdout].
  replace (s + 8 =? 32) with false by (symmetry; apply Z.eqb_neq; exact Hne).
  now rewrite u32_add_s32, Z.shiftl_mul_pow2 by lia.
Qed.

Lemma step_last (a b : Z) (out : list Z) :
  step (mk_state a 24 out) b
  = mk_state 0 0 (out ++ write_out (u32 (a + b * 2 ^ 24))).
Proof.
  unfold step. cbn [input_number shiftwidth stdout Z.add Z.eqb Pos.add Pos.eqb
                    Pos.succ].
  now rewrite u32_add_s32, Z.shiftl_mul_pow2 by lia.
Qed.

(** The number that the bytes of a word add up to. *)
Lemma word_sum (x : Z) :
  0 <= x < 2 ^ 32 ->
  u32 (u32 (u32 (u32 (x mod 256 * 2 ^ 0) + (x / 256) mod 256 * 2 ^ 8)
            + (x / 256 / 256) mod 256 * 2 ^ 16)
       + (x / 256 / 256 / 256) mod 256 * 2 ^ 24) = x.
Proof.
  intros Hx.
  assert (Hsmall : forall a, 0 <= a < 4294967296 -> u32 a = a).
  { intros a Ha. unfold u32, wrap_u. apply Z.mod_small.
    change (2 ^ 32) with 4294967296. exact Ha. }
  pose proof (Z.div_mod x 256 ltac:(lia)) as H0.
  pose proof (Z.mod_pos_bound x 256 ltac:(lia)) as B0.
  pose proof (Z.div_mod (x / 256) 256 ltac:(lia)) as H1.
  pose proof (Z.mod_pos_bound (x / 256) 256 ltac:(lia)) as B1.
  pose proof (Z.div_mod (x / 256 / 256) 256 ltac:(lia)) as H2.
  pose proof (Z.mod_pos_bound (x / 256 / 256) 256 ltac:(lia)) as B2.
  pose proof (Z.div_mod (x / 256 / 256 / 256) 256 ltac:(lia)) as H3.
  pose proof (Z.mod_pos_bound (x / 256 / 256 / 256) 256 ltac:(lia)) as B3.
  change (2 ^ 0) with 1. change (2 ^ 8) with 256. change (2 ^ 16) with 65536.
  change (2 ^ 24) with 16777216. change (2 ^ 32) with 4294967296 in *.
  assert (Hq : x / 256 / 256 / 256 / 256 = 0).
  { apply Z.div_small. split.
    - repeat apply Z.div_pos; lia.
    - repeat (apply Z.div_lt_upper_bound; [lia|]). lia. }
  rewrite (Hsmall (x mod 256 * 1)) by lia.
  rewrite (Hsmall (x mod 256 * 1 + (x / 256) mod 256 * 256)) by lia.
  rewrite (Hsmall (x mod 256 * 1 + (x / 256) mod 256 * 256
                   + (x / 256 / 256) mod 256 * 65536)) by lia.
  rewrite Hsmall; lia.
Qed.

(** Four bytes of the input make one number, which is written out. *)
Lemma main_word (x : Z) (rest out : list Z) :
  0 <= x < 2 ^ 32 ->
  fold_left step (le_bytes 4 x ++ rest) (mk_state 0 0 out)
  = fold_left step rest (mk_state 0 0 (out ++ write_out x)).
Proof.
  intros Hx. cbn [le_bytes app fold_left].
  rewrite step_more by lia. rewrite step_more by lia.
  rewrite step_more by lia. cbn [Z.add Pos.add Pos.succ].
  rewrite step_last. now rewrite word_sum.
Qed.

(** A file of whole words. *)
Lemma main_words (xs : list Z) :
  Forall (fun x => 0 <= x < 2 ^ 32) xs ->
  forall out : list Z,
    fold_left step (flat_map (le_bytes 4) xs) (mk_state 0 0 out)
    = mk_state 0 0 (out ++ flat_map write_out xs).
Proof.
  induction 1 as [|x xs Hx _ IH]; intros out; cbn [flat_map fold_left].
  - now rewrite app_nil_r.
  - rewrite main_word by exact Hx. rewrite IH. now rewrite <- app_assoc.
Qed.

Lemma fits_32_bytes (t : RLZToken) :
  fits 32 t ->
  snd (output_token t FMT_32X2)
  = le_bytes 4 (start_pos t) ++ le_bytes 4 (length t)
  /\ snd (output_token t FMT_VBYTE)
     = write_out (start_pos t) ++ write_out (length t).
Proof.
  intros Hf. pose proof (CodecFacts.fits_not_sentinel 32 t Hf) as Hs.
  destruct Hf as [Hp Hl]. change (2 ^ (32 - 1)) with (2 ^ 31) in Hl.
  unfold output_token. rewrite Hs. cbn [snd]. split.
  - unfold u32, wrap_u. now rewrite !Z.mod_small by lia.
  - now rewrite !write_out_field by lia.
Qed.

(** X1.  [32toVbyte] turns the 32x2 file that [rlzparse] writes for a
    list of tokens into the vbyte file that [rlzparse] writes for them,
    and exits with status 0 and no warning: for tokens whose
    [start_pos] is below 2^32 and [length] below 2^31. *)
Theorem tovbyte_recodes_parser_output (toks : list RLZToken) :
  Forall (fits 32) toks ->
  main (encode FMT_32X2 toks) = (0, encode FMT_VBYTE toks, []).
Proof.
  intros Hf.
  assert (H : encode FMT_32X2 toks
              = flat_map (le_bytes 4)
                  (flat_map (fun t => [start_pos t; length t]) toks)
              /\ encode FMT_VBYTE toks
                 = flat_map write_out
                     (flat_map (fun t => [start_pos t; length t]) toks)
              /\ Forall (fun x => 0 <= x < 2 ^ 32)
                    (flat_map (fun t => [start_pos t; length t]) toks)).
  { induction Hf as [|t toks Ht _ IH]; [repeat split; constructor|].
    destruct IH as (E1 & E2 & F).
    destruct (fits_32_bytes t Ht) as [B1 B2].
    unfold encode in *. cbn [flat_map app]. rewrite E1, E2, B1, B2.
    rewrite <- !app_assoc. repeat split.
    destruct Ht as [Hp Hl]. change (2 ^ (32 - 1)) with (2 ^ 31) in Hl.
    constructor; [lia|]. constructor; [lia | exact F]. }
  destruct H as (E1 & E2 & F). unfold main.
  rewrite E1, E2, (main_words _ F []). reflexivity.
Qed.

Lemma tovbyte_recodes_parser_output_witness :
  Forall (fits 32) [mk_token 300 2; mk_token 97 0]
  /\ main [44; 1; 0; 0; 2; 0; 0; 0; 97; 0; 0; 0; 0; 0; 0; 0]
     = (0, [172; 2; 2; 97; 0], []).
Proof.
  assert (H : Forall (fits 32) [mk_token 300 2; mk_token 97 0]).
  { repeat constructor; cbn; lia. }
  split; [exact H|].
  exact (tovbyte_recodes_parser_output [mk_token 300 2; mk_token 97 0] H).
Defined.

(** X2.  When the input does not end on a word of four bytes, the bytes
    left over are taken as the low bytes of one more number, which is
    written out as well, with a warning and the exit status 1. *)
Theorem tovbyte_pads_last_word (xs tail : list Z) :
  Forall (fun x => 0 <= x < 2 ^ 32) xs ->
  Forall (fun b => 0 <= b < 256) tail ->
  (0 < List.length tail < 4)%nat ->
  main (flat_map (le_bytes 4) xs ++ tail)
  = (1, flat_map write_out xs ++ write_out (le_value tail), [padding_warning]).
Proof.
  intros Hxs Htail Hlen. unfold main.
  rewrite fold_left_app, (main_words xs Hxs []). cbn [app].
  assert (Hsmall : forall a, 0 <= a < 4294967296 -> u32 a = a).
  { intros a Ha. unfold u32, wrap_u. apply Z.mod_small.
    change (2 ^ 32) with 4294967296. exact Ha. }
  destruct tail as [|a [|b [|c [|e tail]]]]; cbn [List.length] in Hlen; try lia.
  - inversion Htail as [|? ? Ha _]; subst.
    cbn [fold_left]. rewrite step_more by lia.
    cbn [shiftwidth input_number stdout Z.add Z.eqb Pos.eqb negb le_value].
    change (2 ^ 0) with 1. rewrite Hsmall by lia.
    f_equal. f_equal. f_equal. f_equal. lia.
  - inversion Htail as [|? ? Ha Ht1]; subst.
    inversion Ht1 as [|? ? Hb _]; subst.
    cbn [fold_left]. rewrite step_more by lia. rewrite step_more by lia.
    cbn [shiftwidth input_number stdout Z.add Z.eqb Pos.eqb Pos.add Pos.succ
         negb le_value].
    change (2 ^ 0) with 1. change (2 ^ 8) with 256.
    rewrite (Hsmall (a * 1)) by lia. rewrite Hsmall by lia.
    f_equal. f_equal. f_equal. f_equal. lia.
  - inversion Htail as [|? ? Ha Ht1]; subst.
    inversion Ht1 as [|? ? Hb Ht2]; subst.
    inversion Ht2 as [|? ? Hc _]; subst.
    cbn [fold_left]. rewrite step_more by lia. rewrite step_more by lia.
    rewrite step_more by lia.
    cbn [shiftwidth input_number stdout Z.add Z.eqb Pos.eqb Pos.add Pos.succ
         negb le_value].
    change (2 ^ 0) with 1. change (2 ^ 8) with 256. change (2 ^ 16) with 65536.
    rewrite (Hsmall (a * 1)) by lia. rewrite (Hsmall (a * 1 + b * 256)) by lia.
    rewrite Hsmall by lia.
    f_equal. f_equal. f_equal. f_equal. lia.
Qed.

Lemma tovbyte_pads_last_word_witness :
  main [44; 1; 0; 0; 5] = (1, [172; 2; 5], [padding_warning]).
Proof.
  exact (tovbyte_pads_last_word [300] [5]
           ltac:(repeat constructor; lia) ltac:(repeat constructor; lia)
           ltac:(cbn; lia)).
Defined.

End ToVbyteFacts.

(** ** count-vbyte-tokens on the parser's vbyte format *)

Module CountFacts.

Import Parse Tokens IntFacts VbyteFacts Vbyte CountVbyteTokens.

Lemma vbyte_put_length (k : nat) (n : Z) : (List.length (vbyte_put k n) <= k)%nat.
Proof.
  revert n. induction k as [|k IH]; intros n; cbn [vbyte_put List.length]; [lia|].
  destruct (n >? 0); cbn [List.length]; [|lia]. specialize (IH (Z.shiftr n 7)). lia.
Qed.

(** The continuation bytes of a number are passed over. *)
Lemma step_continues (ks : list Z) :
  Forall continues ks ->
  forall (rest : list Z) (seen e : Z),
    0 < e -> e + Z.of_nat (List.length ks) < 2 ^ 31 ->
    fold_left step (ks ++ rest) (mk_counter seen e)
    = fold_left step rest (mk_counter seen (e + Z.of_nat (List.length ks))).
Proof.
  induction 1 as [|c ks Hc _ IH]; intros rest seen e He Hb.
  - cbn [app List.length Z.of_nat]. now rewrite Z.add_0_r.
  - cbn [app fold_left]. unfold step at 2. cbn [expecting_more numbers_seen].
    replace (e =? 0) with false by (symmetry; apply Z.eqb_neq; lia).
    cbn [negb]. unfold continues in Hc.
    replace (c >=? 128) with true
      by (symmetry; rewrite Z.geb_leb; apply Z.leb_le; lia).
    cbn [List.length] in Hb. rewrite Nat2Z.inj_succ in Hb.
    rewrite s32_small by lia. rewrite IH by lia.
    cbn [List.length]. rewrite Nat2Z.inj_succ. do 2 f_equal. lia.
Qed.

(** A field written by [output_token] counts as one number. *)
Lemma step_field (n : Z) (rest : list Z) (seen : Z) :
  0 <= n < 2 ^ 64 ->
  fold_left step (vbyte_field n ++ rest) (mk_counter seen 0)
  = fold_left step rest (mk_counter (seen + 1) 0).
Proof.
  intros Hn. unfold vbyte_field.
  destruct (Z.eq_dec n 0) as [->|Hnz]; [reflexivity|].
  replace (n =? 0) with false by (symmetry; apply Z.eqb_neq; exact Hnz).
  cbn [app].
  assert (H70 : 2 ^ 64 <= 2 ^ (7 * Z.of_nat 10))
    by (apply Z.pow_le_mono_r; lia).
  destruct (put_shape 10 n ltac:(lia) ltac:(lia)) as ((ks & t & E & Hks & Ht) & _).
  pose proof (vbyte_put_length 10 n) as Hlen. rewrite E in *.
  rewrite length_app in Hlen. cbn [List.length] in Hlen.
  unfold terminal in Ht.
  destruct ks as [|c ks].
  - cbn [app fold_left]. unfold step at 2. cbn [expecting_more numbers_seen].
    cbn [Z.eqb negb].
    replace (t >=? 128) with false
      by (symmetry; rewrite Z.geb_leb; apply Z.leb_gt; lia).
    reflexivity.
  - inversion Hks as [|? ? Hc Hks']; subst. unfold continues in Hc.
    cbn [app fold_left]. unfold step at 2. cbn [expecting_more numbers_seen].
    cbn [Z.eqb negb].
    replace (c >=? 128) with true
      by (symmetry; rewrite Z.geb_leb; apply Z.leb_le; lia).
    rewrite <- app_assoc.
    rewrite (step_continues ks Hks') by (cbn [List.length] in Hlen; lia).
    cbn [app fold_left]. unfold step at 2. cbn [expecting_more numbers_seen].
    replace (1 + Z.of_nat (List.length ks) =? 0) with false
      by (symmetry; apply Z.eqb_neq; lia).
    cbn [negb].
    replace (t >=? 128) with false
      by (symmetry; rewrite Z.geb_leb; apply Z.leb_gt; lia).
    reflexivity.
Qed.

Lemma step_tokens (toks : list RLZToken) :
  Forall (fits 64) toks ->
  forall seen : Z,
    fold_left step (encode FMT_VBYTE toks) (mk_counter seen 0)
    = mk_counter (seen + 2 * Z.of_nat (List.length toks)) 0.
Proof.
  induction 1 as [|t toks Ht _ IH]; intros seen.
  - cbn. now rewrite Z.add_0_r.
  - pose proof (CodecFacts.fits_not_sentinel 64 t Ht) as Hs.
    destruct Ht as [Hp Hl]. change (2 ^ (64 - 1)) with (2 ^ 63) in Hl.
    rewrite CodecFacts.encode_cons. unfold output_token. rewrite Hs. cbn [snd].
    rewrite <- !app_assoc. rewrite step_field by lia. rewrite step_field by lia.
    rewrite IH. cbn [List.length]. rewrite Nat2Z.inj_succ. f_equal. lia.
Qed.

(** X3.  On the vbyte file that [rlzparse] writes for a list of tokens,
    [count-vbyte-tokens] prints the number of the tokens, with no [.5]
    and no warning. *)
Theorem count_of_parser_output (toks : list RLZToken) :
  Forall (fits 64) toks ->
  work (encode FMT_VBYTE toks)
  = (to_string_unsigned (Z.of_nat (List.length toks)) ++ [10], []).
Proof.
  intros Hf. unfold work. rewrite (step_tokens toks Hf 0).
  cbn [numbers_seen expecting_more Z.add Z.eqb negb].
  rewrite Z.shiftr_div_pow2 by lia. change (2 ^ 1) with 2.
  replace (2 * Z.of_nat (List.length toks))
    with (Z.of_nat (List.length toks) * 2) by lia.
  rewrite Z.mod_mul, Z.div_mul by lia. reflexivity.
Qed.

Lemma count_of_parser_output_witness :
  work [172; 2; 2; 97; 0] = ([50; 10], []).
Proof.
  exact (count_of_parser_output [mk_token 300 2; mk_token 97 0]
           ltac:(repeat constructor; cbn; lia)).
Defined.

(** What the loop leaves for any bytes at all. *)
Lemma step_any (l : list Z) :
  forall seen e : Z,
    0 <= e -> e + Z.of_nat (List.length l) < 2 ^ 31 ->
    let st := fold_left step l (mk_counter seen e) in
    numbers_seen st
    = seen + Z.of_nat (List.length (filter (fun c => c <? 128) l))
    /\ 0 <= expecting_more st <= e + Z.of_nat (List.length l)
    /\ (expecting_more st =? 0)
       = match l with
         | [] => e =? 0
         | _ => last l 0 <? 128
         end.
Proof.
  induction l as [|c l IH]; intros seen e He Hb.
  - cbn. repeat split; lia.
  - cbn [List.length] in Hb. rewrite Nat2Z.inj_succ in Hb.
    cbn [fold_left]. cbv zeta.
    assert (Hstep : exists seen' e',
               step (mk_counter seen e) c = mk_counter seen' e'
               /\ seen' = seen + (if c <? 128 then 1 else 0)
               /\ 0 <= e' <= e + 1
               /\ (e' =? 0) = (c <? 128)).
    { unfold step. cbn [expecting_more numbers_seen].
      destruct (Z.ltb_spec c 128) as [Hc|Hc].
      - replace (c >=? 128) with false
          by (symmetry; rewrite Z.geb_leb; apply Z.leb_gt; lia).
        destruct (e =? 0) eqn:E; cbn [negb].
        + apply Z.eqb_eq in E. subst e. eexists. eexists.
          split; [reflexivity|]. repeat split; lia.
        + eexists. eexists. split; [reflexivity|]. repeat split; lia.
      - replace (c >=? 128) with true
          by (symmetry; rewrite Z.geb_leb; apply Z.leb_le; lia).
        destruct (e =? 0) eqn:E; cbn [negb].
        + eexists. eexists. split; [reflexivity|]. repeat split; lia.
        + apply Z.eqb_neq in E. rewrite s32_small by lia.
          eexists. eexists. split; [reflexivity|]. repeat split; lia. }
    destruct Hstep as (seen' & e' & -> & Hseen & He' & Hz).
    specialize (IH seen' e' ltac:(lia) ltac:(lia)). cbv zeta in IH.
    destruct IH as (Hn & Hr & Hl).
    split; [|split].
    + rewrite Hn, Hseen. cbn [filter].
      destruct (c <? 128); cbn [List.length]; lia.
    + cbn [List.length]. lia.
    + rewrite Hl. destruct l as [|c' l]; [exact Hz | reflexivity].
Qed.

(** X4.  Whatever the bytes of the file are, [count-vbyte-tokens] prints
    half the number of bytes below 128, with [.5] after it when that
    number is odd, and warns when the last byte is not below 128: it
    looks at no value and at no pairing of the numbers into tokens. *)
Theorem count_is_half_the_final_bytes (infile : list Z) :
  Z.of_nat (List.length infile) < 2 ^ 31 ->
  let n := Z.of_nat (List.length (filter (fun c => c <? 128) infile)) in
  work infile
  = (to_string_unsigned (n / 2) ++ (if n mod 2 =? 0 then [10] else [46; 53; 10]),
     match infile with
     | [] => []
     | _ => if last infile 0 <? 128 then [] else [interrupted_warning]
     end).
Proof.
  intros Hlen n. unfold work.
  destruct (step_any infile 0 0 ltac:(lia) ltac:(lia)) as (Hn & _ & Hl).
  cbv zeta in Hn, Hl. rewrite Hn. cbn [Z.add]. fold n.
  rewrite Z.shiftr_div_pow2 by lia. change (2 ^ 1) with 2.
  rewrite Hl. f_equal.
  - destruct (n mod 2 =? 0); reflexivity.
  - destruct infile as [|c l]; [reflexivity|].
    destruct (last (c :: l) 0 <? 128); reflexivity.
Qed.

Lemma count_is_half_the_final_bytes_witness :
  work [5; 200; 7; 9; 255] = ([49; 46; 53; 10], [interrupted_warning]).
Proof.
  exact (count_is_half_the_final_bytes [5; 200; 7; 9; 255] ltac:(cbn; lia)).
Defined.

End CountFacts.

(** ** endflip *)

Module EndflipFacts.

Import IntFacts FileFacts Endflip Files.

(** A whole word is there to be read. *)
Lemma fill_word (w : list Z) :
  Forall byte w ->
  forall (n : Z) (rest buffer : list Z),
    fill (List.length w) n (w ++ rest) buffer = Word (buffer ++ w) rest.
Proof.
  induction 1 as [|c w Hc _ IH]; intros n rest buffer.
  - cbn. now rewrite app_nil_r.
  - cbn [List.length app fill]. rewrite IH, u8_of_byte by exact Hc.
    now rewrite <- app_assoc.
Qed.

(** The file ends inside a word. *)
Lemma fill_short (tail : list Z) :
  forall (todo : nat) (n : Z) (buffer : list Z),
    (List.length tail < todo)%nat ->
    fill todo n tail buffer = End_of_file (n + Z.of_nat (List.length tail)).
Proof.
  induction tail as [|c tail IH]; intros todo n buffer Hlen.
  - destruct todo; [cbn in Hlen; lia|]. cbn. now rewrite Z.add_0_r.
  - destruct todo; [cbn in Hlen; lia|]. cbn [fill List.length] in *.
    rewrite IH by lia. rewrite Nat2Z.inj_succ. f_equal. lia.
Qed.

Lemma work_loop_words (N : Z) (ws : list (list Z)) (tail : list Z) :
  Forall (fun w => Forall byte w /\ Z.of_nat (List.length w) = N) ws ->
  Z.of_nat (List.length tail) < N ->
  forall (rounds : nat) (outfile : list Z),
    (List.length ws < rounds)%nat ->
    work_loop rounds N (List.concat ws ++ tail) outfile
    = Some (outfile ++ List.concat (map (@rev Z) ws),
            match tail with
            | [] => []
            | _ => [Indivisible N (Z.of_nat (List.length tail))]
            end).
Proof.
  intros Hws Htail. induction Hws as [|w ws [Hw Hlen] _ IH]; intros rounds outfile Hr.
  - destruct rounds as [|k]; [cbn in Hr; lia|].
    cbn [List.concat map app work_loop]. rewrite fill_short by lia.
    rewrite app_nil_r. f_equal. f_equal.
    destruct tail as [|c tail]; [reflexivity|].
    cbn [List.length]. rewrite Nat2Z.inj_succ.
    replace (0 + Z.succ (Z.of_nat (List.length tail)) >? 0) with true
      by (symmetry; apply Z.gtb_lt; lia).
    reflexivity.
  - destruct rounds as [|k]; [cbn in Hr; lia|].
    cbn [List.concat map work_loop]. rewrite <- app_assoc.
    replace (Z.to_nat N) with (List.length w) by lia.
    rewrite fill_word by exact Hw. cbn [app List.length] in *.
    rewrite IH by lia. now rewrite <- app_assoc.
Qed.

Lemma concat_length (N : nat) (ws : list (list Z)) :
  Forall (fun w => List.length w = N) ws ->
  List.length (List.concat ws) = (List.length ws * N)%nat.
Proof.
  induction 1 as [|w ws Hw _ IH]; [reflexivity|].
  cbn [List.concat List.length]. rewrite length_app, IH, Hw. lia.
Qed.

(** A round for every byte of the file, and one more, is enough for
    the loop of [work] to come to the end of the file. *)
Lemma rounds_suffice (N : Z) (ws : list (list Z)) (tail : list Z) :
  Forall (fun w => Forall byte w /\ Z.of_nat (List.length w) = N) ws ->
  Z.of_nat (List.length tail) < N ->
  (List.length ws < S (List.length (List.concat ws ++ tail)))%nat.
Proof.
  intros Hws Htail.
  assert (Hl : Forall (fun w => List.length w = Z.to_nat N) ws).
  { eapply Forall_impl; [|exact Hws]. cbv beta. intros w [_ H]. lia. }
  rewrite length_app, (concat_length _ ws Hl). nia.
Qed.

(** X5.  [endflip N], for [N] within the size of its buffer, writes
    every whole word of [N] bytes with its bytes in the opposite order,
    leaves out the bytes after the last whole word, and warns of them
    with their number. *)
Theorem endflip_reverses_words (N : Z) (ws : list (list Z)) (tail : list Z) :
  N <= MAX_WORD_WIDTH ->
  Forall (fun w => Forall byte w /\ Z.of_nat (List.length w) = N) ws ->
  Z.of_nat (List.length tail) < N ->
  work N (List.concat ws ++ tail)
  = Some (List.concat (map (@rev Z) ws),
          match tail with
          | [] => []
          | _ => [Indivisible N (Z.of_nat (List.length tail))]
          end).
Proof.
  intros _ Hws Htail. unfold work.
  rewrite (work_loop_words N ws tail Hws Htail); [reflexivity|].
  exact (rounds_suffice N ws tail Hws Htail).
Qed.

Lemma endflip_reverses_words_witness :
  work 2 [1; 2; 3; 4; 5] = Some ([2; 1; 4; 3], [Indivisible 2 1]).
Proof.
  exact (endflip_reverses_words 2 [[1; 2]; [3; 4]] [5]
           ltac:(unfold MAX_WORD_WIDTH; lia)
           ltac:(repeat constructor; unfold byte; lia) ltac:(cbn; lia)).
Defined.

(** X6.  [endflip N] done twice, for [N] within the size of its
    buffer, gives the file back, up to its last whole word, and the
    second run has nothing to warn of. *)
Theorem endflip_twice (N : Z) (ws : list (list Z)) (tail : list Z) :
  N <= MAX_WORD_WIDTH ->
  Forall (fun w => Forall byte w /\ Z.of_nat (List.length w) = N) ws ->
  Z.of_nat (List.length tail) < N ->
  exists out warnings,
    work N (List.concat ws ++ tail) = Some (out, warnings)
    /\ work N out = Some (List.concat ws, []).
Proof.
  intros _ Hws Htail. eexists. eexists. unfold work.
  split.
  { rewrite (work_loop_words N ws tail Hws Htail);
      [reflexivity | exact (rounds_suffice N ws tail Hws Htail)]. }
  assert (Hrev : Forall (fun w => Forall byte w /\ Z.of_nat (List.length w) = N)
                   (map (@rev Z) ws)).
  { apply Forall_forall. intros w Hin. apply in_map_iff in Hin.
    destruct Hin as (w0 & <- & Hin).
    destruct (proj1 (Forall_forall _ _) Hws w0 Hin) as [Hb Hl]. split.
    - apply Forall_forall. intros b Hb'. apply in_rev in Hb'.
      exact (proj1 (Forall_forall _ _) Hb b Hb').
    - now rewrite length_rev. }
  assert (Hnone : Z.of_nat (List.length (@nil Z)) < N)
    by (cbn [List.length Z.of_nat]; lia).
  pose proof (work_loop_words N (map (@rev Z) ws) [] Hrev Hnone) as H.
  pose proof (rounds_suffice N (map (@rev Z) ws) [] Hrev Hnone) as Hr.
  rewrite app_nil_r in H, Hr. cbn [app]. rewrite (H _ [] Hr).
  cbn [app]. rewrite map_map. f_equal. f_equal. f_equal.
  rewrite <- (map_id ws) at 2. apply map_ext. intros w. apply rev_involutive.
Qed.

Lemma endflip_twice_witness :
  exists out warnings,
    work 2 [1; 2; 3; 4; 5] = Some (out, warnings)
    /\ work 2 out = Some ([1; 2; 3; 4], []).
Proof.
  exact (endflip_twice 2 [[1; 2]; [3; 4]] [5]
           ltac:(unfold MAX_WORD_WIDTH; lia)
           ltac:(repeat constructor; unfold byte; lia) ltac:(cbn; lia)).
Defined.

End EndflipFacts.

(** ** 5to8 and 5to4 *)

Module FiveFacts.

Import IntFacts FileFacts FiveToEight Files.

(** One pass of the [for] loop over five bytes, in [5to8]. *)
Lemma word_eight (b0 b1 b2 b3 b4 : Z) (rest out : list Z)
    (err : list diagnostic) (k : Z) :
  byte b0 -> byte b1 -> byte b2 -> byte b3 -> byte b4 ->
  word false 5 0 (mk_files (b0 :: b1 :: b2 :: b3 :: b4 :: rest) out err k)
  = Next (mk_files rest (out ++ [b0; b1; b2; b3; b4; 0; 0; 0]) err (k + 5)).
Proof.
  intros H0 H1 H2 H3 H4. cbn [word infile outfile stderr input_byte_number fputc].
  rewrite !u8_of_byte by assumption. unfold fputc.
  cbn [infile outfile stderr input_byte_number]. f_equal. f_equal.
  - now rewrite <- !app_assoc.
  - lia.
Qed.

(** And in [5to4]. *)
Lemma word_four (b0 b1 b2 b3 b4 : Z) (rest out : list Z)
    (err : list diagnostic) (k : Z) :
  byte b0 -> byte b1 -> byte b2 -> byte b3 ->
  word true 5 0 (mk_files (b0 :: b1 :: b2 :: b3 :: b4 :: rest) out err k)
  = if b4 =? 0
    then Next (mk_files rest (out ++ [b0; b1; b2; b3]) err (k + 5))
    else Return 1 (mk_files rest (out ++ [b0; b1; b2; b3])
                            (err ++ [Nonzero (k + 5)]) (k + 5)).
Proof.
  intros H0 H1 H2 H3.
  cbn [word infile outfile stderr input_byte_number fputc fputs Z.ltb Z.add
       Z.compare Pos.compare Pos.compare_cont Pos.add Pos.succ].
  rewrite !u8_of_byte by assumption. unfold fputc, fputs.
  cbn [infile outfile stderr input_byte_number].
  replace (k + 1 + 1 + 1 + 1 + 1) with (k + 5) by lia.
  destruct (b4 =? 0); cbn [negb]; now rewrite <- !app_assoc.
Qed.

(** The rounds of [5to8] over whole numbers. *)
Lemma loop_eight (xs : list Z) :
  Forall (fun x => 0 <= x < 2 ^ 40) xs ->
  forall (rounds : nat) (tail out : list Z) (err : list diagnostic) (k : Z),
    work_loop false (List.length xs + rounds)
      (mk_files (flat_map (le_bytes 5) xs ++ tail) out err k)
    = work_loop false rounds
        (mk_files tail (out ++ flat_map (le_bytes 8) xs) err
                  (k + 5 * Z.of_nat (List.length xs))).
Proof.
  induction 1 as [|x xs Hx _ IH]; intros rounds tail out err k.
  - cbn [flat_map app List.length Nat.add Z.of_nat].
    now rewrite app_nil_r, Z.mul_0_r, Z.add_0_r.
  - cbn [List.length Nat.add work_loop flat_map].
    rewrite <- app_assoc.
    change (le_bytes 5 x)
      with [x mod 256; (x / 256) mod 256; (x / 256 / 256) mod 256;
            (x / 256 / 256 / 256) mod 256;
            (x / 256 / 256 / 256 / 256) mod 256].
    cbn [app]. rewrite word_eight by apply mod_byte.
    rewrite IH. f_equal. f_equal.
    + rewrite <- app_assoc. f_equal. f_equal.
      change 8%nat with (5 + 3)%nat. rewrite le_bytes_wider; [reflexivity|].
      change (256 ^ Z.of_nat 5) with (2 ^ 40). exact Hx.
    + rewrite Nat2Z.inj_succ. lia.
Qed.

(** The rounds of [5to4] over numbers below 2^32. *)
Lemma loop_four (xs : list Z) :
  Forall (fun x => 0 <= x < 2 ^ 32) xs ->
  forall (rounds : nat) (tail out : list Z) (err : list diagnostic) (k : Z),
    work_loop true (List.length xs + rounds)
      (mk_files (flat_map (le_bytes 5) xs ++ tail) out err k)
    = work_loop true rounds
        (mk_files tail (out ++ flat_map (le_bytes 4) xs) err
                  (k + 5 * Z.of_nat (List.length xs))).
Proof.
  induction 1 as [|x xs Hx _ IH]; intros rounds tail out err k.
  - cbn [flat_map app List.length Nat.add Z.of_nat].
    now rewrite app_nil_r, Z.mul_0_r, Z.add_0_r.
  - cbn [List.length Nat.add work_loop flat_map].
    rewrite <- app_assoc.
    change (le_bytes 5 x)
      with [x mod 256; (x / 256) mod 256; (x / 256 / 256) mod 256;
            (x / 256 / 256 / 256) mod 256;
            (x / 256 / 256 / 256 / 256) mod 256].
    cbn [app]. rewrite word_four by apply mod_byte.
    assert (Hq : x / 256 / 256 / 256 / 256 = 0).
    { apply Z.div_small. split.
      - repeat apply Z.div_pos; lia.
      - repeat (apply Z.div_lt_upper_bound; [lia|]). lia. }
    rewrite Hq. change (0 mod 256 =? 0) with true. cbv iota.
    rewrite IH. f_equal. f_equal.
    + now rewrite <- app_assoc.
    + rewrite Nat2Z.inj_succ. lia.
Qed.

(** The steps of the [for] loop. *)
Lemma word_byte (FT : bool) (k : nat) (i c : Z) (rest out : list Z)
    (err : list diagnostic) (n : Z) :
  byte c -> FT = false \/ i < 4 ->
  word FT (S k) i (mk_files (c :: rest) out err n)
  = word FT k (i + 1) (mk_files rest (out ++ [c]) err (n + 1)).
Proof.
  intros Hc Hi. cbn [word infile outfile stderr input_byte_number].
  unfold fputc. cbn [infile outfile stderr input_byte_number].
  rewrite u8_of_byte by exact Hc.
  destruct FT; [|reflexivity].
  destruct Hi as [Hi|Hi]; [discriminate|].
  replace (i <? 4) with true by (symmetry; apply Z.ltb_lt; exact Hi).
  reflexivity.
Qed.

Lemma word_eof_start (FT : bool) (k : nat) (out : list Z)
    (err : list diagnostic) (n : Z) :
  word FT (S k) 0 (mk_files [] out err n) = Return 0 (mk_files [] out err (n + 1)).
Proof. reflexivity. Qed.

Lemma word_eof_eight (k : nat) (i : Z) (out : list Z)
    (err : list diagnostic) (n : Z) :
  0 < i ->
  word false (S k) i (mk_files [] out err n)
  = Next (mk_files [] ((out ++ repeat 0 (Z.to_nat (5 - i))) ++ [0; 0; 0])
                   (err ++ [Indivisible]) (n + 1)).
Proof.
  intros Hi. cbn [word infile outfile stderr input_byte_number].
  replace (i >? 0) with true by (symmetry; apply Z.gtb_lt; exact Hi).
  reflexivity.
Qed.

Lemma word_eof_four (k : nat) (i : Z) (out : list Z)
    (err : list diagnostic) (n : Z) :
  0 < i ->
  word true (S k) i (mk_files [] out err n)
  = Return 0 (mk_files [] (out ++ repeat 0 (Z.to_nat (4 - i)))
                       (err ++ [Indivisible]) (n + 1)).
Proof.
  intros Hi. cbn [word infile outfile stderr input_byte_number].
  replace (i >? 0) with true by (symmetry; apply Z.gtb_lt; exact Hi).
  reflexivity.
Qed.

(** The last rounds of [5to8]: the bytes after the last whole number. *)
Lemma tail_eight (tail out : list Z) (err : list diagnostic) (k : Z) (rounds : nat) :
  Forall byte tail -> (List.length tail < 5)%nat ->
  exists k',
    work_loop false (S (S rounds)) (mk_files tail out err k)
    = Some (0, mk_files []
                 (out ++ match tail with
                         | [] => []
                         | _ => tail ++ repeat 0 (8 - List.length tail)
                         end)
                 (err ++ match tail with [] => [] | _ => [Indivisible] end) k').
Proof.
  intros Hb Hlen.
  destruct tail as [|b0 [|b1 [|b2 [|b3 [|b4 tail]]]]];
    cbn [List.length] in Hlen; try lia;
    repeat match goal with
           | H : Forall byte (_ :: _) |- _ => inversion H; subst; clear H
           end;
    eexists; cbn [work_loop].
  - rewrite word_eof_start, !app_nil_r. reflexivity.
  - rewrite word_byte by (auto; lia). rewrite word_eof_eight by lia.
    rewrite word_eof_start, <- !app_assoc. reflexivity.
  - do 2 rewrite word_byte by (auto; lia). rewrite word_eof_eight by lia.
    rewrite word_eof_start, <- !app_assoc. reflexivity.
  - do 3 rewrite word_byte by (auto; lia). rewrite word_eof_eight by lia.
    rewrite word_eof_start, <- !app_assoc. reflexivity.
  - do 4 rewrite word_byte by (auto; lia). rewrite word_eof_eight by lia.
    rewrite word_eof_start, <- !app_assoc. reflexivity.
Qed.

(** The last round of [5to4]. *)
Lemma tail_four (tail out : list Z) (err : list diagnostic) (k : Z) (rounds : nat) :
  Forall byte tail -> (List.length tail < 5)%nat ->
  exists k',
    work_loop true (S rounds) (mk_files tail out err k)
    = Some (0, mk_files []
                 (out ++ match tail with
                         | [] => []
                         | _ => tail ++ repeat 0 (4 - List.length tail)
                         end)
                 (err ++ match tail with [] => [] | _ => [Indivisible] end) k').
Proof.
  intros Hb Hlen.
  destruct tail as [|b0 [|b1 [|b2 [|b3 [|b4 tail]]]]];
    cbn [List.length] in Hlen; try lia;
    repeat match goal with
           | H : Forall byte (_ :: _) |- _ => inversion H; subst; clear H
           end;
    eexists; cbn [work_loop].
  - rewrite word_eof_start, !app_nil_r. reflexivity.
  - rewrite word_byte by (auto; lia). rewrite word_eof_four by lia.
    rewrite <- !app_assoc. reflexivity.
  - do 2 rewrite word_byte by (auto; lia). rewrite word_eof_four by lia.
    rewrite <- !app_assoc. reflexivity.
  - do 3 rewrite word_byte by (auto; lia). rewrite word_eof_four by lia.
    rewrite <- !app_assoc. reflexivity.
  - do 4 rewrite word_byte by (auto; lia). rewrite word_eof_four by lia.
    rewrite <- !app_assoc. reflexivity.
Qed.

(** X7.  [5to8] writes every number of five bytes of its input on eight
    bytes, with the same value; bytes left after the last whole number
    are taken as the low bytes of one more number, with a warning; and
    it returns 0. *)
Theorem five_to_eight_widens (xs tail : list Z) :
  Forall (fun x => 0 <= x < 2 ^ 40) xs ->
  Forall byte tail -> (List.length tail < 5)%nat ->
  work false (flat_map (le_bytes 5) xs ++ tail)
  = Some (0,
          flat_map (le_bytes 8) xs
            ++ match tail with
               | [] => []
               | _ => tail ++ repeat 0 (8 - List.length tail)
               end,
          match tail with [] => [] | _ => [Indivisible] end).
Proof.
  intros Hxs Hb Hlen. unfold work.
  rewrite length_app, flat_map_le_bytes_length.
  replace (S (S (5 * List.length xs + List.length tail)))
    with (List.length xs
          + S (S (4 * List.length xs + List.length tail)))%nat by lia.
  rewrite (loop_eight xs Hxs).
  destruct (tail_eight tail ([] ++ flat_map (le_bytes 8) xs) []
              (0 + 5 * Z.of_nat (List.length xs))
              (4 * List.length xs + List.length tail) Hb Hlen) as (k' & E).
  rewrite E. reflexivity.
Qed.

Lemma five_to_eight_widens_witness :
  work false [1; 2; 3; 4; 5; 9]
  = Some (0, [1; 2; 3; 4; 5; 0; 0; 0; 9; 0; 0; 0; 0; 0; 0; 0], [Indivisible]).
Proof.
  exact (five_to_eight_widens [21542142465] [9]
           ltac:(repeat constructor; lia)
           ltac:(repeat constructor; unfold byte; lia) ltac:(cbn; lia)).
Defined.

(** X8.  [5to4] writes every number of five bytes that is below 2^32
    on four bytes, with the same value, and returns 0; bytes left after
    the last whole number are padded to four bytes, with a warning. *)
Theorem five_to_four_narrows (xs tail : list Z) :
  Forall (fun x => 0 <= x < 2 ^ 32) xs ->
  Forall byte tail -> (List.length tail < 5)%nat ->
  work true (flat_map (le_bytes 5) xs ++ tail)
  = Some (0,
          flat_map (le_bytes 4) xs
            ++ match tail with
               | [] => []
               | _ => tail ++ repeat 0 (4 - List.length tail)
               end,
          match tail with [] => [] | _ => [Indivisible] end).
Proof.
  intros Hxs Hb Hlen. unfold work.
  rewrite length_app, flat_map_le_bytes_length.
  replace (S (S (5 * List.length xs + List.length tail)))
    with (List.length xs
          + S (S (4 * List.length xs + List.length tail)))%nat by lia.
  rewrite (loop_four xs Hxs).
  destruct (tail_four tail ([] ++ flat_map (le_bytes 4) xs) []
              (0 + 5 * Z.of_nat (List.length xs))
              (S (4 * List.length xs + List.length tail)) Hb Hlen) as (k' & E).
  rewrite E. reflexivity.
Qed.

Lemma five_to_four_narrows_witness :
  work true [1; 2; 3; 4; 0; 9; 8]
  = Some (0, [1; 2; 3; 4; 9; 8; 0; 0], [Indivisible]).
Proof.
  exact (five_to_four_narrows [67305985] [9; 8]
           ltac:(repeat constructor; lia)
           ltac:(repeat constructor; unfold byte; lia) ltac:(cbn; lia)).
Defined.

(** X9.  [5to4] stops at the first number that is not below 2^32: it
    returns 1 and names the place of that number's fifth byte, after it
    has written the numbers before it and the four low bytes of that
    number itself. *)
Theorem five_to_four_rejects (good : list Z) (x : Z) (rest : list Z) :
  Forall (fun x => 0 <= x < 2 ^ 32) good ->
  2 ^ 32 <= x < 2 ^ 40 ->
  work true (flat_map (le_bytes 5) good ++ le_bytes 5 x ++ rest)
  = Some (1,
          flat_map (le_bytes 4) good ++ le_bytes 4 x,
          [Nonzero (5 * (Z.of_nat (List.length good) + 1))]).
Proof.
  intros Hgood Hx. unfold work.
  rewrite !length_app, flat_map_le_bytes_length, le_bytes_length.
  replace (S (S (5 * List.length good + (5 + List.length rest))))
    with (List.length good
          + S (S (4 * List.length good + (5 + List.length rest))))%nat by lia.
  rewrite (loop_four good Hgood).
  change (le_bytes 5 x)
    with [x mod 256; (x / 256) mod 256; (x / 256 / 256) mod 256;
          (x / 256 / 256 / 256) mod 256;
          (x / 256 / 256 / 256 / 256) mod 256].
  cbn [app work_loop]. rewrite word_four by apply mod_byte.
  assert (Hq : (x / 256 / 256 / 256 / 256) mod 256 <> 0).
  { rewrite !Z.div_div by lia.
    change (256 * (256 * (256 * 256))) with 4294967296.
    change (2 ^ 32) with 4294967296 in Hx.
    change (2 ^ 40) with 1099511627776 in Hx.
    assert (1 <= x / 4294967296 < 256).
    { split.
      - apply Z.div_le_lower_bound; lia.
      - apply Z.div_lt_upper_bound; lia. }
    rewrite Z.mod_small; lia. }
  replace ((x / 256 / 256 / 256 / 256) mod 256 =? 0) with false
    by (symmetry; apply Z.eqb_neq; exact Hq).
  cbn [outfile stderr app]. f_equal. f_equal. f_equal. f_equal. lia.
Qed.

Lemma five_to_four_rejects_witness :
  work true [1; 2; 3; 4; 0; 5; 6; 7; 8; 1; 9; 9]
  = Some (1, [1; 2; 3; 4; 5; 6; 7; 8], [Nonzero 10]).
Proof.
  exact (five_to_four_rejects [67305985] 4429645317 [9; 9]
           ltac:(repeat constructor; lia) ltac:(lia)).
Defined.

End FiveFacts.

(** ** divsuffix *)

Module DivsuffixFacts.

Import IntFacts FileFacts Divsuffix Files.

(** The entries of the input that [N] divides, divided by [N]. *)
Lemma work_loop_entries (width : nat) (N : Z) (xs tail : list Z) :
  1 <= N ->
  Forall (fun x => 0 <= x < 256 ^ Z.of_nat width) xs ->
  (List.length tail < width)%nat ->
  forall (rounds : nat) (outfile : list Z) (num_written : Z),
    work_loop (List.length xs + S rounds) width N
      (flat_map (le_bytes width) xs ++ tail) outfile num_written
    = Ret (outfile
             ++ flat_map (le_bytes width)
                  (map (fun x => x / N) (filter (fun x => x mod N =? 0) xs)),
           num_written
             + Z.of_nat (List.length (filter (fun x => x mod N =? 0) xs))).
Proof.
  intros HN Hxs Htail. induction Hxs as [|x xs Hx _ IH];
    intros rounds outfile num_written.
  - cbn [List.length Nat.add flat_map app work_loop fread filter map Z.of_nat].
    replace (List.length tail <? width)%nat with true
      by (symmetry; apply Nat.ltb_lt; exact Htail).
    now rewrite app_nil_r, Z.add_0_r.
  - cbn [List.length Nat.add flat_map work_loop fread filter].
    rewrite <- app_assoc.
    rewrite firstn_app, skipn_app, !length_app, le_bytes_length.
    rewrite Nat.sub_diag. cbn [firstn skipn].
    rewrite app_nil_r.
    rewrite firstn_all2 by (rewrite le_bytes_length; lia).
    rewrite skipn_all2 by (rewrite le_bytes_length; lia).
    cbn [app]. rewrite le_bytes_length.
    destruct (Nat.ltb_spec
                (width + (List.length (flat_map (le_bytes width) xs)
                          + List.length tail)) width) as [Hlt|_]; [lia|].
    cbn [List.length]. rewrite Nat.add_0_r, Nat.eqb_refl. cbn [negb].
    replace (N =? 0) with false by (symmetry; apply Z.eqb_neq; lia).
    rewrite le_value_le_bytes, (Z.mod_small x) by exact Hx.
    destruct (x mod N =? 0); cbn [negb].
    + rewrite IH. cbn [map flat_map List.length].
      rewrite <- app_assoc, Nat2Z.inj_succ. f_equal. f_equal. lia.
    + apply IH.
Qed.

(** X10.  [divsuffix] writes, in their order, the entries of the input
    that [N] divides, each divided by [N], and returns their number;
    bytes after the last whole entry are passed over in silence, and
    the exit for an input size that the width does not divide is never
    taken.  The same for the 32-bit and the 64-bit entries. *)
Theorem divsuffix_keeps_multiples (N : Z) (xs tail : list Z) :
  1 <= N < 2 ^ 32 ->
  (Forall (fun x => 0 <= x < 2 ^ 32) xs -> (List.length tail < 4)%nat ->
   work_32 (flat_map (le_bytes 4) xs ++ tail) N
   = Ret (flat_map (le_bytes 4)
            (map (fun x => x / N) (filter (fun x => x mod N =? 0) xs)),
          Z.of_nat (List.length (filter (fun x => x mod N =? 0) xs))))
  /\ (Forall (fun x => 0 <= x < 2 ^ 64) xs -> (List.length tail < 8)%nat ->
      work_64 (flat_map (le_bytes 8) xs ++ tail) N
      = Ret (flat_map (le_bytes 8)
               (map (fun x => x / N) (filter (fun x => x mod N =? 0) xs)),
             Z.of_nat (List.length (filter (fun x => x mod N =? 0) xs)))).
Proof.
  intros HN.
  assert (Hu : u32 N = N) by (unfold u32, wrap_u; apply Z.mod_small; lia).
  split; intros Hxs Htail.
  - unfold work_32. rewrite Hu, length_app, flat_map_le_bytes_length.
    replace (S (4 * List.length xs + List.length tail))
      with (List.length xs + S (3 * List.length xs + List.length tail))%nat by lia.
    now rewrite (work_loop_entries 4 N xs tail ltac:(lia) Hxs Htail).
  - unfold work_64. rewrite Hu, length_app, flat_map_le_bytes_length.
    replace (S (8 * List.length xs + List.length tail))
      with (List.length xs + S (7 * List.length xs + List.length tail))%nat by lia.
    now rewrite (work_loop_entries 8 N xs tail ltac:(lia) Hxs Htail).
Qed.

Lemma divsuffix_keeps_multiples_witness :
  work_32 [4; 0; 0; 0; 1; 0; 0; 0; 0; 0; 0; 0; 6; 0; 0; 0; 7; 7] 2
  = Ret ([2; 0; 0; 0; 0; 0; 0; 0; 3; 0; 0; 0], 3).
Proof.
  exact (proj1 (divsuffix_keeps_multiples 2 [4; 1; 0; 6] [7; 7] ltac:(lia))
           ltac:(repeat constructor; lia) ltac:(cbn; lia)).
Defined.

End DivsuffixFacts.

(** ** Suffix arrays of wide symbols: endflip, a byte suffix array, divsuffix *)

Module WideSuffixFacts.

Import Pipeline IntFacts FileFacts OrderFacts Files.

Lemma le_value_app (l m : list Z) :
  le_value (l ++ m) = le_value l + 256 ^ Z.of_nat (List.length l) * le_value m.
Proof.
  induction l as [|b l IH]; cbn [app le_value List.length].
  - change (256 ^ Z.of_nat 0) with 1. lia.
  - rewrite IH, Nat2Z.inj_succ, Z.pow_succ_r by lia. ring.
Qed.

(** Two words of the same length compare, byte after byte from the
    first, as the numbers they hold with the first byte the most
    significant. *)
Lemma suffix_le_words (a : list Z) :
  forall (b x y : list Z),
    Forall byte a -> Forall byte b -> List.length a = List.length b ->
    suffix_le (a ++ x) (b ++ y)
    = (le_value (rev a) <? le_value (rev b))
      || ((le_value (rev a) =? le_value (rev b)) && suffix_le x y).
Proof.
  induction a as [|p a IH]; intros [|q b] x y Ha Hb Hlen;
    cbn [List.length] in Hlen; try discriminate.
  - cbn [app rev le_value]. now rewrite Z.ltb_irrefl, Z.eqb_refl.
  - inversion Ha as [|? ? Hp Ha']; subst. inversion Hb as [|? ? Hq Hb']; subst.
    cbn [app suffix_le rev]. rewrite (IH b x y Ha' Hb') by lia.
    rewrite !le_value_app, !length_rev. cbn [le_value].
    replace (List.length a) with (List.length b) by lia.
    assert (Hra : Forall byte (rev a)).
    { apply Forall_forall. intros z Hz. apply in_rev in Hz.
      exact (proj1 (Forall_forall _ _) Ha' z Hz). }
    assert (Hrb : Forall byte (rev b)).
    { apply Forall_forall. intros z Hz. apply in_rev in Hz.
      exact (proj1 (Forall_forall _ _) Hb' z Hz). }
    pose proof (ParserFacts.le_value_range (rev a) Hra) as Ra.
    pose proof (ParserFacts.le_value_range (rev b) Hrb) as Rb.
    rewrite !length_rev in Ra, Rb.
    replace (List.length a) with (List.length b) in Ra by lia.
    set (m := 256 ^ Z.of_nat (List.length b)) in *.
    set (va := le_value (rev a)) in *. set (vb := le_value (rev b)) in *.
    unfold byte in Hp, Hq.
    destruct (Z.ltb_spec p q) as [Hpq|Hpq].
    + cbn [orb]. symmetry. apply orb_true_iff. left. apply Z.ltb_lt. nia.
    + destruct (Z.eqb_spec p q) as [->|Hne].
      * cbn [orb andb].
        destruct (Z.ltb_spec va vb) as [H1|H1].
        -- cbn [orb]. symmetry. apply orb_true_iff. left. apply Z.ltb_lt. nia.
        -- cbn [orb].
           replace (va + m * (q + 256 * 0) <? vb + m * (q + 256 * 0)) with false
             by (symmetry; apply Z.ltb_ge; nia).
           cbn [orb].
           destruct (Z.eqb_spec va vb) as [->|H2].
           ++ now rewrite Z.eqb_refl.
           ++ replace (va + m * (q + 256 * 0) =? vb + m * (q + 256 * 0)) with false
                by (symmetry; apply Z.eqb_neq; nia).
              reflexivity.
      * cbn [orb andb].
        replace (va + m * (p + 256 * 0) <? vb + m * (q + 256 * 0)) with false
          by (symmetry; apply Z.ltb_ge; nia).
        replace (va + m * (p + 256 * 0) =? vb + m * (q + 256 * 0)) with false
          by (symmetry; apply Z.eqb_neq; nia).
        reflexivity.
Qed.

(** Words all of [N] bytes, [N >= 1]. *)
Lemma symbols_words (N : nat) (ws : list (list Z)) (tail : list Z) :
  (1 <= N)%nat -> Forall (fun w => List.length w = N) ws ->
  (List.length tail < N)%nat ->
  symbols N (List.concat ws ++ tail) = map le_value ws.
Proof.
  intros HN Hws Htail. induction Hws as [|w ws Hw _ IH].
  - cbn [List.concat app map]. now apply InputFacts.symbols_short.
  - cbn [List.concat map]. rewrite <- app_assoc.
    rewrite InputFacts.symbols_whole
      by (try exact HN; rewrite length_app; lia).
    rewrite firstn_app, skipn_app, Hw, Nat.sub_diag. cbn [firstn skipn].
    rewrite app_nil_r, firstn_all2, skipn_all2 by lia.
    cbn [app]. now rewrite IH.
Qed.

Lemma skipn_words (N : nat) (ws : list (list Z)) :
  Forall (fun w => List.length w = N) ws ->
  forall i : nat,
    skipn (i * N) (List.concat ws) = List.concat (skipn i ws).
Proof.
  induction 1 as [|w ws Hw _ IH]; intros i.
  - cbn [List.concat]. now rewrite !skipn_nil.
  - destruct i as [|i]; [reflexivity|].
    cbn [List.concat skipn Nat.mul]. rewrite skipn_app, Hw.
    rewrite skipn_all2 by lia. cbn [app].
    replace (N + i * N - N)%nat with (i * N)%nat by lia. apply IH.
Qed.

(** Suffixes of whole words compare as the numbers of their words,
    each read with its first byte the most significant. *)
Lemma suffix_le_flipped (N : nat) (us : list (list Z)) :
  (1 <= N)%nat ->
  forall vs : list (list Z),
    Forall (fun w => Forall byte w /\ List.length w = N) us ->
    Forall (fun w => Forall byte w /\ List.length w = N) vs ->
    suffix_le (List.concat (map (@rev Z) us)) (List.concat (map (@rev Z) vs))
    = suffix_le (map le_value us) (map le_value vs).
Proof.
  intros HN. induction us as [|u us IH]; intros [|v vs] Hus Hvs.
  - reflexivity.
  - reflexivity.
  - inversion Hus as [|? ? [Hb Hl] _]; subst.
    cbn [map List.concat].
    destruct (rev u) as [|c r] eqn:E.
    + apply (f_equal (@List.length Z)) in E. rewrite length_rev in E.
      cbn in E. lia.
    + reflexivity.
  - inversion Hus as [|? ? [Hbu Hlu] Hus']; subst.
    inversion Hvs as [|? ? [Hbv Hlv] Hvs']; subst.
    cbn [map List.concat suffix_le].
    assert (Hr : forall w, Forall byte w -> Forall byte (rev w)).
    { intros w Hw. apply Forall_forall. intros z Hz. apply in_rev in Hz.
      exact (proj1 (Forall_forall _ _) Hw z Hz). }
    rewrite (suffix_le_words (rev u) (rev v)); auto.
    + rewrite !rev_involutive. now rewrite (IH vs Hus' Hvs').
    + rewrite !length_rev. lia.
Qed.

(** What [is_suffix_array] tests. *)
Lemma is_suffix_array_parts (d sa : list Z) :
  is_suffix_array d sa = true
  <-> List.length sa = List.length d
      /\ Forall (fun i => 0 <= i < Z.of_nat (List.length d)) sa
      /\ (forall i : nat, (i < List.length d)%nat -> In (Z.of_nat i) sa)
      /\ sorted_suffixes d sa = true.
Proof.
  unfold is_suffix_array. rewrite !andb_true_iff, Nat.eqb_eq.
  rewrite !forallb_forall, Forall_forall. split.
  - intros [[[H1 H2] H3] H4]. repeat split; try assumption.
    + specialize (H2 x H). apply andb_true_iff in H2. destruct H2 as [A _].
      apply Z.leb_le in A. exact A.
    + specialize (H2 x H). apply andb_true_iff in H2. destruct H2 as [_ A].
      apply Z.ltb_lt in A. exact A.
    + intros i Hi. specialize (H3 i ltac:(apply in_seq; lia)).
      apply existsb_exists in H3. destruct H3 as (x & Hx & E).
      apply Z.eqb_eq in E. now subst x.
  - intros (H1 & H2 & H3 & H4). repeat split; try assumption.
    + intros x Hx. specialize (H2 x Hx). apply andb_true_iff. split.
      * apply Z.leb_le. lia.
      * apply Z.ltb_lt. lia.
    + intros i Hi. apply in_seq in Hi. apply existsb_exists.
      exists (Z.of_nat i). split; [apply H3; lia | apply Z.eqb_refl].
Qed.

Lemma forall_skipn {A : Type} (P : A -> Prop) (n : nat) (l : list A) :
  Forall P l -> Forall P (skipn n l).
Proof.
  intros H. rewrite <- (firstn_skipn n l) in H.
  apply Forall_app in H. apply H.
Qed.

Section Wide.

Variable N : nat.
Variable ws : list (list Z).
Hypothesis N_positive : (1 <= N)%nat.
Hypothesis words : Forall (fun w => Forall byte w /\ List.length w = N) ws.

Local Abbreviation B := (List.concat (map (@rev Z) ws)).
Local Abbreviation D := (map le_value ws).
Local Abbreviation divisible := (fun x => x mod Z.of_nat N =? 0).
Local Abbreviation conv :=
  (fun sa => map (fun x => x / Z.of_nat N) (filter divisible sa)).

Lemma flipped_length : List.length B = (List.length ws * N)%nat.
Proof.
  rewrite (EndflipFacts.concat_length N).
  - now rewrite length_map.
  - apply Forall_forall. intros w Hw. apply in_map_iff in Hw.
    destruct Hw as (w0 & <- & Hin). rewrite length_rev.
    apply (proj1 (Forall_forall _ _) words w0 Hin).
Qed.

(** Two places of whole words in the flipped file, in the order of the
    bytes, are in the order of the symbols. *)
Lemma places_in_order (i j : nat) :
  suffix_le (skipn (i * N) B) (skipn (j * N) B) = true ->
  suffix_le (skipn i D) (skipn j D) = true.
Proof.
  assert (Hl : Forall (fun w => List.length w = N) (map (@rev Z) ws)).
  { apply Forall_forall. intros w Hw. apply in_map_iff in Hw.
    destruct Hw as (w0 & <- & Hin). rewrite length_rev.
    apply (proj1 (Forall_forall _ _) words w0 Hin). }
  rewrite !(skipn_words N _ Hl), !skipn_map.
  rewrite (suffix_le_flipped N (skipn i ws) N_positive (skipn j ws));
    [tauto | |]; apply forall_skipn; exact words.
Qed.

Lemma conv_member (sa : list Z) (y : Z) :
  In y (conv sa) <->
  exists x, In x sa /\ x mod Z.of_nat N = 0 /\ y = x / Z.of_nat N.
Proof.
  rewrite in_map_iff. split.
  - intros (x & <- & Hx). apply filter_In in Hx. destruct Hx as [Hx Hd].
    apply Z.eqb_eq in Hd. exists x. auto.
  - intros (x & Hx & Hd & ->). exists x. split; [reflexivity|].
    apply filter_In. split; [exact Hx | now apply Z.eqb_eq].
Qed.

Lemma conv_sorted (sa : list Z) :
  Forall (fun x => 0 <= x) sa ->
  sorted_suffixes B sa = true -> sorted_suffixes D (conv sa) = true.
Proof.
  induction sa as [|x sa IH]; intros Hr Hs; [reflexivity|].
  inversion Hr as [|? ? Hx Hr']; subst.
  pose proof (sorted_suffixes_tail _ _ _ Hs) as Hs'.
  specialize (IH Hr' Hs'). cbn [filter].
  destruct (Z.eqb_spec (x mod Z.of_nat N) 0) as [Hd|Hd]; [|exact IH].
  cbn [map]. destruct (conv sa) as [|y' r] eqn:E; [reflexivity|].
  change (sorted_suffixes D (x / Z.of_nat N :: y' :: r))
    with (suffix_le (skipn (Z.to_nat (x / Z.of_nat N)) D)
                    (skipn (Z.to_nat y') D)
          && sorted_suffixes D (y' :: r)).
  rewrite IH, andb_true_r.
  assert (Hy : In y' (conv sa)) by (rewrite E; left; reflexivity).
  apply conv_member in Hy. destruct Hy as (y & Hin & Hyd & ->).
  destruct (In_nth sa y 0 Hin) as (j & Hj & Hnth).
  pose proof (sorted_suffixes_head B sa x (S j) Hs
                ltac:(cbn [List.length]; lia)) as Hle.
  cbn [nth] in Hle. rewrite Hnth in Hle.
  pose proof (proj1 (Forall_forall _ _) Hr' y Hin) as Hy0. cbv beta in Hy0.
  apply places_in_order.
  assert (Hm : forall z, 0 <= z -> z mod Z.of_nat N = 0 ->
               (Z.to_nat (z / Z.of_nat N) * N)%nat = Z.to_nat z).
  { intros z Hz Hzd.
    pose proof (Z.div_mod z (Z.of_nat N) ltac:(lia)) as Hdm.
    assert (0 <= z / Z.of_nat N) by (apply Z.div_pos; lia). nia. }
  rewrite !Hm by assumption. exact Hle.
Qed.

Lemma numbers_nodup (n : nat) : NoDup (map Z.of_nat (seq 0 n)).
Proof.
  apply NoDup_map_NoDup_ForallPairs; [|apply seq_NoDup].
  intros a b _ _ H. now apply Nat2Z.inj.
Qed.

(** The places of the whole words, each once. *)
Lemma conv_suffix_array (sa : list Z) :
  is_suffix_array B sa = true -> is_suffix_array D (conv sa) = true.
Proof.
  intros H. apply is_suffix_array_parts in H.
  destruct H as (Hlen & Hrange & Hall & Hsorted).
  rewrite flipped_length in Hlen, Hrange, Hall.
  set (k := List.length ws) in *.
  assert (Hin : forall y, In y (conv sa) -> 0 <= y < Z.of_nat k).
  { intros y Hy. apply conv_member in Hy. destruct Hy as (x & Hx & Hd & ->).
    pose proof (proj1 (Forall_forall _ _) Hrange x Hx) as Hr. cbv beta in Hr.
    rewrite Nat2Z.inj_mul in Hr. split.
    - apply Z.div_pos; lia.
    - apply Z.div_lt_upper_bound; lia. }
  assert (Hcover : forall i : nat, (i < k)%nat -> In (Z.of_nat i) (conv sa)).
  { intros i Hi. apply conv_member. exists (Z.of_nat (i * N)). split; [|split].
    - apply Hall. nia.
    - rewrite Nat2Z.inj_mul. apply Z.mod_mul. lia.
    - rewrite Nat2Z.inj_mul, Z.div_mul by lia. reflexivity. }
  assert (Hnd : NoDup (conv sa)).
  { assert (Hsa : NoDup sa).
    { apply (NoDup_incl_NoDup (numbers_nodup (k * N))).
      - rewrite length_map, length_seq. lia.
      - intros z Hz. apply in_map_iff in Hz. destruct Hz as (i & <- & Hi).
        apply in_seq in Hi. apply Hall. lia. }
    apply NoDup_map_NoDup_ForallPairs; [|now apply NoDup_filter].
    intros a b Ha Hb E. apply filter_In in Ha, Hb.
    destruct Ha as [_ Ha], Hb as [_ Hb]. apply Z.eqb_eq in Ha, Hb.
    pose proof (Z.div_mod a (Z.of_nat N) ltac:(lia)).
    pose proof (Z.div_mod b (Z.of_nat N) ltac:(lia)). nia. }
  assert (Hk : List.length (map Z.of_nat (seq 0 k)) = k)
    by now rewrite length_map, length_seq.
  assert (Hlenk : List.length (conv sa) = k).
  { apply Nat.le_antisymm.
    - apply Nat.le_trans with (List.length (map Z.of_nat (seq 0 k))); [|lia].
      apply (NoDup_incl_length Hnd). intros y Hy. apply in_map_iff.
      specialize (Hin y Hy). exists (Z.to_nat y). split; [lia|].
      apply in_seq. lia.
    - apply Nat.le_trans with (List.length (map Z.of_nat (seq 0 k))); [lia|].
      apply (NoDup_incl_length (numbers_nodup k)).
      intros z Hz. apply in_map_iff in Hz. destruct Hz as (i & <- & Hi).
      apply in_seq in Hi. apply Hcover. lia. }
  apply is_suffix_array_parts. rewrite (length_map le_value ws). fold k.
  split; [exact Hlenk | split; [|split]].
  - apply Forall_forall. exact Hin.
  - exact Hcover.
  - apply conv_sorted; [|exact Hsorted].
    eapply Forall_impl; [|exact Hrange]. cbv beta. intros; lia.
Qed.

End Wide.

(** What [FileReader<uint32_t>] loads from a file of 32-bit numbers. *)
Lemma symbols_of_entries (ys : list Z) :
  Forall (fun y => 0 <= y < 2 ^ 32) ys ->
  symbols 4 (flat_map (le_bytes 4) ys) = ys.
Proof.
  intros H. rewrite flat_map_concat_map.
  rewrite <- (app_nil_r (List.concat _)).
  rewrite (symbols_words 4 (map (le_bytes 4) ys) []); [| lia | | cbn; lia].
  - rewrite map_map. rewrite <- (map_id ys) at 2. apply map_ext_in.
    intros y Hy. rewrite le_value_le_bytes. apply Z.mod_small.
    exact (proj1 (Forall_forall _ _) H y Hy).
  - apply Forall_forall. intros w Hw. apply in_map_iff in Hw.
    destruct Hw as (y & <- & _). apply le_bytes_length.
Qed.

(** X11.  Suffix arrays of wide symbols.  Take a dictionary file of
    whole words of [N] bytes, [N] within the size of the buffer of
    [endflip], the file [endflip N] makes of it, and a suffix array,
    over bytes, of that file.  Then [divsuffix N] writes
    as many entries as the dictionary has words, and the file it writes
    is, as [FileReader<uint32_t>] loads it, a suffix array of the
    dictionary as [FileReader<T>] loads it for a [T] of [N] bytes. *)
Theorem divsuffix_of_flipped_dictionary (N : Z) (ws : list (list Z))
    (flipped sa : list Z) :
  1 <= N <= Endflip.MAX_WORD_WIDTH ->
  Forall (fun w => Forall byte w /\ Z.of_nat (List.length w) = N) ws ->
  Z.of_nat (List.length (List.concat ws)) < 2 ^ 32 ->
  Endflip.work N (List.concat ws) = Some (flipped, []) ->
  is_suffix_array flipped sa = true ->
  exists out,
    Divsuffix.work_32 (flat_map (le_bytes 4) sa) N
    = Ret (out, Z.of_nat (List.length ws))
    /\ is_suffix_array (symbols (Z.to_nat N) (List.concat ws)) (symbols 4 out)
       = true.
Proof.
  intros HN' Hws Hsize Hflip Hsa.
  assert (HN : 1 <= N < 2 ^ 32) by (unfold Endflip.MAX_WORD_WIDTH in HN'; lia).
  assert (Hws' : Forall (fun w => Forall byte w /\ List.length w = Z.to_nat N) ws).
  { eapply Forall_impl; [|exact Hws]. cbv beta. intros w [Hb Hl]. split; [exact Hb | lia]. }
  pose proof (EndflipFacts.work_loop_words N ws [] Hws ltac:(cbn; lia)
                (S (List.length (List.concat ws ++ []))) []) as Hw.
  rewrite app_nil_r in Hw. unfold Endflip.work in Hflip.
  rewrite Hw in Hflip.
  2:{ rewrite (EndflipFacts.concat_length (Z.to_nat N)).
      - nia.
      - eapply Forall_impl; [|exact Hws']. cbv beta. tauto. }
  cbn [app] in Hflip. injection Hflip as <-.
  pose proof (conv_suffix_array (Z.to_nat N) ws ltac:(lia) Hws' sa Hsa) as Hconv.
  rewrite Z2Nat.id in Hconv by lia.
  pose proof (proj1 (is_suffix_array_parts _ _) Hsa) as (Hlen & Hrange & _).
  rewrite (flipped_length (Z.to_nat N) ws Hws') in Hlen, Hrange.
  rewrite (EndflipFacts.concat_length (Z.to_nat N)) in Hsize
    by (eapply Forall_impl; [|exact Hws']; cbv beta; tauto).
  assert (Hsa32 : Forall (fun x => 0 <= x < 2 ^ 32) sa).
  { eapply Forall_impl; [|exact Hrange]. cbv beta. intros; lia. }
  set (kept := map (fun x => x / N) (filter (fun x => x mod N =? 0) sa)) in *.
  exists (flat_map (le_bytes 4) kept).
  assert (Hkept : Forall (fun y => 0 <= y < 2 ^ 32) kept).
  { apply Forall_forall. intros y Hy. apply in_map_iff in Hy.
    destruct Hy as (x & <- & Hx). apply filter_In in Hx. destruct Hx as [Hx _].
    pose proof (proj1 (Forall_forall _ _) Hsa32 x Hx) as Hr. cbv beta in Hr.
    split.
    - apply Z.div_pos; lia.
    - apply Z.div_lt_upper_bound; nia. }
  split.
  - unfold Divsuffix.work_32.
    assert (Hu : u32 N = N) by (unfold u32, wrap_u; apply Z.mod_small; lia).
    rewrite Hu, flat_map_le_bytes_length.
    replace (S (4 * List.length sa))
      with (List.length sa + S (3 * List.length sa))%nat by lia.
    pose proof (DivsuffixFacts.work_loop_entries 4 N sa [] ltac:(lia) Hsa32
                  ltac:(cbn; lia) (3 * List.length sa) [] 0) as Hd.
    rewrite app_nil_r in Hd. rewrite Hd. fold kept. cbn [app Z.add].
    f_equal. f_equal. f_equal.
    pose proof (proj1 (is_suffix_array_parts _ _) Hconv) as (Hl & _).
    fold kept in Hl. unfold kept in Hl. rewrite !length_map in Hl. exact Hl.
  - rewrite symbols_of_entries by exact Hkept.
    rewrite <- (app_nil_r (List.concat ws)).
    rewrite (symbols_words (Z.to_nat N) ws []); [exact Hconv | lia | | cbn; lia].
    eapply Forall_impl; [|exact Hws']. cbv beta. tauto.
Qed.

Lemma divsuffix_of_flipped_dictionary_witness :
  exists out,
    Divsuffix.work_32 (flat_map (le_bytes 4) [3; 2; 0; 1]) 2 = Ret (out, 2)
    /\ is_suffix_array (symbols 2 [2; 1; 1; 1]) (symbols 4 out) = true.
Proof.
  exact (divsuffix_of_flipped_dictionary 2 [[2; 1]; [1; 1]] [1; 2; 1; 1]
           [3; 2; 0; 1] ltac:(unfold Endflip.MAX_WORD_WIDTH; lia)
           ltac:(repeat constructor; unfold byte; lia) ltac:(cbn; lia)
           eq_refl eq_refl).
Defined.

End WideSuffixFacts.

(** ** The statistics of the parser *)

Module StatisticsFacts.

Import Parse ParserSpec ParserResults Tokens IntFacts Statistics.

Lemma digits_rev_length (k : nat) :
  forall n : Z, (List.length (digits_rev k n) <= k)%nat.
Proof.
  induction k as [|k IH]; intros n; cbn [digits_rev List.length]; [lia|].
  destruct (n <? 10); cbn [List.length]; [lia|].
  specialize (IH (n / 10)). lia.
Qed.

(** No token takes more than 43 bytes of the output. *)
Lemma output_token_length (t : RLZToken) (fmt : format) :
  (List.length (snd (output_token t fmt)) <= 43)%nat.
Proof.
  unfold output_token. destruct (is_end_sentinel t); cbn [snd List.length]; [lia|].
  destruct fmt; rewrite ?length_app, ?le_bytes_length.
  - lia.
  - lia.
  - cbn [List.length]. unfold to_string_signed, to_string_unsigned.
    pose proof (digits_rev_length 20 (start_pos t)).
    destruct (length t <? 0); cbn [List.length]; rewrite ?length_rev.
    + pose proof (digits_rev_length 20 (- length t)). lia.
    + pose proof (digits_rev_length 20 (length t)). lia.
  - unfold vbyte_field. rewrite !length_app.
    pose proof (CountFacts.vbyte_put_length 10 (start_pos t)).
    pose proof (CountFacts.vbyte_put_length 10 (length t)).
    destruct (start_pos t =? 0), (length t =? 0); cbn [List.length]; lia.
Qed.

Section Counting.

Variable sizeof_T : nat.
Variable bits_S : Z.

Lemma u64_add_l (a b : Z) : u64 (u64 a + b) = u64 (a + b).
Proof. unfold u64, wrap_u. apply Zplus_mod_idemp_l. Qed.

Lemma u64_add_r (a b : Z) : u64 (a + u64 b) = u64 (a + b).
Proof. unfold u64, wrap_u. apply Zplus_mod_idemp_r. Qed.

Lemma u64_range (a : Z) : 0 <= u64 a < 2 ^ 64.
Proof. unfold u64, wrap_u. apply Z.mod_pos_bound. lia. Qed.

(** The loop of [work] with its counters, which are [uint64_t]: what
    they hold is what was counted, modulo 2^64. *)
Lemma work_loop_counts (fmt : format) (rounds : nat) :
  forall (p : Parser) (out : list Z) (st : statistics),
    sound sizeof_T bits_S p -> between sizeof_T p ->
    (List.length (rest sizeof_T p) < rounds)%nat ->
    1 <= longest_token st ->
    0 <= bytes_input st < 2 ^ 64 ->
    exists toks p' st',
      work_loop sizeof_T bits_S rounds p fmt out st
      = Ret (out ++ encode fmt toks, st', p')
      /\ forallb (valid sizeof_T (dict p)) toks = true
      /\ expand sizeof_T (dict p) toks = rest sizeof_T p
      /\ num_tokens st' = u64 (num_tokens st + Z.of_nat (List.length toks) + 1)
      /\ bytes_output st'
         = u64 (bytes_output st + Z.of_nat (List.length (encode fmt toks)))
      /\ bytes_input st'
         = u64 (bytes_input st
                + Z.of_nat sizeof_T * Z.of_nat (List.length (rest sizeof_T p)))
      /\ longest_token st'
         = fold_left Z.max (map length toks) (longest_token st).
Proof.
  induction rounds as [|k IH];
    intros p out st Hsound Hb Hrounds Hlong Hin; [lia|].
  pose proof (width_range _ _ _ Hsound) as Hw.
  cbn [work_loop].
  destruct (rest sizeof_T p) as [|c r] eqn:Hrest.
  - destruct (ParserFacts.next_token_end sizeof_T bits_S p Hsound Hb Hrest)
      as (p' & E).
    rewrite E. cbn [bind]. exists [], p'.
    change (output_token end_sentinel fmt) with (0, @nil Z).
    eexists. cbn [Z.gtb Z.compare]. split; [reflexivity|].
    cbn [encode flat_map forallb expand List.length map fold_left count
         num_tokens bytes_output bytes_input longest_token Z.of_nat].
    replace (0 >? longest_token st) with false
      by (symmetry; rewrite Z.gtb_ltb; apply Z.ltb_ge; lia).
    change (0 >? 0) with false. cbv iota.
    rewrite Z.mul_0_r, !Z.add_0_r.
    rewrite (u64_small (bytes_input st)) by exact Hin.
    repeat split.
  - destruct (ParserFacts.next_token_token sizeof_T bits_S p Hsound Hb)
      as ([t p'] & E & Hres); [rewrite Hrest; discriminate|].
    rewrite E. cbn [bind].
    destruct Hres as (Hv & Hne & Hp & Hb' & Hrun). cbn [fst snd] in *.
    destruct (ParserFacts.valid_not_sentinel sizeof_T (dict p) t fmt Hv)
      as [Hs Hkeep].
    pose proof (WindowFacts.payload_length sizeof_T ltac:(lia) (dict p) t Hv)
      as Hpl.
    assert (Hkeepv : fst (output_token t fmt)
                     = if length t >? 0 then length t else 1).
    { unfold output_token. rewrite Hs. reflexivity. }
    destruct (output_token t fmt) as [keep bytes] eqn:Eout.
    cbn [fst snd] in Hkeep, Hkeepv.
    replace (keep >? 0) with true by (symmetry; apply Z.gtb_lt; lia).
    pose proof Hrun as (Hd & _).
    pose proof (ParserFacts.sound_same_run _ _ p p' Hsound Hrun) as Hsound'.
    rewrite Hrest in Hp.
    assert (Hlen : Z.of_nat (List.length (payload sizeof_T (dict p) t))
                   + Z.of_nat (List.length (rest sizeof_T p'))
                   = Z.of_nat (List.length (c :: r))).
    { rewrite <- Hp, length_app. lia. }
    assert (Hpos : 0 < Z.of_nat (List.length (payload sizeof_T (dict p) t))).
    { destruct (payload sizeof_T (dict p) t); [congruence|].
      cbn [List.length]. lia. }
    assert (Hl0 : 0 <= length t).
    { destruct (Z.eqb_spec (length t) 0) as [E0|E0]; lia. }
    set (n := Z.of_nat (List.length (payload sizeof_T (dict p) t))) in *.
    set (st1 := count sizeof_T st t keep bytes).
    assert (Hst1 : longest_token st1 = Z.max (longest_token st) (length t)
                   /\ num_tokens st1 = u64 (num_tokens st + 1)
                   /\ bytes_input st1
                      = u64 (bytes_input st + Z.of_nat sizeof_T * n)
                   /\ bytes_output st1
                      = u64 (bytes_output st + Z.of_nat (List.length bytes))).
    { unfold st1, count.
      cbn [longest_token num_tokens bytes_input bytes_output].
      replace (keep >? 0) with true by (symmetry; apply Z.gtb_lt; lia).
      split; [|split; [reflexivity|split; [|reflexivity]]].
      - destruct (Z.gtb_spec keep (longest_token st));
          destruct (Z.gtb_spec (length t) 0); lia.
      - destruct (Z.eqb_spec (length t) 0) as [E0|E0].
        + f_equal. lia.
        + rewrite u64_add_r. f_equal. lia. }
    destruct Hst1 as (L1 & N1 & I1 & O1).
    cbn [List.length] in Hrounds.
    destruct (IH p' (out ++ bytes) st1 Hsound' Hb')
      as (toks' & p'' & st' & E' & Hv' & He' & Hn' & Ho' & Hi' & Hl').
    { cbn [List.length] in Hlen. lia. }
    { rewrite L1. lia. }
    { rewrite I1. apply u64_range. }
    exists (t :: toks'), p'', st'. rewrite E'. rewrite Hd in Hv', He'.
    split; [|split; [|split; [|split; [|split; [|split]]]]].
    + cbn [encode flat_map]. rewrite Eout. cbn [snd].
      now rewrite <- !app_assoc.
    + cbn [forallb]. now rewrite Hv, Hv'.
    + cbn [expand flat_map]. fold (expand sizeof_T (dict p) toks').
      rewrite He'. exact Hp.
    + rewrite Hn', N1. cbn [List.length].
      replace (u64 (num_tokens st + 1) + Z.of_nat (List.length toks') + 1)
        with (u64 (num_tokens st + 1) + (Z.of_nat (List.length toks') + 1))
        by lia.
      rewrite u64_add_l. f_equal. lia.
    + rewrite Ho', O1, u64_add_l. cbn [encode flat_map]. rewrite Eout.
      cbn [snd]. rewrite length_app. unfold encode. f_equal. lia.
    + rewrite Hi', I1, u64_add_l. f_equal. nia.
    + rewrite Hl', L1. reflexivity.
Qed.

End Counting.

(** X12.  The counters that [Parser::work] keeps for [main], which are
    [uint64_t], hold what they count, modulo 2^64.  On a dictionary of fewer than 2^31
    symbols of 1 to 8 bytes each (the searches take the length matched
    so far as an [int]), with its symbols within that width and a
    suffix array of it in entries of 32 to 64 bits ([sound]), both files
    of whole symbols, and an input of any size, of bytes, none of whose
    symbols equals the value stored right after the dictionary:
    the number of tokens that [main] reports is the number of tokens
    written, [bytes_output] is the size of the output file and
    [bytes_input] is the size of the whole symbols of the input, each
    of them modulo 2^64, and [longest_token] is the greatest [length]
    of a token, or 1. *)
Theorem work_statistics (sizeof_T : nat) (bits_S : Z) (fmt : format)
    (input_file dict_file sa_file : list Z) (dict_mem sa_mem : Z -> Z) :
  let p := make_parser sizeof_T bits_S input_file dict_file sa_file
             dict_mem sa_mem in
  sound sizeof_T bits_S p ->
  Files.whole sizeof_T dict_file ->
  Files.whole (Z.to_nat (bits_S / 8)) sa_file ->
  Forall (fun b => 0 <= b < 256) input_file ->
  Forall (fun a => a <> beyond p) (symbols sizeof_T input_file) ->
  exists toks st p',
    work sizeof_T bits_S p fmt = Ret (encode fmt toks, st, p')
    /\ forallb (valid sizeof_T (dict p)) toks = true
    /\ expand sizeof_T (dict p) toks = symbols sizeof_T input_file
    /\ tokens_reported st = u64 (Z.of_nat (List.length toks))
    /\ bytes_output st = u64 (Z.of_nat (List.length (encode fmt toks)))
    /\ bytes_input st
       = u64 (Z.of_nat sizeof_T
              * (Z.of_nat (List.length input_file) / Z.of_nat sizeof_T))
    /\ longest_token st = fold_left Z.max (map length toks) 1.
Proof.
  intros p Hsound _ _ Hbytes Hfar. pose proof (width_range _ _ _ Hsound) as Hw.
  assert (Hrest : rest sizeof_T p = symbols sizeof_T input_file) by reflexivity.
  assert (Hb : between sizeof_T p).
  { left. unfold reading. rewrite Hrest. split; [reflexivity|]. split.
    - cbn [read_counter p make_parser source_file_size_symbols].
      rewrite ParserFacts.symbols_length by lia. lia.
    - apply Forall_forall. intros a Ha. split.
      + exact (proj1 (Forall_forall _ _)
                 (ParserFacts.symbols_range sizeof_T input_file (proj1 Hw) Hbytes)
                 a Ha).
      + exact (proj1 (Forall_forall _ _) Hfar a Ha). }
  pose proof (ParserFacts.symbols_length sizeof_T input_file ltac:(lia)) as Hlen.
  assert (Hsize : source_file_size_symbols p
                  = Z.of_nat (List.length input_file) / Z.of_nat sizeof_T)
    by reflexivity.
  unfold work.
  destruct (work_loop_counts sizeof_T bits_S fmt
              (Z.to_nat (source_file_size_symbols p + 2)) p [] initial Hsound Hb)
    as (toks & p' & st & E & Hv & He & Hn & Ho & Hi & Hl).
  { rewrite Hrest, Hsize. lia. }
  { cbn [initial longest_token]. lia. }
  { cbn [initial bytes_input]. lia. }
  exists toks, st, p'. rewrite E. cbn [app].
  split; [reflexivity|]. split; [exact Hv|]. split; [now rewrite He|].
  cbn [initial longest_token num_tokens bytes_input bytes_output] in *.
  rewrite Z.add_0_l in Hn, Ho, Hi.
  split; [|split; [exact Ho|split; [|exact Hl]]].
  - unfold tokens_reported. rewrite Hn.
    unfold u64, wrap_u. rewrite Zminus_mod_idemp_l. f_equal. lia.
  - rewrite Hi, Hrest, Hlen. reflexivity.
Qed.

Lemma work_statistics_witness :
  let p := make_parser 1 32 (Inputs.text "cadabra") Inputs.abracadabra
             Inputs.abracadabra_sa (fun _ => 0) (fun _ => 0) in
  exists toks st p',
    work 1 32 p FMT_32X2 = Ret (encode FMT_32X2 toks, st, p')
    /\ forallb (valid 1 (dict p)) toks = true
    /\ expand 1 (dict p) toks = symbols 1 (Inputs.text "cadabra")
    /\ tokens_reported st = u64 (Z.of_nat (List.length toks))
    /\ bytes_output st = u64 (Z.of_nat (List.length (encode FMT_32X2 toks)))
    /\ bytes_input st
       = u64 (Z.of_nat 1
              * (Z.of_nat (List.length (Inputs.text "cadabra")) / Z.of_nat 1))
    /\ longest_token st = fold_left Z.max (map length toks) 1.
Proof.
  exact (work_statistics 1 32 FMT_32X2 (Inputs.text "cadabra") Inputs.abracadabra
           Inputs.abracadabra_sa (fun _ => 0) (fun _ => 0)
           RoundTrip.abracadabra_sound eq_refl eq_refl RoundTrip.cadabra_bytes
           RoundTrip.cadabra_clear).
Defined.

End StatisticsFacts.

(** ** The unparser on the files of the parser's formats *)

Module DecoderFacts.

Import Unparse Tokens IntFacts Windows WindowFacts Formats.

(** The file written for tokens within the reach of a format is read
    back as those tokens. *)
Lemma stream_of_encoded (fmt : format) (toks : list RLZToken) :
  Forall (fits (reach fmt)) toks ->
  stream_of (mk_input (open (encode fmt toks)) fmt) toks.
Proof.
  intros Hf. destruct fmt; cbn [reach] in Hf.
  - apply (CodecFacts.stream_of_binary FMT_32X2 32); [tauto | exact Hf].
  - apply (CodecFacts.stream_of_binary FMT_64X2 64); [tauto | exact Hf].
  - apply (CodecFacts.stream_of_ascii toks Hf []). constructor.
  - apply (CodecFacts.stream_of_binary FMT_VBYTE 64); [tauto | exact Hf].
Qed.

(** Two counters below 2^32 are packed and taken apart again. *)
Lemma pack_unpack (toks_read syms_written : Z) :
  0 <= toks_read < 2 ^ 32 -> 0 <= syms_written < 2 ^ 32 ->
  num_tokens (pack toks_read syms_written) = toks_read
  /\ num_symbols (pack toks_read syms_written) = syms_written.
Proof.
  intros Ht Hs. unfold pack, num_tokens, num_symbols.
  rewrite Z.shiftl_mul_pow2 by lia.
  assert (Hk : exists k, s64 (toks_read * 2 ^ 32) = k * 2 ^ 32
                         /\ (k = toks_read \/ k = toks_read - 2 ^ 32)).
  { unfold s64, wrap_s. change (2 ^ (64 - 1)) with (2 ^ 63).
    change (2 ^ 32) with 4294967296 in *.
    change (2 ^ 63) with 9223372036854775808.
    change (2 ^ 64) with 18446744073709551616.
    destruct (Z_lt_ge_dec toks_read 2147483648) as [Hlo|Hhi].
    - exists toks_read. split; [|left; reflexivity].
      rewrite Z.mod_small by lia. lia.
    - exists (toks_read - 4294967296). split; [|right; reflexivity].
      replace (toks_read * 4294967296 + 9223372036854775808)
        with (toks_read * 4294967296 - 9223372036854775808
              + 1 * 18446744073709551616) by lia.
      rewrite Z.mod_add by lia. rewrite Z.mod_small by lia. lia. }
  destruct Hk as (k & Ek & Hk). rewrite Ek.
  assert (Hland : Z.land (k * 2 ^ 32) syms_written = 0).
  { apply Z.bits_inj'. intros n Hn. rewrite Z.land_spec, Z.bits_0.
    destruct (Z_lt_ge_dec n 32) as [Hlow|Hhigh].
    - rewrite Z.mul_pow2_bits_low by lia. reflexivity.
    - destruct (Z.eq_dec syms_written 0) as [->|Hnz].
      + rewrite Z.bits_0. apply andb_false_r.
      + rewrite (Z.bits_above_log2 syms_written n); [apply andb_false_r | lia |].
        apply Z.log2_lt_pow2; [lia|].
        assert (2 ^ 32 <= 2 ^ n) by (apply Z.pow_le_mono_r; lia). lia. }
  pose proof (Z.add_lor_land (k * 2 ^ 32) syms_written) as Hadd.
  rewrite Hland, Z.add_0_r in Hadd. rewrite Hadd.
  assert (Hu : u64 (k * 2 ^ 32 + syms_written)
               = toks_read * 2 ^ 32 + syms_written).
  { unfold u64, wrap_u. change (2 ^ 32) with 4294967296 in *.
    change (2 ^ 64) with 18446744073709551616.
    destruct Hk as [->| ->].
    - apply Z.mod_small. lia.
    - replace ((toks_read - 4294967296) * 4294967296 + syms_written)
        with (toks_read * 4294967296 + syms_written
              + (-1) * 18446744073709551616) by lia.
      rewrite Z.mod_add by lia. apply Z.mod_small. lia. }
  rewrite Hu. split.
  - rewrite Z.shiftr_div_pow2 by lia.
    rewrite Z.div_add_l by lia. rewrite (Z.div_small syms_written) by lia.
    unfold u32, wrap_u. rewrite Z.add_0_r. apply Z.mod_small. lia.
  - change 4294967295 with (Z.ones 32). rewrite Z.land_ones by lia.
    unfold u32, wrap_u. rewrite Z.mod_mod by lia.
    rewrite Z.add_comm, Z.mod_add by lia. apply Z.mod_small. lia.
Qed.

Section Decoder.

Variable sizeof_T : nat.
Hypothesis width : (sizeof_T <= 8)%nat.

Variable d : FileReader.
Hypothesis dict_fits : size d < 2 ^ 63.

(** What [write_next] does with a valid token and no window. *)
Lemma write_next_whole (w : OutputWriter) (t : RLZToken) :
  dict w = d -> valid sizeof_T d t = true ->
  write_next sizeof_T w t 0 0
  = (Z.of_nat (List.length (payload sizeof_T d t)),
     mk_writer d (outfile w ++ bytes_of sizeof_T (payload sizeof_T d t))
               (cerr w)).
Proof.
  intros Hd Hv. rewrite (payload_length sizeof_T width d t Hv).
  destruct (Z.eqb_spec (length t) 0) as [Hlit|Hcopy].
  - rewrite (write_next_literal sizeof_T width) by exact Hlit. now rewrite Hd.
  - pose proof (payload_length sizeof_T width d t Hv) as Hlen.
    replace (length t =? 0) with false in Hlen
      by (symmetry; apply Z.eqb_neq; exact Hcopy).
    rewrite (write_next_copy sizeof_T width);
      rewrite ?Hd; try assumption; cbn [Z.leb Z.compare]; try lia.
    cbn [skipn Z.to_nat]. now rewrite firstn_all2 by lia.
Qed.

(** The loop without a window, with its counters. *)
Lemma unparse_loop_counts (r : RLZInputReader) (toks : list RLZToken) :
  stream_of r toks ->
  forall (st : progress) (rounds : nat),
    forallb (valid sizeof_T d) toks = true ->
    dict (writer st) = d -> reader st = r ->
    (List.length toks < rounds)%nat ->
    0 <= syms_written st ->
    syms_written st + Z.of_nat (List.length (expand sizeof_T d toks)) < 2 ^ 63 ->
    exists st',
      unparse_loop sizeof_T rounds st 0 0 = Ret st'
      /\ outfile (writer st')
         = outfile (writer st) ++ bytes_of sizeof_T (expand sizeof_T d toks)
      /\ toks_read st' = toks_read st + Z.of_nat (List.length toks)
      /\ syms_written st'
         = syms_written st + Z.of_nat (List.length (expand sizeof_T d toks)).
Proof.
  induction 1 as [r Hend | r r' t toks Hk Hn Hs Hrest IH];
    intros st rounds Hv Hd Hr Hrounds Hs0 Hs1.
  - destruct rounds as [|k]; [cbn in Hrounds; lia|].
    cbn [unparse_loop expand flat_map bytes_of List.length Z.of_nat].
    rewrite app_nil_r, !Z.add_0_r, Hr.
    destruct (keep_going r) eqn:Hk.
    + destruct Hend as [Hend | (ws & r' & Hend)]; [discriminate|].
      rewrite Hend. cbn [bind]. change (is_end_sentinel end_sentinel) with true.
      cbn iota. eexists. repeat split; reflexivity.
    + eexists. repeat split; reflexivity.
  - destruct rounds as [|k]; [cbn in Hrounds; lia|].
    cbn [unparse_loop]. rewrite Hr, Hk, Hn. cbn [bind]. rewrite Hs.
    cbn [forallb] in Hv. apply andb_true_iff in Hv. destruct Hv as [Hvt Hv].
    rewrite full_mode_goes_on.
    cbn [List.length] in Hrounds.
    cbn [expand flat_map] in Hs1. fold (expand sizeof_T d toks) in Hs1.
    rewrite length_app in Hs1.
    unfold emit. cbn [writer].
    rewrite write_next_whole by (try exact Hvt; exact Hd).
    cbn [toks_read syms_written].
    rewrite (s64_small (syms_written st + _)) by lia.
    match goal with
    | |- context [unparse_loop _ _ ?s _ _] =>
        destruct (IH s k Hv eq_refl eq_refl) as (st' & E & Hout & Ht & Hsy);
          cbn [syms_written]; try lia
    end.
    exists st'. split; [exact E|]. split; [|split].
    + rewrite Hout. cbn [writer outfile expand flat_map].
      unfold bytes_of. now rewrite flat_map_app, app_assoc.
    + rewrite Ht. cbn [toks_read List.length]. lia.
    + rewrite Hsy. cbn [syms_written expand flat_map].
      rewrite length_app. unfold expand. lia.
Qed.

Lemma write_next_stop (w : OutputWriter) (t : RLZToken) (start : Z) :
  write_next sizeof_T w t start (length t) = write_next sizeof_T w t start 0.
Proof.
  unfold write_next. destruct (length t =? 0); [reflexivity|].
  change (0 <=? 0) with true. cbv iota.
  destruct (length t <=? 0); reflexivity.
Qed.

Ltac compare_all :=
  rewrite ?Z.gtb_ltb, ?Z.geb_leb;
  repeat (match goal with
          | |- context [?x <? ?y] => progress destruct (Z.ltb_spec x y)
          | |- context [?x <=? ?y] => progress destruct (Z.leb_spec x y)
          | |- context [?x =? ?y] => progress destruct (Z.eqb_spec x y)
          end; cbn [andb orb negb]; try (exfalso; lia));
  try reflexivity; try (exfalso; lia).


(** A window that ends at [b] and has no start is the window from 1 to
    [b]. *)
Lemma visit_upto (st : progress) (r : RLZInputReader) (t : RLZToken) (b : Z) :
  valid sizeof_T d t = true -> 0 <= output_pos st -> 1 <= b ->
  visit sizeof_T st r t 0 b = visit sizeof_T st r t 1 b.
Proof.
  intros Hv Hp Hb.
  pose proof (payload_length sizeof_T width d t Hv) as Hlen.
  assert (Hy : 1 <= Z.of_nat (List.length (payload sizeof_T d t))).
  { rewrite Hlen. unfold valid in Hv.
    destruct (length t =? 0); [lia|].
    apply andb_true_iff in Hv. destruct Hv as [Hv _].
    apply andb_true_iff in Hv. destruct Hv as [Hv _].
    apply Z.ltb_lt in Hv. lia. }
  rewrite Hlen in *. unfold visit. cbv zeta.
  set (e := if length t =? 0 then 1 else length t) in *.
  clearbody e. clear Hlen Hv.
  compare_all.
  replace (length t + b - (output_pos st + e)) with (length t) by lia.
  unfold emit. now rewrite write_next_stop.
Qed.

(** The loop with a window [(ca, cb)] that every visit takes as the
    window [(a, b)]. *)
Lemma unparse_loop_agrees (ca cb a b L : Z) (out0 : list Z) :
  1 <= a <= b ->
  (forall st r t,
      valid sizeof_T d t = true -> 0 <= output_pos st ->
      output_pos st + Z.of_nat (List.length (payload sizeof_T d t)) <= L ->
      visit sizeof_T st r t ca cb = visit sizeof_T st r t a b) ->
  forall (r : RLZInputReader) (toks : list RLZToken),
    stream_of r toks ->
    forall (st : progress) (syms : list Z) (rounds : nat),
      forallb (valid sizeof_T d) toks = true ->
      Tokens.after sizeof_T d a b out0 st syms -> reader st = r ->
      (List.length toks < rounds)%nat ->
      Z.of_nat (List.length syms)
        + Z.of_nat (List.length (expand sizeof_T d toks)) <= L ->
      unparse_loop sizeof_T rounds st ca cb = unparse_loop sizeof_T rounds st a b.
Proof.
  intros Hab Hagree r toks Hstream.
  induction Hstream as [r Hend | r r' t toks Hk Hn Hs Hrest IH];
    intros st syms rounds Hv Hafter Hr Hrounds HL.
  - destruct rounds as [|k]; [reflexivity|].
    cbn [unparse_loop]. rewrite Hr.
    destruct (keep_going r) eqn:Hk; [|reflexivity].
    destruct Hend as [Hend | (ws & r' & Hend)]; [discriminate|].
    rewrite Hend. reflexivity.
  - destruct rounds as [|k]; [reflexivity|].
    cbn [unparse_loop]. rewrite Hr, Hk, Hn. cbn [bind]. rewrite Hs.
    cbn [forallb] in Hv. apply andb_true_iff in Hv. destruct Hv as [Hvt Hv].
    cbn [expand flat_map] in HL. fold (expand sizeof_T d toks) in HL.
    rewrite length_app in HL.
    set (st1 := mk_progress
                  (mk_writer (dict (writer st)) (outfile (writer st))
                             (cerr (writer st) ++ []))
                  r (toks_read st) (syms_written st) (output_pos st)).
    assert (Hafter1 : Tokens.after sizeof_T d a b out0 st1 syms).
    { destruct Hafter as (Hp & Ho & Hd). unfold Tokens.after.
      repeat split; assumption. }
    pose proof Hafter1 as (Hp1 & _).
    rewrite (Hagree st1 r' t Hvt) by lia.
    pose proof (visit_window sizeof_T width d dict_fits a b Hab out0
                  st1 r' t syms Hvt Hafter1) as Hvisit.
    destruct (visit sizeof_T st1 r' t a b) as [st'|st']; [|reflexivity].
    destruct Hvisit as [Hafter' Hr'].
    cbn [List.length] in Hrounds.
    apply (IH st' (syms ++ payload sizeof_T d t) k Hv Hafter' Hr'); [lia|].
    rewrite length_app. lia.
Qed.

End Decoder.

(** X13.  [rlzunparse] without a window, on the file that [rlzparse]
    writes in any of the four formats for a list of tokens: when every
    token is a literal or a copy from inside the dictionary, and within
    the reach of the format, the symbols the tokens stand for are
    written, and the two counters that [main] prints are the number of
    tokens and the number of symbols written, both below 2^32. *)
Theorem unparse_of_encoded (sizeof_T : nat) (fmt : format) (w : OutputWriter)
    (toks : list RLZToken) :
  (sizeof_T <= 8)%nat -> size (dict w) < 2 ^ 63 ->
  Forall (fits (reach fmt)) toks ->
  forallb (valid sizeof_T (dict w)) toks = true ->
  Z.of_nat (List.length toks) < 2 ^ 32 ->
  Z.of_nat (List.length (expand sizeof_T (dict w) toks)) < 2 ^ 32 ->
  exists x st,
    unparse sizeof_T w (mk_input (open (encode fmt toks)) fmt) 0 0 = Ret (x, st)
    /\ outfile (writer st)
       = outfile w ++ bytes_of sizeof_T (expand sizeof_T (dict w) toks)
    /\ num_tokens x = Z.of_nat (List.length toks)
    /\ num_symbols x
       = Z.of_nat (List.length (expand sizeof_T (dict w) toks)).
Proof.
  intros Hw Hd Hf Hv Hn Hs. unfold unparse.
  pose proof (stream_of_encoded fmt toks Hf) as Hstream.
  assert (P : 2 ^ 32 < 2 ^ 63) by (apply Z.pow_lt_mono_r; lia).
  destruct (unparse_loop_counts sizeof_T Hw (dict w) Hd _ toks Hstream
              (mk_progress w (mk_input (open (encode fmt toks)) fmt) 0 0 0)
              (S (List.length (pending (infile (mk_input (open (encode fmt toks)) fmt)))))
              Hv eq_refl eq_refl)
    as (st & E & Hout & Ht & Hsy); cbn [syms_written]; try lia.
  { pose proof (stream_length _ toks Hstream). lia. }
  rewrite E. cbn [bind]. eexists. eexists. split; [reflexivity|].
  cbn [toks_read syms_written writer] in Ht, Hsy, Hout.
  split; [exact Hout|]. rewrite Ht, Hsy. cbn [Z.add].
  apply pack_unpack; lia.
Qed.

Lemma unparse_of_encoded_witness :
  exists x st,
    unparse 1 (make_writer 1 Inputs.abracadabra (fun _ => 0))
      (mk_input (open (encode FMT_VBYTE [mk_token 0 5; mk_token 3 2])) FMT_VBYTE)
      0 0 = Ret (x, st)
    /\ outfile (writer st)
       = outfile (make_writer 1 Inputs.abracadabra (fun _ => 0))
         ++ bytes_of 1 (expand 1 (dict (make_writer 1 Inputs.abracadabra (fun _ => 0)))
                          [mk_token 0 5; mk_token 3 2])
    /\ num_tokens x = Z.of_nat (List.length [mk_token 0 5; mk_token 3 2])
    /\ num_symbols x
       = Z.of_nat (List.length
                     (expand 1 (dict (make_writer 1 Inputs.abracadabra (fun _ => 0)))
                        [mk_token 0 5; mk_token 3 2])).
Proof.
  exact (unparse_of_encoded 1 FMT_VBYTE
           (make_writer 1 Inputs.abracadabra (fun _ => 0))
           [mk_token 0 5; mk_token 3 2]
           ltac:(lia) ltac:(vm_compute; reflexivity)
           ltac:(repeat constructor; cbn; lia) eq_refl
           ltac:(vm_compute; reflexivity) ltac:(vm_compute; reflexivity)).
Defined.





(** X16.  With an end and no start, [(0, b)] with [1 <= b], the first
    [b] symbols are written. *)
Theorem unparse_upto_of_encoded (sizeof_T : nat) (fmt : format)
    (w : OutputWriter) (toks : list RLZToken) (b : Z) :
  (sizeof_T <= 8)%nat -> size (dict w) < 2 ^ 63 ->
  Forall (fits (reach fmt)) toks ->
  forallb (valid sizeof_T (dict w)) toks = true ->
  1 <= b ->
  exists x st,
    unparse sizeof_T w (mk_input (open (encode fmt toks)) fmt) 0 b = Ret (x, st)
    /\ outfile (writer st)
       = outfile w
         ++ bytes_of sizeof_T
              (firstn (Z.to_nat b) (expand sizeof_T (dict w) toks)).
Proof.
  intros Hw Hd Hf Hv Hb. unfold unparse.
  pose proof (stream_of_encoded fmt toks Hf) as Hstream.
  set (r := mk_input (open (encode fmt toks)) fmt) in *.
  assert (Hab : 1 <= 1 <= b) by lia.
  assert (Hafter : Tokens.after sizeof_T (dict w) 1 b (outfile w)
                     (mk_progress w r 0 0 0) []).
  { unfold Tokens.after, slice. cbn [output_pos writer List.length].
    rewrite firstn_nil, skipn_nil. cbn [bytes_of flat_map]. rewrite app_nil_r.
    repeat split. }
  assert (Hrounds : (List.length toks < S (List.length (pending (infile r))))%nat).
  { pose proof (stream_length _ toks Hstream). lia. }
  rewrite (unparse_loop_agrees sizeof_T Hw (dict w) Hd 0 b 1 b
             (Z.of_nat (List.length (expand sizeof_T (dict w) toks)))
             (outfile w) Hab
             (fun st r' t Hvt Hp _ => visit_upto sizeof_T Hw (dict w) st r' t b
                                        Hvt Hp Hb)
             r toks Hstream (mk_progress w r 0 0 0) [] _ Hv Hafter eq_refl
             Hrounds ltac:(cbn [List.length Z.of_nat]; lia)).
  destruct (unparse_loop_window sizeof_T Hw (dict w) Hd 1 b Hab (outfile w)
              r toks Hstream (mk_progress w r 0 0 0) [] _ Hv Hafter eq_refl
              Hrounds) as (st & E & Hout).
  rewrite E. cbn [bind]. eexists. eexists. split; [reflexivity|].
  rewrite Hout. reflexivity.
Qed.

Lemma unparse_upto_of_encoded_witness :
  exists x st,
    unparse 1 (make_writer 1 Inputs.abracadabra (fun _ => 0))
      (mk_input (open (encode FMT_32X2 [mk_token 0 5; mk_token 3 2])) FMT_32X2)
      0 6 = Ret (x, st)
    /\ outfile (writer st) = Inputs.text "abraca".
Proof.
  exact (unparse_upto_of_encoded 1 FMT_32X2
           (make_writer 1 Inputs.abracadabra (fun _ => 0))
           [mk_token 0 5; mk_token 3 2] 6
           ltac:(lia) ltac:(vm_compute; reflexivity)
           ltac:(repeat constructor; cbn; lia) eq_refl ltac:(lia)).
Defined.

End DecoderFacts.

(** ** Files that end inside a token *)

Module EndingFacts.

Import Unparse Tokens IntFacts Windows WindowFacts Formats Endings Vbyte.

Lemma format_eq_ascii (fmt : format) : fmt = FMT_ASCII \/ fmt <> FMT_ASCII.
Proof. destruct fmt; (left; reflexivity) || (right; discriminate). Qed.

Lemma take_word_all (w : list Z) :
  Forall (fun b => isspace b = false) w -> take_word w = (w, []).
Proof.
  induction 1 as [|c w Hc _ IH]; cbn [take_word]; [reflexivity|].
  now rewrite Hc, IH.
Qed.

(** The reader at the bytes that follow the last whole token. *)
Lemma next_token_cut_short (fmt : format) (tail : list Z) :
  cut_short fmt tail ->
  exists r',
    Common.next_token (mk_input (open tail) fmt) = Ret (end_sentinel, [], r').
Proof.
  destruct fmt; cbn [cut_short].
  - intros H. unfold Common.next_token, next_token_32x2, read, open.
    cbn [infile mode eof fail good eofbit failbit pending negb andb orb].
    replace (8 <=? List.length tail)%nat with false
      by (symmetry; apply Nat.leb_gt; exact H).
    eexists. reflexivity.
  - intros H. unfold Common.next_token, next_token_64x2, read, open.
    cbn [infile mode eof fail good eofbit failbit pending negb andb orb].
    replace (16 <=? List.length tail)%nat with false
      by (symmetry; apply Nat.leb_gt; exact H).
    eexists. reflexivity.
  - intros (ws & w & -> & Hws & Hw).
    unfold Common.next_token, next_token_ascii, extract_word, open.
    cbn [infile mode eof fail good eofbit failbit pending negb andb orb].
    rewrite (CodecFacts.skip_space_spaces ws w Hws).
    destruct w as [|c w]; [eexists; reflexivity|].
    inversion Hw as [|? ? Hc Hw']; subst.
    cbn [skip_space]. rewrite Hc.
    rewrite (take_word_all (c :: w) Hw). cbn [eof eofbit].
    eexists. reflexivity.
  - intros [[Hc Hl] | (ks & t & cs & -> & Hks & Hlk & Ht & Hcs & Hlc)].
    + rewrite (VbyteFacts.vbyte_eof_in_start_pos tail Hc Hl). eexists. reflexivity.
    + rewrite (VbyteFacts.vbyte_eof_in_length ks t cs Hks Hlk Ht Hcs Hlc).
      eexists. reflexivity.
Qed.

Lemma stream_of_cut_short_ascii (toks : list RLZToken) (tail : list Z) :
  Forall (fits 64) toks -> cut_short FMT_ASCII tail ->
  forall ws, Forall (fun b => isspace b = true) ws ->
    stream_of (mk_input (mk_ifstream (ws ++ encode FMT_ASCII toks ++ tail)
                                     false false) FMT_ASCII) toks.
Proof.
  intros Hf Htail. induction Hf as [|t toks Ht _ IH]; intros ws Hws.
  - apply stream_end. right. cbn [encode flat_map app].
    destruct Htail as (ws' & w & -> & Hws' & Hw).
    destruct (next_token_cut_short FMT_ASCII ((ws ++ ws') ++ w)) as (r' & E).
    { exists (ws ++ ws'), w. split; [reflexivity|]. split; [|exact Hw].
      apply Forall_app. split; assumption. }
    rewrite <- app_assoc in E. eexists. eexists. exact E.
  - rewrite CodecFacts.encode_cons, <- app_assoc.
    eapply stream_token.
    + reflexivity.
    + apply CodecFacts.token_back_ascii; assumption.
    + eapply CodecFacts.fits_not_sentinel; exact Ht.
    + apply IH. repeat constructor.
Qed.

(** A file that ends inside a token is read as the tokens before it. *)
Lemma stream_of_cut_short (fmt : format) (toks : list RLZToken) (tail : list Z) :
  Forall (fits (reach fmt)) toks -> cut_short fmt tail ->
  stream_of (mk_input (open (encode fmt toks ++ tail)) fmt) toks.
Proof.
  intros Hf Htail.
  destruct (format_eq_ascii fmt) as [->|Hbin].
  - exact (stream_of_cut_short_ascii toks tail Hf Htail [] ltac:(constructor)).
  - induction Hf as [|t toks Ht _ IH].
    + apply stream_end. right. cbn [encode flat_map app].
      destruct (next_token_cut_short fmt tail Htail) as (r' & E).
      eexists. eexists. exact E.
    + rewrite CodecFacts.encode_cons, <- app_assoc.
      eapply stream_token;
        [reflexivity | | eapply CodecFacts.fits_not_sentinel; exact Ht | exact IH].
      destruct fmt; cbn [reach] in Ht; try contradiction.
      * now apply CodecFacts.token_back_32x2.
      * now apply CodecFacts.token_back_64x2.
      * now apply CodecFacts.token_back_vbyte.
Qed.

(** X17.  A file that ends inside a token (or in white space, in ascii)
    is unparsed as the whole tokens before the end: the bytes of the
    token that was cut short are passed over, in every format. *)
Theorem unparse_passes_over_cut_token (sizeof_T : nat) (fmt : format)
    (w : OutputWriter) (toks : list RLZToken) (tail : list Z) :
  (sizeof_T <= 8)%nat -> size (dict w) < 2 ^ 63 ->
  Forall (fits (reach fmt)) toks ->
  forallb (valid sizeof_T (dict w)) toks = true ->
  Z.of_nat (List.length (expand sizeof_T (dict w) toks)) < 2 ^ 63 ->
  cut_short fmt tail ->
  exists x st,
    unparse sizeof_T w (mk_input (open (encode fmt toks ++ tail)) fmt) 0 0
    = Ret (x, st)
    /\ outfile (writer st)
       = outfile w ++ bytes_of sizeof_T (expand sizeof_T (dict w) toks)
    /\ toks_read st = Z.of_nat (List.length toks).
Proof.
  intros Hw Hd Hf Hv Hs Htail. unfold unparse.
  pose proof (stream_of_cut_short fmt toks tail Hf Htail) as Hstream.
  destruct (DecoderFacts.unparse_loop_counts sizeof_T Hw (dict w) Hd _ toks Hstream
              (mk_progress w (mk_input (open (encode fmt toks ++ tail)) fmt) 0 0 0)
              (S (List.length
                    (pending (infile (mk_input (open (encode fmt toks ++ tail)) fmt)))))
              Hv eq_refl eq_refl)
    as (st & E & Hout & Ht & Hsy); cbn [syms_written]; try lia.
  { pose proof (stream_length _ toks Hstream). lia. }
  rewrite E. cbn [bind]. eexists. eexists. split; [reflexivity|].
  cbn [toks_read writer] in Ht, Hout. split; [exact Hout | rewrite Ht; lia].
Qed.

Lemma unparse_passes_over_cut_token_witness :
  exists x st,
    unparse 1 (make_writer 1 Inputs.abracadabra (fun _ => 0))
      (mk_input (open (encode FMT_32X2 [mk_token 0 5; mk_token 3 2] ++ [7; 0; 0]))
                FMT_32X2) 0 0 = Ret (x, st)
    /\ outfile (writer st) = Inputs.text "abracac"
    /\ toks_read st = 2.
Proof.
  exact (unparse_passes_over_cut_token 1 FMT_32X2
           (make_writer 1 Inputs.abracadabra (fun _ => 0))
           [mk_token 0 5; mk_token 3 2] [7; 0; 0]
           ltac:(lia) ltac:(vm_compute; reflexivity)
           ltac:(repeat constructor; cbn; lia) eq_refl
           ltac:(vm_compute; reflexivity) ltac:(cbn; lia)).
Defined.

End EndingFacts.

(** ** The file readers and the writer, at their edges *)

Module EdgeFacts.

Import Parse Unparse Tokens IntFacts FileFacts Files.

Lemma write_next_truncates_witness :
  write_next 1 (make_writer 1 Inputs.abracadabra (fun _ => 0)) (mk_token 8 5) 0 0
  = (5, mk_writer (load 1 Inputs.abracadabra (fun _ => 0)) (Inputs.text "bra")
          [truncating_message]).
Proof.
  exact (Windows.write_next_truncates 1
           (make_writer 1 Inputs.abracadabra (fun _ => 0)) (mk_token 8 5)
           ltac:(cbn; lia) ltac:(cbn; lia) ltac:(vm_compute; reflexivity)
           ltac:(vm_compute; reflexivity)).
Defined.

(** X19.  [FileReader<T>] on a file of whole little-endian numbers of
    [sizeof(T)] bytes, such as the helper programs and the binary
    formats write: [size()] is the number of the numbers, and
    [operator[]] gives the [i]-th of them for an index inside the
    array. *)
Theorem load_reads_little_endian (w : nat) (xs : list Z) (mem : Z -> Z) :
  (1 <= w)%nat ->
  Forall (fun x => 0 <= x < 256 ^ Z.of_nat w) xs ->
  size (load w (flat_map (le_bytes w) xs) mem) = Z.of_nat (List.length xs)
  /\ forall i : Z,
       0 <= i < Z.of_nat (List.length xs) ->
       at_index (load w (flat_map (le_bytes w) xs) mem) i
       = nth (Z.to_nat i) xs 0.
Proof.
  intros Hw Hxs.
  assert (E : symbols w (flat_map (le_bytes w) xs) = xs).
  { rewrite <- (app_nil_r (flat_map (le_bytes w) xs)).
    rewrite flat_map_concat_map.
    rewrite (WideSuffixFacts.symbols_words w (map (le_bytes w) xs) [] Hw);
      [| | cbn [List.length]; lia].
    - rewrite map_map. rewrite <- (map_id xs) at 2. apply map_ext_in.
      intros y Hy. rewrite le_value_le_bytes. apply Z.mod_small.
      exact (proj1 (Forall_forall _ _) Hxs y Hy).
    - apply Forall_forall. intros v Hv. apply in_map_iff in Hv.
      destruct Hv as (y & <- & _). apply le_bytes_length. }
  unfold load, size, at_index. cbn [data_array]. rewrite E.
  split; [reflexivity|]. intros i Hi. unfold size. cbn [data_array].
  replace ((0 <=? i) && (i <? Z.of_nat (List.length xs))) with true
    by (symmetry; apply andb_true_iff; split;
        [apply Z.leb_le | apply Z.ltb_lt]; lia).
  reflexivity.
Qed.

Lemma load_reads_little_endian_witness :
  size (load 2 [1; 2; 3; 4] (fun _ => 0)) = 2
  /\ forall i : Z,
       0 <= i < 2 ->
       at_index (load 2 [1; 2; 3; 4] (fun _ => 0)) i
       = nth (Z.to_nat i) [513; 1027] 0.
Proof.
  exact (load_reads_little_endian 2 [513; 1027] (fun _ => 0)
           ltac:(lia) ltac:(repeat constructor; cbn; lia)).
Defined.

Lemma vbyte_put_enough (k j : nat) :
  forall n : Z,
    0 <= n < 2 ^ (7 * Z.of_nat k) -> vbyte_put (k + j) n = vbyte_put k n.
Proof.
  induction k as [|k IH]; intros n Hn.
  - change (2 ^ (7 * Z.of_nat 0)) with 1 in Hn.
    replace n with 0 by lia. now rewrite !VbyteFacts.vbyte_put_zero.
  - cbn [Nat.add vbyte_put].
    destruct (n >? 0) eqn:Hpos; [|reflexivity].
    apply Z.gtb_lt in Hpos. f_equal.
    apply IH. rewrite Z.shiftr_div_pow2 by lia. split.
    + apply Z.div_pos; lia.
    + apply Z.div_lt_upper_bound; [lia|].
      replace (7 * Z.of_nat (S k)) with (7 + 7 * Z.of_nat k) in Hn by lia.
      rewrite Z.pow_add_r in Hn by lia. lia.
Qed.

(** X20.  The two loops of the vbyte case of [output_token] put at most
    ten bytes each into [bytebuf], which has room for twenty: for every
    [start_pos] and every [length] that is not negative, ten rounds
    write the whole number, and no further round writes a byte. *)
Theorem vbyte_fields_fit_bytebuf (n : Z) (more : nat) :
  0 <= n < 2 ^ 64 ->
  vbyte_put (10 + more) n = vbyte_put 10 n
  /\ (1 <= List.length (vbyte_field n) <= 10)%nat.
Proof.
  intros Hn.
  assert (H70 : 2 ^ 64 <= 2 ^ (7 * Z.of_nat 10))
    by (apply Z.pow_le_mono_r; lia).
  split; [apply vbyte_put_enough; lia|].
  unfold vbyte_field. rewrite length_app.
  pose proof (CountFacts.vbyte_put_length 10 n) as Hlen.
  destruct (Z.eqb_spec n 0) as [->|Hnz].
  - cbn. lia.
  - cbn [List.length Nat.add]. split; [|exact Hlen].
    destruct (VbyteFacts.put_shape 10 n ltac:(lia) ltac:(lia))
      as ((ks & t & E & _) & _).
    rewrite E, length_app. cbn [List.length]. lia.
Qed.

Lemma vbyte_fields_fit_bytebuf_witness :
  vbyte_put (10 + 5) (2 ^ 64 - 1) = vbyte_put 10 (2 ^ 64 - 1)
  /\ (1 <= List.length (vbyte_field (2 ^ 64 - 1)) <= 10)%nat.
Proof.
  exact (vbyte_fields_fit_bytebuf (2 ^ 64 - 1) 5 ltac:(lia)).
Defined.

End EdgeFacts.

(** ** The parser takes the longest match *)

Module GreedyFacts.

Import Parse Search ParserSpec ParserResults Tokens Pipeline OrderFacts
       IntFacts InputFacts ColumnFacts ParserFacts Factors.

Section Searches.

Variable sizeof_T : nat.
Variable bits_S : Z.
Variable p : Parser.
Hypothesis p_sound : sound sizeof_T bits_S p.

(** In a range where the symbols at depth [offset] are in order, the
    loop of [search_left] fails only when the symbol stands at no index
    of the range, and the index it returns is the first one. *)
Lemma search_left_loop_least (c offset old_left_bound right_bound : Z) :
  0 <= c -> 0 <= old_left_bound -> right_bound < sa_size p ->
  0 <= offset <= dict_size p ->
  (forall i j, old_left_bound <= i <= j -> j <= right_bound ->
               column p offset i <= column p offset j) ->
  forall (k : nat) (left right : Z),
    old_left_bound <= left -> right <= right_bound ->
    (forall m, old_left_bound <= m < left -> column p offset m < c) ->
    right - left < Z.of_nat k ->
    let r := search_left_loop bits_S k p c offset old_left_bound left right in
    (r < 0 /\ forall m, left <= m <= right -> column p offset m <> c)
    \/ (left <= r <= right /\ column p offset r = c
        /\ forall m, old_left_bound <= m < r -> column p offset m < c).
Proof.
  intros Hc Holb Hrb Hoff Hsorted.
  induction k as [|k IH]; intros left right Hl Hr Hbelow Hk; cbn zeta.
  - left. cbn [search_left_loop]. split; [lia | intros m Hm; lia].
  - cbn [search_left_loop].
    destruct (Z.leb_spec left right) as [Hlr|Hlr];
      [|left; split; [lia | intros m Hm; lia]].
    pose proof (SearchFacts.mid_between left right Hlr) as Hmid.
    set (mid := Z.quot (left + right) 2) in *.
    destruct (probe sizeof_T bits_S p p_sound offset mid ltac:(lia) Hoff)
      as (_ & Hend & Hsym).
    rewrite Hend.
    assert (Hup : column p offset mid < c ->
              let r := search_left_loop bits_S k p c offset old_left_bound
                         (mid + 1) right in
              (r < 0 /\ forall m, left <= m <= right -> column p offset m <> c)
              \/ (left <= r <= right /\ column p offset r = c
                  /\ forall m, old_left_bound <= m < r -> column p offset m < c)).
    { intros Hlt.
      assert (Hbelow' : forall m, old_left_bound <= m < mid + 1 ->
                                  column p offset m < c).
      { intros m Hm. pose proof (Hsorted m mid ltac:(lia) ltac:(lia)). lia. }
      destruct (IH (mid + 1) right ltac:(lia) Hr Hbelow' ltac:(lia))
        as [[Hneg Hnone] | (Hin & Hcol & Hleast)].
      - left. split; [exact Hneg|]. intros m Hm.
        destruct (Z_le_gt_dec m mid) as [H|H];
          [specialize (Hbelow' m ltac:(lia)); lia | apply Hnone; lia].
      - right. split; [lia|]. split; assumption. }
    destruct (Z.eqb_spec (column p offset mid) (-1)) as [E|E].
    { apply Hup. lia. }
    destruct (Hsym E) as [-> Hpos].
    destruct (Z.ltb_spec (column p offset mid) c) as [Hlt|Hge].
    { apply Hup. exact Hlt. }
    rewrite Z.gtb_ltb.
    destruct (Z.ltb_spec c (column p offset mid)) as [Hgt|Hle].
    { destruct (IH left (mid - 1) Hl ltac:(lia) Hbelow ltac:(lia))
        as [[Hneg Hnone] | (Hin & Hcol & Hleast)].
      - left. split; [exact Hneg|]. intros m Hm.
        destruct (Z_lt_ge_dec m mid) as [H|H]; [apply Hnone; lia|].
        pose proof (Hsorted mid m ltac:(lia) ltac:(lia)). lia.
      - right. split; [lia|]. split; assumption. }
    assert (Heq : column p offset mid = c) by lia.
    destruct (Z.eqb_spec mid old_left_bound) as [Eolb|Eolb].
    { right. split; [lia|]. split; [exact Heq|]. intros m Hm. lia. }
    destruct (probe sizeof_T bits_S p p_sound offset (mid - 1) ltac:(lia) Hoff)
      as (_ & Hend' & Hsym').
    rewrite Hend'.
    assert (Hfirst : column p offset (mid - 1) < c ->
              forall m, old_left_bound <= m < mid -> column p offset m < c).
    { intros Hlt m Hm.
      pose proof (Hsorted m (mid - 1) ltac:(lia) ltac:(lia)). lia. }
    pose proof (Hsorted (mid - 1) mid ltac:(lia) ltac:(lia)) as Hstep.
    destruct (Z.eqb_spec (column p offset (mid - 1)) (-1)) as [E'|E'].
    { right. split; [lia|]. split; [exact Heq|]. apply Hfirst. lia. }
    destruct (Hsym' E') as [-> Hpos'].
    destruct (Z.eqb_spec (column p offset (mid - 1)) (column p offset mid))
      as [Esame|Ediff].
    + assert (Hin : left <= mid - 1).
      { destruct (Z_le_gt_dec left (mid - 1)) as [H|H]; [exact H|].
        specialize (Hbelow (mid - 1) ltac:(lia)). lia. }
      destruct (IH left (mid - 1) Hl ltac:(lia) Hbelow ltac:(lia))
        as [[Hneg Hnone] | (Hin' & Hcol & Hleast)].
      * exfalso. apply (Hnone (mid - 1)); lia.
      * right. split; [lia|]. split; assumption.
    + right. split; [lia|]. split; [exact Heq|]. apply Hfirst. lia.
Qed.

(** In such a range, with the symbol at one index of it at least, the
    loop of [search_right] returns the last index at which it stands. *)
Lemma search_right_loop_last (c offset old_right_bound low : Z) :
  0 <= c -> 0 <= low -> old_right_bound < sa_size p ->
  0 <= offset <= dict_size p ->
  (forall i j, low <= i <= j -> j <= old_right_bound ->
               column p offset i <= column p offset j) ->
  forall (k : nat) (left right : Z),
    low <= left -> right <= old_right_bound ->
    (forall m, right < m <= old_right_bound -> c < column p offset m) ->
    (exists m, left <= m <= right /\ column p offset m = c) ->
    right - left < Z.of_nat k ->
    let r := search_right_loop bits_S k p c offset old_right_bound left right in
    left <= r <= right /\ column p offset r = c
    /\ forall m, r < m <= old_right_bound -> c < column p offset m.
Proof.
  intros Hc Hlow Horb Hoff Hsorted.
  induction k as [|k IH]; intros left right Hl Hr Habove (m & Hm & Hcm) Hk; cbn zeta.
  - lia.
  - cbn [search_right_loop].
    replace (left <=? right) with true by (symmetry; apply Z.leb_le; lia).
    pose proof (SearchFacts.mid_between left right ltac:(lia)) as Hmid.
    set (mid := Z.quot (left + right) 2) in *.
    destruct (probe sizeof_T bits_S p p_sound offset mid ltac:(lia) Hoff)
      as (_ & Hend & Hsym).
    rewrite Hend.
    assert (Hup : column p offset mid < c ->
              let r := search_right_loop bits_S k p c offset old_right_bound
                         (mid + 1) right in
              left <= r <= right /\ column p offset r = c
              /\ forall m, r < m <= old_right_bound -> c < column p offset m).
    { intros Hlt.
      assert (mid < m).
      { destruct (Z_lt_ge_dec mid m) as [H|H]; [exact H|].
        pose proof (Hsorted m mid ltac:(lia) ltac:(lia)). lia. }
      assert (Hex : exists m, mid + 1 <= m <= right /\ column p offset m = c)
        by (exists m; split; [lia | exact Hcm]).
      destruct (IH (mid + 1) right ltac:(lia) Hr Habove Hex ltac:(lia))
        as (H1 & H2 & H3).
      split; [lia|]. split; assumption. }
    assert (Hlast : c < column p offset (mid + 1) \/ mid = old_right_bound ->
              forall m, mid < m <= old_right_bound -> c < column p offset m).
    { intros [Hgt|Hatend] m' Hm'; [|lia].
      pose proof (Hsorted (mid + 1) m' ltac:(lia) ltac:(lia)). lia. }
    destruct (Z.eqb_spec (column p offset mid) (-1)) as [E|E].
    { apply Hup. lia. }
    destruct (Hsym E) as [-> Hpos].
    destruct (Z.ltb_spec (column p offset mid) c) as [Hlt|Hge].
    { apply Hup. exact Hlt. }
    rewrite Z.gtb_ltb.
    destruct (Z.ltb_spec c (column p offset mid)) as [Hgt|Hle].
    { assert (m < mid).
      { destruct (Z_lt_ge_dec m mid) as [H|H]; [exact H|].
        pose proof (Hsorted mid m ltac:(lia) ltac:(lia)). lia. }
      assert (Hex : exists m, left <= m <= mid - 1 /\ column p offset m = c)
        by (exists m; split; [lia | exact Hcm]).
      assert (Habove' : forall m, mid - 1 < m <= old_right_bound ->
                                  c < column p offset m).
      { intros m' Hm'. pose proof (Hsorted mid m' ltac:(lia) ltac:(lia)). lia. }
      destruct (IH left (mid - 1) Hl ltac:(lia) Habove' Hex ltac:(lia))
        as (H1 & H2 & H3).
      split; [lia|]. split; assumption. }
    assert (Heq : column p offset mid = c) by lia.
    destruct (Z.eqb_spec mid old_right_bound) as [Eorb|Eorb].
    { split; [lia|]. split; [exact Heq|]. apply Hlast. right. exact Eorb. }
    destruct (probe sizeof_T bits_S p p_sound offset (mid + 1) ltac:(lia) Hoff)
      as (_ & Hend' & Hsym').
    rewrite Hend'.
    pose proof (Hsorted mid (mid + 1) ltac:(lia) ltac:(lia)) as Hstep.
    destruct (Z.eqb_spec (column p offset (mid + 1)) (-1)) as [E'|E'].
    { lia. }
    destruct (Hsym' E') as [-> Hpos'].
    destruct (Z.eqb_spec (column p offset (mid + 1)) (column p offset mid))
      as [Esame|Ediff].
    + assert (mid + 1 <= right).
      { destruct (Z_le_gt_dec (mid + 1) right) as [H|H]; [exact H|].
        specialize (Habove (mid + 1) ltac:(lia)). lia. }
      assert (Hex : exists m, mid + 1 <= m <= right /\ column p offset m = c)
        by (exists (mid + 1); split; lia).
      destruct (IH (mid + 1) right ltac:(lia) Hr Habove Hex ltac:(lia))
        as (H1 & H2 & H3).
      split; [lia|]. split; assumption.
    + split; [lia|]. split; [exact Heq|]. apply Hlast. left. lia.
Qed.

(** *** The range of the suffix array that a token loop holds *)

Lemma shares_prefix (u : list Z) (c m : Z) :
  0 <= m < sa_size p -> shares p (u ++ [c]) m ->
  shares p u m /\ column p (Z.of_nat (List.length u)) m = c.
Proof.
  intros Hm H. destruct (sa_entry sizeof_T bits_S p p_sound m Hm) as [_ Hsa].
  unfold shares in *. rewrite length_app in H. cbn [List.length] in H.
  assert (Hu : firstn (List.length u) (suffix_from p 0 m) = u).
  { apply (f_equal (firstn (List.length u))) in H.
    rewrite firstn_firstn, Nat.min_l in H by lia.
    rewrite firstn_app, firstn_all, Nat.sub_diag in H.
    cbn [firstn] in H. now rewrite app_nil_r in H. }
  split; [exact Hu|].
  unfold column.
  replace (suffix_from p (Z.of_nat (List.length u)) m)
    with (skipn (List.length u) (suffix_from p 0 m))
    by (unfold suffix_from; rewrite skipn_skipn; f_equal; lia).
  apply (f_equal (skipn (List.length u))) in H.
  rewrite skipn_app, skipn_all, Nat.sub_diag in H. cbn [skipn app] in H.
  rewrite skipn_firstn_comm in H.
  replace (List.length u + 1 - List.length u)%nat with 1%nat in H by lia.
  destruct (skipn (List.length u) (suffix_from p 0 m)) as [|a x];
    cbn [firstn] in H; [discriminate|].
  injection H as H. exact H.
Qed.

(** After the two searches of a round, the range is the whole set of
    the suffixes that go on with [c]; it is empty when [search_left]
    fails. *)
Lemma range_exact (u : list Z) (c left right : Z) :
  0 <= c -> 0 <= left -> right < sa_size p ->
  Z.of_nat (List.length u) <= dict_size p ->
  (forall m, left <= m <= right -> shares p u m) ->
  (forall m, 0 <= m < sa_size p -> shares p u m -> left <= m <= right) ->
  let offset := Z.of_nat (List.length u) in
  let left' := search_left bits_S p c offset left right in
  let right' := search_right bits_S p c offset left' right in
  (left' < 0 -> forall m, 0 <= m < sa_size p -> ~ shares p (u ++ [c]) m)
  /\ (0 <= left' ->
      forall m, 0 <= m < sa_size p -> shares p (u ++ [c]) m ->
                left' <= m <= right').
Proof.
  intros Hc Hl Hr Hoff Hrange Hexact offset left' right'.
  pose proof (sizes_fit _ _ _ p_sound) as Hfit.
  assert (Hsize : 0 <= size (dict p)) by (unfold size; lia).
  assert (Hsorted : forall i j, left <= i <= j -> j <= right ->
                      column p offset i <= column p offset j).
  { intros i j Hi Hj.
    apply (column_sorted sizeof_T bits_S p p_sound); try lia; apply Hrange; lia. }
  assert (Hin : forall m, 0 <= m < sa_size p -> shares p (u ++ [c]) m ->
                          left <= m <= right /\ column p offset m = c).
  { intros m Hm Hs. destruct (shares_prefix u c m Hm Hs) as [Hu Hcol].
    split; [apply Hexact; assumption | exact Hcol]. }
  assert (El : left' = search_left_loop bits_S (rounds_for left right) p c offset
                         left left right).
  { unfold left', search_left.
    rewrite s32_small by (unfold offset, dict_size in *; lia). reflexivity. }
  pose proof (search_left_loop_least c offset left right Hc Hl Hr ltac:(lia)
                Hsorted (rounds_for left right) left right ltac:(lia) ltac:(lia)
                ltac:(intros m Hm; lia) ltac:(unfold rounds_for; lia)) as Hleft.
  cbn zeta in Hleft. rewrite <- El in Hleft.
  destruct Hleft as [[Hneg Hnone] | (Hbetween & Hcol & Hleast)].
  - split; [|lia]. intros _ m Hm Hs. destruct (Hin m Hm Hs) as [Hmr Hmc].
    exact (Hnone m Hmr Hmc).
  - split; [lia|]. intros _ m Hm Hs. destruct (Hin m Hm Hs) as [Hmr Hmc].
    assert (Hlm : left' <= m).
    { destruct (Z_le_gt_dec left' m) as [H|H]; [exact H|].
      specialize (Hleast m ltac:(lia)). lia. }
    split; [exact Hlm|].
    assert (Hsorted' : forall i j, left' <= i <= j -> j <= right ->
                         column p offset i <= column p offset j)
      by (intros i j Hi Hj; apply Hsorted; lia).
    assert (Hex : exists m, left' <= m <= right /\ column p offset m = c)
      by (exists left'; split; [lia | exact Hcol]).
    pose proof (search_right_loop_last c offset right left' Hc ltac:(lia) Hr
                  ltac:(lia) Hsorted' (rounds_for left' right) left' right
                  ltac:(lia) ltac:(lia) ltac:(intros m' Hm'; lia) Hex
                  ltac:(unfold rounds_for; lia)) as Hright.
    cbn zeta in Hright.
    assert (Er : right'
                 = search_right_loop bits_S (rounds_for left' right) p c offset
                     right left' right).
    { unfold right', search_right.
      rewrite s32_small by (unfold offset, dict_size in *; lia). reflexivity. }
    rewrite <- Er in Hright. destruct Hright as (_ & _ & Hlast).
    destruct (Z_le_gt_dec m right') as [H|H]; [exact H|].
    specialize (Hlast m ltac:(lia)). lia.
Qed.

(** Symbols that stand in the dictionary stand at the start of one of
    its suffixes, and the suffix array names every suffix. *)
Lemma occurs_shares (u : list Z) :
  u <> [] -> occurs u (data_array (dict p)) ->
  exists m, 0 <= m < sa_size p /\ shares p u m.
Proof.
  intros Hne [i Hi].
  assert (Hlt : (i < List.length (data_array (dict p)))%nat).
  { destruct (Nat.lt_ge_cases i (List.length (data_array (dict p)))) as [H|H];
      [exact H|].
    rewrite skipn_all2, firstn_nil in Hi by lia. congruence. }
  pose proof (suffix_array _ _ _ p_sound) as H. unfold is_suffix_array in H.
  apply andb_true_iff in H. destruct H as [H _].
  apply andb_true_iff in H. destruct H as [_ H].
  rewrite forallb_forall in H.
  specialize (H i ltac:(apply in_seq; lia)).
  apply existsb_exists in H. destruct H as (x & Hx & Ex).
  apply Z.eqb_eq in Ex. subst x.
  destruct (In_nth _ _ 0 Hx) as (n & Hn & En).
  exists (Z.of_nat n).
  assert (Hm : 0 <= Z.of_nat n < sa_size p) by (unfold sa_size, size; lia).
  split; [exact Hm|].
  destruct (sa_entry sizeof_T bits_S p p_sound (Z.of_nat n) Hm) as [Esa _].
  unfold shares, suffix_from. rewrite Esa, Nat2Z.id, En, Z.add_0_r, Nat2Z.id.
  exact Hi.
Qed.

End Searches.

Lemma occurs_prefix (u v d : list Z) : occurs (u ++ v) d -> occurs u d.
Proof.
  intros [i H]. exists i. rewrite length_app in H.
  apply (f_equal (firstn (List.length u))) in H.
  rewrite firstn_firstn, Nat.min_l in H by lia.
  rewrite firstn_app, firstn_all, Nat.sub_diag in H.
  cbn [firstn] in H. now rewrite app_nil_r in H.
Qed.

Lemma longest_here (d u : list Z) (c : Z) (r : list Z) :
  ~ occurs (u ++ [c]) d -> longest d (List.length u) (u ++ c :: r).
Proof.
  intros Hno k Hk Hocc. apply Hno.
  replace (firstn k (u ++ c :: r))
    with ((u ++ [c]) ++ firstn (k - List.length u - 1) r) in Hocc.
  - exact (occurs_prefix _ _ _ Hocc).
  - rewrite firstn_app. rewrite (firstn_all2 (n:=k) u) by lia.
    rewrite <- app_assoc. f_equal.
    destruct (k - List.length u)%nat as [|j] eqn:E; [lia|].
    cbn [firstn app]. f_equal. f_equal. lia.
Qed.

Lemma longest_whole (d input : list Z) : longest d (List.length input) input.
Proof. intros k Hk. lia. Qed.

Section Loops.

Variable sizeof_T : nat.
Variable bits_S : Z.

(** The single-match loop stops at the first symbol that does not go on
    along the one suffix left, and no other suffix goes on with it. *)
Lemma single_match_greedy (rounds : nat) :
  forall (p : Parser) (c : Z) (u : list Z) (m : Z),
    sound sizeof_T bits_S p -> reading sizeof_T p -> has_unget p = false ->
    0 <= m < sa_size p -> shares p u m ->
    symbol_ok sizeof_T p c ->
    (forall m', 0 <= m' < sa_size p -> shares p (u ++ [c]) m' -> m' = m) ->
    (List.length (rest sizeof_T p) < rounds)%nat ->
    longest (data_array (dict p))
      (Z.to_nat (length (fst (single_match_loop sizeof_T rounds p m
                                (at_index (sa p) m) c
                                (Z.of_nat (List.length u))))))
      (u ++ c :: rest sizeof_T p).
Proof.
  induction rounds as [|k IH];
    intros p c u m Hsound Hread Hu Hm Hshare Hc Honly Hrounds; [lia|].
  pose proof (width_range _ _ _ Hsound) as Hw.
  pose proof Hread as (Hgood & Hrc & Hrange).
  cbn [single_match_loop].
  replace (read_counter p <=? source_file_size_symbols p) with true
    by (symmetry; apply Z.leb_le; lia).
  rewrite (read_at_suffix sizeof_T bits_S p u m Hsound Hm Hshare).
  pose proof Hc as [Hcr Hguard]. unfold beyond in Hguard.
  assert (Hstop : column p (Z.of_nat (List.length u)) m <> c ->
            longest (data_array (dict p))
              (Z.to_nat (length (mk_token (at_index (sa p) m)
                                   (Z.of_nat (List.length u)))))
              (u ++ c :: rest sizeof_T p)).
  { intros Hdiff. cbn [length]. rewrite Nat2Z.id. apply longest_here.
    intros Hocc.
    destruct (occurs_shares sizeof_T bits_S p Hsound (u ++ [c])
                ltac:(destruct u; discriminate) Hocc) as (m' & Hm' & Hs').
    pose proof (Honly m' Hm' Hs') as ->.
    destruct (shares_prefix sizeof_T bits_S p Hsound u c m Hm Hs') as [_ Hcol].
    contradiction. }
  destruct (Z.eqb_spec (column p (Z.of_nat (List.length u)) m) (-1)) as [Eend|Eend].
  { replace (c =? outside (dict p) (dict_size p)) with false
      by (symmetry; apply Z.eqb_neq; exact Hguard).
    cbn [negb fst]. apply Hstop. lia. }
  destruct (Z.eqb_spec c (column p (Z.of_nat (List.length u)) m)) as [Esame|Ediff];
    cbn [negb fst]; [|apply Hstop; congruence].
  assert (Hshare' : shares p (u ++ [c]) m)
    by (apply (shares_extend sizeof_T bits_S p Hsound); try assumption; lia).
  assert (Hlen' : Z.of_nat (List.length (u ++ [c])) = Z.of_nat (List.length u) + 1)
    by (rewrite length_app; cbn [List.length]; lia).
  destruct (rest sizeof_T p) as [|c' r] eqn:Hrest.
  - destruct (getnext_end sizeof_T (proj1 Hw) p Hread Hrest) as (Hfin & Hrun & Hrest').
    destruct (getnext sizeof_T p) as [c' p']. cbn [snd] in *.
    assert (E : single_match_loop sizeof_T k p' m (at_index (sa p) m) c'
                  (Z.of_nat (List.length u) + 1)
                = (mk_token (at_index (sa p') m) (Z.of_nat (List.length u) + 1), p')).
    { destruct Hfin as (_ & _ & Hover). destruct Hrun as (_ & _ & Hsize).
      destruct k as [|k]; cbn [single_match_loop]; [reflexivity|].
      replace (read_counter p' <=? source_file_size_symbols p') with false
        by (symmetry; apply Z.leb_gt; lia).
      reflexivity. }
    rewrite E. cbn [fst length]. rewrite <- Hlen', Nat2Z.id.
    change (u ++ c :: []) with (u ++ [c]). apply longest_whole.
  - destruct (getnext_symbol sizeof_T (proj1 Hw) p c' r Hread Hrest)
      as (Hc' & Hread' & Hrest' & Hrun & Hu').
    destruct (getnext sizeof_T p) as [c'' p']. cbn [fst snd] in *. subst c''.
    pose proof Hrun as (Hd & Hsa & Hsize).
    assert (Hc'r : symbol_ok sizeof_T p' c')
      by (apply (symbol_ok_same_run sizeof_T p p' c' Hrun);
          inversion Hrange; assumption).
    pose proof (sound_same_run sizeof_T bits_S p p' Hsound Hrun) as Hsound'.
    assert (Hm' : 0 <= m < sa_size p') by (unfold sa_size in *; rewrite Hsa; exact Hm).
    assert (Hshare'' : shares p' (u ++ [c]) m).
    { unfold shares, suffix_from in *. rewrite Hd, Hsa. exact Hshare'. }
    assert (Honly' : forall m', 0 <= m' < sa_size p' ->
                       shares p' ((u ++ [c]) ++ [c']) m' -> m' = m).
    { intros m' Hm'' Hs. apply Honly.
      - unfold sa_size in *. rewrite Hsa in Hm''. exact Hm''.
      - destruct (shares_prefix sizeof_T bits_S p' Hsound' (u ++ [c]) c' m' Hm'' Hs)
          as [Hs' _].
        unfold shares, suffix_from in *. rewrite Hd, Hsa in Hs'. exact Hs'. }
    pose proof (IH p' c' (u ++ [c]) m Hsound' Hread' Hu' Hm' Hshare'' Hc'r
                  Honly') as Hrec.
    rewrite Hrest', Hlen', Hsa, Hd in Hrec. cbn [List.length] in Hrounds.
    specialize (Hrec ltac:(lia)).
    rewrite <- app_assoc in Hrec. exact Hrec.
Qed.

(** The outer loop of [next_token], with the range of the suffix array
    holding all the suffixes that start with the symbols read. *)
Lemma token_loop_greedy (rounds : nat) :
  forall (p : Parser) (c : Z) (u : list Z) (left right best_pos best_len : Z)
         (found : bool) (res : RLZToken * Parser),
    sound sizeof_T bits_S p -> reading sizeof_T p -> has_unget p = false ->
    symbol_ok sizeof_T p c ->
    0 <= left -> right < sa_size p ->
    (forall m, left <= m <= right -> shares p u m) ->
    (forall m, 0 <= m < sa_size p -> shares p u m -> left <= m <= right) ->
    (if found
     then left <= right /\ best_pos = left
          /\ best_len = Z.of_nat (List.length u) /\ u <> []
     else u = []) ->
    (List.length (rest sizeof_T p) < rounds)%nat ->
    token_loop sizeof_T bits_S rounds p c (Z.of_nat (List.length u))
      left right best_pos best_len found = Ret res ->
    longest (data_array (dict p)) (Z.to_nat (length (fst res)))
      (u ++ c :: rest sizeof_T p).
Proof.
  induction rounds as [|k IH];
    intros p c u left right best_pos best_len found res
           Hsound Hread Hu Hc Hl Hr Hrange Hexact Hfound Hrounds; [lia|].
  pose proof (width_range _ _ _ Hsound) as Hw.
  pose proof Hread as (Hgood & Hrc & Hsyms).
  pose proof Hc as [Hcr _].
  cbn [token_loop].
  replace (read_counter p <=? source_file_size_symbols p) with true
    by (symmetry; apply Z.leb_le; lia).
  rewrite (end_of_input_reading sizeof_T p Hread).
  assert (Hoff : Z.of_nat (List.length u) <= dict_size p).
  { destruct found.
    - destruct Hfound as (Hlr & _).
      pose proof (shares_bound sizeof_T bits_S p Hsound u left ltac:(lia)
                    (Hrange left ltac:(lia))) as Hb.
      destruct (sa_entry sizeof_T bits_S p Hsound left ltac:(lia)) as [_ Hsa].
      lia.
    - subst u. unfold dict_size, size. cbn [List.length]. lia. }
  pose proof (range_narrows sizeof_T bits_S p Hsound u c left right
                ltac:(lia) Hl Hr Hoff Hrange) as Hnarrow.
  pose proof (range_exact sizeof_T bits_S p Hsound u c left right
                ltac:(lia) Hl Hr Hoff Hrange Hexact) as Hwhole.
  cbn zeta in Hnarrow, Hwhole.
  set (left' := search_left bits_S p c (Z.of_nat (List.length u)) left right) in *.
  set (right' := search_right bits_S p c (Z.of_nat (List.length u)) left' right) in *.
  destruct Hwhole as [Hnone Hall].
  destruct (Z.ltb_spec left' 0) as [Hneg|Hpos].
  - (* nothing goes on with [c] *)
    assert (Hno : ~ occurs (u ++ [c]) (data_array (dict p))).
    { intros Hocc.
      destruct (occurs_shares sizeof_T bits_S p Hsound (u ++ [c])
                  ltac:(destruct u; discriminate) Hocc) as (m & Hm & Hs).
      exact (Hnone Hneg m Hm Hs). }
    destruct found.
    + destruct Hfound as (Hlr & -> & -> & Hne).
      intros E. injection E as <-. cbn [fst length]. rewrite Nat2Z.id.
      apply longest_here. exact Hno.
    + subst u. intros E. injection E as <-. cbn [fst length].
      change (Z.to_nat 0) with (List.length (@nil Z)).
      apply longest_here. exact Hno.
  - (* the range narrows *)
    destruct (Hnarrow Hpos) as (Hll & Hlr & Hrr & Hrange').
    specialize (Hall Hpos).
    replace (right' <? 0) with false by (symmetry; apply Z.ltb_ge; lia).
    assert (Hlen' : Z.of_nat (List.length (u ++ [c]))
                    = Z.of_nat (List.length u) + 1)
      by (rewrite length_app; cbn [List.length]; lia).
    destruct (Z.eqb_spec left' right') as [Esingle|Emany].
    + (* one suffix left *)
      intros E. injection E as <-.
      apply single_match_greedy; try assumption; try lia.
      * apply Hrange. lia.
      * intros m Hm Hs. specialize (Hall m Hm Hs). lia.
      * unfold rounds_left. lia.
    + destruct (rest sizeof_T p) as [|c' r] eqn:Hrest.
      * destruct (getnext_end sizeof_T (proj1 Hw) p Hread Hrest)
          as (Hfin & Hrun & Hrest').
        destruct (getnext sizeof_T p) as [c' p']. cbn [snd] in *.
        rewrite (end_of_input_finished p' Hfin).
        intros E. injection E as <-. cbn [fst length].
        rewrite <- Hlen', Nat2Z.id. change (u ++ c :: []) with (u ++ [c]).
        apply longest_whole.
      * destruct (getnext_symbol sizeof_T (proj1 Hw) p c' r Hread Hrest)
          as (Hc' & Hread' & Hrest' & Hrun & Hu').
        destruct (getnext sizeof_T p) as [c'' p']. cbn [fst snd] in *. subst c''.
        rewrite (end_of_input_reading sizeof_T p' Hread').
        pose proof Hrun as (Hd & Hsa & Hsize).
        assert (Hc'r : symbol_ok sizeof_T p' c')
          by (apply (symbol_ok_same_run sizeof_T p p' c' Hrun);
              inversion Hsyms; assumption).
        pose proof (sound_same_run sizeof_T bits_S p p' Hsound Hrun) as Hsound'.
        assert (Hrange'' : forall m, left' <= m <= right' -> shares p' (u ++ [c]) m).
        { intros m Hm. unfold shares, suffix_from. rewrite Hd, Hsa.
          apply Hrange'. exact Hm. }
        assert (Hexact'' : forall m, 0 <= m < sa_size p' ->
                             shares p' (u ++ [c]) m -> left' <= m <= right').
        { intros m Hm Hs. apply Hall.
          - unfold sa_size in *. rewrite Hsa in Hm. exact Hm.
          - unfold shares, suffix_from in *. rewrite Hd, Hsa in Hs. exact Hs. }
        pose proof Hread' as (_ & Hrc' & _). rewrite Hrest' in Hrc'.
        cbn [List.length] in Hrc, Hrounds.
        intros E. rewrite <- Hlen' in E.
        pose proof (IH p' c' (u ++ [c]) left' right' left'
                      (Z.of_nat (List.length (u ++ [c]))) true res
                      Hsound' Hread' Hu' Hc'r ltac:(lia)
                      ltac:(unfold sa_size in *; rewrite Hsa; lia) Hrange''
                      Hexact''
                      ltac:(repeat split; try assumption; try lia;
                            destruct u; discriminate)
                      ltac:(rewrite Hrest'; lia) E) as Hres.
        rewrite Hrest', Hd, <- app_assoc in Hres. exact Hres.
Qed.

(** [next_token] before the end of the input. *)
Lemma next_token_greedy (p : Parser) (res : RLZToken * Parser) :
  sound sizeof_T bits_S p -> between sizeof_T p -> rest sizeof_T p <> [] ->
  next_token sizeof_T bits_S p = Ret res ->
  longest (data_array (dict p)) (Z.to_nat (length (fst res))) (rest sizeof_T p).
Proof.
  intros Hsound Hb Hrest. pose proof (width_range _ _ _ Hsound) as Hw.
  destruct Hb as [Hread | [_ Hnil]]; [|contradiction].
  destruct (rest sizeof_T p) as [|c r] eqn:E; [contradiction|].
  unfold next_token.
  destruct (getnext_symbol sizeof_T (proj1 Hw) p c r Hread E)
    as (Hc & Hread' & Hrest' & Hrun & Hu').
  destruct (getnext sizeof_T p) as [c' p']. cbn [fst snd] in *. subst c'.
  pose proof Hrun as (Hd & Hsa & Hsize).
  pose proof Hread as (_ & Hrc & Hsyms). pose proof Hread' as (_ & Hrc' & _).
  rewrite E in Hrc, Hsyms. rewrite Hrest' in Hrc'. cbn [List.length] in Hrc.
  pose proof (sound_same_run sizeof_T bits_S p p' Hsound Hrun) as Hsound'.
  intros Eres.
  pose proof (token_loop_greedy (rounds_left p') p' c [] 0 (sa_size p' - 1) 0 0
                false res Hsound' Hread' Hu'
                ltac:(apply (symbol_ok_same_run sizeof_T p p' c Hrun);
                      inversion Hsyms; assumption)
                ltac:(lia) ltac:(lia)
                ltac:(intros m Hm; reflexivity)
                ltac:(intros m Hm _; lia) eq_refl
                ltac:(rewrite Hrest'; unfold rounds_left; lia) Eres) as H.
  cbn [app] in H. rewrite Hrest', Hd in H. exact H.
Qed.

(** [work]: every token written is a longest match. *)
Lemma work_loop_greedy (fmt : format) (rounds : nat) :
  forall (p : Parser) (out : list Z) (toks toks' : list RLZToken)
         (out' : list Z) (p' : Parser),
    sound sizeof_T bits_S p -> between sizeof_T p ->
    (List.length (rest sizeof_T p) < rounds)%nat ->
    work_loop sizeof_T bits_S rounds p fmt out toks
    = Ret (out', toks ++ toks', p') ->
    greedy sizeof_T (dict p) toks' (rest sizeof_T p).
Proof.
  induction rounds as [|k IH];
    intros p out toks toks' out' p' Hsound Hb Hrounds; [lia|].
  cbn [work_loop].
  destruct (rest sizeof_T p) as [|c r] eqn:Hrest.
  - destruct (next_token_end sizeof_T bits_S p Hsound Hb Hrest) as (p1 & E).
    rewrite E. cbn [bind].
    change (output_token end_sentinel fmt) with (0, @nil Z).
    cbn [Z.gtb Z.compare]. intros H. injection H as _ H _.
    rewrite <- (app_nil_r toks) in H at 1. apply app_inv_head in H. subst toks'.
    exact I.
  - destruct (next_token_token sizeof_T bits_S p Hsound Hb) as ([t p1] & E & Hres);
      [rewrite Hrest; discriminate|].
    pose proof (next_token_greedy p (t, p1) Hsound Hb
                  ltac:(rewrite Hrest; discriminate) E) as Hlong.
    rewrite E. cbn [bind].
    destruct Hres as (Hv & Hne & Hp & Hb' & Hrun). cbn [fst snd] in *.
    destruct (valid_not_sentinel sizeof_T (dict p) t fmt Hv) as [Hs Hkeep].
    destruct (output_token t fmt) as [keep bytes] eqn:Eout. cbn [fst] in Hkeep.
    replace (keep >? 0) with true by (symmetry; apply Z.gtb_lt; lia).
    pose proof Hrun as (Hd & _).
    pose proof (sound_same_run sizeof_T bits_S p p1 Hsound Hrun) as Hsound'.
    assert (Hshort : (List.length (rest sizeof_T p1) < k)%nat).
    { rewrite Hrest in Hp. apply (f_equal (@List.length Z)) in Hp.
      rewrite length_app in Hp. cbn [List.length] in Hp, Hrounds.
      destruct (payload sizeof_T (dict p) t); [congruence|].
      cbn [List.length] in Hp. lia. }
    intros H.
    destruct (work_loop_spec sizeof_T bits_S fmt k p1 (out ++ bytes) (toks ++ [t])
                Hsound' Hb' Hshort) as (toks1 & p2 & E' & _).
    rewrite E' in H. injection H as _ H _.
    rewrite <- app_assoc in H. apply app_inv_head in H. cbn [app] in H.
    subst toks'. cbn [greedy]. rewrite Hrest in Hlong. split; [exact Hlong|].
    rewrite <- Hrest, <- Hp. rewrite skipn_app, skipn_all, Nat.sub_diag.
    cbn [skipn app]. rewrite <- Hd.
    apply (IH p1 (out ++ bytes) (toks ++ [t]) toks1
              ((out ++ bytes) ++ encode fmt toks1) p2 Hsound' Hb' Hshort).
    rewrite E'. reflexivity.
Qed.

End Loops.

(** X23.  [rlzparse] is greedy.  On a dictionary of fewer than 2^31
    symbols of 1 to 8 bytes each (the searches take the length matched
    so far as an [int]), with its symbols within that width and a
    suffix array of it in entries of 32 to 64 bits ([sound]), both files
    of whole symbols, and an input of any size, of bytes, none of whose
    symbols equals the value stored right after the dictionary:
    the tokens it writes are valid and stand for the input, and every
    token takes the longest start of what is left of the input that
    stands somewhere in the dictionary; a literal is written only for a
    symbol that the dictionary does not have. *)
Theorem parse_takes_longest_matches (sizeof_T : nat) (bits_S : Z) (fmt : format)
    (input_file dict_file sa_file : list Z) (dict_mem sa_mem : Z -> Z) :
  let p := make_parser sizeof_T bits_S input_file dict_file sa_file
             dict_mem sa_mem in
  sound sizeof_T bits_S p ->
  Files.whole sizeof_T dict_file ->
  Files.whole (Z.to_nat (bits_S / 8)) sa_file ->
  Forall (fun b => 0 <= b < 256) input_file ->
  Forall (fun a => a <> beyond p) (symbols sizeof_T input_file) ->
  exists toks p',
    work sizeof_T bits_S p fmt = Ret (encode fmt toks, toks, p')
    /\ forallb (valid sizeof_T (dict p)) toks = true
    /\ expand sizeof_T (dict p) toks = symbols sizeof_T input_file
    /\ greedy sizeof_T (dict p) toks (symbols sizeof_T input_file).
Proof.
  intros p Hsound _ _ Hbytes Hfar. pose proof (width_range _ _ _ Hsound) as Hw.
  assert (Hrest : rest sizeof_T p = symbols sizeof_T input_file) by reflexivity.
  assert (Hb : between sizeof_T p).
  { left. unfold reading. rewrite Hrest. split; [reflexivity|]. split.
    - cbn [read_counter p make_parser source_file_size_symbols].
      rewrite symbols_length by lia. lia.
    - apply Forall_forall. intros a Ha. split.
      + exact (proj1 (Forall_forall _ _)
                 (symbols_range sizeof_T input_file (proj1 Hw) Hbytes) a Ha).
      + exact (proj1 (Forall_forall _ _) Hfar a Ha). }
  assert (Hrounds : (List.length (rest sizeof_T p)
                     < Z.to_nat (source_file_size_symbols p + 2))%nat).
  { rewrite Hrest. cbn [p make_parser source_file_size_symbols].
    pose proof (symbols_length sizeof_T input_file ltac:(lia)). lia. }
  destruct (work_loop_spec sizeof_T bits_S fmt
              (Z.to_nat (source_file_size_symbols p + 2)) p [] [] Hsound Hb
              Hrounds) as (toks & p' & E & Hv & He).
  exists toks, p'. unfold work. rewrite E. cbn [app].
  split; [reflexivity|]. split; [exact Hv|].
  split; [rewrite He; exact Hrest|].
  rewrite <- Hrest.
  exact (work_loop_greedy sizeof_T bits_S fmt _ p [] [] toks _ p' Hsound Hb
           Hrounds E).
Qed.

Lemma parse_takes_longest_matches_witness :
  let p := make_parser 1 32 (Inputs.text "cadabra") Inputs.abracadabra
             Inputs.abracadabra_sa (fun _ => 0) (fun _ => 0) in
  exists toks p',
    work 1 32 p FMT_ASCII = Ret (encode FMT_ASCII toks, toks, p')
    /\ forallb (valid 1 (dict p)) toks = true
    /\ expand 1 (dict p) toks = symbols 1 (Inputs.text "cadabra")
    /\ greedy 1 (dict p) toks (symbols 1 (Inputs.text "cadabra")).
Proof.
  exact (parse_takes_longest_matches 1 32 FMT_ASCII _ _ _ _ _
           RoundTrip.abracadabra_sound eq_refl eq_refl RoundTrip.cadabra_bytes
           RoundTrip.cadabra_clear).
Defined.

(** X24.  For a parser whose dictionary has fewer than 2^31 symbols of 1
    to 8 bytes each, within that width, and whose suffix array, in
    entries of 32 to 64 bits, is a suffix array of the dictionary
    ([sound]), for a symbol [c >= 0] and a range
    [left .. right] of the suffix array, [0 <= left <= right < sa_size],
    whose suffixes all start with the same symbols [u]: [search_left]
    with [offset = |u|] returns the first index of the range whose
    suffix goes on with the symbol [c], and a negative value only when
    no suffix of the range goes on with it. *)
Theorem search_left_first (sizeof_T : nat) (bits_S : Z) (p : Parser)
    (u : list Z) (c left right : Z) :
  sound sizeof_T bits_S p ->
  0 <= c -> 0 <= left <= right -> right < sa_size p ->
  (forall m, left <= m <= right -> shares p u m) ->
  let offset := Z.of_nat (List.length u) in
  let r := search_left bits_S p c offset left right in
  (r < 0 /\ forall m, left <= m <= right -> column p offset m <> c)
  \/ (left <= r <= right /\ column p offset r = c
      /\ forall m, left <= m < r -> column p offset m < c).
Proof.
  intros Hsound Hc Hl Hr Hrange offset r.
  pose proof (sizes_fit _ _ _ Hsound) as Hfit.
  assert (Hsize : 0 <= size (dict p)) by (unfold size; lia).
  pose proof (shares_bound sizeof_T bits_S p Hsound u left ltac:(lia)
                (Hrange left ltac:(lia))) as Hb.
  destruct (sa_entry sizeof_T bits_S p Hsound left ltac:(lia)) as [_ Hsa].
  assert (Hsorted : forall i j, left <= i <= j -> j <= right ->
                      column p offset i <= column p offset j).
  { intros i j Hi Hj.
    apply (column_sorted sizeof_T bits_S p Hsound); try lia; apply Hrange; lia. }
  assert (E : r = search_left_loop bits_S (rounds_for left right) p c offset
                    left left right).
  { unfold r, search_left.
    rewrite s32_small by (unfold offset, dict_size in *; lia). reflexivity. }
  rewrite E.
  exact (search_left_loop_least sizeof_T bits_S p Hsound c offset left right Hc
           ltac:(lia) Hr ltac:(unfold offset; lia) Hsorted (rounds_for left right)
           left right ltac:(lia) ltac:(lia) ltac:(intros m Hm; lia)
           ltac:(unfold rounds_for; lia)).
Qed.

Lemma search_left_first_witness :
  let p := make_parser 1 32 (Inputs.text "cadabra") Inputs.abracadabra
             Inputs.abracadabra_sa (fun _ => 0) (fun _ => 0) in
  let r := search_left 32 p 98 0 0 10 in
  (r < 0 /\ forall m, 0 <= m <= 10 -> column p 0 m <> 98)
  \/ (0 <= r <= 10 /\ column p 0 r = 98
      /\ forall m, 0 <= m < r -> column p 0 m < 98).
Proof.
  exact (search_left_first 1 32 _ [] 98 0 10 RoundTrip.abracadabra_sound
           ltac:(lia) ltac:(lia) ltac:(vm_compute; reflexivity)
           ltac:(intros m Hm; reflexivity)).
Defined.

(** X25.  For a parser whose dictionary has fewer than 2^31 symbols of 1
    to 8 bytes each, within that width, and whose suffix array, in
    entries of 32 to 64 bits, is a suffix array of the dictionary
    ([sound]), for a symbol [c >= 0] and a range
    [left .. right] of the suffix array, [0 <= left],
    [right < sa_size], whose suffixes all start with the same symbols
    [u] and one of which goes on with [c]: [search_right] with
    [offset = |u|] returns the last index of the range whose suffix
    goes on with [c]. *)
Theorem search_right_last (sizeof_T : nat) (bits_S : Z) (p : Parser)
    (u : list Z) (c left right : Z) :
  sound sizeof_T bits_S p ->
  0 <= c -> 0 <= left -> right < sa_size p ->
  (forall m, left <= m <= right -> shares p u m) ->
  let offset := Z.of_nat (List.length u) in
  (exists m, left <= m <= right /\ column p offset m = c) ->
  let r := search_right bits_S p c offset left right in
  left <= r <= right /\ column p offset r = c
  /\ forall m, r < m <= right -> c < column p offset m.
Proof.
  intros Hsound Hc Hl Hr Hrange offset Hex r.
  pose proof (sizes_fit _ _ _ Hsound) as Hfit.
  assert (Hsize : 0 <= size (dict p)) by (unfold size; lia).
  assert (Hlr : left <= right) by (destruct Hex as (m & Hm & _); lia).
  pose proof (shares_bound sizeof_T bits_S p Hsound u left ltac:(lia)
                (Hrange left ltac:(lia))) as Hb.
  destruct (sa_entry sizeof_T bits_S p Hsound left ltac:(lia)) as [_ Hsa].
  assert (Hsorted : forall i j, left <= i <= j -> j <= right ->
                      column p offset i <= column p offset j).
  { intros i j Hi Hj.
    apply (column_sorted sizeof_T bits_S p Hsound); try lia; apply Hrange; lia. }
  assert (E : r = search_right_loop bits_S (rounds_for left right) p c offset
                    right left right).
  { unfold r, search_right.
    rewrite s32_small by (unfold offset, dict_size in *; lia). reflexivity. }
  rewrite E.
  exact (search_right_loop_last sizeof_T bits_S p Hsound c offset right left Hc
           Hl Hr ltac:(unfold offset; lia) Hsorted (rounds_for left right)
           left right ltac:(lia) ltac:(lia) ltac:(intros m Hm; lia) Hex
           ltac:(unfold rounds_for; lia)).
Qed.

Lemma search_right_last_witness :
  let p := make_parser 1 32 (Inputs.text "cadabra") Inputs.abracadabra
             Inputs.abracadabra_sa (fun _ => 0) (fun _ => 0) in
  let r := search_right 32 p 98 0 0 10 in
  0 <= r <= 10 /\ column p 0 r = 98
  /\ forall m, r < m <= 10 -> 98 < column p 0 m.
Proof.
  exact (search_right_last 1 32 _ [] 98 0 10 RoundTrip.abracadabra_sound
           ltac:(lia) ltac:(lia) ltac:(vm_compute; reflexivity)
           ltac:(intros m Hm; reflexivity)
           ltac:(exists 5; split; [lia | reflexivity])).
Defined.

End GreedyFacts.

(** ** The end sentinel inside a file *)

Module SentinelFacts.

Import Unparse Tokens IntFacts Windows WindowFacts Formats Sentinels.

Lemma next_token_sentinel_64x2 (record rest : list Z) :
  sentinel_record FMT_64X2 = Some record ->
  exists r',
    Common.next_token (mk_input (open (record ++ rest)) FMT_64X2)
    = Ret (end_sentinel, [], r').
Proof.
  intros H. injection H as <-. eexists. cbn. reflexivity.
Qed.

Lemma next_token_sentinel_ascii (ws record rest : list Z) :
  sentinel_record FMT_ASCII = Some record ->
  Forall (fun b => isspace b = true) ws ->
  exists r',
    Common.next_token
      (mk_input (mk_ifstream (ws ++ record ++ rest) false false) FMT_ASCII)
    = Ret (end_sentinel, [], r').
Proof.
  intros H Hws. injection H as <-.
  unfold Common.next_token, next_token_ascii, extract_word.
  cbn [infile mode eof fail good eofbit failbit pending negb andb orb].
  rewrite (CodecFacts.skip_space_spaces ws _ Hws).
  eexists. cbn. reflexivity.
Qed.

Lemma stream_of_sentinel_ascii (toks : list RLZToken) (record rest : list Z) :
  Forall (fits 64) toks -> sentinel_record FMT_ASCII = Some record ->
  forall ws, Forall (fun b => isspace b = true) ws ->
    stream_of (mk_input (mk_ifstream (ws ++ encode FMT_ASCII toks ++ record ++ rest)
                                     false false) FMT_ASCII) toks.
Proof.
  intros Hf Hrec. induction Hf as [|t toks Ht _ IH]; intros ws Hws.
  - apply stream_end. right. cbn [encode flat_map app].
    destruct (next_token_sentinel_ascii ws record rest Hrec Hws) as (r' & E).
    eexists. eexists. exact E.
  - rewrite CodecFacts.encode_cons, <- app_assoc.
    eapply stream_token.
    + reflexivity.
    + apply CodecFacts.token_back_ascii; assumption.
    + eapply CodecFacts.fits_not_sentinel; exact Ht.
    + apply IH. repeat constructor.
Qed.

(** A file with the sentinel in it is read as the tokens before the
    sentinel. *)
Lemma stream_of_sentinel (fmt : format) (toks : list RLZToken)
    (record rest : list Z) :
  Forall (fits (reach fmt)) toks -> sentinel_record fmt = Some record ->
  stream_of (mk_input (open (encode fmt toks ++ record ++ rest)) fmt) toks.
Proof.
  intros Hf Hrec. destruct fmt; try discriminate.
  - induction Hf as [|t toks Ht _ IH].
    + apply stream_end. right. cbn [encode flat_map app].
      destruct (next_token_sentinel_64x2 record rest Hrec) as (r' & E).
      eexists. eexists. exact E.
    + rewrite CodecFacts.encode_cons, <- app_assoc.
      eapply stream_token;
        [reflexivity | | eapply CodecFacts.fits_not_sentinel; exact Ht | exact IH].
      now apply CodecFacts.token_back_64x2.
  - exact (stream_of_sentinel_ascii toks record rest Hf Hrec [] ltac:(constructor)).
Qed.

(** X26.  The end sentinel [(ULLONG_MAX, -1)] inside a 64x2 or an ascii
    file ends the unparsing: the tokens before it are written and
    counted, and what follows it in the file is not read as tokens. *)
Theorem unparse_stops_at_sentinel (sizeof_T : nat) (fmt : format)
    (w : OutputWriter) (toks : list RLZToken) (record rest : list Z) :
  (sizeof_T <= 8)%nat -> size (dict w) < 2 ^ 63 ->
  Forall (fits (reach fmt)) toks ->
  forallb (valid sizeof_T (dict w)) toks = true ->
  Z.of_nat (List.length (expand sizeof_T (dict w) toks)) < 2 ^ 63 ->
  sentinel_record fmt = Some record ->
  exists x st,
    unparse sizeof_T w
      (mk_input (open (encode fmt toks ++ record ++ rest)) fmt) 0 0
    = Ret (x, st)
    /\ outfile (writer st)
       = outfile w ++ bytes_of sizeof_T (expand sizeof_T (dict w) toks)
    /\ toks_read st = Z.of_nat (List.length toks).
Proof.
  intros Hw Hd Hf Hv Hs Hrec. unfold unparse.
  pose proof (stream_of_sentinel fmt toks record rest Hf Hrec) as Hstream.
  destruct (DecoderFacts.unparse_loop_counts sizeof_T Hw (dict w) Hd _ toks Hstream
              (mk_progress w
                 (mk_input (open (encode fmt toks ++ record ++ rest)) fmt) 0 0 0)
              (S (List.length
                    (pending (infile (mk_input
                                        (open (encode fmt toks ++ record ++ rest))
                                        fmt)))))
              Hv eq_refl eq_refl)
    as (st & E & Hout & Ht & Hsy); cbn [syms_written]; try lia.
  { pose proof (stream_length _ toks Hstream). lia. }
  rewrite E. cbn [bind]. eexists. eexists. split; [reflexivity|].
  cbn [toks_read writer] in Ht, Hout. split; [exact Hout | rewrite Ht; lia].
Qed.

Lemma unparse_stops_at_sentinel_witness :
  exists x st,
    unparse 1 (make_writer 1 Inputs.abracadabra (fun _ => 0))
      (mk_input (open (encode FMT_64X2 [mk_token 0 5; mk_token 3 2]
                         ++ repeat 255 16
                         ++ encode FMT_64X2 [mk_token 0 4]))
                FMT_64X2) 0 0 = Ret (x, st)
    /\ outfile (writer st) = Inputs.text "abracac"
    /\ toks_read st = 2.
Proof.
  exact (unparse_stops_at_sentinel 1 FMT_64X2
           (make_writer 1 Inputs.abracadabra (fun _ => 0))
           [mk_token 0 5; mk_token 3 2] (repeat 255 16)
           (encode FMT_64X2 [mk_token 0 4])
           ltac:(lia) ltac:(vm_compute; reflexivity)
           ltac:(repeat constructor; cbn; lia) eq_refl
           ltac:(vm_compute; reflexivity) eq_refl).
Defined.

End SentinelFacts.

(** ** The size of the parser's output *)

Module SizeFacts.

Import Parse ParserSpec Tokens IntFacts ParserFacts.

(** The most bytes that a format takes for a token. *)
Lemma token_bytes (t : RLZToken) (fmt : format) :
  (List.length (snd (output_token t fmt))
   <= match fmt with
      | FMT_32X2 => 8 | FMT_64X2 => 16 | FMT_ASCII => 43 | FMT_VBYTE => 20
      end)%nat.
Proof.
  destruct fmt; try apply StatisticsFacts.output_token_length;
    unfold output_token; destruct (is_end_sentinel t);
    cbn [snd List.length]; try lia;
    rewrite ?length_app, ?le_bytes_length; try lia.
  assert (H : forall n, (List.length (vbyte_field n) <= 10)%nat).
  { intros n. unfold vbyte_field. rewrite length_app.
    destruct (Z.eqb_spec n 0) as [->|_]; cbn [List.length].
    - rewrite VbyteFacts.vbyte_put_zero. cbn [List.length]. lia.
    - apply CountFacts.vbyte_put_length. }
  pose proof (H (start_pos t)). pose proof (H (length t)). lia.
Qed.

Lemma encode_bytes (fmt : format) (toks : list RLZToken) (c : nat) :
  (forall t, (List.length (snd (output_token t fmt)) <= c)%nat) ->
  (List.length (encode fmt toks) <= c * List.length toks)%nat.
Proof.
  intros Hc. induction toks as [|t toks IH]; cbn [encode flat_map List.length];
    [lia|].
  fold (encode fmt toks). rewrite length_app. specialize (Hc t). lia.
Qed.

(** Every valid token stands for a symbol at least. *)
Lemma tokens_symbols (sizeof_T : nat) (d : FileReader) (toks : list RLZToken) :
  forallb (valid sizeof_T d) toks = true ->
  (List.length toks <= List.length (expand sizeof_T d toks))%nat.
Proof.
  induction toks as [|t toks IH]; cbn [forallb expand flat_map List.length];
    [lia|].
  intros H. apply andb_true_iff in H. destruct H as [Hv H].
  fold (expand sizeof_T d toks). rewrite length_app. specialize (IH H).
  assert (1 <= List.length (payload sizeof_T d t))%nat; [|lia].
  unfold valid in Hv. unfold payload.
  destruct (Z.eqb_spec (length t) 0); [cbn [List.length]; lia|].
  apply andb_true_iff in Hv. destruct Hv as [Hv H3].
  apply andb_true_iff in Hv. destruct Hv as [H1 H2].
  apply Z.ltb_lt in H1. apply Z.leb_le in H2, H3. unfold size in H3.
  rewrite length_firstn, length_skipn. lia.
Qed.

(** X27.  [rlzparse] never writes more tokens than the input has
    symbols.  On a dictionary of fewer than 2^31
    symbols of 1 to 8 bytes each (the searches take the length matched
    so far as an [int]), with its symbols within that width and a
    suffix array of it in entries of 32 to 64 bits ([sound]), both files
    of whole symbols, and an input of any size, of bytes, none of whose
    symbols equals the value stored right after the dictionary:
    the tokens are at most as many as the whole symbols of the input,
    so that the output takes at most 8 bytes for a symbol of the input
    in 32x2, 16 in 64x2, 43 in ascii and 20 in vbyte; an input without
    a whole symbol gives an empty file. *)
Theorem parse_output_bound (sizeof_T : nat) (bits_S : Z) (fmt : format)
    (input_file dict_file sa_file : list Z) (dict_mem sa_mem : Z -> Z) :
  let p := make_parser sizeof_T bits_S input_file dict_file sa_file
             dict_mem sa_mem in
  let n := List.length (symbols sizeof_T input_file) in
  sound sizeof_T bits_S p ->
  Files.whole sizeof_T dict_file ->
  Files.whole (Z.to_nat (bits_S / 8)) sa_file ->
  Forall (fun b => 0 <= b < 256) input_file ->
  Forall (fun a => a <> beyond p) (symbols sizeof_T input_file) ->
  exists out toks p',
    work sizeof_T bits_S p fmt = Ret (out, toks, p')
    /\ (List.length toks <= n)%nat
    /\ (List.length out
        <= match fmt with
           | FMT_32X2 => 8 | FMT_64X2 => 16 | FMT_ASCII => 43 | FMT_VBYTE => 20
           end * n)%nat.
Proof.
  intros p n Hsound _ _ Hbytes Hfar.
  destruct (work_spec sizeof_T bits_S fmt input_file dict_file sa_file dict_mem
              sa_mem Hsound Hbytes Hfar) as (toks & p' & E & Hv & He).
  fold p in E, Hv, He.
  pose proof (tokens_symbols sizeof_T (dict p) toks Hv) as Hn.
  rewrite He in Hn. fold n in Hn.
  exists (encode fmt toks), toks, p'. split; [exact E|]. split; [exact Hn|].
  pose proof (encode_bytes fmt toks _ (fun t => token_bytes t fmt)) as Hb.
  destruct fmt; nia.
Qed.

Lemma parse_output_bound_witness :
  let p := make_parser 1 32 (Inputs.text "cadabra") Inputs.abracadabra
             Inputs.abracadabra_sa (fun _ => 0) (fun _ => 0) in
  exists out toks p',
    work 1 32 p FMT_VBYTE = Ret (out, toks, p')
    /\ (List.length toks <= 7)%nat
    /\ (List.length out <= 20 * 7)%nat.
Proof.
  exact (parse_output_bound 1 32 FMT_VBYTE _ _ _ _ _
           RoundTrip.abracadabra_sound eq_refl eq_refl RoundTrip.cadabra_bytes
           RoundTrip.cadabra_clear).
Defined.

End SizeFacts.

(** ** The round trip, byte for byte *)

Module ExactFacts.

Import Parse ParserSpec Unparse Tokens Pipeline IntFacts InputFacts Files.

Lemma le_bytes_le_value (l : list Z) :
  Forall byte l -> le_bytes (List.length l) (le_value l) = l.
Proof.
  induction 1 as [|b l Hb _ IH]; cbn [le_bytes le_value List.length];
    [reflexivity|].
  unfold byte in Hb. f_equal.
  - rewrite (Z.mul_comm 256), Z_mod_plus_full. apply Z.mod_small. lia.
  - replace ((b + 256 * le_value l) / 256) with (le_value l); [exact IH|].
    rewrite (Z.mul_comm 256), Z.div_add by lia.
    rewrite Z.div_small by lia. lia.
Qed.

Section Bytes.

Variable sizeof_T : nat.
Hypothesis width : (1 <= sizeof_T)%nat.

Lemma put_symbol_length (a : Z) : List.length (put_symbol sizeof_T a) = sizeof_T.
Proof. unfold put_symbol. apply le_bytes_length. Qed.

Lemma bytes_of_length (syms : list Z) :
  List.length (bytes_of sizeof_T syms) = (List.length syms * sizeof_T)%nat.
Proof.
  induction syms as [|a syms IH]; cbn [bytes_of flat_map List.length];
    [reflexivity|].
  fold (bytes_of sizeof_T syms). rewrite length_app, IH, put_symbol_length. lia.
Qed.

Lemma bytes_of_firstn (k : nat) (syms : list Z) :
  bytes_of sizeof_T (firstn k syms)
  = firstn (k * sizeof_T) (bytes_of sizeof_T syms).
Proof.
  revert k. induction syms as [|a syms IH]; intros k.
  - now rewrite !firstn_nil.
  - destruct k as [|k]; [reflexivity|].
    cbn [firstn bytes_of flat_map Nat.mul].
    fold (bytes_of sizeof_T syms). fold (bytes_of sizeof_T (firstn k syms)).
    rewrite IH, firstn_app, put_symbol_length.
    rewrite (firstn_all2 (n := sizeof_T + k * sizeof_T) (put_symbol sizeof_T a))
      by (rewrite put_symbol_length; lia).
    f_equal. f_equal. lia.
Qed.

Lemma bytes_of_skipn (k : nat) (syms : list Z) :
  bytes_of sizeof_T (skipn k syms)
  = skipn (k * sizeof_T) (bytes_of sizeof_T syms).
Proof.
  revert k. induction syms as [|a syms IH]; intros k.
  - now rewrite !skipn_nil.
  - destruct k as [|k]; [reflexivity|].
    cbn [skipn bytes_of flat_map Nat.mul].
    fold (bytes_of sizeof_T syms). fold (bytes_of sizeof_T (skipn k syms)).
    rewrite IH, skipn_app, put_symbol_length.
    rewrite (skipn_all2 (n := sizeof_T + k * sizeof_T) (put_symbol sizeof_T a))
      by (rewrite put_symbol_length; lia).
    cbn [app]. f_equal. lia.
Qed.

(** The symbols of a file, written out again, are the file up to its
    last whole symbol. *)
Lemma bytes_of_symbols (file : list Z) :
  Forall byte file ->
  bytes_of sizeof_T (symbols sizeof_T file)
  = firstn (sizeof_T * (List.length file / sizeof_T)) file.
Proof.
  remember (List.length file) as n eqn:En.
  revert file En. induction n as [n IH] using lt_wf_ind. intros file En Hfile.
  destruct (Nat.le_gt_cases sizeof_T (List.length file)) as [H|H].
  - rewrite (symbols_whole sizeof_T width file H).
    cbn [bytes_of flat_map]. fold (bytes_of sizeof_T (symbols sizeof_T (skipn sizeof_T file))).
    destruct (ParserFacts.forall_firstn_skipn _ sizeof_T file Hfile) as [Hhead Htail].
    rewrite (IH (List.length (skipn sizeof_T file))
               ltac:(rewrite length_skipn; lia) (skipn sizeof_T file) eq_refl Htail).
    assert (Hlen : List.length (firstn sizeof_T file) = sizeof_T)
      by (rewrite length_firstn; lia).
    assert (Hput : put_symbol sizeof_T (le_value (firstn sizeof_T file))
                   = firstn sizeof_T file).
    { unfold put_symbol, wrap_u.
      pose proof (ParserFacts.le_value_range (firstn sizeof_T file) Hhead) as Hv.
      rewrite Hlen in Hv.
      replace (2 ^ (8 * Z.of_nat sizeof_T)) with (256 ^ Z.of_nat sizeof_T)
        by (change 256 with (2 ^ 8); rewrite <- Z.pow_mul_r by lia; reflexivity).
      rewrite Z.mod_small by exact Hv.
      rewrite <- Hlen at 1. apply le_bytes_le_value. exact Hhead. }
    rewrite Hput, length_skipn. subst n.
    assert (Hdiv : (List.length file / sizeof_T
                    = S ((List.length file - sizeof_T) / sizeof_T))%nat).
    { replace (List.length file)
        with ((List.length file - sizeof_T) + 1 * sizeof_T)%nat at 1 by lia.
      rewrite Nat.div_add by lia. lia. }
    rewrite Hdiv, Nat.mul_succ_r.
    set (m := (sizeof_T * ((List.length file - sizeof_T) / sizeof_T))%nat).
    replace (firstn (m + sizeof_T) file)
      with (firstn (m + sizeof_T) (firstn sizeof_T file ++ skipn sizeof_T file))
      by (now rewrite firstn_skipn).
    rewrite firstn_app, Hlen.
    rewrite (firstn_all2 (n := m + sizeof_T) (firstn sizeof_T file)) by lia.
    f_equal. f_equal. lia.
  - rewrite (symbols_short sizeof_T width file H).
    rewrite Nat.div_small by lia. rewrite Nat.mul_0_r. reflexivity.
Qed.

End Bytes.

Lemma whole_file (w : nat) (file : list Z) :
  (1 <= w)%nat -> (List.length file mod w = 0)%nat ->
  firstn (w * (List.length file / w)) file = file.
Proof.
  intros Hw Hmod. apply firstn_all2.
  pose proof (Nat.div_mod_eq (List.length file) w). lia.
Qed.

(** X21.  The round trip, byte for byte.  On a dictionary of fewer than 2^31
    symbols of 1 to 8 bytes each (the searches take the length matched
    so far as an [int]), with its symbols within that width and a
    suffix array of it in entries of 32 to 64 bits ([sound]), both files
    of whole symbols, and an input of any size, of bytes, none of whose
    symbols equals the value stored right after the dictionary:
    [rlzparse] followed by [rlzunparse] without a window gives back the
    input file up to its last whole symbol: the file itself when its
    size is a multiple of the size of a symbol.  In every format; with
    32x2, for symbols of at most 4 bytes. *)
Theorem round_trip_exact (sizeof_T : nat) (bits_S : Z) (fmt : format)
    (input_file dict_file sa_file : list Z) (dict_mem sa_mem : Z -> Z) :
  let p := make_parser sizeof_T bits_S input_file dict_file sa_file
             dict_mem sa_mem in
  sound sizeof_T bits_S p ->
  Files.whole sizeof_T dict_file ->
  Files.whole (Z.to_nat (bits_S / 8)) sa_file ->
  Forall (fun b => 0 <= b < 256) input_file ->
  Forall (fun a => a <> beyond p) (symbols sizeof_T input_file) ->
  (fmt = FMT_32X2 -> (sizeof_T <= 4)%nat) ->
  parse_unparse sizeof_T bits_S fmt input_file dict_file sa_file
                dict_mem sa_mem 0 0
  = Ret (firstn (sizeof_T * (List.length input_file / sizeof_T)) input_file)
  /\ (Files.whole sizeof_T input_file ->
      parse_unparse sizeof_T bits_S fmt input_file dict_file sa_file
                    dict_mem sa_mem 0 0
      = Ret input_file).
Proof.
  intros p Hsound _ _ Hbytes Hclear Hfit.
  pose proof (width_range _ _ _ Hsound) as Hw.
  pose proof (RoundTrip.round_trip_guarded sizeof_T bits_S fmt input_file
                dict_file sa_file dict_mem sa_mem Hsound Hbytes Hclear Hfit) as E.
  rewrite (bytes_of_symbols sizeof_T (proj1 Hw) input_file Hbytes) in E.
  split; [exact E|]. intros Hmod.
  rewrite (whole_file sizeof_T input_file (proj1 Hw) Hmod) in E. exact E.
Qed.

Lemma round_trip_exact_witness :
  parse_unparse 1 32 FMT_VBYTE (Inputs.text "cadabra") Inputs.abracadabra
                Inputs.abracadabra_sa (fun _ => 0) (fun _ => 0) 0 0
  = Ret (firstn (1 * (List.length (Inputs.text "cadabra") / 1))
           (Inputs.text "cadabra"))
  /\ (Files.whole 1 (Inputs.text "cadabra") ->
      parse_unparse 1 32 FMT_VBYTE (Inputs.text "cadabra") Inputs.abracadabra
                    Inputs.abracadabra_sa (fun _ => 0) (fun _ => 0) 0 0
      = Ret (Inputs.text "cadabra")).
Proof.
  exact (round_trip_exact 1 32 FMT_VBYTE _ _ _ _ _ RoundTrip.abracadabra_sound eq_refl eq_refl
           RoundTrip.cadabra_bytes RoundTrip.cadabra_clear
           ltac:(intros _; lia)).
Defined.

(** X22.  The round trip with a window, byte for byte.  On a dictionary of fewer than 2^31
    symbols of 1 to 8 bytes each (the searches take the length matched
    so far as an [int]), with its symbols within that width and a
    suffix array of it in entries of 32 to 64 bits ([sound]), both files
    of whole symbols, and an input of any size, of bytes, none of whose
    symbols equals the value stored right after the dictionary,
    the input being of whole symbols: [rlzparse] followed by
    [rlzunparse] with a window [(a, b)], [1 <= a <= b], gives the bytes
    of the symbols [a .. b] of the input file, counted from 1: fewer
    when the file ends before the [b]-th symbol.  In every format; with
    32x2, for symbols of at most 4 bytes. *)
Theorem window_exact (sizeof_T : nat) (bits_S : Z) (fmt : format)
    (input_file dict_file sa_file : list Z) (dict_mem sa_mem : Z -> Z)
    (a b : Z) :
  let p := make_parser sizeof_T bits_S input_file dict_file sa_file
             dict_mem sa_mem in
  sound sizeof_T bits_S p ->
  Files.whole sizeof_T dict_file ->
  Files.whole (Z.to_nat (bits_S / 8)) sa_file ->
  Forall (fun b => 0 <= b < 256) input_file ->
  Forall (fun a => a <> beyond p) (symbols sizeof_T input_file) ->
  (fmt = FMT_32X2 -> (sizeof_T <= 4)%nat) ->
  Files.whole sizeof_T input_file ->
  1 <= a <= b ->
  parse_unparse sizeof_T bits_S fmt input_file dict_file sa_file
                dict_mem sa_mem a b
  = Ret (window sizeof_T input_file a b).
Proof.
  intros p Hsound _ _ Hbytes Hclear Hfit Hmod Hab.
  pose proof (width_range _ _ _ Hsound) as Hw.
  rewrite (RoundTrip.window_guarded sizeof_T bits_S fmt input_file
             dict_file sa_file dict_mem sa_mem Hsound Hbytes Hclear Hfit a b Hab).
  f_equal. unfold slice, window.
  rewrite (bytes_of_skipn sizeof_T (proj1 Hw)), (bytes_of_firstn sizeof_T (proj1 Hw)).
  rewrite (bytes_of_symbols sizeof_T (proj1 Hw) input_file Hbytes).
  rewrite (whole_file sizeof_T input_file (proj1 Hw) Hmod).
  rewrite skipn_firstn_comm. f_equal. nia.
Qed.

Lemma window_exact_witness :
  parse_unparse 1 32 FMT_32X2 (Inputs.text "cadabra") Inputs.abracadabra
                Inputs.abracadabra_sa (fun _ => 0) (fun _ => 0) 3 5
  = Ret (window 1 (Inputs.text "cadabra") 3 5).
Proof.
  exact (window_exact 1 32 FMT_32X2 _ _ _ _ _ 3 5 RoundTrip.abracadabra_sound eq_refl eq_refl
           RoundTrip.cadabra_bytes RoundTrip.cadabra_clear
           ltac:(intros _; lia) eq_refl ltac:(lia)).
Defined.

End ExactFacts.

Module OverflowFacts.

Import Unparse Vbyte Tokens Reached.



Section Loop.

Variable sizeof_T : nat.
Variables start_pos stop_pos : Z.



End Loop.




End OverflowFacts.

(** ** The searches as [next_token] calls them *)

Module SearchResults.

Import Parse Search SearchFacts.

Section Searches.

Variable bits_S : Z.
Variable p : Parser.
Variables c offset old_right_bound : Z.

Local Abbreviation occurs := (occurs_at bits_S p c offset).






End Searches.



End SearchResults.
